(** * knex-migrator: migration state machine and integrity check

    A shallow embedding of [lib/index.js] in its two revisions:

    - the locking revision ([lib/index.js]): one ambient transaction per run,
      guarded by [lock] / [unlock] on the [migrations_lock] table
      (module [Locking]);
    - the renewing revision (the second copy of the same file): the run is a
      queue of operations executed by [transactional], which commits and
      reopens the transaction after every operation whose response carries
      [implicitCommits] (module [Renewing]).

    [integrityCheck] and [isDatabaseOK] are the same text in both revisions and
    are embedded once.

    Promises are run to completion in program order: a promise chain is a
    computation in the monad [M] below (state = database and event trace,
    result = fulfilled, rejected or never settled). *)

From Stdlib Require Import String Ascii List Bool Arith NArith Lia.
Import ListNotations.
Local Open Scope string_scope.
Local Open Scope list_scope.
Local Open Scope nat_scope.

Set Implicit Arguments.

(* ===================================================================== *)
(** * JavaScript values used by the code *)
(* ===================================================================== *)

Definition isDigit (c : ascii) : bool :=
  let n := nat_of_ascii c in (48 <=? n) && (n <=? 57).

Definition digitValue (c : ascii) : N := N.of_nat (nat_of_ascii c - 48).

(** The character class [[\d._]] of the folder pattern. *)
Definition isVersionChar (c : ascii) : bool :=
  isDigit c || Ascii.eqb c "."%char || Ascii.eqb c "_"%char.

Fixpoint takeRun (s : string) : string :=
  match s with
  | EmptyString => EmptyString
  | String c r => if isVersionChar c then String c (takeRun r) else EmptyString
  end.

(** [folder.match(/([\d._]+)/)[0]]: the first maximal run of characters of
    the class; [None] is the [null] match, on which [[0]] throws. *)
Fixpoint matchVersion (s : string) : option string :=
  match s with
  | EmptyString => None
  | String c r => if isVersionChar c then Some (String c (takeRun r)) else matchVersion r
  end.

(** ** Objects used as maps

    [operations], [result] and [toReturn] are plain objects keyed by version.
    An object keeps its own string keys in creation order, except that keys
    which are canonical array indices are enumerated first, in ascending
    numeric order ([_.each], [_.omit], [Promise.props] all enumerate own keys
    this way). *)

Definition JsObject (V : Type) := list (string * V).

Fixpoint jsGet {V} (k : string) (o : JsObject V) : option V :=
  match o with
  | [] => None
  | (k', v) :: r => if String.eqb k k' then Some v else jsGet k r
  end.

(** [o[k] = v]: an existing key keeps its place. *)
Fixpoint jsSet {V} (k : string) (v : V) (o : JsObject V) : JsObject V :=
  match o with
  | [] => [(k, v)]
  | (k', v') :: r => if String.eqb k k' then (k, v) :: r else (k', v') :: jsSet k v r
  end.

(** [delete o[k]]. *)
Fixpoint jsDelete {V} (k : string) (o : JsObject V) : JsObject V :=
  match o with
  | [] => []
  | (k', v') :: r => if String.eqb k k' then jsDelete k r else (k', v') :: jsDelete k r
  end.

Fixpoint allDigits (s : string) : bool :=
  match s with
  | EmptyString => true
  | String c r => isDigit c && allDigits r
  end.

Fixpoint decimal (s : string) (acc : N) : N :=
  match s with
  | EmptyString => acc
  | String c r => decimal r (10 * acc + digitValue c)
  end.

(** A canonical array index: ["0"], or digits without a leading zero, with a
    value below 2^32 - 1. *)
Definition arrayIndex (k : string) : option N :=
  match k with
  | EmptyString => None
  | String c r =>
      if allDigits k && (negb (Ascii.eqb c "0"%char) || String.eqb r EmptyString)
      then (if (decimal k 0 <? 4294967295)%N then Some (decimal k 0) else None)
      else None
  end.

Definition isArrayIndex (k : string) : bool :=
  match arrayIndex k with Some _ => true | None => false end.

Fixpoint insertIndexed {V} (n : N) (e : string * V) (l : list (N * (string * V)))
  : list (N * (string * V)) :=
  match l with
  | [] => [(n, e)]
  | (m, e') :: r => if (n <? m)%N then (n, e) :: l else (m, e') :: insertIndexed n e r
  end.

Fixpoint indexedEntries {V} (o : JsObject V) : list (N * (string * V)) :=
  match o with
  | [] => []
  | (k, v) :: r =>
      match arrayIndex k with
      | Some n => insertIndexed n (k, v) (indexedEntries r)
      | None => indexedEntries r
      end
  end.

Definition namedEntries {V} (o : JsObject V) : list (string * V) :=
  filter (fun e => negb (isArrayIndex (fst e))) o.

(** Own enumerable entries in enumeration order. *)
Definition jsEntries {V} (o : JsObject V) : list (string * V) :=
  map snd (indexedEntries o) ++ namedEntries o.

(* ===================================================================== *)
(** * Version comparator ([utils.isGreaterThanVersion]) *)
(* ===================================================================== *)

Definition isSeparator (c : ascii) : bool :=
  Ascii.eqb c "."%char || Ascii.eqb c "_"%char.

(** Numeric components of a dotted version, left to right. *)
Fixpoint components (s : string) (cur : N) : list N :=
  match s with
  | EmptyString => [cur]
  | String c r =>
      if isSeparator c then cur :: components r 0
      else components r (if isDigit c then 10 * cur + digitValue c else cur)%N
  end.

(** [gtComponents a b]: [a] is strictly greater than [b], comparing
    components left to right, a missing trailing component counting as 0. *)
Fixpoint gtComponents (a b : list N) : bool :=
  match a, b with
  | [], _ => false
  | x :: a', [] => if (0 <? x)%N then true else gtComponents a' []
  | x :: a', y :: b' =>
      if (y <? x)%N then true
      else if (x <? y)%N then false
      else gtComponents a' b'
  end.

(** Modelled from the spec: [utils.isGreaterThanVersion] is not among the
    sources.  Section 4.2: "given two version strings (each a
    dot/underscore-separated sequence of numeric components) determine whether
    the first is strictly greater than the second by comparing components
    left-to-right numerically, treating missing trailing components as zero".
    The first is the [greaterVersion] argument.  A [smallerVersion] that is not
    a string ([undefined], or the number 0 the integrity check stores when there
    is no init row: "empty/absent") has no components. *)
Definition isGreaterThanVersion (smallerVersion : option string) (greaterVersion : string) : bool :=
  gtComponents (components greaterVersion 0)
               (match smallerVersion with
                | Some s => components s 0
                | None => []
                end).

(* ===================================================================== *)
(** * The database as seen through the connection *)
(* ===================================================================== *)

(** A row of [migrations]; [id] is the position in the table. *)
Record Row := mkRow {
  name : string;
  version : string;
  currentVersion : string
}.

Record LockRow := mkLockRow {
  lock_key : string;
  acquired_at : option nat;
  released_at : option nat
}.

(** Tables reachable from the connection.  [migrations] is either the errno
    every query of that table fails with (1 / 1146: no such table, 1046: no
    database selected, 1049: unknown database) or its rows in insertion order.
    [tables] and [rows] are the application's own schema and data, written by
    tasks and hooks. *)
Record Store := mkStore {
  migrations : nat + list Row;
  migrations_lock : option (list LockRow);
  tables : list string;
  rows : list (string * string)
}.

(** The engine: what is durable, and the working copy of the open
    transaction, if any.  [ddlCommits] tells whether a DDL statement implicitly
    commits (MySQL) or stays inside the transaction (SQLite).  [busy] is the
    errno with which the engine rejects the creation of the lock table, if it
    does: 5 on SQLite while another connection holds the database file.  It
    is the one rejected statement on an existing database the source has a
    handler for (in [ensureLockTable]); the other statements are taken to
    succeed. *)
Record Db := engine {
  ddlCommits : bool;
  durable : Store;
  txn : option Store;
  busy : option nat
}.

(** An engine that is not busy. *)
Definition mkDb (ddlCommits : bool) (durable : Store) (txn : option Store) : Db :=
  engine ddlCommits durable txn None.

Definition view (d : Db) : Store :=
  match txn d with Some s => s | None => durable d end.

(** The errno with which the engine rejects a query of a table that is not
    there: 1146 (MySQL) or 1 (SQLite), the two values [createMigrationsTable]
    and [onMigrationsLookupError] test for. *)
Definition noSuchTable (d : Db) : nat := if ddlCommits d then 1146 else 1.

(** A data statement: inside the transaction when one is open, otherwise
    committed at once. *)
Definition write (f : Store -> Store) (d : Db) : Db :=
  match txn d with
  | Some s => engine (ddlCommits d) (durable d) (Some (f s)) (busy d)
  | None => engine (ddlCommits d) (f (durable d)) None (busy d)
  end.

(** A schema statement: on an engine with implicit commits it makes the whole
    working copy durable and ends the transaction. *)
Definition ddl (f : Store -> Store) (d : Db) : Db :=
  if ddlCommits d then engine true (f (view d)) None (busy d) else write f d.

Definition begin (d : Db) : Db :=
  engine (ddlCommits d) (durable d) (Some (durable d)) (busy d).
Definition commit (d : Db) : Db := engine (ddlCommits d) (view d) None (busy d).
Definition rollback (d : Db) : Db := engine (ddlCommits d) (durable d) None (busy d).

Definition ledger (s : Store) : list Row :=
  match migrations s with inr l => l | inl _ => [] end.

(* ===================================================================== *)
(** * Errors, events and the promise monad *)
(* ===================================================================== *)

Inductive Error :=
| MigrationsAreLocked
| MigrationExistsError (task : option string)      (* [err.task], set by [errorHandling] *)
| MigrationScript (help : string)
| DatabaseIsNotOkError (code : string)
| KnexMigrateError (code : string)                 (* thrown by [utils] *)
| TypeError
| DbError (errno : nat)                            (* rejected query *)
| UserError (code : string) (quoted : list string). (* raised by a task or a hook *)

Inductive Event :=
| EvLock                          (* [lock] resolved *)
| EvUnlock                        (* [unlock] called *)
| EvWarn (message : string)       (* [logging.warn] *)
| EvExecute (task ver : string)   (* [task.execute] called *)
| EvHook (which : string).        (* a hook called *)

Record World := mkWorld {
  db : Db;
  events : list Event
}.

(** Outcome of a promise: fulfilled, rejected, or never settled. *)
Inductive Res (A : Type) :=
| Ok (a : A)
| Err (e : Error)
| Pending.
Arguments Ok {A} a.
Arguments Err {A} e.
Arguments Pending {A}.

Definition M (A : Type) := World -> Res A * World.

Definition ret {A} (a : A) : M A := fun w => (Ok a, w).
Definition throw {A} (e : Error) : M A := fun w => (Err e, w).
Definition never {A} : M A := fun w => (Pending, w).

Definition bind {A B} (m : M A) (k : A -> M B) : M B :=
  fun w => match m w with
           | (Ok a, w') => k a w'
           | (Err e, w') => (Err e, w')
           | (Pending, w') => (Pending, w')
           end.

(** [m.catch(h)] and [try { m } catch (err) { h }]. *)
Definition catch {A} (m : M A) (h : Error -> M A) : M A :=
  fun w => match m w with
           | (Err e, w') => h e w'
           | r => r
           end.

(** [m.finally(f)]: [f] runs when [m] settles; a rejection of [f] replaces the
    outcome. *)
Definition finally {A} (m : M A) (f : M unit) : M A :=
  fun w => match m w with
           | (Pending, w') => (Pending, w')
           | (r, w') => match f w' with
                        | (Ok _, w'') => (r, w'')
                        | (Err e, w'') => (Err e, w'')
                        | (Pending, w'') => (Pending, w'')
                        end
           end.

Declare Scope promise_scope.
Delimit Scope promise_scope with promise.
Notation "x <- m ;; k" := (bind m (fun x => k))
  (at level 61, m at next level, right associativity) : promise_scope.
Notation "m ;; k" := (bind m (fun _ => k))
  (at level 61, right associativity) : promise_scope.
Local Open Scope promise_scope.

Definition getDb : M Db := fun w => (Ok (db w), w).
Definition modifyDb (f : Db -> Db) : M unit :=
  fun w => (Ok tt, mkWorld (f (db w)) (events w)).
Definition emit (e : Event) : M unit :=
  fun w => (Ok tt, mkWorld (db w) (events w ++ [e])).

(** [Promise.each(l, f)]: elements in order, stopping at the first rejection. *)
Fixpoint each {A} (f : A -> M unit) (l : list A) : M unit :=
  match l with
  | [] => ret tt
  | x :: r => f x ;; each f r
  end.

(** [err.code], for the error classes that carry one. *)
Definition errCode (e : Error) : option string :=
  match e with
  | DatabaseIsNotOkError c | KnexMigrateError c | UserError c _ => Some c
  | _ => None
  end.

(** [err.code === code]. *)
Definition hasCode (code : string) (e : Error) : bool :=
  match errCode e with
  | Some c => String.eqb c code
  | None => false
  end.

(** The back-quoted words of [err.message], for [err.message.match(/`\w+`/g)]. *)
Definition quotedWords (e : Error) : list string :=
  match e with
  | UserError _ q => q
  | _ => []
  end.

(* ===================================================================== *)
(** * Tasks, hooks and the migration directory *)
(* ===================================================================== *)

(** What a task or a hook does with the transaction handle it is given. *)
Inductive Stmt :=
| Insert (table value : string)       (* data statement *)
| CreateTable (table : string).       (* DDL *)

(** The promise user code returns: fulfilled with a response which may carry
    [implicitCommits], rejected with an error of its own ([code], and the
    back-quoted words of its message), or rejected with an instance of the
    migrator's class [errors.MigrationsAreLocked], the one class the handlers
    of [init] and [migrate] test a rejection for. *)
Inductive Settles :=
| Resolves (implicitCommits : bool)
| Rejects (code : string) (quoted : list string)
| RejectsLocked.

Record UserCode := mkCode {
  statements : list Stmt;
  settles : Settles
}.

Record Task := mkTask {
  task_name : string;
  execute : UserCode
}.

Record Hooks := mkHooks {
  before : option UserCode;
  after : option UserCode;
  beforeEach : option UserCode;
  afterEach : option UserCode;
  shutdown : option UserCode
}.

Definition noHooks : Hooks := mkHooks None None None None None.

(** The migration directory: [initDir] is [migrationPath/init], [versionsDir]
    is [migrationPath/subfolder] with one entry per version folder; [None] is a
    directory that does not exist. *)
Record Fs := mkFs {
  initDir : option (list Task);
  versionsDir : option (list (string * list Task))
}.

(** The migrator object: configuration and what it loads from disk. *)
Record KnexMigrator := mkKnexMigrator {
  configVersion : string;             (* [this.currentVersion] *)
  migrationPath : Fs;
  initHooks : Hooks;                  (* [hooks/init], [noHooks] when absent *)
  migrateHooks : Hooks                (* [hooks/migrate] *)
}.

Definition INIT : string := "init".

(** The two kinds of path the code builds: [path.join(migrationPath, 'init')]
    and [path.join(migrationPath, subfolder, v)]. *)
Inductive Path :=
| InitFolder
| VersionFolder (v : string).

Fixpoint lookupFolder (v : string) (l : list (string * list Task)) : option (list Task) :=
  match l with
  | [] => None
  | (f, ts) :: r => if String.eqb v f then Some ts else lookupFolder v r
  end.

Definition tasksAt (fs : Fs) (p : Path) : option (list Task) :=
  match p with
  | InitFolder => initDir fs
  | VersionFolder v =>
      match versionsDir fs with
      | Some l => lookupFolder v l
      | None => None
      end
  end.

(** Modelled from the spec: [utils.readTasks] is not among the sources.
    Section 4.1: "produce an ordered sequence of MigrationTask descriptors for
    one version ... Fails with MigrationPathMissing when the directory does not
    exist"; the callers test [err.code === 'MIGRATION_PATH']. *)
Definition readTasks (km : KnexMigrator) (p : Path) : M (list Task) :=
  match tasksAt (migrationPath km) p with
  | Some ts => ret ts
  | None => throw (KnexMigrateError "MIGRATION_PATH")
  end.

(** Modelled from the spec: [utils.readFolders] is not among the sources.
    Section 4.1: "lists immediate subdirectories of the versions root ... fails
    distinctly when the versions root itself does not exist"; the callers test
    [err.code === 'READ_FOLDERS']. *)
Definition readFolders (km : KnexMigrator) : M (list string) :=
  match versionsDir (migrationPath km) with
  | Some l => ret (map fst l)
  | None => throw (KnexMigrateError "READ_FOLDERS")
  end.

Definition runStmt (s : Stmt) : M unit :=
  match s with
  | Insert t v =>
      modifyDb (write (fun st => mkStore (migrations st) (migrations_lock st) (tables st)
                                         (rows st ++ [(t, v)])))
  | CreateTable t =>
      modifyDb (ddl (fun st => mkStore (migrations st) (migrations_lock st)
                                       (tables st ++ [t]) (rows st)))
  end.

(** Calling user code: its statements, then its settlement. *)
Definition runCode (c : UserCode) : M bool :=
  each runStmt (statements c) ;;
  match settles c with
  | Resolves ic => ret ic
  | Rejects code q => throw (UserError code q)
  | RejectsLocked => throw MigrationsAreLocked
  end.

Definition runHook (which : string) (h : option UserCode) : M unit :=
  match h with
  | None => ret tt
  | Some c => emit (EvHook which) ;; _ <- runCode c ;; ret tt
  end.

(* ===================================================================== *)
(** * The ledger *)
(* ===================================================================== *)

(** [knex('migrations')]: all rows, or the rejection of the query. *)
Definition selectMigrations : M (list Row) :=
  fun w => match migrations (view (db w)) with
           | inr l => (Ok l, w)
           | inl errno => (Err (DbError errno), w)
           end.

(** [knex('migrations').insert(row)]. *)
Definition insertMigration (r : Row) : M unit :=
  _ <- selectMigrations ;;
  modifyDb (write (fun st => mkStore (inr (ledger st ++ [r])) (migrations_lock st)
                                     (tables st) (rows st))).

Definition sameTask (task ver : string) (r : Row) : bool :=
  String.eqb (name r) task && String.eqb (version r) ver.

(** [_.find(migrations, {name: task, version: version})], as a truth value. *)
Definition recorded (task ver : string) (l : list Row) : bool :=
  existsb (sameTask task ver) l.

(** [beforeEachTask]: the pre-check. *)
Definition beforeEachTask (task ver : string) : M unit :=
  migrations <- selectMigrations ;;
  if recorded task ver migrations then throw (MigrationExistsError None) else ret tt.

(** The init completion, identical in both revisions but for the handle:
    for every task file of every version folder, a row is inserted unless a
    row with that [name] exists. *)
Definition completeFile (km : KnexMigrator) (versionToMigrateTo : string) (fileToMigrateTo : Task)
  : M unit :=
  migrations <- selectMigrations ;;
  let migrationExists :=
    filter (fun r => String.eqb (name r) (task_name fileToMigrateTo)) migrations in
  match migrationExists with
  | _ :: _ => ret tt
  | [] => insertMigration (mkRow (task_name fileToMigrateTo) versionToMigrateTo (configVersion km))
  end.

Definition completeVersion (km : KnexMigrator) (versionToMigrateTo : string) : M unit :=
  filesToMigrateTo <- readTasks km (VersionFolder versionToMigrateTo) ;;
  each (completeFile km versionToMigrateTo) filesToMigrateTo.

(** [createMigrationsTable]: the table is created when the query fails with
    "no such table". *)
Definition createMigrationsTable : M unit :=
  catch (_ <- selectMigrations ;; ret tt)
        (fun err =>
           match err with
           | DbError errno =>
               if (errno =? 1) || (errno =? 1146)
               then modifyDb (ddl (fun st => mkStore (inr []) (migrations_lock st)
                                                     (tables st) (rows st)))
               else throw err
           | _ => throw err
           end).

(* ===================================================================== *)
(** * Integrity check *)
(* ===================================================================== *)

Record Counts := mkCounts {
  expected : nat;
  actual : nat
}.

(** [onMigrationsLookupError]. *)
Definition onMigrationsLookupError (errno : nat) : Error :=
  if errno =? 1046 then DatabaseIsNotOkError "DB_NOT_INITIALISED"
  else if errno =? 1049 then DatabaseIsNotOkError "DB_NOT_INITIALISED"
  else if (errno =? 1) || (errno =? 1146) then DatabaseIsNotOkError "MIGRATION_TABLE_IS_MISSING"
  else DbError errno.

(** [connection('migrations').where({version: folder})]: the rows, or the
    errno of the rejection.  The [.catch(onMigrationsLookupError)] attached to
    it takes effect when the promise settles, in [props] below. *)
Definition whereVersion (folder : string) (st : Store) : nat + list Row :=
  match migrations st with
  | inr l => inr (filter (fun r => String.eqb (version r) folder) l)
  | inl errno => inl errno
  end.

Definition truthy (s : string) : bool := negb (String.eqb s EmptyString).

(** The loop over [folders]: fills [futureVersions] and [operations]. *)
Fixpoint scanFolders (km : KnexMigrator) (force : bool) (st : Store) (folders : list string)
  (futureVersions : list string) (operations : JsObject (nat + list Row))
  : M (list string * JsObject (nat + list Row)) :=
  match folders with
  | [] => ret (futureVersions, operations)
  | folder :: r =>
      match (if String.eqb folder INIT then Some folder else matchVersion folder) with
      | None =>
          emit (EvWarn "Cannot parse folder name.") ;;
          emit (EvWarn ("Ignore Folder: " ++ folder)) ;;
          scanFolders km force st r futureVersions operations
      | Some key =>
          let futureVersions' :=
            if truthy (configVersion km) && negb force
               && isGreaterThanVersion (Some (configVersion km)) key
            then futureVersions ++ [key] else futureVersions in
          scanFolders km force st r futureVersions' (jsSet key (whereVersion key st) operations)
      end
  end.

(** [Promise.props(operations)]. *)
Fixpoint props (entries : list (string * (nat + list Row))) : M (list (string * list Row)) :=
  match entries with
  | [] => ret []
  | (k, inl errno) :: _ => throw (onMigrationsLookupError errno)
  | (k, inr value) :: r => rest <- props r ;; ret ((k, value) :: rest)
  end.

(** The loop over [result]: fills [toReturn]; [currentVersionInitTask] is the
    variable the init entry assigns. *)
Fixpoint countVersions (km : KnexMigrator) (entries : list (string * list Row))
  (currentVersionInitTask : option string) (toReturn : JsObject Counts) : M (JsObject Counts) :=
  match entries with
  | [] => ret toReturn
  | (ver, value) :: r =>
      let actual := length value in
      let currentVersionInitTask' :=
        if String.eqb ver INIT
        then match value with [] => None | row :: _ => Some (currentVersion row) end
        else currentVersionInitTask in
      expected <-
        (if negb (String.eqb ver INIT) then
           if isGreaterThanVersion currentVersionInitTask' ver
           then ts <- readTasks km (VersionFolder ver) ;; ret (length ts)
           else ret actual
         else ts <- readTasks km InitFolder ;; ret (length ts)) ;;
      countVersions km r currentVersionInitTask' (jsSet ver (mkCounts expected actual) toReturn)
  end.

Definition skipWarnings (futureVersion : string) : list Event :=
  [ EvWarn ("knex-migrator is skipping " ++ futureVersion);
    EvWarn "Current version in MigratorConfig.js is smaller then requested version, use --force to proceed!";
    EvWarn ("Please run `knex-migrator migrate --v " ++ futureVersion ++ " --force` to proceed!") ].

(** The loop over [futureVersions]; [toReturn[futureVersion].actual] throws
    when the entry is gone. *)
Fixpoint dropFutureVersions (futureVersions : list string) (toReturn : JsObject Counts)
  : M (JsObject Counts) :=
  match futureVersions with
  | [] => ret toReturn
  | futureVersion :: r =>
      match jsGet futureVersion toReturn with
      | None => throw TypeError
      | Some c =>
          if actual c =? expected c then dropFutureVersions r toReturn
          else each emit (skipWarnings futureVersion) ;;
               dropFutureVersions r (jsDelete futureVersion toReturn)
      end
  end.

(** [integrityCheck] up to the filling of [toReturn]. *)
Definition integrityCounts (km : KnexMigrator) (force : bool)
  : M (list string * JsObject Counts) :=
  d <- getDb ;;
  folders <- catch (fs <- readFolders km ;; ret (INIT :: fs)) (fun _ => ret [INIT]) ;;
  scanned <- scanFolders km force (view d) folders [] [] ;;
  result <- props (jsEntries (snd scanned)) ;;
  toReturn <- countVersions km result None [] ;;
  ret (fst scanned, toReturn).

Definition integrityCheck (km : KnexMigrator) (force : bool) : M (JsObject Counts) :=
  counted <- integrityCounts km force ;;
  dropFutureVersions (fst counted) (snd counted).

(** The callback of [_.each(_.omit(result, 'init'), ...)]. *)
Definition checkVersion (value : Counts) : M unit :=
  if actual value <? expected value then throw (DatabaseIsNotOkError "DB_NEEDS_MIGRATION")
  else if expected value <? actual value
       then throw (DatabaseIsNotOkError "MIGRATION_STATE_ERROR")
       else ret tt.

(** The body of [isDatabaseOK] after the integrity check. *)
Definition checkResult (result : JsObject Counts) : M unit :=
  (match jsGet INIT result with
   | Some c => if actual c <? expected c
               then throw (DatabaseIsNotOkError "DB_NOT_INITIALISED") else ret tt
   | None => ret tt
   end) ;;
  each (fun e : string * Counts => checkVersion (snd e)) (jsEntries (jsDelete INIT result)).

(** [isDatabaseOK]; closing the connection afterwards is left out. *)
Definition isDatabaseOK (km : KnexMigrator) : M unit :=
  result <- integrityCheck km false ;;
  checkResult result.

(* ===================================================================== *)
(** * Options *)
(* ===================================================================== *)

Record InitOptions := mkInitOptions {
  init_skip : option nat;
  init_only : option nat;
  disableHooks : bool;
  noScripts : bool;
  skipInitCompletion : bool           (* renewing revision only *)
}.

Definition defaultInit : InitOptions := mkInitOptions None None false false false.

Record MigrateOptions := mkMigrateOptions {
  opt_version : option string;
  opt_force : bool;
  opt_init : bool;
  opt_only : option nat
}.

(** [x || null] on an optional ordinal: 0 and [undefined] are both falsy. *)
Definition orNull (n : option nat) : option nat :=
  match n with
  | Some 0 => None
  | _ => n
  end.

Definition given (v : option string) : bool :=
  match v with
  | Some s => truthy s
  | None => false
  end.

(** [tasks.splice(i, 1)]. *)
Fixpoint splice1 {A} (i : nat) (l : list A) : list A :=
  match l, i with
  | [], _ => []
  | _ :: r, 0 => r
  | x :: r, S j => x :: splice1 j r
  end.

(** The [only] / [skip] selection of [migrateTo]; an [only] beyond the end
    yields the one-element array [[undefined]]. *)
Definition selectTasks (only skip : option nat) (tasks : list Task) : list (option Task) :=
  match orNull only with
  | Some n => [nth_error tasks (n - 1)]
  | None =>
      match orNull skip with
      | Some k => map Some (splice1 (k - 1) tasks)
      | None => map Some tasks
      end
  end.

(** The line feed that ends the help text of the long-key error. *)
Definition newline : string := String (ascii_of_nat 10) EmptyString.

(** The error class thrown for a failed task: the long-key case reads the
    back-quoted words of the message ([match[0]] throws on a [null] match). *)
Definition scriptError (err : Error) (task : string) : Error :=
  if hasCode "ER_TOO_LONG_KEY" err
  then match quotedWords err with
       | [] => TypeError
       | _ :: _ =>
           MigrationScript ("Read more here: https://github.com/TryGhost/knex-migrator/issues/51"
                            ++ newline)
       end
  else MigrationScript ("Error occurred while executing the following migration: " ++ task).

(** [versionsToMigrate] of [migrate]: the versions of the result whose
    counts differ, in enumeration order. *)
Definition versionsToMigrate (result : JsObject Counts) : list string :=
  map fst (filter (fun e : string * Counts => negb (expected (snd e) =? actual (snd e)))
                  (jsEntries result)).

Definition warnMissingVersion (onlyVersion : option string) (result : JsObject Counts) : M unit :=
  match onlyVersion with
  | Some v =>
      if truthy v
      then match jsGet v result with
           | Some _ => ret tt
           | None => emit (EvWarn ("Cannot find requested version: " ++ v))
           end
      else ret tt
  | None => ret tt
  end.

(* ===================================================================== *)
(** * The locking revision ([lib/index.js]) *)
(* ===================================================================== *)

Module Locking.

(** [connection.transaction(callback)] with a callback that returns a
    promise: committed when it fulfils, rolled back when it rejects. *)
Definition createTransaction {A} (callback : M A) : M A :=
  fun w =>
    match callback (mkWorld (begin (db w)) (events w)) with
    | (Ok a, w') => (Ok a, mkWorld (commit (db w')) (events w'))
    | (Err e, w') => (Err e, mkWorld (rollback (db w')) (events w'))
    | (Pending, w') => (Pending, w')
    end.

(** [ensureLockTable]: when the table is not there it is created, with the
    sentinel row; a rejection of the creation with errno 5 (SQLite: the
    database is locked) becomes [MigrationsAreLocked], any other is rethrown. *)
Definition ensureLockTable : M unit :=
  d <- getDb ;;
  match migrations_lock (view d) with
  | Some _ => ret tt
  | None =>
      catch
        (match busy d with
         | Some errno => throw (DbError errno)
         | None =>
             modifyDb (ddl (fun st => mkStore (migrations st) (Some []) (tables st)
                                              (rows st))) ;;
             modifyDb (write (fun st => mkStore (migrations st)
                                                (Some (match migrations_lock st with
                                                       | Some l => l | None => []
                                                       end ++ [mkLockRow "km01" None None]))
                                                (tables st) (rows st)))
         end)
        (fun err =>
           match err with
           | DbError errno => if errno =? 5 then throw MigrationsAreLocked else throw err
           | _ => throw err
           end)
  end.

(** [lock]: the sentinel row is read for update and printed; the check and
    the update are commented out in the source. *)
Definition lock : M unit :=
  d <- getDb ;;
  match migrations_lock (view d) with
  | None => throw (DbError (noSuchTable d))
  | Some l =>
      let data := filter (fun r => String.eqb (lock_key r) "km01") l in
      emit EvLock
  end.

(** [unlock]: every row of [migrations_lock] gets [released_at]. *)
Definition unlock (now : nat) : M unit :=
  emit EvUnlock ;;
  d <- getDb ;;
  match migrations_lock (view d) with
  | None => throw (DbError (noSuchTable d))
  | Some _ =>
      modifyDb (write (fun st =>
        mkStore (migrations st)
                (option_map (map (fun r => mkLockRow (lock_key r) (acquired_at r) (Some now)))
                            (migrations_lock st))
                (tables st) (rows st)))
  end.

Definition afterEachTask (km : KnexMigrator) (task ver : string) : M unit :=
  insertMigration (mkRow task ver (configVersion km)).

(** [executeTask], the callback of [Promise.each(tasks, ...)]; the result is
    [skippedTasks] after the task. *)
Definition executeTask (km : KnexMigrator) (ver : string) (hooks : Hooks)
  (skippedTasks : list string) (task : option Task) : M (list string) :=
  match task with
  | None => throw TypeError
  | Some t =>
      catch (beforeEachTask (task_name t) ver ;;
             runHook "beforeEach" (beforeEach hooks) ;;
             emit (EvExecute (task_name t) ver) ;;
             _ <- runCode (execute t) ;;
             afterEachTask km (task_name t) ver ;;
             runHook "afterEach" (afterEach hooks) ;;
             ret skippedTasks)
            (fun err =>
               match err with
               | MigrationExistsError _ => ret (skippedTasks ++ [task_name t])
               | _ => throw (scriptError err (task_name t))
               end)
  end.

Fixpoint executeTasks (km : KnexMigrator) (ver : string) (hooks : Hooks)
  (tasks : list (option Task)) (skippedTasks : list string) : M (list string) :=
  match tasks with
  | [] => ret skippedTasks
  | task :: r =>
      skippedTasks' <- executeTask km ver hooks skippedTasks task ;;
      executeTasks km ver hooks r skippedTasks'
  end.

(** The init completion after the tasks of [init]. *)
Definition complete (km : KnexMigrator) : M unit :=
  fun w =>
    match readFolders km w with
    | (Ok versionsToMigrateTo, w') => each (completeVersion km) versionsToMigrateTo w'
    | (Err e, w') => if hasCode "READ_FOLDERS" e then (Ok tt, w') else (Err e, w')
    | (Pending, w') => (Pending, w')
    end.

Definition migrateTo (km : KnexMigrator) (ver : string) (hooks : Hooks)
  (only skip : option nat) : M unit :=
  tasks <- (if negb (String.eqb ver INIT) then readTasks km (VersionFolder ver)
            else catch (readTasks km InitFolder)
                       (fun err => if hasCode "MIGRATION_PATH" err then ret []
                                   else throw err)) ;;
  skippedTasks <- executeTasks km ver hooks (selectTasks only skip tasks) [] ;;
  if negb (String.eqb ver INIT) || negb (length skippedTasks =? 0) then ret tt
  else complete km.

(** The [.catch] that closes the chain inside the transaction. *)
Definition releaseOnError {A} (now : nat) (err : Error) : M A :=
  match err with
  | MigrationsAreLocked => throw err
  | _ => unlock now ;; throw err
  end.

Definition init (km : KnexMigrator) (options : InitOptions) (now : nat) : M unit :=
  let hooks := if disableHooks options then noHooks else initHooks km in
  finally
    (if noScripts options then ret tt
     else
       createMigrationsTable ;;
       ensureLockTable ;;
       createTransaction
         (catch (lock ;;
                 runHook "before" (before hooks) ;;
                 migrateTo km INIT noHooks (init_only options) (init_skip options) ;;
                 runHook "after" (after hooks) ;;
                 unlock now)
                (releaseOnError now)))
    (runHook "shutdown" (shutdown hooks)).

(** [migrate] without the [init] option. *)
Definition migrateOnly (km : KnexMigrator) (options : MigrateOptions) (now : nat) : M unit :=
  let onlyVersion := opt_version options in
  let onlyFile := if negb (given onlyVersion) then None else orNull (opt_only options) in
  let hooks := migrateHooks km in
  finally
    (createTransaction
       (catch (lock ;;
               result <- integrityCheck km (opt_force options) ;;
               warnMissingVersion onlyVersion result ;;
               let versionsToMigrate := versionsToMigrate result in
               (if length versionsToMigrate =? 0 then ret tt
                else runHook "before" (before hooks)) ;;
               (if length versionsToMigrate =? 0 then ret tt
                else each (fun versionToMigrate =>
                             migrateTo km versionToMigrate hooks onlyFile None)
                          versionsToMigrate) ;;
               (if length versionsToMigrate =? 0 then ret tt
                else runHook "after" (after hooks)) ;;
               unlock now)
              (releaseOnError now)))
    (runHook "shutdown" (shutdown hooks)).

Definition migrate (km : KnexMigrator) (options : MigrateOptions) (now : nat) : M unit :=
  if opt_init options
  then init km defaultInit now ;; migrateOnly km options now
  else migrateOnly km options now.

End Locking.

(* ===================================================================== *)
(** * The renewing revision ([transactional]) *)
(* ===================================================================== *)

Module Renewing.

(** An element of [ops]: called as [op.bind(self)()], it settles with a
    response, of which only [response && response.implicitCommits] is read. *)
Definition Op := M bool.

Definition afterEachTask (km : KnexMigrator) (task ver : string) : M unit :=
  migrations <- selectMigrations ;;
  if recorded task ver migrations then throw (MigrationExistsError None)
  else insertMigration (mkRow task ver (configVersion km)).

Definition errorHandling {A} (err : Error) (task : Task) : M A :=
  match err with
  | MigrationExistsError _ => throw (MigrationExistsError (Some (task_name task)))
  | _ => throw (scriptError err (task_name task))
  end.

Definition runTask (km : KnexMigrator) (ver : string) (hooks : Hooks) (task : option Task) : Op :=
  match task with
  | None => throw TypeError
  | Some t =>
      catch (beforeEachTask (task_name t) ver ;;
             runHook "beforeEach" (beforeEach hooks) ;;
             emit (EvExecute (task_name t) ver) ;;
             taskResponse <- catch (runCode (execute t)) (fun err => errorHandling err t) ;;
             catch (afterEachTask km (task_name t) ver) (fun err => errorHandling err t) ;;
             runHook "afterEach" (afterEach hooks) ;;
             ret taskResponse)
            (fun err => errorHandling err t)
  end.

(** [migrateTo] reads the tasks at once and returns the operations. *)
Definition migrateTo (km : KnexMigrator) (ver : string) (hooks : Hooks)
  (only skip : option nat) : M (list Op) :=
  tasks <- (if negb (String.eqb ver INIT) then readTasks km (VersionFolder ver)
            else catch (readTasks km InitFolder)
                       (fun err => if hasCode "MIGRATION_PATH" err then ret []
                                   else throw err)) ;;
  ret (map (runTask km ver hooks) (selectTasks only skip tasks)).

Definition hookOp (which : string) (h : option UserCode) : list Op :=
  match h with
  | Some c => [emit (EvHook which) ;; runCode c]
  | None => []
  end.

Definition setDb (f : Db -> Db) (w : World) : World := mkWorld (f (db w)) (events w).

(** The init completion of [transactional].  When the versions folder is
    missing the handler returns without committing or rolling back, and the
    transaction never settles. *)
Definition complete (km : KnexMigrator) : M unit :=
  fun w =>
    match readFolders km w with
    | (Ok versionsToMigrateTo, w1) =>
        match each (completeVersion km) versionsToMigrateTo w1 with
        | (Ok _, w2) => (Ok tt, setDb commit w2)
        | (Err e, w2) => (Err e, setDb rollback w2)
        | (Pending, w2) => (Pending, w2)
        end
    | (Err e, w1) =>
        if hasCode "READ_FOLDERS" e then (Pending, w1) else (Err e, setDb rollback w1)
    | (Pending, w1) => (Pending, w1)
    end.

(** [transactional] from inside its transaction: [ops] is what is left of
    the queue, [skippedTasks] the local array of the current call.

    [Promise.each] visits the elements the array had when it was called, and
    every operation that fulfils or is skipped is shifted off the shared
    array, so that the array is always the operations not yet run.  A
    response with [implicitCommits] throws [{code: 'renew'}], which the outer
    handler answers with a commit; then, when operations are left,
    [transactional] is called again: a new transaction and a new
    [skippedTasks].  A rejection with the code ['renew'] that did not come from
    there (a hook rejecting with that code) commits as well, with the operation
    still in the queue, and [transactional] is called on the same queue again,
    for ever. *)
Fixpoint runOps (km : KnexMigrator) (isInit skipCompletion : bool)
  (ops : list Op) (skippedTasks : list string) : M unit :=
  match ops with
  | [] =>
      if negb isInit || negb (length skippedTasks =? 0) || skipCompletion
      then modifyDb commit
      else complete km
  | op :: rest =>
      fun w =>
        match op w with
        | (Ok response, w') =>
            if response
            then match rest with
                 | [] => (Ok tt, setDb commit w')
                 | _ :: _ => runOps km isInit skipCompletion rest []
                                    (setDb begin (setDb commit w'))
                 end
            else runOps km isInit skipCompletion rest skippedTasks w'
        | (Err (MigrationExistsError (Some task)), w') =>
            runOps km isInit skipCompletion rest (skippedTasks ++ [task]) w'
        | (Err (MigrationExistsError None), w') => (Err TypeError, setDb rollback w')
        | (Err e, w') =>
            if hasCode "renew" e then (Pending, setDb commit w')
            else (Err e, setDb rollback w')
        | (Pending, w') => (Pending, w')
        end
  end.

Definition transactional (km : KnexMigrator) (ops : list Op) (isInit skipCompletion : bool)
  : M unit :=
  modifyDb begin ;;
  runOps km isInit skipCompletion ops [].

Definition init (km : KnexMigrator) (options : InitOptions) : M unit :=
  let hooks := if disableHooks options then noHooks else initHooks km in
  finally
    (if noScripts options then ret tt
     else
       taskOps <- migrateTo km INIT noHooks (init_only options) (init_skip options) ;;
       transactional km
         (hookOp "before" (before hooks)
          ++ [createMigrationsTable ;; ret false]
          ++ taskOps
          ++ hookOp "after" (after hooks))
         true (skipInitCompletion options))
    (runHook "shutdown" (shutdown hooks)).

Fixpoint collectOps (km : KnexMigrator) (hooks : Hooks) (only : option nat)
  (versions : list string) : M (list Op) :=
  match versions with
  | [] => ret []
  | versionToMigrate :: r =>
      o <- migrateTo km versionToMigrate hooks only None ;;
      os <- collectOps km hooks only r ;;
      ret (o ++ os)
  end.

Definition migrateOnly (km : KnexMigrator) (options : MigrateOptions) : M unit :=
  let onlyVersion := opt_version options in
  let onlyFile := if negb (given onlyVersion) then None else orNull (opt_only options) in
  let hooks := migrateHooks km in
  finally
    (result <- integrityCheck km (opt_force options) ;;
     warnMissingVersion onlyVersion result ;;
     let versionsToMigrate := versionsToMigrate result in
     if length versionsToMigrate =? 0 then ret tt
     else
       taskOps <- collectOps km hooks onlyFile versionsToMigrate ;;
       transactional km
         (hookOp "before" (before hooks) ++ taskOps ++ hookOp "after" (after hooks))
         false false)
    (runHook "shutdown" (shutdown hooks)).

Definition migrate (km : KnexMigrator) (options : MigrateOptions) : M unit :=
  if opt_init options
  then init km defaultInit ;; migrateOnly km options
  else migrateOnly km options.

End Renewing.

(* ===================================================================== *)
(** * Reasoning about promise computations *)
(* ===================================================================== *)

(** Splits a chain of conjunctions without introducing binders. *)
Ltac splits :=
  match goal with
  | |- _ /\ _ => split; [|splits]
  | _ => idtac
  end.

Lemma bind_inv A B (m : M A) (k : A -> M B) w r w' :
  bind m k w = (r, w') ->
  (exists a w1, m w = (Ok a, w1) /\ k a w1 = (r, w'))
  \/ (exists e, m w = (Err e, w') /\ r = Err e)
  \/ (m w = (Pending, w') /\ r = Pending).
Proof.
  unfold bind. destruct (m w) as [[a|e|] w1]; intros H.
  - left. eauto.
  - right. left. inversion H; subst. eauto.
  - right. right. inversion H; subst. auto.
Qed.

Lemma bind_ok A B (m : M A) (k : A -> M B) w a w1 :
  m w = (Ok a, w1) -> bind m k w = k a w1.
Proof. intros H. unfold bind. now rewrite H. Qed.
Arguments bind_ok {A B m} k {w a w1} _.

Lemma bind_err A B (m : M A) (k : A -> M B) w e w1 :
  m w = (Err e, w1) -> bind m k w = (Err e, w1).
Proof. intros H. unfold bind. now rewrite H. Qed.

Arguments bind_err {A B m} k {w e w1} _.

Lemma catch_inv A (m : M A) (h : Error -> M A) w r w' :
  catch m h w = (r, w') ->
  (exists e w1, m w = (Err e, w1) /\ h e w1 = (r, w'))
  \/ (m w = (r, w') /\ forall e, r <> Err e).
Proof.
  unfold catch. destruct (m w) as [[a|e|] w1]; intros H.
  - right. split; [assumption|]. inversion H; subst. discriminate.
  - left. eauto.
  - right. split; [assumption|]. inversion H; subst. discriminate.
Qed.

Lemma view_write f d : view (write f d) = f (view d).
Proof. unfold view, write. destruct (txn d); reflexivity. Qed.

Lemma view_ddl f d : view (ddl f d) = f (view d).
Proof. unfold ddl. destruct (ddlCommits d); [reflexivity | apply view_write]. Qed.

Lemma view_commit d : view (commit d) = view d.
Proof. reflexivity. Qed.

Lemma view_begin d : view (begin d) = durable d.
Proof. reflexivity. Qed.

Lemma view_rollback d : view (rollback d) = durable d.
Proof. reflexivity. Qed.

Lemma durable_commit d : durable (commit d) = view d.
Proof. reflexivity. Qed.

(** The ledger as a query sees it. *)
Definition ledgerOf (w : World) : list Row := ledger (view (db w)).

Lemma selectMigrations_inv w r w' :
  selectMigrations w = (r, w') ->
  w' = w /\ ((r = Ok (ledgerOf w) /\ migrations (view (db w)) = inr (ledgerOf w))
             \/ exists errno, r = Err (DbError errno) /\ migrations (view (db w)) = inl errno).
Proof.
  unfold selectMigrations, ledgerOf, ledger.
  destruct (migrations (view (db w))) as [errno|l]; intros H; inversion H; subst; split; eauto.
Qed.

Lemma insertMigration_inv row w r w' :
  insertMigration row w = (r, w') ->
  (r = Ok tt /\ ledgerOf w' = ledgerOf w ++ [row] /\ events w' = events w
   /\ migrations (view (db w)) = inr (ledgerOf w))
  \/ (w' = w /\ exists errno, r = Err (DbError errno)).
Proof.
  unfold insertMigration. intros H.
  apply bind_inv in H as [(a & w1 & H1 & H2) | [(e & H1 & ->) | (H1 & ->)]];
    apply selectMigrations_inv in H1 as [-> H1].
  - left. destruct H1 as [[_ Hm] | (errno & Hd & _)]; [|discriminate].
    unfold modifyDb in H2. inversion H2; subst. unfold ledgerOf. cbn [db events].
    rewrite view_write. cbn. auto.
  - right. destruct H1 as [[Hd _] | (errno & Hd & _)]; [discriminate|].
    inversion Hd; subst. eauto.
  - destruct H1 as [[Hd _] | (errno & Hd & _)]; discriminate.
Qed.

(* ===================================================================== *)
(** * Lock acquisition (C4) *)
(* ===================================================================== *)

(** The lock row as a concurrent run that holds the lock leaves it. *)
Definition heldRow : LockRow := mkLockRow "km01" (Some 5) None.

Definition heldWorld : World :=
  mkWorld (mkDb true (mkStore (inr []) (Some [heldRow]) [] []) None) [].

(** C4: [lock] never rejects with [MigrationsAreLocked] and never writes to
    the database, whatever the sentinel row says; on a row that another run
    holds ([acquired_at] set, [released_at] empty) it fulfils and leaves the
    row as it was.  The check and the update are commented out in the source. *)
Theorem lock_neither_fails_nor_acquires :
  (forall w, fst (Locking.lock w) <> Err MigrationsAreLocked
             /\ db (snd (Locking.lock w)) = db w)
  /\ fst (Locking.lock heldWorld) = Ok tt
  /\ migrations_lock (view (db (snd (Locking.lock heldWorld)))) = Some [heldRow].
Proof.
  split; [|split; reflexivity].
  intros w. unfold Locking.lock, bind, getDb, emit, throw.
  destruct (migrations_lock (view (db w))); cbn; split; congruence.
Qed.

(* ===================================================================== *)
(** * Init completion matches on the name alone (C10) *)
(* ===================================================================== *)

(** The rows a [where('name', n)] query returns. *)
Definition named (n : string) (l : list Row) : list Row :=
  filter (fun r => String.eqb (name r) n) l.

Lemma named_app n l1 l2 : named n (l1 ++ l2) = named n l1 ++ named n l2.
Proof. apply filter_app. Qed.

Lemma named_In n l : (exists r, In r l /\ name r = n) <-> named n l <> [].
Proof.
  unfold named. split.
  - intros (r & Hin & Hn) Hnil.
    assert (In r (filter (fun r => String.eqb (name r) n) l)) as Hf.
    { apply filter_In. split; [assumption|]. now apply String.eqb_eq. }
    rewrite Hnil in Hf. exact Hf.
  - intros Hne. destruct (filter (fun r => String.eqb (name r) n) l) as [|r t] eqn:E.
    + congruence.
    + assert (In r (filter (fun r => String.eqb (name r) n) l)) as Hf by (rewrite E; now left).
      apply filter_In in Hf as [Hin Hn]. apply String.eqb_eq in Hn. eauto.
Qed.

Lemma completeFile_inv km ver file w r w' :
  completeFile km ver file w = (r, w') ->
  (named (task_name file) (ledgerOf w) <> [] /\ r = Ok tt /\ w' = w)
  \/ (named (task_name file) (ledgerOf w) = [] /\ r = Ok tt
      /\ ledgerOf w' = ledgerOf w ++ [mkRow (task_name file) ver (configVersion km)]
      /\ events w' = events w)
  \/ (w' = w /\ exists errno, r = Err (DbError errno)).
Proof.
  unfold completeFile. intros H.
  apply bind_inv in H as [(a & w1 & H1 & H2) | [(e & H1 & ->) | (H1 & ->)]];
    apply selectMigrations_inv in H1 as [-> H1].
  - destruct H1 as [[Ha _] | (errno & Hd & _)]; [|discriminate]. inversion Ha; subst a.
    fold (named (task_name file) (ledgerOf w)) in H2.
    destruct (named (task_name file) (ledgerOf w)) as [|x t] eqn:E.
    + apply insertMigration_inv in H2 as [(-> & Hl & He & _) | (-> & errno & ->)].
      * right. left. auto.
      * right. right. eauto.
    + left. inversion H2; subst. repeat split; congruence.
  - destruct H1 as [[Hd _] | (errno & Hd & _)]; [discriminate|].
    inversion Hd; subst. right. right. eauto.
  - destruct H1 as [[Hd _] | (errno & Hd & _)]; discriminate.
Qed.

Lemma each_invariant A (f : A -> M unit) (I : World -> Prop) l :
  (forall x w r w', In x l -> f x w = (r, w') -> I w -> I w') ->
  forall w r w', each f l w = (r, w') -> I w -> I w'.
Proof.
  induction l as [|x l IH]; intros Hf w r w' H HI.
  - inversion H; subst. assumption.
  - cbn [each] in H.
    apply bind_inv in H as [(a & w1 & H1 & H2) | [(e & H1 & ->) | (H1 & ->)]].
    + eapply IH; [ | exact H2 | eapply Hf; [now left | exact H1 | exact HI] ].
      intros y w0 r0 w0' Hy. apply Hf. now right.
    + eapply Hf; [now left | exact H1 | exact HI].
    + eapply Hf; [now left | exact H1 | exact HI].
Qed.

Lemma readTasks_inv km p w r w' :
  readTasks km p w = (r, w') ->
  w' = w /\ ((exists ts, r = Ok ts /\ tasksAt (migrationPath km) p = Some ts)
             \/ (r = Err (KnexMigrateError "MIGRATION_PATH")
                 /\ tasksAt (migrationPath km) p = None)).
Proof.
  unfold readTasks. destruct (tasksAt (migrationPath km) p) as [ts|];
    intros H; inversion H; subst; split; eauto.
Qed.

Lemma readFolders_inv km w r w' :
  readFolders km w = (r, w') ->
  w' = w /\ ((exists l, r = Ok (map fst l) /\ versionsDir (migrationPath km) = Some l)
             \/ (r = Err (KnexMigrateError "READ_FOLDERS")
                 /\ versionsDir (migrationPath km) = None)).
Proof.
  unfold readFolders. destruct (versionsDir (migrationPath km)) as [l|];
    intros H; inversion H; subst; split; eauto.
Qed.

Section NameKept.

Variables (km : KnexMigrator) (n : string) (rows0 : list Row).
Hypothesis present : rows0 <> [].

(** Invariant of the completion: the rows named [n] are the ones it
    started with. *)
Let kept (w : World) : Prop := named n (ledgerOf w) = rows0.

Lemma completeFile_kept ver file w r w' :
  completeFile km ver file w = (r, w') -> kept w -> kept w'.
Proof.
  unfold kept. intros H Hk.
  apply completeFile_inv in H
    as [(_ & _ & ->) | [(Hnone & _ & Hl & _) | (-> & _)]]; try assumption.
  rewrite Hl, named_app, Hk. cbn.
  destruct (String.eqb_spec (task_name file) n) as [Heq|Hne].
  - subst n. congruence.
  - apply app_nil_r.
Qed.

Lemma completeVersion_kept ver w r w' :
  completeVersion km ver w = (r, w') -> kept w -> kept w'.
Proof.
  unfold completeVersion. intros H Hk.
  apply bind_inv in H as [(ts & w1 & H1 & H2) | [(e & H1 & ->) | (H1 & ->)]];
    apply readTasks_inv in H1 as [-> _]; try assumption.
  eapply each_invariant; [ | exact H2 | exact Hk ].
  intros x w0 r0 w0' _. apply completeFile_kept.
Qed.

Lemma completeVersions_kept versions w r w' :
  each (completeVersion km) versions w = (r, w') -> kept w -> kept w'.
Proof.
  apply each_invariant. intros x w0 r0 w0' _. apply completeVersion_kept.
Qed.

Lemma locking_complete_kept w w' :
  Locking.complete km w = (Ok tt, w') -> kept w -> kept w'.
Proof.
  unfold Locking.complete. intros H Hk.
  destruct (readFolders km w) as [r w1] eqn:E. apply readFolders_inv in E as [-> E].
  destruct E as [(l & -> & _) | (-> & _)].
  - eapply completeVersions_kept; eassumption.
  - inversion H; subst. assumption.
Qed.

Lemma renewing_complete_kept w w' :
  Renewing.complete km w = (Ok tt, w') -> kept w -> kept w'.
Proof.
  unfold Renewing.complete. intros H Hk.
  destruct (readFolders km w) as [r w1] eqn:E. apply readFolders_inv in E as [-> E].
  destruct E as [(l & -> & _) | (-> & _)]; [|discriminate].
  destruct (each (completeVersion km) (map fst l) w) as [[[]|e|] w2] eqn:E2;
    inversion H; subst.
  eapply completeVersions_kept in E2; [|exact Hk]. exact E2.
Qed.

End NameKept.

(** C10: the duplicate check of the init completion looks at the name only.
    When some ledger row, of whatever version, bears the name [n], a task file
    named [n] gets no row in any version folder (the check fulfils and leaves
    the database as it is), and a whole completion, in either revision, ends
    with the same rows named [n] it started with. *)
Theorem completion_matches_name_only km n w :
  (exists r, In r (ledgerOf w) /\ name r = n) ->
  (forall ver file, task_name file = n -> completeFile km ver file w = (Ok tt, w))
  /\ (forall w', Locking.complete km w = (Ok tt, w') ->
                 named n (ledgerOf w') = named n (ledgerOf w))
  /\ (forall w', Renewing.complete km w = (Ok tt, w') ->
                 named n (ledgerOf w') = named n (ledgerOf w)).
Proof.
  intros Hex. apply named_In in Hex. repeat split.
  - intros ver file <-.
    destruct (completeFile km ver file w) as [r w'] eqn:E.
    pose proof E as E'.
    apply completeFile_inv in E' as [(_ & -> & ->) | [(Hnone & _) | (-> & errno & ->)]].
    + reflexivity.
    + congruence.
    + exfalso. unfold completeFile in E.
      apply bind_inv in E as [(a & w1 & H1 & H2) | [(e & H1 & He) | (H1 & He)]];
        apply selectMigrations_inv in H1 as [Hw [[Ha Hm] | (no & Hd & Hm)]];
        try discriminate.
      * subst w1. inversion Ha; subst a. fold (named (task_name file) (ledgerOf w)) in H2.
        destruct (named (task_name file) (ledgerOf w)); [congruence|discriminate].
      * apply Hex. unfold ledgerOf, ledger. now rewrite Hm.
  - intros w' H. eapply locking_complete_kept with (rows0 := named n (ledgerOf w)); eauto.
  - intros w' H. eapply renewing_complete_kept with (rows0 := named n (ledgerOf w)); eauto.
Qed.

(* ===================================================================== *)
(** * Objects: lookup, assignment, deletion, enumeration *)
(* ===================================================================== *)

Section Objects.

Variable V : Type.
Implicit Types (o : JsObject V) (k : string) (v : V).

Lemma jsGet_In k v o : jsGet k o = Some v -> In (k, v) o.
Proof.
  induction o as [|[k' v'] o IH]; cbn; [discriminate|].
  destruct (String.eqb_spec k k') as [->|_]; intros H.
  - inversion H; subst. now left.
  - right. now apply IH.
Qed.

Lemma In_jsGet k v o : In (k, v) o -> exists v', jsGet k o = Some v'.
Proof.
  induction o as [|[k' v'] o IH]; cbn; [contradiction|].
  destruct (String.eqb_spec k k') as [->|Hne]; intros H; [eauto|].
  destruct H as [H|H]; [inversion H; congruence | auto].
Qed.

Lemma In_jsSet k v o e : In e (jsSet k v o) -> e = (k, v) \/ In e o.
Proof.
  induction o as [|[k' v'] o IH]; cbn.
  - intros [H|[]]; auto.
  - destruct (String.eqb k k'); cbn; intros [H|H]; auto.
    destruct (IH H); auto.
Qed.

Lemma jsGet_jsDelete_same k o : jsGet k (jsDelete k o) = None.
Proof.
  induction o as [|[k' v'] o IH]; cbn; [reflexivity|].
  destruct (String.eqb k k') eqn:E; [assumption|]. cbn. now rewrite E.
Qed.

Lemma jsGet_jsDelete_other k d o : k <> d -> jsGet k (jsDelete d o) = jsGet k o.
Proof.
  intros Hne. induction o as [|[k' v'] o IH]; cbn; [reflexivity|].
  destruct (String.eqb_spec d k') as [<-|Hd].
  - destruct (String.eqb_spec k d); [contradiction|assumption].
  - cbn. now rewrite IH.
Qed.

Lemma In_jsDelete k v d o : In (k, v) (jsDelete d o) <-> In (k, v) o /\ k <> d.
Proof.
  induction o as [|[k' v'] o IH]; cbn; [tauto|].
  destruct (String.eqb_spec d k') as [<-|Hd]; cbn; rewrite IH.
  - split; [tauto|]. intros [[H|H] Hne]; [inversion H; congruence | tauto].
  - split; [|tauto]. intros [H|H]; [|tauto]. inversion H; subst. split; auto.
Qed.

Lemma jsGet_jsDelete_Some k v d o : jsGet k (jsDelete d o) = Some v -> jsGet k o = Some v.
Proof.
  destruct (String.eqb_spec k d) as [->|Hne].
  - now rewrite jsGet_jsDelete_same.
  - now rewrite jsGet_jsDelete_other.
Qed.

Lemma In_insertIndexed n (e : string * V) l x :
  In x (insertIndexed n e l) <-> x = (n, e) \/ In x l.
Proof.
  induction l as [|[m e'] l IH]; cbn.
  - intuition congruence.
  - destruct (n <? m)%N; cbn; [intuition congruence|]. rewrite IH. intuition congruence.
Qed.

Lemma In_indexedEntries n (e : string * V) o :
  In (n, e) (indexedEntries o) <-> In e o /\ arrayIndex (fst e) = Some n.
Proof.
  induction o as [|[k v] o IH]; cbn; [tauto|].
  destruct (arrayIndex k) as [m|] eqn:E.
  - rewrite In_insertIndexed, IH. split.
    + intros [H|[H1 H2]]; [inversion H; subst; cbn; auto | auto].
    + intros [[H|H] Hi]; [subst e; cbn in Hi; left; congruence | auto].
  - rewrite IH. split; [tauto|].
    intros [[H|H] Hi]; [subst e; cbn in Hi; congruence | auto].
Qed.

(** Enumeration neither loses nor invents an entry. *)
Lemma In_jsEntries (e : string * V) o : In e (jsEntries o) <-> In e o.
Proof.
  unfold jsEntries, namedEntries, isArrayIndex.
  rewrite in_app_iff, in_map_iff, filter_In. split.
  - intros [([n e'] & He & Hin) | [Hin _]]; [|assumption].
    cbn in He. subst e'. now apply In_indexedEntries in Hin.
  - intros Hin. destruct (arrayIndex (fst e)) as [n|] eqn:E.
    + left. exists (n, e). split; [reflexivity|]. now apply In_indexedEntries.
    + right. split; [assumption|reflexivity].
Qed.

Lemma indexedEntries_keys n (e : string * V) o :
  In (n, e) (indexedEntries o) -> isArrayIndex (fst e) = true.
Proof.
  intros H. apply In_indexedEntries in H as [_ H]. unfold isArrayIndex. now rewrite H.
Qed.

End Objects.

(* ===================================================================== *)
(** * What the integrity check computes *)
(* ===================================================================== *)

Definition extends (w w' : World) : Prop := exists tr, events w' = events w ++ tr.

Lemma extends_refl w : extends w w.
Proof. exists []. now rewrite app_nil_r. Qed.

Lemma extends_trans w1 w2 w3 : extends w1 w2 -> extends w2 w3 -> extends w1 w3.
Proof. intros [t1 H1] [t2 H2]. exists (t1 ++ t2). now rewrite H2, H1, app_assoc. Qed.

(** The condition under which the scan files a key under [futureVersions]. *)
Definition futureVersion (km : KnexMigrator) (force : bool) (key : string) : bool :=
  truthy (configVersion km) && negb force && isGreaterThanVersion (Some (configVersion km)) key.

Lemma emit_inv e w r w' :
  emit e w = (r, w') -> r = Ok tt /\ db w' = db w /\ events w' = events w ++ [e].
Proof. unfold emit. intros H. inversion H; subst. auto. Qed.

Lemma scanFolders_inv km force st folders :
  forall fut ops w r w',
    scanFolders km force st folders fut ops w = (r, w') ->
    db w' = db w /\ extends w w'
    /\ exists fut' ops', r = Ok (fut', ops')
       /\ (forall k v, In (k, v) ops' -> In (k, v) ops \/ v = whereVersion k st)
       /\ (forall k, In k (map fst ops') ->
                     In k (map fst ops) \/ (futureVersion km force k = true -> In k fut'))
       /\ (forall k, In k fut -> In k fut')
       /\ (forall k, In k fut' -> In k fut \/ futureVersion km force k = true)
       /\ (forall v rest, ops = (INIT, v) :: rest -> ~ In INIT (map fst rest) ->
             exists v' rest', ops' = (INIT, v') :: rest' /\ ~ In INIT (map fst rest')).
Proof.
  induction folders as [|folder r0 IH]; intros fut ops w r w' H.
  - inversion H; subst. split; [reflexivity|]. split; [apply extends_refl|].
    exists fut, ops. repeat split; auto. intros v rest -> Hn. eauto.
  - cbn [scanFolders] in H.
    destruct (if String.eqb folder INIT then Some folder else matchVersion folder) as [key|].
    + fold (futureVersion km force key) in H.
      apply IH in H as (Hdb & Hext & fut' & ops' & -> & Hv & Hk & Hf & Hf' & Hhead).
      split; [assumption|]. split; [assumption|]. exists fut', ops'.
      split; [reflexivity|]. repeat split.
      * intros k v Hin. destruct (Hv k v Hin) as [Hs|?]; [|auto].
        apply In_jsSet in Hs as [Hs|?]; [|auto]. inversion Hs; subst. auto.
      * intros k Hin. destruct (Hk k Hin) as [Hs|?]; [|auto].
        apply in_map_iff in Hs as ([k' v'] & <- & Hs). cbn.
        apply In_jsSet in Hs as [Hs|Hs].
        -- inversion Hs; subst. right. intros Hfv. apply Hf. rewrite Hfv.
           apply in_or_app. right. now left.
        -- left. apply in_map_iff. exists (k', v'). auto.
      * intros k Hin. apply Hf. destruct (futureVersion km force key); [|assumption].
        apply in_or_app. now left.
      * intros k Hin. destruct (Hf' k Hin) as [Hs|?]; [|auto].
        destruct (futureVersion km force key) eqn:E; [|auto].
        apply in_app_or in Hs as [?|[<-|[]]]; auto.
      * intros v rest -> Hn. cbn [jsSet] in Hhead.
        destruct (String.eqb_spec key INIT) as [->|Hne].
        -- eapply Hhead; [reflexivity|assumption].
        -- eapply Hhead; [reflexivity|].
           intros Hin. apply in_map_iff in Hin as ([k' v'] & Hk' & Hin). cbn in Hk'. subst k'.
           apply In_jsSet in Hin as [Hin|Hin]; [inversion Hin; congruence|].
           apply Hn. apply in_map_iff. exists (INIT, v'). auto.
    + apply bind_inv in H as [(a & w1 & H1 & H)|[(e & H1 & _)|(H1 & _)]];
        apply emit_inv in H1 as (Hr & Hd1 & He1); try discriminate.
      apply bind_inv in H as [(a2 & w2 & H2 & H)|[(e & H2 & _)|(H2 & _)]];
        apply emit_inv in H2 as (Hr2 & Hd2 & He2); try discriminate.
      apply IH in H as (Hdb & Hext & fut' & ops' & -> & Hrest).
      split; [congruence|]. split.
      * eapply extends_trans; [|exact Hext]. eexists. rewrite He2, He1, <- app_assoc. reflexivity.
      * exists fut', ops'. split; [reflexivity|exact Hrest].
Qed.

Definition settled (e : string * list Row) : string * (nat + list Row) := (fst e, inr (snd e)).

Lemma props_inv entries :
  forall w r w', props entries w = (r, w') ->
    w' = w /\ forall res, r = Ok res -> entries = map settled res.
Proof.
  induction entries as [|[k [e|value]] es IH]; intros w r w' H; cbn [props] in H.
  - inversion H; subst. split; [reflexivity|]. intros res Hr. now inversion Hr.
  - inversion H; subst. split; [reflexivity|]. discriminate.
  - apply bind_inv in H as [(rest & w1 & H1 & H)|[(e & H1 & ->)|(H1 & ->)]].
    + apply IH in H1 as [-> H1]. inversion H; subst. split; [reflexivity|].
      intros res Hr. inversion Hr; subst. cbn. unfold settled at 1. cbn.
      now rewrite (H1 rest eq_refl).
    + apply IH in H1 as [-> _]. split; [reflexivity|]. discriminate.
    + apply IH in H1 as [-> _]. split; [reflexivity|]. discriminate.
Qed.

(** The value [currentVersionInitTask] takes from the init rows. *)
Definition initBaseline (value : list Row) : option string :=
  match value with
  | [] => None
  | row :: _ => Some (currentVersion row)
  end.

(** What one round of the counting loop stores for [ver], when the variable
    holds [cv]. *)
Definition counted (km : KnexMigrator) (cv : option string) (ver : string)
  (value : list Row) (c : Counts) : Prop :=
  actual c = length value
  /\ (ver = INIT ->
      exists ts, initDir (migrationPath km) = Some ts /\ expected c = length ts)
  /\ (ver <> INIT ->
      if isGreaterThanVersion cv ver
      then exists ts, tasksAt (migrationPath km) (VersionFolder ver) = Some ts
                      /\ expected c = length ts
      else expected c = actual c).

Fixpoint baselineAfter (entries : list (string * list Row)) (cv : option string) : option string :=
  match entries with
  | [] => cv
  | (ver, value) :: r =>
      baselineAfter r (if String.eqb ver INIT then initBaseline value else cv)
  end.

Lemma countVersions_step km ver value r cv t0 w res w' :
  countVersions km ((ver, value) :: r) cv t0 w = (res, w') ->
  (exists c, counted km (if String.eqb ver INIT then initBaseline value else cv) ver value c
             /\ countVersions km r (if String.eqb ver INIT then initBaseline value else cv)
                              (jsSet ver c t0) w = (res, w'))
  \/ (w' = w /\ exists e, res = Err e).
Proof.
  cbn [countVersions]. fold (initBaseline value). intros H.
  apply bind_inv in H as [(ex & w1 & H1 & H)|[(e & H1 & ->)|(H1 & ->)]].
  - left. exists (mkCounts ex (length value)).
    destruct (String.eqb_spec ver INIT) as [->|Hne]; cbn [negb] in H1.
    + apply bind_inv in H1 as [(ts & w2 & H2 & H1)|[(e & H2 & ?)|(H2 & ?)]];
        try discriminate.
      apply readTasks_inv in H2 as [-> [(ts' & Hts & Hfs)|[? _]]]; [|discriminate].
      inversion Hts; subst ts'. inversion H1; subst. split; [|assumption].
      repeat split; cbn; [eauto | congruence].
    + destruct (isGreaterThanVersion cv ver) eqn:G.
      * apply bind_inv in H1 as [(ts & w2 & H2 & H1)|[(e & H2 & ?)|(H2 & ?)]];
          try discriminate.
        apply readTasks_inv in H2 as [-> [(ts' & Hts & Hfs)|[? _]]]; [|discriminate].
        inversion Hts; subst ts'. inversion H1; subst. split; [|assumption].
        repeat split; cbn; [congruence | rewrite G; eauto].
      * inversion H1; subst. split; [|assumption].
        repeat split; cbn; [congruence | now rewrite G].
  - right. split; [|eauto].
    destruct (negb (String.eqb ver INIT)); [destruct (isGreaterThanVersion _ ver)|].
    + apply bind_inv in H1 as [(ts & w2 & H2 & H1)|[(e' & H2 & ?)|(H2 & ?)]];
        try discriminate; now apply readTasks_inv in H2 as [-> _].
    + discriminate.
    + apply bind_inv in H1 as [(ts & w2 & H2 & H1)|[(e' & H2 & ?)|(H2 & ?)]];
        try discriminate; now apply readTasks_inv in H2 as [-> _].
  - exfalso.
    destruct (negb (String.eqb ver INIT)); [destruct (isGreaterThanVersion _ ver)|].
    + apply bind_inv in H1 as [(ts & w2 & H2 & H1)|[(e' & H2 & ?)|(H2 & ?)]];
        try discriminate. apply readTasks_inv in H2 as [_ [(? & ? & _)|[? _]]]; discriminate.
    + discriminate.
    + apply bind_inv in H1 as [(ts & w2 & H2 & H1)|[(e' & H2 & ?)|(H2 & ?)]];
        try discriminate. apply readTasks_inv in H2 as [_ [(? & ? & _)|[? _]]]; discriminate.
Qed.

Lemma jsSet_keys V k (v : V) o k' :
  In k' (map fst (jsSet k v o)) <-> k' = k \/ In k' (map fst o).
Proof.
  induction o as [|[k0 v0] o IH]; cbn.
  - intuition congruence.
  - destruct (String.eqb_spec k k0) as [->|Hne]; cbn; [intuition congruence|].
    rewrite IH. intuition congruence.
Qed.

Lemma countVersions_inv km entries :
  forall cv t0 w r w', countVersions km entries cv t0 w = (r, w') ->
    w' = w
    /\ forall t, r = Ok t ->
         (forall ver c, In (ver, c) t ->
            In (ver, c) t0
            \/ exists value cv', In (ver, value) entries /\ counted km cv' ver value c
                 /\ (~ In INIT (map fst entries) -> cv' = cv))
         /\ (forall k, In k (map fst t0) \/ In k (map fst entries) -> In k (map fst t)).
Proof.
  induction entries as [|[ver value] es IH]; intros cv t0 w r w' H.
  - inversion H; subst. split; [reflexivity|]. intros t Ht. inversion Ht; subst.
    split; [auto|]. intros k [Hk|[]]. assumption.
  - apply countVersions_step in H as [(c & Hc & H)|(-> & e & ->)]; [|split; [auto|discriminate]].
    apply IH in H as [-> H]. split; [reflexivity|]. intros t Ht.
    destruct (H t Ht) as [Hin Hkeys]. split.
    + intros ver' c' Hin'. destruct (Hin ver' c' Hin') as [Hs|(value' & cv' & Hv & Hc' & Hcv)].
      * apply In_jsSet in Hs as [Hs|Hs]; [|auto]. inversion Hs; subst. right.
        exists value, (if String.eqb ver INIT then initBaseline value else cv).
        split; [now left|]. split; [assumption|]. intros Hn.
        destruct (String.eqb_spec ver INIT) as [->|_]; [|reflexivity].
        exfalso. apply Hn. now left.
      * right. exists value', cv'. split; [now right|]. split; [assumption|].
        intros Hn. rewrite Hcv.
        -- destruct (String.eqb_spec ver INIT) as [->|_]; [|reflexivity].
           exfalso. apply Hn. now left.
        -- intros Hi. apply Hn. now right.
    + intros k Hk. apply Hkeys. rewrite jsSet_keys. cbn in Hk. intuition.
Qed.

Lemma countVersions_app km es1 :
  forall es2 cv t0 w t w',
    countVersions km (es1 ++ es2) cv t0 w = (Ok t, w') ->
    exists t1, countVersions km es1 cv t0 w = (Ok t1, w)
               /\ countVersions km es2 (baselineAfter es1 cv) t1 w = (Ok t, w').
Proof.
  induction es1 as [|[ver value] es1 IH]; intros es2 cv t0 w t w' H.
  - exists t0. split; [reflexivity|assumption].
  - rewrite <- app_comm_cons in H.
    apply countVersions_step in H as [(c & Hc & H)|(_ & e & He)]; [|discriminate].
    apply IH in H as (t1 & H1 & H2). exists t1. split; [|exact H2].
    cbn [countVersions]. fold (initBaseline value).
    destruct Hc as (Ha & Hi & Hn).
    destruct (String.eqb_spec ver INIT) as [->|Hne]; cbn [negb].
    + destruct (Hi eq_refl) as (ts & Hts & He).
      unfold bind, readTasks. cbn [tasksAt]. rewrite Hts. cbn.
      replace (mkCounts (length ts) (length value)) with c; [assumption|].
      destruct c; cbn in *; congruence.
    + specialize (Hn Hne). destruct (isGreaterThanVersion cv ver).
      * destruct Hn as (ts & Hts & He). unfold bind, readTasks. rewrite Hts. cbn.
        replace (mkCounts (length ts) (length value)) with c; [assumption|].
        destruct c; cbn in *; congruence.
      * unfold bind, ret.
        replace (mkCounts (length value) (length value)) with c; [assumption|].
        destruct c; cbn in *; congruence.
Qed.

Lemma each_emit_inv evs : forall w r w',
  each emit evs w = (r, w') -> r = Ok tt /\ db w' = db w /\ events w' = events w ++ evs.
Proof.
  induction evs as [|e evs IH]; intros w r w' H.
  - inversion H; subst. now rewrite app_nil_r.
  - cbn [each] in H. unfold bind at 1, emit at 1 in H.
    apply IH in H as (-> & Hd & He). cbn in *. now rewrite He, <- app_assoc.
Qed.

Lemma dropFutureVersions_inv futureVersions :
  forall t w res w', dropFutureVersions futureVersions t w = (Ok res, w') ->
    db w' = db w
    /\ (forall V c, jsGet V res = Some c -> jsGet V t = Some c)
    /\ (forall V c, In (V, c) res -> In (V, c) t)
    /\ (forall V c, In (V, c) t -> ~ In V futureVersions -> In (V, c) res)
    /\ (forall V c, In V futureVersions -> jsGet V t = Some c -> actual c <> expected c ->
          jsGet V res = None
          /\ exists tr, events w' = events w ++ tr /\ incl (skipWarnings V) tr)
    /\ extends w w'.
Proof.
  induction futureVersions as [|fv r IH]; intros t w res w' H.
  - inversion H; subst. splits; auto using extends_refl. intros ? ? [].
  - cbn [dropFutureVersions] in H. destruct (jsGet fv t) as [c0|] eqn:G; [|discriminate].
    destruct (Nat.eqb_spec (actual c0) (expected c0)) as [Heq|Hne].
    + apply IH in H as (Hd & Hget & Hin & Hkeep & Hdrop & Hext).
      splits; auto.
      * intros V c HV Hn. apply Hkeep; [assumption|]. intros Hr. apply Hn. now right.
      * intros V c [<-|H] HG Hc; [congruence|]. eapply Hdrop; eauto.
    + apply bind_inv in H as [([] & w1 & H1 & H)|[(e & H1 & ?)|(H1 & ?)]];
        apply each_emit_inv in H1 as (Hr & Hd1 & He1); try discriminate.
      apply IH in H as (Hd & Hget & Hin & Hkeep & Hdrop & Hext).
      assert (extends w w') as Hext'.
      { eapply extends_trans; [|exact Hext]. eexists; exact He1. }
      splits; auto.
      * congruence.
      * intros V c HV. apply Hget in HV. eapply jsGet_jsDelete_Some; eauto.
      * intros V c HV. apply Hin in HV. now apply In_jsDelete in HV.
      * intros V c HV Hn. apply Hkeep.
        -- apply In_jsDelete. split; [assumption|]. intros ->. apply Hn. now left.
        -- intros Hr'. apply Hn. now right.
      * intros V c HV HG Hc. destruct (String.eqb_spec V fv) as [->|HVne].
        -- split.
           ++ destruct (jsGet fv res) as [c'|] eqn:G'; [|reflexivity].
              apply Hget in G'. now rewrite jsGet_jsDelete_same in G'.
           ++ destruct Hext as [tr Htr]. exists (skipWarnings fv ++ tr). split.
              ** now rewrite Htr, He1, app_assoc.
              ** apply incl_appl, incl_refl.
        -- destruct HV as [<-|HV]; [congruence|].
           destruct (Hdrop V c HV) as (Hnone & tr & Htr & Hincl);
             [now rewrite jsGet_jsDelete_other | assumption |].
           split; [assumption|].
           exists (skipWarnings fv ++ tr). split.
           ++ now rewrite Htr, He1, app_assoc.
           ++ now apply incl_appr.
Qed.

(** The rows the check reads for a version. *)
Definition rowsOf (ver : string) (l : list Row) : list Row :=
  filter (fun r => String.eqb (version r) ver) l.

Lemma folders_inv km w :
  exists fs, catch (fs <- readFolders km ;; ret (INIT :: fs)) (fun _ => ret [INIT]) w
             = (Ok (INIT :: fs), w).
Proof.
  unfold catch, bind, readFolders, ret, throw.
  destruct (versionsDir (migrationPath km)); eauto.
Qed.

Lemma whereVersion_inr k st value :
  whereVersion k st = inr value -> value = rowsOf k (ledger st).
Proof.
  unfold whereVersion, ledger, rowsOf. destruct (migrations st); intros H; now inversion H.
Qed.

(** [integrityCheck] up to the counts, summarised. *)
Lemma integrityCounts_inv km force w fut t w' :
  integrityCounts km force w = (Ok (fut, t), w') ->
  db w' = db w /\ extends w w'
  /\ (forall V c, In (V, c) t -> exists cv, counted km cv V (rowsOf V (ledgerOf w)) c)
  /\ (forall V c, In (V, c) t -> V <> INIT -> isArrayIndex V = false ->
        counted km (initBaseline (rowsOf INIT (ledgerOf w))) V (rowsOf V (ledgerOf w)) c)
  /\ (forall V c, In (V, c) t -> futureVersion km force V = true -> In V fut)
  /\ (forall V, In V fut -> futureVersion km force V = true)
  /\ In INIT (map fst t).
Proof.
  unfold integrityCounts. intros H.
  apply bind_inv in H as [(d & w1 & H1 & H)|[(e & H1 & ?)|(H1 & ?)]]; try discriminate.
  unfold getDb in H1. inversion H1; subst d w1. clear H1.
  destruct (folders_inv km w) as (fs & Hfs).
  apply bind_inv in H as [(folders & w1 & H1 & H)|[(e & H1 & ?)|(H1 & ?)]]; try discriminate.
  rewrite Hfs in H1. inversion H1; subst folders w1. clear H1 Hfs.
  apply bind_inv in H as [([fut0 ops] & w1 & H1 & H)|[(e & H1 & ?)|(H1 & ?)]]; try discriminate.
  pose proof H1 as Hscan. cbn [scanFolders] in Hscan.
  change (String.eqb INIT INIT) with true in Hscan. cbv iota in Hscan.
  apply scanFolders_inv in Hscan
    as (Hdb1 & Hext1 & fut' & ops' & Hr & _ & _ & _ & _ & Hhead).
  inversion Hr; subst fut' ops'. clear Hr.
  destruct (Hhead (whereVersion INIT (view (db w))) [] eq_refl (fun x => x))
    as (v0 & rest & Hops & Hnoinit).
  apply scanFolders_inv in H1
    as (_ & _ & fut' & ops' & Hr & Hval & Hkey & _ & Hfut & _).
  inversion Hr; subst fut' ops'. clear Hr.
  apply bind_inv in H as [(result & w2 & H2 & H)|[(e & H2 & ?)|(H2 & ?)]]; try discriminate.
  apply props_inv in H2 as [-> Hres]. specialize (Hres result eq_refl). cbn [snd] in Hres.
  apply bind_inv in H as [(toReturn & w2 & H3 & H)|[(e & H3 & ?)|(H3 & ?)]]; try discriminate.
  inversion H; subst fut t w2. clear H. cbn [fst] in *.
  (* every counted entry stems from a query of its own version *)
  assert (forall V value, In (V, value) result -> value = rowsOf V (ledgerOf w)) as Hrows.
  { intros V value Hin. apply (in_map settled) in Hin. rewrite <- Hres in Hin.
    apply (proj1 (In_jsEntries _ _)) in Hin. unfold settled in Hin. cbn in Hin.
    destruct (Hval _ _ Hin) as [[]|Hw]. symmetry in Hw. now apply whereVersion_inr in Hw. }
  assert (forall V value, In (V, value) result -> In V (map fst ops)) as Hkeys.
  { intros V value Hin. apply (in_map settled) in Hin. rewrite <- Hres in Hin.
    apply (proj1 (In_jsEntries _ _)) in Hin. apply in_map_iff. now exists (settled (V, value)). }
  pose proof H3 as Hcount. apply countVersions_inv in Hcount as [-> Hcount].
  destruct (Hcount toReturn eq_refl) as [Hin Hkeep].
  splits; try assumption.
  - intros V c HV. destruct (Hin V c HV) as [[]|(value & cv' & Hv & Hc & _)].
    exists cv'. now rewrite <- (Hrows V value Hv).
  - (* entries enumerated after init are counted against the init baseline *)
    intros V c HV Hne Hidx.
    unfold jsEntries in Hres. rewrite Hops in Hres. unfold namedEntries in Hres.
    cbn [filter fst] in Hres. change (isArrayIndex INIT) with false in Hres.
    cbn [negb] in Hres. symmetry in Hres.
    apply map_eq_app in Hres as (ra & rb & -> & Ha & Hb).
    destruct rb as [|[k0 irows] rb]; [discriminate|]. cbn [map] in Hb.
    inversion Hb as [[Hk0 Hv0 Hb']]. cbn in Hk0. subst k0.
    apply countVersions_app in H3 as (t1 & Hc1 & Hc2).
    apply countVersions_step in Hc2 as [(ci & _ & Hc2)|(_ & e & He)]; [|discriminate].
    change (String.eqb INIT INIT) with true in Hc2. cbv iota in Hc2.
    apply countVersions_inv in Hc1 as [_ Hc1]. destruct (Hc1 t1 eq_refl) as [Hin1 _].
    apply countVersions_inv in Hc2 as [_ Hc2]. destruct (Hc2 toReturn eq_refl) as [Hin2 _].
    assert (irows = rowsOf INIT (ledgerOf w)) as ->.
    { apply Hrows. apply in_or_app. right. now left. }
    destruct (Hin2 V c HV) as [Hs|(value & cv' & Hv & Hc & Hcv)].
    + exfalso. apply In_jsSet in Hs as [Hs|Hs]; [inversion Hs; congruence|].
      destruct (Hin1 V c Hs) as [[]|(value & _ & Hv & _)].
      assert (In (settled (V, value)) (map settled ra)) as Hm by now apply in_map.
      rewrite Ha in Hm. apply in_map_iff in Hm as ([n e] & He & Hm). cbn in He. subst e.
      apply indexedEntries_keys in Hm. cbn in Hm. congruence.
    + rewrite <- Hcv.
      * rewrite <- (Hrows V value); [assumption|]. apply in_or_app. right. now right.
      * intros Hi. apply Hnoinit. apply in_map_iff in Hi as ([k value'] & Hk & Hi).
        cbn in Hk. subst k.
        assert (In (settled (INIT, value')) (map settled rb)) as Hm by now apply in_map.
        rewrite Hb' in Hm. apply filter_In in Hm as [Hm _].
        apply in_map_iff. now exists (settled (INIT, value')).
  - intros V c HV Hf. destruct (Hin V c HV) as [[]|(value & _ & Hv & _)].
    destruct (Hkey V (Hkeys V value Hv)) as [[]|Hk]. now apply Hk.
  - intros V HV. destruct (Hfut V HV) as [[]|?]. assumption.
  - apply Hkeep. right.
    assert (In (INIT, v0) (jsEntries ops)) as Hi.
    { apply (proj2 (In_jsEntries _ _)). rewrite Hops. now left. }
    rewrite Hres in Hi. apply in_map_iff in Hi as ([k value] & He & Hi).
    inversion He; subst. apply in_map_iff. now exists (INIT, value).
Qed.

Lemma integrityCheck_inv km force w result w' :
  integrityCheck km force w = (Ok result, w') ->
  exists fut t w1, integrityCounts km force w = (Ok (fut, t), w1)
                   /\ dropFutureVersions fut t w1 = (Ok result, w').
Proof.
  unfold integrityCheck. intros H.
  apply bind_inv in H as [([fut t] & w1 & H1 & H)|[(e & H1 & ?)|(H1 & ?)]]; try discriminate.
  eauto.
Qed.

(* ===================================================================== *)
(** * Future versions (C7) *)
(* ===================================================================== *)


(* ===================================================================== *)
(** * Expected counts (C2) *)
(* ===================================================================== *)

(** C2, as the code has it: for a version of the result other than init
    (and enumerated after it, which every key that is not an array index is),
    [actual] is the number of ledger rows of the version, and [expected] is
    the number of task files on disk when the version is strictly greater than
    the baseline the first init row records, and [actual] otherwise. *)
Theorem expected_counts_follow_baseline km force w result w' V c :
  integrityCheck km force w = (Ok result, w') ->
  jsGet V result = Some c ->
  V <> INIT ->
  isArrayIndex V = false ->
  actual c = length (rowsOf V (ledgerOf w))
  /\ (isGreaterThanVersion (initBaseline (rowsOf INIT (ledgerOf w))) V = true ->
      exists ts, tasksAt (migrationPath km) (VersionFolder V) = Some ts
                 /\ expected c = length ts)
  /\ (isGreaterThanVersion (initBaseline (rowsOf INIT (ledgerOf w))) V = false ->
      expected c = actual c).
Proof.
  intros H HV Hne Hidx.
  apply integrityCheck_inv in H as (fut & t & w1 & Hc & Hd).
  apply integrityCounts_inv in Hc as (_ & _ & _ & Hafter & _).
  apply dropFutureVersions_inv in Hd as (_ & Hget & _).
  apply Hget, jsGet_In in HV.
  destruct (Hafter V c HV Hne Hidx) as (Ha & _ & Hx). specialize (Hx Hne).
  split; [assumption|].
  destruct (isGreaterThanVersion (initBaseline (rowsOf INIT (ledgerOf w))) V);
    split; intros; (discriminate || assumption).
Qed.

(* ===================================================================== *)
(** * The health check (C6) *)
(* ===================================================================== *)

Lemma checkVersions_inv l : forall w r w',
  each (fun e : string * Counts => checkVersion (snd e)) l w = (r, w') ->
  w' = w
  /\ ((r = Ok tt /\ forall e, In e l -> expected (snd e) = actual (snd e))
      \/ (r = Err (DatabaseIsNotOkError "DB_NEEDS_MIGRATION")
          /\ exists e, In e l /\ actual (snd e) < expected (snd e))
      \/ r = Err (DatabaseIsNotOkError "MIGRATION_STATE_ERROR")).
Proof.
  induction l as [|x l IH]; intros w r w' H.
  - inversion H; subst. split; [reflexivity|]. left. split; [reflexivity|]. intros ? [].
  - cbn [each] in H. unfold bind at 1, checkVersion at 1 in H.
    destruct (Nat.ltb_spec (actual (snd x)) (expected (snd x))) as [Hlt|Hge].
    + inversion H; subst. split; [reflexivity|]. right. left. split; [reflexivity|].
      exists x. split; [now left|assumption].
    + destruct (Nat.ltb_spec (expected (snd x)) (actual (snd x))) as [Hlt'|Hge'].
      * inversion H; subst. auto.
      * apply IH in H as [-> [[-> Hall]|[[-> (e & He & Hlt)]| -> ]]];
          (split; [reflexivity|]); auto.
        -- left. split; [reflexivity|]. intros e [<-|He]; [lia|auto].
        -- right. left. split; [reflexivity|]. exists e. split; [now right|assumption].
Qed.

(** C6, as the code has it: when a version of the integrity result other
    than init has more ledger rows than expected, [isDatabaseOK] rejects with
    a [DatabaseIsNotOkError]; its code is MIGRATION_STATE_ERROR when no version
    of the result is behind ([expected > actual]), and otherwise may be the
    code of the check that fires first. *)
Theorem surplus_rows_are_rejected km w result w1 V c :
  integrityCheck km false w = (Ok result, w1) ->
  jsGet V result = Some c ->
  V <> INIT ->
  expected c < actual c ->
  exists code,
    isDatabaseOK km w = (Err (DatabaseIsNotOkError code), w1)
    /\ (code = "DB_NOT_INITIALISED" \/ code = "DB_NEEDS_MIGRATION"
        \/ code = "MIGRATION_STATE_ERROR")
    /\ ((forall V' c', In (V', c') result -> expected c' <= actual c') ->
        code = "MIGRATION_STATE_ERROR").
Proof.
  intros H HV Hne Hlt. unfold isDatabaseOK. rewrite (bind_ok _ H).
  unfold checkResult, bind at 1.
  destruct (jsGet INIT result) as [ci|] eqn:Gi.
  - destruct (Nat.ltb_spec (actual ci) (expected ci)) as [Hi|Hi].
    + exists "DB_NOT_INITIALISED". splits; auto.
      intros Hall. apply jsGet_In, Hall in Gi. lia.
    + unfold ret at 1.
      destruct (each _ (jsEntries (jsDelete INIT result)) w1) as [r w2] eqn:E.
      apply checkVersions_inv in E as [-> [[_ Hall]|[[-> (e & He & Hb)]| -> ]]].
      * exfalso.
        assert (In (V, c) (jsEntries (jsDelete INIT result))) as Hin.
        { apply (proj2 (In_jsEntries _ _)), In_jsDelete. split; [now apply jsGet_In|assumption]. }
        apply Hall in Hin. cbn in Hin. lia.
      * exists "DB_NEEDS_MIGRATION". splits; auto.
        intros Hall'. destruct e as [V' c']. apply (proj1 (In_jsEntries _ _)) in He.
        apply In_jsDelete in He as [He _]. apply Hall' in He. cbn in Hb. lia.
      * exists "MIGRATION_STATE_ERROR". splits; auto.
  - unfold ret at 1.
    destruct (each _ (jsEntries (jsDelete INIT result)) w1) as [r w2] eqn:E.
    apply checkVersions_inv in E as [-> [[_ Hall]|[[-> (e & He & Hb)]| -> ]]].
    + exfalso.
      assert (In (V, c) (jsEntries (jsDelete INIT result))) as Hin.
      { apply (proj2 (In_jsEntries _ _)), In_jsDelete. split; [now apply jsGet_In|assumption]. }
      apply Hall in Hin. cbn in Hin. lia.
    + exists "DB_NEEDS_MIGRATION". splits; auto.
      intros Hall'. destruct e as [V' c']. apply (proj1 (In_jsEntries _ _)) in He.
      apply In_jsDelete in He as [He _]. apply Hall' in He. cbn in Hb. lia.
    + exists "MIGRATION_STATE_ERROR". splits; auto.
Qed.

(* ===================================================================== *)
(** * Worked examples for the integrity check *)
(* ===================================================================== *)

Definition plainTask (n : string) : Task := mkTask n (mkCode [] (Resolves false)).

Definition storeWith (l : list Row) : Store :=
  mkStore (inr l) (Some [mkLockRow "km01" None None]) [] [].

Definition worldWith (l : list Row) : World := mkWorld (mkDb true (storeWith l) None) [].

(** A project at version 1.1 whose database was initialised at 1.0: one init
    task, recorded; two tasks for 1.1, not yet run. *)
Definition fsA : Fs :=
  mkFs (Some [plainTask "1-init"])
       (Some [("1.1", [plainTask "1-a"; plainTask "2-b"])]).

Definition kmA : KnexMigrator := mkKnexMigrator "1.1" fsA noHooks noHooks.
Definition wA : World := worldWith [mkRow "1-init" "init" "1.0"].

(** The same project, still configured for 1.0. *)
Definition kmB : KnexMigrator := mkKnexMigrator "1.0" fsA noHooks noHooks.

(** The value of a fulfilled promise. *)
Definition valueOf {A} (default : A) (r : Res A) : A :=
  match r with
  | Ok a => a
  | _ => default
  end.

(** The expected count in the words of the claim: the task files on disk
    when the version is at most the baseline, the actual count otherwise. *)
Definition expectedAsWorded (km : KnexMigrator) (baseline : option string) (V : string)
  (actual : nat) : option nat :=
  if isGreaterThanVersion baseline V then Some actual
  else option_map (@length Task) (tasksAt (migrationPath km) (VersionFolder V)).

(** C2 fails as worded: version 1.1 is above the baseline 1.0, so the
    wording makes its expected count the actual count, 0; the check makes it
    the two task files on disk. *)
Lemma expected_is_not_as_worded :
  exists result w' c,
    integrityCheck kmA false wA = (Ok result, w')
    /\ jsGet "1.1" result = Some c
    /\ isGreaterThanVersion (initBaseline (rowsOf INIT (ledgerOf wA))) "1.1" = true
    /\ expectedAsWorded kmA (initBaseline (rowsOf INIT (ledgerOf wA))) "1.1" (actual c) = Some 0
    /\ expected c = 2.
Proof.
  eexists. eexists. eexists. split; [vm_compute; reflexivity|].
  split; [vm_compute; reflexivity|]. repeat split.
Qed.

Lemma expected_counts_follow_baseline_witness :
  let result := valueOf [] (fst (integrityCheck kmA false wA)) in
  let c := mkCounts 2 0 in
  actual c = length (rowsOf "1.1" (ledgerOf wA))
  /\ (isGreaterThanVersion (initBaseline (rowsOf INIT (ledgerOf wA))) "1.1" = true ->
      exists ts, tasksAt (migrationPath kmA) (VersionFolder "1.1") = Some ts
                 /\ expected c = length ts)
  /\ (isGreaterThanVersion (initBaseline (rowsOf INIT (ledgerOf wA))) "1.1" = false ->
      expected c = actual c).
Proof.
  intros result c.
  apply (@expected_counts_follow_baseline kmA false wA result
           (snd (integrityCheck kmA false wA)) "1.1" c).
  - vm_compute. reflexivity.
  - vm_compute. reflexivity.
  - discriminate.
  - reflexivity.
Defined.


(** A database whose ledger holds two init rows while one init task is on
    disk (an init script was removed). *)
Definition kmC : KnexMigrator :=
  mkKnexMigrator "1.0" (mkFs (Some [plainTask "1-init"]) (Some [])) noHooks noHooks.
Definition wC : World :=
  worldWith [mkRow "1-init" "init" "1.0"; mkRow "2-init" "init" "1.0"].

(** C6 fails as worded: init is a version of the result, its actual count 2
    exceeds its expected count 1, and [isDatabaseOK] fulfils. *)
Lemma surplus_init_rows_are_accepted :
  exists result w' c,
    integrityCheck kmC false wC = (Ok result, w')
    /\ jsGet INIT result = Some c
    /\ expected c < actual c
    /\ fst (isDatabaseOK kmC wC) = Ok tt.
Proof.
  eexists. eexists. eexists. split; [vm_compute; reflexivity|].
  split; [vm_compute; reflexivity|]. split; [cbn; lia|reflexivity].
Qed.

(** A ledger with a surplus row for version 1.1 of a project with one task
    file for it. *)
Definition kmD : KnexMigrator :=
  mkKnexMigrator "1.1" (mkFs (Some [plainTask "1-init"]) (Some [("1.1", [plainTask "1-a"])]))
                 noHooks noHooks.
Definition wD : World :=
  worldWith [mkRow "1-init" "init" "1.0"; mkRow "1-a" "1.1" "1.0"; mkRow "9-z" "1.1" "1.0"].

Lemma surplus_rows_are_rejected_witness :
  isDatabaseOK kmD wD = (Err (DatabaseIsNotOkError "MIGRATION_STATE_ERROR"), wD).
Proof.
  destruct (@surplus_rows_are_rejected kmD wD
              (valueOf [] (fst (integrityCheck kmD false wD)))
              (snd (integrityCheck kmD false wD)) "1.1" (mkCounts 1 2)
              eq_refl eq_refl ltac:(discriminate) ltac:(cbn; lia))
    as (code & Hrun & _ & Hcode).
  rewrite Hrun. rewrite Hcode; [reflexivity|].
  intros V' c' Hin. cbn in Hin.
  destruct Hin as [Hin|[Hin|[]]]; inversion Hin; subst; cbn; lia.
Defined.

(** A ledger that records [1-a] for version 1.0 only, and a task file of
    the same name in folder 1.1. *)
Definition wE : World :=
  worldWith [mkRow "1-init" "init" "1.0"; mkRow "1-a" "1.0" "1.0"].

Lemma completion_matches_name_only_witness :
  recorded "1-a" "1.1" (ledgerOf wE) = false
  /\ completeFile kmA "1.1" (plainTask "1-a") wE = (Ok tt, wE).
Proof.
  split; [reflexivity|].
  apply (@completion_matches_name_only kmA "1-a" wE); [|reflexivity].
  exists (mkRow "1-a" "1.0" "1.0"). split; [right; left; reflexivity|reflexivity].
Defined.

(* ===================================================================== *)
(** * Footprints: the events a computation emits and the errors it raises *)
(* ===================================================================== *)

(** [confined Q E m]: [m] settles, emits only events in [Q], and rejects only
    with errors in [E]. *)
Definition confined (Q : Event -> Prop) (E : Error -> Prop) {A} (m : M A) : Prop :=
  forall w,
    (exists tr, events (snd (m w)) = events w ++ tr /\ Forall Q tr)
    /\ match fst (m w) with
       | Ok _ => True
       | Err e => E e
       | Pending => False
       end.

(** The errors that reach the callers: every class but the two the run
    handles itself. *)
Definition ordinary (e : Error) : Prop :=
  match e with
  | MigrationsAreLocked | MigrationExistsError _ => False
  | _ => True
  end.

(** Errors user code can reject with: its own, and [MigrationsAreLocked]. *)
Definition foreign (e : Error) : Prop :=
  match e with
  | MigrationExistsError _ => False
  | _ => True
  end.

Lemma ordinary_foreign e : ordinary e -> foreign e.
Proof. destruct e; cbn; auto. Qed.

Definition anyError (e : Error) : Prop := True.

Section Footprint.

Variable Q : Event -> Prop.

Lemma confined_weaken (Q' : Event -> Prop) (E E' : Error -> Prop) A (m : M A) :
  (forall ev, Q' ev -> Q ev) -> (forall e, E e -> E' e) ->
  confined Q' E m -> confined Q E' m.
Proof.
  intros HQ HE H w. destruct (H w) as [(tr & Htr & Hall) Hr]. split.
  - exists tr. split; [assumption|]. eapply Forall_impl; eauto.
  - destruct (fst (m w)); auto.
Qed.

Lemma confined_ret E A (a : A) : confined Q E (ret a).
Proof. intros w. split; [exists []; split; [now rewrite app_nil_r|constructor] | exact I]. Qed.

Lemma confined_throw (E : Error -> Prop) A e : E e -> confined Q E (@throw A e).
Proof. intros He w. split; [exists []; split; [now rewrite app_nil_r|constructor] | exact He]. Qed.

Lemma confined_getDb E : confined Q E getDb.
Proof. intros w. split; [exists []; split; [now rewrite app_nil_r|constructor] | exact I]. Qed.

Lemma confined_modifyDb E f : confined Q E (modifyDb f).
Proof. intros w. split; [exists []; split; [cbn; now rewrite app_nil_r|constructor] | exact I]. Qed.

Lemma confined_emit E ev : Q ev -> confined Q E (emit ev).
Proof. intros Hev w. split; [exists [ev]; split; [reflexivity|auto] | exact I]. Qed.

Lemma confined_bind E A B (m : M A) (k : A -> M B) :
  confined Q E m -> (forall a, confined Q E (k a)) -> confined Q E (bind m k).
Proof.
  intros Hm Hk w. unfold bind. destruct (Hm w) as [(tr & Htr & Hall) Hr].
  destruct (m w) as [[a|e|] w1]; cbn in *; try contradiction.
  - destruct (Hk a w1) as [(tr2 & Htr2 & Hall2) Hr2]. split; [|assumption].
    exists (tr ++ tr2). split; [now rewrite Htr2, Htr, app_assoc|].
    apply Forall_app. auto.
  - split; [eauto|assumption].
Qed.

Lemma confined_catch (E1 E : Error -> Prop) A (m : M A) (h : Error -> M A) :
  confined Q E1 m -> (forall e, E1 e -> confined Q E (h e)) -> confined Q E (catch m h).
Proof.
  intros Hm Hh w. unfold catch. destruct (Hm w) as [(tr & Htr & Hall) Hr].
  destruct (m w) as [[a|e|] w1]; cbn in *; try contradiction.
  - split; [eauto|exact I].
  - destruct (Hh e Hr w1) as [(tr2 & Htr2 & Hall2) Hr2]. split; [|assumption].
    exists (tr ++ tr2). split; [now rewrite Htr2, Htr, app_assoc|].
    apply Forall_app. auto.
Qed.

Lemma confined_finally E A (m : M A) (f : M unit) :
  confined Q E m -> confined Q E f -> confined Q E (finally m f).
Proof.
  intros Hm Hf w. unfold finally. destruct (Hm w) as [(tr & Htr & Hall) Hr].
  destruct (m w) as [[a|e|] w1]; cbn in *; try contradiction;
    destruct (Hf w1) as [(tr2 & Htr2 & Hall2) Hr2];
    destruct (f w1) as [[[]|e2|] w2]; cbn in *; try contradiction;
    (split; [exists (tr ++ tr2); split;
               [now rewrite Htr2, Htr, app_assoc | apply Forall_app; auto] | auto]).
Qed.

Lemma confined_each E A (f : A -> M unit) l :
  (forall x, confined Q E (f x)) -> confined Q E (each f l).
Proof.
  intros Hf. induction l as [|x l IH]; cbn [each].
  - apply confined_ret.
  - apply confined_bind; auto.
Qed.

Lemma confined_selectMigrations (E : Error -> Prop) :
  (forall n, E (DbError n)) -> confined Q E selectMigrations.
Proof.
  intros HE w. unfold selectMigrations.
  destruct (migrations (view (db w))); cbn;
    (split; [exists []; split; [now rewrite app_nil_r|constructor] | auto]).
Qed.

Lemma confined_readTasks (E : Error -> Prop) km p :
  (forall c, E (KnexMigrateError c)) -> confined Q E (readTasks km p).
Proof.
  intros HE. unfold readTasks. destruct (tasksAt _ p); [apply confined_ret|now apply confined_throw].
Qed.

Lemma confined_readFolders (E : Error -> Prop) km :
  (forall c, E (KnexMigrateError c)) -> confined Q E (readFolders km).
Proof.
  intros HE. unfold readFolders.
  destruct (versionsDir _); [apply confined_ret|now apply confined_throw].
Qed.

End Footprint.

(** Applies the footprint rules along the structure of a computation. *)
Ltac confine :=
  repeat first
    [ assumption
    | apply confined_ret
    | apply confined_getDb
    | apply confined_modifyDb
    | apply confined_emit; cbn; now auto
    | apply confined_throw; cbn; now auto
    | apply confined_selectMigrations; intros; exact I
    | apply confined_readTasks; intros; exact I
    | apply confined_readFolders; intros; exact I
    | apply confined_each; intros ?
    | apply confined_bind; [|intros ?]
    | match goal with
      | |- confined _ _ (if ?b then _ else _) => destruct b
      | |- confined _ _ (match ?x with _ => _ end) => destruct x
      end ].

Lemma any_error Q E A (m : M A) : confined Q E m -> confined Q anyError m.
Proof. apply confined_weaken; auto. intros; exact I. Qed.

(** Events other than taking and releasing the lock. *)
Definition quiet (ev : Event) : Prop :=
  match ev with
  | EvLock | EvUnlock => False
  | _ => True
  end.

Lemma runCode_quiet c : confined quiet foreign (runCode c).
Proof.
  unfold runCode. apply confined_bind.
  - apply confined_each. intros []; cbn; apply confined_modifyDb.
  - intros _. destruct (settles c); [apply confined_ret | now apply confined_throw..].
Qed.

Lemma runHook_quiet which h : confined quiet foreign (runHook which h).
Proof.
  unfold runHook. destruct h as [c|]; [|apply confined_ret].
  apply confined_bind; [now apply confined_emit|]. intros _.
  apply confined_bind; [apply runCode_quiet|]. intros _. apply confined_ret.
Qed.

Lemma insertMigration_quiet r : confined quiet ordinary (insertMigration r).
Proof. unfold insertMigration. confine. Qed.

Lemma beforeEachTask_quiet task ver : confined quiet anyError (beforeEachTask task ver).
Proof. unfold beforeEachTask. confine; apply confined_throw; exact I. Qed.

Lemma completeFile_quiet km ver file : confined quiet ordinary (completeFile km ver file).
Proof.
  unfold completeFile. apply confined_bind; [confine|]. intros l.
  destruct (filter _ l); [apply insertMigration_quiet|apply confined_ret].
Qed.

Lemma completeVersion_quiet km ver : confined quiet ordinary (completeVersion km ver).
Proof.
  unfold completeVersion. apply confined_bind; [confine|]. intros ts.
  apply confined_each. intros f. apply completeFile_quiet.
Qed.

Lemma createMigrationsTable_quiet : confined quiet ordinary createMigrationsTable.
Proof.
  unfold createMigrationsTable. apply confined_catch with (E1 := ordinary); [confine|].
  intros e He. destruct e; confine.
Qed.

Lemma onMigrationsLookupError_ordinary errno : ordinary (onMigrationsLookupError errno).
Proof.
  unfold onMigrationsLookupError.
  repeat match goal with |- context [if ?b then _ else _] => destruct b end; exact I.
Qed.

Lemma scanFolders_quiet km force st folders :
  forall fut ops, confined quiet ordinary (scanFolders km force st folders fut ops).
Proof. induction folders as [|f r IH]; intros fut ops; cbn [scanFolders]; confine; apply IH. Qed.

Lemma props_quiet entries : confined quiet ordinary (props entries).
Proof.
  induction entries as [|[k [e|value]] es IH]; cbn [props]; confine.
  apply confined_throw, onMigrationsLookupError_ordinary.
Qed.

Lemma countVersions_quiet km entries :
  forall cv t, confined quiet ordinary (countVersions km entries cv t).
Proof.
  induction entries as [|[ver value] es IH]; intros cv t; cbn [countVersions]; confine; apply IH.
Qed.

Lemma dropFutureVersions_quiet fut :
  forall t, confined quiet ordinary (dropFutureVersions fut t).
Proof.
  induction fut as [|fv r IH]; intros t; cbn [dropFutureVersions]; [confine|].
  destruct (jsGet fv t) as [c|]; [|confine].
  destruct (actual c =? expected c); [apply IH|].
  apply confined_bind; [|intros _; apply IH].
  unfold skipWarnings. cbn [each]. confine.
Qed.

Lemma integrityCheck_quiet km force : confined quiet ordinary (integrityCheck km force).
Proof.
  unfold integrityCheck. apply confined_bind; [|intros ?; apply dropFutureVersions_quiet].
  unfold integrityCounts. apply confined_bind; [confine|]. intros d.
  apply confined_bind.
  { apply confined_catch with (E1 := anyError); [|intros; apply confined_ret].
    apply confined_bind; [|intros; apply confined_ret].
    apply confined_readFolders. intros; exact I. }
  intros folders. apply confined_bind; [apply scanFolders_quiet|]. intros scanned.
  apply confined_bind; [apply props_quiet|]. intros result.
  apply confined_bind; [apply countVersions_quiet|]. intros t. apply confined_ret.
Qed.

Lemma scriptError_ordinary err task : ordinary (scriptError err task).
Proof.
  unfold scriptError. destruct (hasCode _ err); [destruct (quotedWords err)|]; exact I.
Qed.

(** ** Footprints of the locking revision *)

Lemma locking_complete_quiet km : confined quiet ordinary (Locking.complete km).
Proof.
  intros w. unfold Locking.complete, readFolders.
  destruct (versionsDir (migrationPath km)) as [l|]; cbn.
  - apply (confined_each (Q:=quiet) (E:=ordinary)). intros v. apply completeVersion_quiet.
  - split; [exists []; split; [now rewrite app_nil_r|constructor] | exact I].
Qed.

Lemma locking_executeTask_quiet km ver hooks skipped task :
  confined quiet ordinary (Locking.executeTask km ver hooks skipped task).
Proof.
  unfold Locking.executeTask. destruct task as [t|]; [|now apply confined_throw].
  apply confined_catch with (E1 := anyError).
  - apply confined_bind; [apply beforeEachTask_quiet|]. intros _.
    apply confined_bind; [apply any_error with (E := foreign), runHook_quiet|]. intros _.
    apply confined_bind; [now apply confined_emit|]. intros _.
    apply confined_bind; [apply any_error with (E := foreign), runCode_quiet|]. intros _.
    apply confined_bind; [apply any_error with (E := ordinary), insertMigration_quiet|].
    intros _.
    apply confined_bind; [apply any_error with (E := foreign), runHook_quiet|]. intros _.
    apply confined_ret.
  - intros e _. destruct e; try apply confined_ret;
      apply confined_throw, scriptError_ordinary.
Qed.

Lemma locking_executeTasks_quiet km ver hooks tasks :
  forall skipped, confined quiet ordinary (Locking.executeTasks km ver hooks tasks skipped).
Proof.
  induction tasks as [|t r IH]; intros skipped; cbn [Locking.executeTasks].
  - apply confined_ret.
  - apply confined_bind; [apply locking_executeTask_quiet|]. intros s. apply IH.
Qed.

Lemma locking_migrateTo_quiet km ver hooks only skip :
  confined quiet ordinary (Locking.migrateTo km ver hooks only skip).
Proof.
  unfold Locking.migrateTo. apply confined_bind.
  - destruct (negb (String.eqb ver INIT)); [confine|].
    apply confined_catch with (E1 := ordinary); [confine|].
    intros e He. destruct (hasCode _ e); [apply confined_ret|now apply confined_throw].
  - intros tasks. apply confined_bind; [apply locking_executeTasks_quiet|]. intros s.
    destruct (_ || _); [apply confined_ret|apply locking_complete_quiet].
Qed.

Lemma createTransaction_confined Q E A (m : M A) :
  confined Q E m -> confined Q E (Locking.createTransaction m).
Proof.
  intros H w. unfold Locking.createTransaction.
  destruct (H (mkWorld (begin (db w)) (events w))) as [(tr & Htr & Hall) Hr].
  destruct (m _) as [[a|e|] w1]; cbn in *; try contradiction; split; eauto.
Qed.

(* ===================================================================== *)
(** * Locks and unlocks along a trace *)
(* ===================================================================== *)

(** Whether the lock is held at the end of a trace, given whether it was
    at the start. *)
Fixpoint lockHeld (held : bool) (tr : list Event) : bool :=
  match tr with
  | [] => held
  | EvLock :: r => lockHeld true r
  | EvUnlock :: r => lockHeld false r
  | _ :: r => lockHeld held r
  end.

Definition notLock (ev : Event) : Prop := ev <> EvLock.

Lemma lockHeld_app tr1 : forall b tr2,
  lockHeld b (tr1 ++ tr2) = lockHeld (lockHeld b tr1) tr2.
Proof. induction tr1 as [|[] r IH]; intros b tr2; cbn; auto. Qed.

Lemma lockHeld_notLock tr : Forall notLock tr -> lockHeld false tr = false.
Proof.
  induction 1 as [|ev r Hev _ IH]; [reflexivity|].
  destruct ev; cbn; auto. now elim Hev.
Qed.

Lemma lockHeld_unlocked b tr tr' :
  Forall notLock tr' -> lockHeld b (tr ++ EvUnlock :: tr') = false.
Proof. intros H. rewrite lockHeld_app. cbn. now apply lockHeld_notLock. Qed.

Lemma lockHeld_true_false tr : lockHeld true tr = false -> In EvUnlock tr.
Proof.
  induction tr as [|ev r IH]; cbn; [discriminate|].
  destruct ev; auto.
Qed.

(** What [lockHeld false tr = false] says: every lock taken in the trace is
    followed by a call of [unlock]. *)
Lemma lockHeld_released tr : forall b,
  lockHeld b tr = false ->
  forall pre post, tr = pre ++ EvLock :: post -> In EvUnlock post.
Proof.
  induction tr as [|ev r IH]; intros b H pre post Heq.
  - now destruct pre.
  - destruct pre as [|ev' pre]; cbn in Heq; inversion Heq; subst.
    + cbn in H. now apply lockHeld_true_false.
    + destruct ev'; cbn in H; eapply IH; eauto.
Qed.

Lemma quiet_notLock ev : quiet ev -> notLock ev.
Proof. destruct ev; cbn; intros H; try contradiction; discriminate. Qed.

(** A computation that, once the lock is taken, emits no further lock, rejects
    ordinarily, and calls [unlock] last when it fulfils. *)
Definition releasing {A} (m : M A) : Prop :=
  forall w, exists tr,
    events (snd (m w)) = events w ++ tr
    /\ Forall notLock tr
    /\ match fst (m w) with
       | Ok _ => exists tr', tr = tr' ++ [EvUnlock]
       | Err e => ordinary e
       | Pending => False
       end.

Lemma unlock_releasing now : releasing (Locking.unlock now).
Proof.
  intros w. unfold Locking.unlock, bind, emit, getDb. cbn.
  exists [EvUnlock].
  destruct (migrations_lock _); cbn;
    (split; [reflexivity|]); (split; [repeat constructor; discriminate|]);
    [now exists [] | exact I].
Qed.

Lemma releasing_bind A B (m : M A) (k : A -> M B) :
  confined quiet ordinary m -> (forall a, releasing (k a)) -> releasing (bind m k).
Proof.
  intros Hm Hk w. unfold bind. destruct (Hm w) as [(tr & Htr & Hall) Hr].
  assert (Forall notLock tr) as Hall' by (eapply Forall_impl; [apply quiet_notLock|eauto]).
  destruct (m w) as [[a|e|] w1]; cbn in *; try contradiction.
  - destruct (Hk a w1) as (tr2 & Htr2 & Hall2 & Hr2).
    exists (tr ++ tr2). split; [now rewrite Htr2, Htr, app_assoc|].
    split; [apply Forall_app; auto|].
    destruct (fst (k a w1)); auto.
    destruct Hr2 as [tr' ->]. exists (tr ++ tr'). now rewrite app_assoc.
  - exists tr. auto.
Qed.

(** Every lock of the trace is followed by an unlock, and the promise
    settles. *)
Definition balanced {A} (m : M A) : Prop :=
  forall w,
    (exists tr, events (snd (m w)) = events w ++ tr /\ lockHeld false tr = false)
    /\ fst (m w) <> Pending.

Lemma unlock_then_throw A now e w0 :
  exists r d, (Locking.unlock now ;; @throw A e) w0
              = (Err r, mkWorld d (events w0 ++ [EvUnlock])).
Proof.
  unfold bind, Locking.unlock, bind, emit, getDb, throw, modifyDb. cbn.
  destruct (migrations_lock _); cbn; eauto.
Qed.

Lemma releaseOnError_inv A now e w0 :
  ordinary e ->
  exists r d, Locking.releaseOnError (A:=A) now e w0
              = (Err r, mkWorld d (events w0 ++ [EvUnlock])) /\ ordinary r.
Proof.
  intros He. unfold Locking.releaseOnError.
  destruct (unlock_then_throw A now e w0) as (r & d & Hu).
  assert (ordinary r) as Hr.
  { revert Hu. unfold bind, Locking.unlock, bind, emit, getDb, throw, modifyDb. cbn.
    destruct (migrations_lock (view (db w0))); cbn; intros Hu;
      apply (f_equal fst) in Hu; cbn in Hu; injection Hu as <-; [assumption | exact I]. }
  destruct e; try contradiction; exists r, d; split; assumption.
Qed.

Lemma guarded_balanced A (k : M A) now :
  releasing k ->
  balanced (catch (Locking.lock ;; k) (Locking.releaseOnError now)).
Proof.
  intros Hk w.
  destruct (catch (Locking.lock ;; k) (Locking.releaseOnError now) w) as [r w'] eqn:E.
  cbn [fst snd]. unfold catch, Locking.lock, bind, getDb in E. cbv beta iota in E.
  destruct (migrations_lock (view (db w))) as [l|] eqn:El.
  - unfold emit in E. cbv beta iota in E.
    destruct (Hk (mkWorld (db w) (events w ++ [EvLock]))) as (tr & Htr & Hall & Hr).
    destruct (k _) as [[a|e|] w1]; cbn in Htr, Hr; try contradiction.
    + inversion E; subst. split; [|discriminate]. destruct Hr as [tr' ->].
      exists (EvLock :: tr' ++ [EvUnlock]). split.
      * rewrite Htr, <- app_assoc. reflexivity.
      * change (EvLock :: tr' ++ [EvUnlock]) with ((EvLock :: tr') ++ EvUnlock :: []).
        now apply lockHeld_unlocked.
    + destruct (@releaseOnError_inv A now e w1 Hr) as (r' & d & Hrw & _).
      rewrite Hrw in E. inversion E; subst. cbn. split; [|discriminate].
      exists (EvLock :: tr ++ [EvUnlock]). split.
      * rewrite Htr, <- !app_assoc. reflexivity.
      * change (EvLock :: tr ++ [EvUnlock]) with ((EvLock :: tr) ++ EvUnlock :: []).
        now apply lockHeld_unlocked.
  - unfold throw in E. cbv beta iota in E.
    destruct (@releaseOnError_inv A now (DbError (noSuchTable (db w))) w I)
      as (r' & d & Hrw & _).
    rewrite Hrw in E. inversion E; subst. cbn. split; [|discriminate].
    exists [EvUnlock]. split; reflexivity.
Qed.

Lemma balanced_of_confined E A (m : M A) : confined quiet E m -> balanced m.
Proof.
  intros H w. destruct (H w) as [(tr & Htr & Hall) Hr]. split.
  - exists tr. split; [assumption|]. apply lockHeld_notLock.
    eapply Forall_impl; [apply quiet_notLock|eauto].
  - destruct (fst (m w)); [discriminate|discriminate|contradiction].
Qed.

Lemma balanced_bind A B (m : M A) (k : A -> M B) :
  balanced m -> (forall a, balanced (k a)) -> balanced (bind m k).
Proof.
  intros Hm Hk w. unfold bind. destruct (Hm w) as [(tr & Htr & Hh) Hr].
  destruct (m w) as [[a|e|] w1]; cbn in *; try congruence.
  - destruct (Hk a w1) as [(tr2 & Htr2 & Hh2) Hr2]. split; [|assumption].
    exists (tr ++ tr2). split; [now rewrite Htr2, Htr, app_assoc|].
    now rewrite lockHeld_app, Hh.
  - split; [eauto|discriminate].
Qed.

Lemma balanced_finally A (m : M A) (f : M unit) :
  balanced m -> balanced f -> balanced (finally m f).
Proof.
  intros Hm Hf w. unfold finally. destruct (Hm w) as [(tr & Htr & Hh) Hr].
  destruct (m w) as [[a|e|] w1]; cbn in *; try congruence;
    destruct (Hf w1) as [(tr2 & Htr2 & Hh2) Hr2];
    destruct (f w1) as [[[]|e2|] w2]; cbn in *; try congruence;
    (split; [exists (tr ++ tr2); split;
               [now rewrite Htr2, Htr, app_assoc | now rewrite lockHeld_app, Hh]
            | discriminate]).
Qed.

Lemma balanced_createTransaction A (m : M A) :
  balanced m -> balanced (Locking.createTransaction m).
Proof.
  intros H w. unfold Locking.createTransaction.
  destruct (H (mkWorld (begin (db w)) (events w))) as [(tr & Htr & Hh) Hr].
  destruct (m _) as [[a|e|] w1]; cbn in *; try congruence; split; eauto; discriminate.
Qed.

Lemma ensureLockTable_quiet : confined quiet foreign Locking.ensureLockTable.
Proof.
  unfold Locking.ensureLockTable. apply confined_bind; [apply confined_getDb|]. intros d.
  destruct (migrations_lock (view d)); [apply confined_ret|].
  apply confined_catch with (E1 := ordinary); [confine|].
  intros e He. destruct e; try (now apply confined_throw).
  destruct (errno =? 5); now apply confined_throw.
Qed.

(** Whether a hook rejects with an instance of [MigrationsAreLocked], the
    error the handlers of [init] and [migrate] rethrow as it is. *)
Definition rejectsLocked (h : option UserCode) : bool :=
  match h with
  | Some c => match settles c with RejectsLocked => true | _ => false end
  | None => false
  end.

(** Neither the before hook nor the after hook does. *)
Definition locksAside (hooks : Hooks) : Prop :=
  rejectsLocked (before hooks) = false /\ rejectsLocked (after hooks) = false.

Lemma runHook_ordinary which h :
  rejectsLocked h = false -> confined quiet ordinary (runHook which h).
Proof.
  unfold runHook, rejectsLocked. destruct h as [c|]; intros Hh; [|apply confined_ret].
  apply confined_bind; [now apply confined_emit|]. intros _.
  apply confined_bind; [|intros _; apply confined_ret].
  unfold runCode. apply confined_bind.
  - apply confined_each. intros []; cbn; apply confined_modifyDb.
  - intros _. destruct (settles c);
      [apply confined_ret | now apply confined_throw | discriminate].
Qed.

Lemma locksAside_noHooks : locksAside noHooks.
Proof. split; reflexivity. Qed.

Lemma locking_init_balanced km options now :
  (disableHooks options = false -> locksAside (initHooks km)) ->
  balanced (Locking.init km options now).
Proof.
  intros Hhooks.
  assert (locksAside (if disableHooks options then noHooks else initHooks km)) as [Hb Ha].
  { destruct (disableHooks options); [apply locksAside_noHooks|now apply Hhooks]. }
  unfold Locking.init.
  apply balanced_finally; [|apply balanced_of_confined with (E := foreign), runHook_quiet].
  destruct (noScripts options);
    [apply balanced_of_confined with (E := ordinary), confined_ret|].
  apply balanced_bind;
    [apply balanced_of_confined with (E := ordinary), createMigrationsTable_quiet|].
  intros _.
  apply balanced_bind;
    [apply balanced_of_confined with (E := foreign), ensureLockTable_quiet|].
  intros _.
  apply balanced_createTransaction, guarded_balanced.
  apply releasing_bind; [now apply runHook_ordinary|]. intros _.
  apply releasing_bind; [apply locking_migrateTo_quiet|]. intros _.
  apply releasing_bind; [now apply runHook_ordinary|]. intros _.
  apply unlock_releasing.
Qed.

Lemma locking_migrateOnly_balanced km options now :
  locksAside (migrateHooks km) ->
  balanced (Locking.migrateOnly km options now).
Proof.
  intros [Hb Ha]. unfold Locking.migrateOnly.
  apply balanced_finally; [|apply balanced_of_confined with (E := foreign), runHook_quiet].
  apply balanced_createTransaction, guarded_balanced.
  apply releasing_bind; [apply integrityCheck_quiet|]. intros result.
  apply releasing_bind.
  { unfold warnMissingVersion. confine. }
  intros _. cbv zeta.
  apply releasing_bind.
  { destruct (_ =? 0); [apply confined_ret|now apply runHook_ordinary]. }
  intros _. apply releasing_bind.
  { destruct (_ =? 0); [apply confined_ret|].
    apply confined_each. intros v. apply locking_migrateTo_quiet. }
  intros _. apply releasing_bind.
  { destruct (_ =? 0); [apply confined_ret|now apply runHook_ordinary]. }
  intros _. apply unlock_releasing.
Qed.

Lemma locking_migrate_balanced km options now :
  locksAside (migrateHooks km) ->
  (opt_init options = true -> locksAside (initHooks km)) ->
  balanced (Locking.migrate km options now).
Proof.
  intros Hm Hi. unfold Locking.migrate. destruct (opt_init options).
  - apply balanced_bind; [apply locking_init_balanced; auto|].
    intros _. now apply locking_migrateOnly_balanced.
  - now apply locking_migrateOnly_balanced.
Qed.

(** What [balanced] says of one run. *)
Lemma balanced_run A (m : M A) w tr :
  balanced m ->
  events (snd (m w)) = events w ++ tr ->
  fst (m w) <> Pending
  /\ forall pre post, tr = pre ++ EvLock :: post -> In EvUnlock post.
Proof.
  intros Hm Htr. destruct (Hm w) as [(tr' & Htr' & Hh) Hr]. split; [assumption|].
  rewrite Htr' in Htr. apply app_inv_head in Htr. subst tr'.
  now apply lockHeld_released with (b := false).
Qed.

(* ===================================================================== *)
(** * The errors a run can reject with *)
(* ===================================================================== *)

Definition anyEvent (ev : Event) : Prop := True.

Definition notExists (e : Error) : Prop := forall task, e <> MigrationExistsError task.

Lemma ordinary_notExists e : ordinary e -> notExists e.
Proof. intros H task ->. exact H. Qed.

Lemma foreign_notExists e : foreign e -> notExists e.
Proof. intros H task ->. exact H. Qed.

(** [rejectsOnly E m]: when [m] rejects, the error is in [E]; [m] may also
    never settle. *)
Definition rejectsOnly (E : Error -> Prop) {A} (m : M A) : Prop :=
  forall w e, fst (m w) = Err e -> E e.

Lemma rejectsOnly_confined Q (E E' : Error -> Prop) A (m : M A) :
  (forall e, E e -> E' e) -> confined Q E m -> rejectsOnly E' m.
Proof. intros HE H w e He. destruct (H w) as [_ Hr]. rewrite He in Hr. auto. Qed.

Lemma rejectsOnly_bind E A B (m : M A) (k : A -> M B) :
  rejectsOnly E m -> (forall a, rejectsOnly E (k a)) -> rejectsOnly E (bind m k).
Proof.
  intros Hm Hk w e. unfold bind. specialize (Hm w).
  destruct (m w) as [[a|e'|] w1]; cbn in *.
  - apply Hk.
  - intros H. inversion H; subst. now apply Hm.
  - discriminate.
Qed.

Lemma rejectsOnly_finally E A (m : M A) (f : M unit) :
  rejectsOnly E m -> rejectsOnly E f -> rejectsOnly E (finally m f).
Proof.
  intros Hm Hf w e. unfold finally. specialize (Hm w).
  destruct (m w) as [[a|e'|] w1]; cbn in *; try discriminate;
    specialize (Hf w1); destruct (f w1) as [[[]|e2|] w2]; cbn in *;
    intros H; inversion H; subst; auto.
Qed.

Lemma lock_footprint : confined anyEvent foreign Locking.lock.
Proof. unfold Locking.lock. confine; apply confined_emit; exact I. Qed.

Lemma unlock_footprint now : confined anyEvent foreign (Locking.unlock now).
Proof.
  unfold Locking.unlock. apply confined_bind; [apply confined_emit; exact I|].
  intros _. confine.
Qed.

Lemma loosen A (m : M A) : confined quiet ordinary m -> confined anyEvent foreign m.
Proof. apply confined_weaken; [intros; exact I|apply ordinary_foreign]. Qed.

Lemma loosen_foreign A (m : M A) : confined quiet foreign m -> confined anyEvent foreign m.
Proof. apply confined_weaken; auto. intros; exact I. Qed.

Lemma releaseOnError_footprint A now e :
  foreign e -> confined anyEvent foreign (Locking.releaseOnError (A:=A) now e).
Proof.
  intros He. unfold Locking.releaseOnError.
  destruct e; try contradiction; try (now apply confined_throw);
    (apply confined_bind; [apply unlock_footprint | intros _; now apply confined_throw]).
Qed.

Lemma locking_init_footprint km options now :
  confined anyEvent foreign (Locking.init km options now).
Proof.
  unfold Locking.init. apply confined_finally; [|apply loosen_foreign, runHook_quiet].
  destruct (noScripts options); [apply confined_ret|].
  apply confined_bind; [apply loosen, createMigrationsTable_quiet|]. intros _.
  apply confined_bind; [apply loosen_foreign, ensureLockTable_quiet|]. intros _.
  apply createTransaction_confined.
  apply confined_catch with (E1 := foreign); [|intros e; apply releaseOnError_footprint].
  apply confined_bind; [apply lock_footprint|]. intros _.
  apply confined_bind; [apply loosen_foreign, runHook_quiet|]. intros _.
  apply confined_bind; [apply loosen, locking_migrateTo_quiet|]. intros _.
  apply confined_bind; [apply loosen_foreign, runHook_quiet|]. intros _.
  apply unlock_footprint.
Qed.

Lemma locking_migrateOnly_footprint km options now :
  confined anyEvent foreign (Locking.migrateOnly km options now).
Proof.
  unfold Locking.migrateOnly. apply confined_finally; [|apply loosen_foreign, runHook_quiet].
  apply createTransaction_confined.
  apply confined_catch with (E1 := foreign); [|intros e; apply releaseOnError_footprint].
  apply confined_bind; [apply lock_footprint|]. intros _.
  apply confined_bind; [apply loosen, integrityCheck_quiet|]. intros result.
  apply confined_bind.
  { apply loosen. unfold warnMissingVersion. confine. }
  intros _. cbv zeta.
  apply confined_bind.
  { apply loosen_foreign. destruct (_ =? 0); [apply confined_ret|apply runHook_quiet]. }
  intros _. apply confined_bind.
  { apply loosen. destruct (_ =? 0); [apply confined_ret|].
    apply confined_each. intros v. apply locking_migrateTo_quiet. }
  intros _. apply confined_bind.
  { apply loosen_foreign. destruct (_ =? 0); [apply confined_ret|apply runHook_quiet]. }
  intros _. apply unlock_footprint.
Qed.

Lemma locking_migrate_footprint km options now :
  confined anyEvent foreign (Locking.migrate km options now).
Proof.
  unfold Locking.migrate. destruct (opt_init options).
  - apply confined_bind; [apply locking_init_footprint|].
    intros _. apply locking_migrateOnly_footprint.
  - apply locking_migrateOnly_footprint.
Qed.

Lemma locking_init_settles km options now w :
  fst (Locking.init km options now w) <> Pending.
Proof.
  destruct (locking_init_footprint km options now w) as [_ H]. intros E. now rewrite E in H.
Qed.

Lemma locking_migrateOnly_settles km options now w :
  fst (Locking.migrateOnly km options now w) <> Pending.
Proof.
  destruct (locking_migrateOnly_footprint km options now w) as [_ H]. intros E.
  now rewrite E in H.
Qed.

(** ** The renewing revision *)

Lemma renewing_complete_rejects km : rejectsOnly notExists (Renewing.complete km).
Proof.
  intros w e. unfold Renewing.complete, readFolders.
  destruct (versionsDir (migrationPath km)) as [l|]; cbn; [|discriminate].
  pose proof (confined_each (Q:=quiet) (E:=ordinary) (completeVersion km) (map fst l)
                (fun v => completeVersion_quiet km v) w) as [_ Hr].
  destruct (each (completeVersion km) (map fst l) w) as [[[]|e'|] w1]; cbn in *;
    intros H; inversion H; subst. now apply ordinary_notExists.
Qed.

Lemma runOps_rejects km isInit skipC ops :
  forall skipped, rejectsOnly notExists (Renewing.runOps km isInit skipC ops skipped).
Proof.
  induction ops as [|op rest IH]; intros skipped w e; cbn [Renewing.runOps].
  - destruct (_ || _); [discriminate|apply renewing_complete_rejects].
  - destruct (op w) as [[response|e'|] w1]; cbn.
    + destruct response; [|apply IH]. destruct rest; [discriminate|apply IH].
    + destruct e' as [|[task|]| | | | | |code q]; try apply IH;
        try (destruct (hasCode _ _)); intros H; inversion H; subst; intros t; discriminate.
    + discriminate.
Qed.

Lemma transactional_rejects km ops isInit skipC :
  rejectsOnly notExists (Renewing.transactional km ops isInit skipC).
Proof.
  unfold Renewing.transactional. apply rejectsOnly_bind.
  - intros w e H. discriminate.
  - intros _. apply runOps_rejects.
Qed.

Lemma renewing_migrateTo_quiet km ver hooks only skip :
  confined quiet ordinary (Renewing.migrateTo km ver hooks only skip).
Proof.
  unfold Renewing.migrateTo. apply confined_bind; [|intros; apply confined_ret].
  destruct (negb (String.eqb ver INIT)); [confine|].
  apply confined_catch with (E1 := ordinary); [confine|].
  intros e He. destruct (hasCode _ e); [apply confined_ret|now apply confined_throw].
Qed.

Lemma collectOps_quiet km hooks only versions :
  confined quiet ordinary (Renewing.collectOps km hooks only versions).
Proof.
  induction versions as [|v r IH]; cbn [Renewing.collectOps]; [apply confined_ret|].
  apply confined_bind; [apply renewing_migrateTo_quiet|]. intros o.
  apply confined_bind; [apply IH|]. intros os. apply confined_ret.
Qed.

Lemma renewing_init_rejects km options : rejectsOnly notExists (Renewing.init km options).
Proof.
  unfold Renewing.init. apply rejectsOnly_finally.
  - destruct (noScripts options); [intros w e H; discriminate|].
    apply rejectsOnly_bind.
    + eapply rejectsOnly_confined; [apply ordinary_notExists|apply renewing_migrateTo_quiet].
    + intros ops. apply transactional_rejects.
  - eapply rejectsOnly_confined; [apply foreign_notExists|apply runHook_quiet].
Qed.

Lemma renewing_migrateOnly_rejects km options :
  rejectsOnly notExists (Renewing.migrateOnly km options).
Proof.
  unfold Renewing.migrateOnly. apply rejectsOnly_finally.
  - apply rejectsOnly_bind.
    + eapply rejectsOnly_confined; [apply ordinary_notExists|apply integrityCheck_quiet].
    + intros result. apply rejectsOnly_bind.
      * eapply rejectsOnly_confined with (Q := quiet); [apply ordinary_notExists|].
        unfold warnMissingVersion. confine.
      * intros _. cbv zeta. destruct (_ =? 0); [intros w e H; discriminate|].
        apply rejectsOnly_bind.
        -- eapply rejectsOnly_confined; [apply ordinary_notExists|apply collectOps_quiet].
        -- intros ops. apply transactional_rejects.
  - eapply rejectsOnly_confined; [apply foreign_notExists|apply runHook_quiet].
Qed.

Lemma renewing_migrate_rejects km options : rejectsOnly notExists (Renewing.migrate km options).
Proof.
  unfold Renewing.migrate. destruct (opt_init options).
  - apply rejectsOnly_bind; [apply renewing_init_rejects|].
    intros _. apply renewing_migrateOnly_rejects.
  - apply renewing_migrateOnly_rejects.
Qed.

Lemma recorded_select task ver w :
  recorded task ver (ledgerOf w) = true -> selectMigrations w = (Ok (ledgerOf w), w).
Proof.
  unfold selectMigrations, ledgerOf, ledger.
  destruct (migrations (view (db w))); [discriminate|reflexivity].
Qed.

Lemma beforeEachTask_recorded task ver w :
  recorded task ver (ledgerOf w) = true ->
  beforeEachTask task ver w = (Err (MigrationExistsError None), w).
Proof.
  intros H. unfold beforeEachTask. rewrite (bind_ok _ (recorded_select _ _ _ H)).
  now rewrite H.
Qed.

(* ===================================================================== *)
(** * Invariants of a run *)
(* ===================================================================== *)

Definition preserves (Inv : World -> Prop) {A} (m : M A) : Prop :=
  forall w, Inv w -> Inv (snd (m w)).

Section Preservation.

Variable Inv : World -> Prop.

Lemma preserves_ret A (a : A) : preserves Inv (ret a).
Proof. intros w H. exact H. Qed.

Lemma preserves_throw A e : preserves Inv (@throw A e).
Proof. intros w H. exact H. Qed.

Lemma preserves_getDb : preserves Inv getDb.
Proof. intros w H. exact H. Qed.

Lemma preserves_bind A B (m : M A) (k : A -> M B) :
  preserves Inv m -> (forall a, preserves Inv (k a)) -> preserves Inv (bind m k).
Proof.
  intros Hm Hk w H. unfold bind. specialize (Hm w H).
  destruct (m w) as [[a|e|] w1]; cbn in *; auto. now apply Hk.
Qed.

Lemma preserves_catch A (m : M A) (h : Error -> M A) :
  preserves Inv m -> (forall e, preserves Inv (h e)) -> preserves Inv (catch m h).
Proof.
  intros Hm Hh w H. unfold catch. specialize (Hm w H).
  destruct (m w) as [[a|e|] w1]; cbn in *; auto. now apply Hh.
Qed.

Lemma preserves_finally A (m : M A) (f : M unit) :
  preserves Inv m -> preserves Inv f -> preserves Inv (finally m f).
Proof.
  intros Hm Hf w H. unfold finally. specialize (Hm w H).
  destruct (m w) as [[a|e|] w1]; cbn in *; auto;
    specialize (Hf w1 Hm); destruct (f w1) as [[[]|e2|] w2]; cbn in *; auto.
Qed.

Lemma preserves_each A (f : A -> M unit) l :
  (forall x, In x l -> preserves Inv (f x)) -> preserves Inv (each f l).
Proof.
  induction l as [|x l IH]; intros Hf; cbn [each].
  - apply preserves_ret.
  - apply preserves_bind; [apply Hf; now left|]. intros _. apply IH.
    intros y Hy. apply Hf. now right.
Qed.

Lemma preserves_selectMigrations : preserves Inv selectMigrations.
Proof.
  intros w H. unfold selectMigrations. destruct (migrations (view (db w))); exact H.
Qed.

Lemma preserves_readTasks km p : preserves Inv (readTasks km p).
Proof. intros w H. unfold readTasks. destruct (tasksAt _ p); exact H. Qed.

Lemma preserves_readFolders km : preserves Inv (readFolders km).
Proof. intros w H. unfold readFolders. destruct (versionsDir _); exact H. Qed.

End Preservation.

Definition notExecute (ev : Event) : Prop :=
  match ev with
  | EvExecute _ _ => False
  | _ => True
  end.

(** A write that leaves the ledger alone and neither creates nor drops the
    lock table: the application's own statements, and the stamping of the lock
    row. *)
Definition keeps (f : Store -> Store) : Prop :=
  forall st, migrations (f st) = migrations st
             /\ (migrations_lock (f st) = None <-> migrations_lock st = None).

(** An invariant that such writes and every event but the call of a task
    body leave alone. *)
Definition userStable (Inv : World -> Prop) : Prop :=
  (forall w f, keeps f -> Inv w -> Inv (mkWorld (write f (db w)) (events w)))
  /\ (forall w f, keeps f -> Inv w -> Inv (mkWorld (ddl f (db w)) (events w)))
  /\ (forall w ev, notExecute ev -> Inv w -> Inv (mkWorld (db w) (events w ++ [ev]))).

Section UserStable.

Variable Inv : World -> Prop.
Hypothesis stable : userStable Inv.

Lemma stable_emit ev : notExecute ev -> preserves Inv (emit ev).
Proof. intros Hev w H. destruct stable as (_ & _ & He). now apply He. Qed.

Lemma stable_runStmt s : preserves Inv (runStmt s).
Proof.
  intros w H. destruct stable as (Hw & Hd & _).
  destruct s; cbn; [apply Hw|apply Hd]; auto; intros st; cbn; tauto.
Qed.

Lemma stable_runCode c : preserves Inv (runCode c).
Proof.
  unfold runCode. apply preserves_bind.
  - apply preserves_each. intros s _. apply stable_runStmt.
  - intros _. destruct (settles c); [apply preserves_ret|apply preserves_throw..].
Qed.

Lemma stable_runHook which h : preserves Inv (runHook which h).
Proof.
  unfold runHook. destruct h as [c|]; [|apply preserves_ret].
  apply preserves_bind; [now apply stable_emit|]. intros _.
  apply preserves_bind; [apply stable_runCode|]. intros _. apply preserves_ret.
Qed.

Lemma stable_lock : preserves Inv Locking.lock.
Proof.
  unfold Locking.lock. apply preserves_bind; [apply preserves_getDb|]. intros d.
  destruct (migrations_lock (view d)); [now apply stable_emit|apply preserves_throw].
Qed.

Lemma stable_unlock now : preserves Inv (Locking.unlock now).
Proof.
  unfold Locking.unlock. apply preserves_bind; [now apply stable_emit|]. intros _.
  apply preserves_bind; [apply preserves_getDb|]. intros d.
  destruct (migrations_lock (view d)); [|apply preserves_throw].
  intros w H. destruct stable as (Hw & _ & _). apply Hw; auto.
  intros st. cbn. split; [reflexivity|]. destruct (migrations_lock st); cbn; split; congruence.
Qed.

Lemma stable_releaseOnError A now e : preserves Inv (Locking.releaseOnError (A:=A) now e).
Proof.
  unfold Locking.releaseOnError.
  destruct e; try apply preserves_throw;
    (apply preserves_bind; [apply stable_unlock|intros _; apply preserves_throw]).
Qed.

Lemma stable_scanFolders km force st folders :
  forall fut ops, preserves Inv (scanFolders km force st folders fut ops).
Proof.
  induction folders as [|f r IH]; intros fut ops; cbn [scanFolders]; [apply preserves_ret|].
  destruct (if String.eqb f INIT then Some f else matchVersion f); [apply IH|].
  apply preserves_bind; [now apply stable_emit|]. intros _.
  apply preserves_bind; [now apply stable_emit|]. intros _. apply IH.
Qed.

Lemma stable_props entries : preserves Inv (props entries).
Proof.
  induction entries as [|[k [e|value]] es IH]; cbn [props];
    [apply preserves_ret|apply preserves_throw|].
  apply preserves_bind; [apply IH|]. intros rest. apply preserves_ret.
Qed.

Lemma stable_countVersions km entries :
  forall cv t, preserves Inv (countVersions km entries cv t).
Proof.
  induction entries as [|[ver value] es IH]; intros cv t; cbn [countVersions];
    [apply preserves_ret|].
  apply preserves_bind; [|intros ex; apply IH].
  destruct (negb (String.eqb ver INIT)); [destruct (isGreaterThanVersion _ ver)|];
    try apply preserves_ret;
    (apply preserves_bind; [apply preserves_readTasks|intros ts; apply preserves_ret]).
Qed.

Lemma stable_dropFutureVersions fut : forall t, preserves Inv (dropFutureVersions fut t).
Proof.
  induction fut as [|fv r IH]; intros t; cbn [dropFutureVersions]; [apply preserves_ret|].
  destruct (jsGet fv t) as [c|]; [|apply preserves_throw].
  destruct (actual c =? expected c); [apply IH|].
  apply preserves_bind; [|intros _; apply IH].
  apply preserves_each. intros ev Hev. apply stable_emit.
  unfold skipWarnings in Hev. cbn in Hev. destruct Hev as [<-|[<-|[<-|[]]]]; exact I.
Qed.

Lemma stable_integrityCheck km force : preserves Inv (integrityCheck km force).
Proof.
  unfold integrityCheck. apply preserves_bind; [|intros c; apply stable_dropFutureVersions].
  unfold integrityCounts. apply preserves_bind; [apply preserves_getDb|]. intros d.
  apply preserves_bind.
  { apply preserves_catch; [|intros; apply preserves_ret].
    apply preserves_bind; [apply preserves_readFolders|intros; apply preserves_ret]. }
  intros folders. apply preserves_bind; [apply stable_scanFolders|]. intros scanned.
  apply preserves_bind; [apply stable_props|]. intros result.
  apply preserves_bind; [apply stable_countVersions|]. intros t. apply preserves_ret.
Qed.

Lemma stable_warnMissingVersion v result : preserves Inv (warnMissingVersion v result).
Proof.
  unfold warnMissingVersion. destruct v as [s|]; [|apply preserves_ret].
  destruct (truthy s); [|apply preserves_ret].
  destruct (jsGet s result); [apply preserves_ret|now apply stable_emit].
Qed.

End UserStable.

(* ===================================================================== *)
(** * Implicit commits and the open transaction *)
(* ===================================================================== *)

Lemma ledger_keep f st : keeps f -> ledger (f st) = ledger st.
Proof. intros H. unfold ledger. now rewrite (proj1 (H st)). Qed.

Lemma ledger_stable L : userStable (fun w => ledgerOf w = L).
Proof.
  unfold userStable, ledgerOf. splits; cbn.
  - intros w f Hf H. rewrite view_write. now rewrite ledger_keep.
  - intros w f Hf H. rewrite view_ddl. now rewrite ledger_keep.
  - auto.
Qed.

(** The ledger is the same for every event trace. *)
Lemma ledgerOf_events d ev ev' : ledgerOf (mkWorld d ev) = ledgerOf (mkWorld d ev').
Proof. reflexivity. Qed.

Lemma runCode_ledger c w r w' : runCode c w = (r, w') -> ledgerOf w' = ledgerOf w.
Proof.
  intros H. pose proof (stable_runCode (ledger_stable (ledgerOf w)) c w eq_refl) as Hp.
  now rewrite H in Hp.
Qed.

Lemma runHook_ledger which h w r w' : runHook which h w = (r, w') -> ledgerOf w' = ledgerOf w.
Proof.
  intros H. pose proof (stable_runHook (ledger_stable (ledgerOf w)) which h w eq_refl) as Hp.
  now rewrite H in Hp.
Qed.

Lemma beforeEachTask_inv task ver w r w' :
  beforeEachTask task ver w = (r, w') ->
  w' = w /\ (r = Ok tt -> recorded task ver (ledgerOf w) = false).
Proof.
  unfold beforeEachTask. intros H.
  apply bind_inv in H as [(l & w1 & H1 & H)|[(e & H1 & ->)|(H1 & ->)]];
    apply selectMigrations_inv in H1 as [Hw H1]; subst.
  - destruct H1 as [[Hl _]|(errno & Hl & _)]; [|discriminate]. inversion Hl; subst l.
    destruct (recorded task ver (ledgerOf w)); inversion H; subst; split; auto; discriminate.
  - split; [reflexivity|discriminate].
  - split; [reflexivity|discriminate].
Qed.

Lemma errorHandling_inv A err t w (r : Res A) w' :
  Renewing.errorHandling err t w = (r, w') -> w' = w /\ exists e, r = Err e.
Proof.
  unfold Renewing.errorHandling. destruct err; intros H; inversion H; subst; eauto.
Qed.

Lemma renewing_afterEachTask_inv km task ver w r w' :
  Renewing.afterEachTask km task ver w = (r, w') ->
  r = Ok tt -> ledgerOf w' = ledgerOf w ++ [mkRow task ver (configVersion km)].
Proof.
  unfold Renewing.afterEachTask. intros H ->.
  apply bind_inv in H as [(l & w1 & H1 & H)|[(e & H1 & ?)|(H1 & ?)]]; try discriminate.
  apply selectMigrations_inv in H1 as [-> _].
  destruct (recorded task ver l); [discriminate|].
  apply insertMigration_inv in H as [(_ & Hl & _)|(_ & errno & ?)]; [assumption|discriminate].
Qed.

(** A task that fulfils has been recorded, and its response is the one its
    body settles with. *)
Lemma runTask_fulfilled km ver hooks t w b w' :
  Renewing.runTask km ver hooks (Some t) w = (Ok b, w') ->
  ledgerOf w' = ledgerOf w ++ [mkRow (task_name t) ver (configVersion km)]
  /\ settles (execute t) = Resolves b.
Proof.
  unfold Renewing.runTask. intros H.
  apply catch_inv in H as [(e & w1 & _ & H)|[H _]];
    [apply errorHandling_inv in H as [_ [e' He']]; discriminate|].
  apply bind_inv in H as [([] & w1 & H1 & H)|[(e & _ & ?)|(_ & ?)]]; try discriminate.
  apply beforeEachTask_inv in H1 as [-> _].
  apply bind_inv in H as [([] & w2 & H2 & H)|[(e & _ & ?)|(_ & ?)]]; try discriminate.
  apply runHook_ledger in H2.
  apply bind_inv in H as [([] & w3 & H3 & H)|[(e & _ & ?)|(_ & ?)]]; try discriminate.
  apply emit_inv in H3 as (_ & Hd3 & _).
  assert (ledgerOf w3 = ledgerOf w2) as Hl3 by (unfold ledgerOf; now rewrite Hd3).
  apply bind_inv in H as [(resp & w4 & H4 & H)|[(e & _ & ?)|(_ & ?)]]; try discriminate.
  apply catch_inv in H4 as [(e & w4' & _ & H4)|[H4 _]];
    [apply errorHandling_inv in H4 as [_ [e' He']]; discriminate|].
  pose proof (runCode_ledger _ _ H4) as Hl4.
  assert (settles (execute t) = Resolves resp) as Hs.
  { unfold runCode in H4.
    apply bind_inv in H4 as [([] & w5 & _ & H4)|[(e & _ & ?)|(_ & ?)]]; try discriminate.
    destruct (settles (execute t)); inversion H4; subst; reflexivity. }
  apply bind_inv in H as [([] & w5 & H5 & H)|[(e & _ & ?)|(_ & ?)]]; try discriminate.
  apply catch_inv in H5 as [(e & w5' & _ & H5)|[H5 _]];
    [apply errorHandling_inv in H5 as [_ [e' He']]; discriminate|].
  apply renewing_afterEachTask_inv in H5; [|reflexivity].
  apply bind_inv in H as [([] & w6 & H6 & H)|[(e & _ & ?)|(_ & ?)]]; try discriminate.
  apply runHook_ledger in H6. inversion H; subst. split; [|assumption]. congruence.
Qed.

(** ** Inside an open transaction *)

(** The durable store is [D] and a transaction is open. *)
Definition inTxn (D : Store) (w : World) : Prop :=
  durable (db w) = D /\ txn (db w) <> None.

Definition isData (s : Stmt) : bool :=
  match s with
  | Insert _ _ => true
  | CreateTable _ => false
  end.

(** User code without DDL. *)
Definition ddlFree (c : UserCode) : bool := forallb isData (statements c).

Definition hookFree (h : option UserCode) : bool :=
  match h with
  | Some c => ddlFree c
  | None => true
  end.

Section InTransaction.

Variable D : Store.

Lemma inTxn_write f w : inTxn D w -> inTxn D (mkWorld (write f (db w)) (events w)).
Proof.
  unfold inTxn, write. cbn. destruct (txn (db w)); cbn; intros [H1 H2]; [|congruence].
  split; [assumption|discriminate].
Qed.

Lemma inTxn_emit ev : preserves (inTxn D) (emit ev).
Proof. intros w H. exact H. Qed.

Lemma inTxn_insertMigration r : preserves (inTxn D) (insertMigration r).
Proof.
  unfold insertMigration. apply preserves_bind; [apply preserves_selectMigrations|].
  intros _ w H. now apply inTxn_write.
Qed.

Lemma inTxn_runCode c : ddlFree c = true -> preserves (inTxn D) (runCode c).
Proof.
  unfold ddlFree, runCode. intros Hc. apply preserves_bind.
  - apply preserves_each. intros s Hs.
    rewrite forallb_forall in Hc. specialize (Hc s Hs).
    destruct s; [|discriminate]. intros w H. now apply inTxn_write.
  - intros _. destruct (settles c); [apply preserves_ret|apply preserves_throw..].
Qed.

Lemma inTxn_runHook which h : hookFree h = true -> preserves (inTxn D) (runHook which h).
Proof.
  unfold runHook, hookFree. destruct h as [c|]; intros Hh; [|apply preserves_ret].
  apply preserves_bind; [apply inTxn_emit|]. intros _.
  apply preserves_bind; [now apply inTxn_runCode|]. intros _. apply preserves_ret.
Qed.

Lemma inTxn_beforeEachTask task ver : preserves (inTxn D) (beforeEachTask task ver).
Proof.
  unfold beforeEachTask. apply preserves_bind; [apply preserves_selectMigrations|].
  intros l. destruct (recorded task ver l); [apply preserves_throw|apply preserves_ret].
Qed.

Lemma inTxn_errorHandling A err t : preserves (inTxn D) (Renewing.errorHandling (A:=A) err t).
Proof. unfold Renewing.errorHandling. destruct err; apply preserves_throw. Qed.

Lemma inTxn_runTask km ver hooks t :
  hookFree (beforeEach hooks) = true -> hookFree (afterEach hooks) = true ->
  ddlFree (execute t) = true ->
  preserves (inTxn D) (Renewing.runTask km ver hooks (Some t)).
Proof.
  intros Hb Ha Ht. unfold Renewing.runTask.
  apply preserves_catch; [|intros; apply inTxn_errorHandling].
  apply preserves_bind; [apply inTxn_beforeEachTask|]. intros _.
  apply preserves_bind; [now apply inTxn_runHook|]. intros _.
  apply preserves_bind; [apply inTxn_emit|]. intros _.
  apply preserves_bind.
  { apply preserves_catch; [now apply inTxn_runCode|intros; apply inTxn_errorHandling]. }
  intros resp. apply preserves_bind.
  { apply preserves_catch; [|intros; apply inTxn_errorHandling].
    unfold Renewing.afterEachTask.
    apply preserves_bind; [apply preserves_selectMigrations|]. intros l.
    destruct (recorded _ ver l); [apply preserves_throw|apply inTxn_insertMigration]. }
  intros _. apply preserves_bind; [now apply inTxn_runHook|]. intros _. apply preserves_ret.
Qed.

Lemma inTxn_completeVersion km ver : preserves (inTxn D) (completeVersion km ver).
Proof.
  unfold completeVersion. apply preserves_bind; [apply preserves_readTasks|]. intros ts.
  apply preserves_each. intros f _. unfold completeFile.
  apply preserves_bind; [apply preserves_selectMigrations|]. intros l.
  destruct (filter _ l); [apply inTxn_insertMigration|apply preserves_ret].
Qed.

(** A queue of operations that stay inside the transaction and never
    answer with [implicitCommits]: when the run rejects, the durable store is
    what it was when the transaction was opened. *)
Lemma runOps_rolled_back km isInit skipC ops :
  Forall (fun op : Renewing.Op =>
            preserves (inTxn D) op /\ forall w0, fst (op w0) <> Ok true) ops ->
  forall skipped w e w',
    inTxn D w ->
    Renewing.runOps km isInit skipC ops skipped w = (Err e, w') ->
    durable (db w') = D /\ txn (db w') = None.
Proof.
  induction 1 as [|op rest [Hop Hresp] _ IH]; intros skipped w e w' Hw H;
    cbn [Renewing.runOps] in H.
  - destruct (_ || _); [discriminate|].
    unfold Renewing.complete in H.
    destruct (readFolders km w) as [rf w1] eqn:Ef.
    apply readFolders_inv in Ef as [-> [(l & -> & _)|[-> _]]]; [|discriminate].
    pose proof (preserves_each (Inv:=inTxn D) (completeVersion km) (map fst l)
                  (fun v _ => inTxn_completeVersion km v) w Hw) as Hp.
    destruct (each (completeVersion km) (map fst l) w) as [[[]|e1|] w2];
      inversion H; subst. cbn. split; [apply Hp|reflexivity].
  - specialize (Hop w Hw). specialize (Hresp w).
    destruct (op w) as [[response|e1|] w1]; cbn [fst snd] in *.
    + destruct response; [congruence|]. exact (IH skipped w1 e w' Hop H).
    + assert (durable (db (Renewing.setDb rollback w1)) = D
              /\ txn (db (Renewing.setDb rollback w1)) = None) as Hrb.
      { cbn. split; [apply Hop|reflexivity]. }
      destruct e1 as [|[task|]| | | | | |code q];
        try (exact (IH _ w1 e w' Hop H));
        try (inversion H; subst; exact Hrb);
        match type of H with
        | context [hasCode ?c ?x] => destruct (hasCode c x)
        end; inversion H; subst; exact Hrb.
    + discriminate.
Qed.

End InTransaction.

(** A task that stays inside the open transaction: no DDL in its body and
    no [implicitCommits] in its response. *)
Definition transactionalTask (t : Task) : bool :=
  ddlFree (execute t)
  && match settles (execute t) with
     | Resolves true => false
     | _ => true
     end.

(** ** The scenario of the repository's test *)

Definition fsF : Fs :=
  mkFs (Some [plainTask "1-init"])
       (Some [("1.1",
               [ mkTask "1-a" (mkCode [Insert "users" "b"] (Resolves false));
                 mkTask "2-b" (mkCode [CreateTable "agents"] (Resolves true));
                 mkTask "3-c" (mkCode [Insert "users" "c"] (Resolves false));
                 mkTask "4-d" (mkCode [Insert "users" "d"] (Rejects "E" []));
                 plainTask "5-e" ])]).

Definition kmF : KnexMigrator := mkKnexMigrator "1.0" fsF noHooks noHooks.
Definition wF : World := worldWith [mkRow "1-init" "init" "1.0"].

(* ===================================================================== *)
(** * Runs that fulfil *)
(* ===================================================================== *)

(** The task bodies called along a trace, in order: (task, version). *)
Fixpoint executed (tr : list Event) : list (string * string) :=
  match tr with
  | [] => []
  | EvExecute t v :: r => (t, v) :: executed r
  | _ :: r => executed r
  end.

Lemma executed_app tr1 tr2 : executed (tr1 ++ tr2) = executed tr1 ++ executed tr2.
Proof. induction tr1 as [|[] r IH]; cbn; auto. now rewrite IH. Qed.

Lemma executed_other tr ev : notExecute ev -> executed (tr ++ [ev]) = executed tr.
Proof. intros H. rewrite executed_app. destruct ev; cbn in *; try contradiction; apply app_nil_r. Qed.

(** The ledger is [L], the lock table exists, the bodies called so far are
    [X]. *)
Definition St (L : list Row) (X : list (string * string)) (w : World) : Prop :=
  migrations (view (db w)) = inr L
  /\ migrations_lock (view (db w)) <> None
  /\ executed (events w) = X.

Lemma St_stable L X : userStable (St L X).
Proof.
  unfold userStable, St. splits; cbn.
  - intros w f Hf (Hm & Hl & Hx). rewrite view_write. destruct (Hf (view (db w))) as [-> Hk].
    splits; auto. intros Hn. apply Hl. now apply Hk.
  - intros w f Hf (Hm & Hl & Hx). rewrite view_ddl. destruct (Hf (view (db w))) as [-> Hk].
    splits; auto. intros Hn. apply Hl. now apply Hk.
  - intros w ev Hev (Hm & Hl & Hx). splits; auto. now rewrite executed_other.
Qed.

Definition noTxn (w : World) : Prop := txn (db w) = None.

Lemma noTxn_stable : userStable noTxn.
Proof.
  unfold userStable, noTxn. splits; cbn; auto.
  - intros w f _ H. unfold write. now rewrite H.
  - intros w f _ H. unfold ddl, write. destruct (ddlCommits (db w)); [reflexivity|now rewrite H].
Qed.

Lemma userStable_and (P Q : World -> Prop) :
  userStable P -> userStable Q -> userStable (fun w => P w /\ Q w).
Proof.
  intros (P1 & P2 & P3) (Q1 & Q2 & Q3). unfold userStable. splits.
  - intros w f Hf [HP HQ]. split; auto.
  - intros w f Hf [HP HQ]. split; auto.
  - intros w ev Hev [HP HQ]. split; auto.
Qed.

(** [fulfils P m Q]: from a world in [P], [m] fulfils with a value and a
    world in [Q]. *)
Definition fulfils (P : World -> Prop) {A} (m : M A) (Q : A -> World -> Prop) : Prop :=
  forall w, P w -> exists a w', m w = (Ok a, w') /\ Q a w'.

Lemma fulfils_ret (P : World -> Prop) A (a : A) (Q : A -> World -> Prop) :
  (forall w, P w -> Q a w) -> fulfils P (ret a) Q.
Proof. intros H w Hw. exists a, w. split; [reflexivity|auto]. Qed.

Lemma fulfils_bind (P : World -> Prop) A B (m : M A) (k : A -> M B) Q R :
  fulfils P m Q -> (forall a, fulfils (Q a) (k a) R) -> fulfils P (bind m k) R.
Proof.
  intros Hm Hk w Hw. destruct (Hm w Hw) as (a & w1 & E1 & H1).
  destruct (Hk a w1 H1) as (b & w2 & E2 & H2).
  exists b, w2. split; [|assumption]. now rewrite (bind_ok _ E1).
Qed.

Lemma fulfils_catch (P : World -> Prop) A (m : M A) h Q :
  fulfils P m Q -> fulfils P (catch m h) Q.
Proof.
  intros Hm w Hw. destruct (Hm w Hw) as (a & w1 & E1 & H1).
  exists a, w1. split; [|assumption]. unfold catch. now rewrite E1.
Qed.

Lemma fulfils_weaken (P P' : World -> Prop) A (m : M A) (Q Q' : A -> World -> Prop) :
  (forall w, P' w -> P w) -> (forall a w, Q a w -> Q' a w) ->
  fulfils P m Q -> fulfils P' m Q'.
Proof.
  intros HP HQ Hm w Hw. destruct (Hm w (HP w Hw)) as (a & w1 & E1 & H1). eauto.
Qed.

(** A computation that always fulfils and preserves [Inv]. *)
Lemma fulfils_preserved (Inv : World -> Prop) A (m : M A) :
  preserves Inv m -> (forall w, exists a w', m w = (Ok a, w')) ->
  fulfils Inv m (fun _ => Inv).
Proof.
  intros Hp Hok w Hw. destruct (Hok w) as (a & w' & E). exists a, w'. split; [assumption|].
  specialize (Hp w Hw). now rewrite E in Hp.
Qed.

Definition hookFulfils (h : option UserCode) : bool :=
  match h with
  | Some c => match settles c with Resolves _ => true | _ => false end
  | None => true
  end.

Lemma each_runStmt_ok l : forall w, exists w', each runStmt l w = (Ok tt, w').
Proof.
  induction l as [|s l IH]; intros w; [now exists w|].
  cbn [each]. unfold bind.
  assert (exists w1, runStmt s w = (Ok tt, w1)) as (w1 & ->)
    by (destruct s; eexists; reflexivity).
  apply IH.
Qed.

Lemma runCode_ok c b w : settles c = Resolves b -> exists w', runCode c w = (Ok b, w').
Proof.
  intros Hs. unfold runCode, bind. destruct (each_runStmt_ok (statements c) w) as (w1 & ->).
  rewrite Hs. now exists w1.
Qed.

Lemma runHook_ok which h w : hookFulfils h = true -> exists w', runHook which h w = (Ok tt, w').
Proof.
  unfold hookFulfils, runHook. destruct h as [c|]; [|now exists w].
  destruct (settles c) as [b| |] eqn:Hs; [|discriminate..]. intros _.
  unfold bind at 1, emit.
  destruct (runCode_ok c (mkWorld (db w) (events w ++ [EvHook which])) Hs) as (w1 & E).
  rewrite (bind_ok _ E). now exists w1.
Qed.

Lemma runHook_fulfils Inv which h :
  userStable Inv -> hookFulfils h = true -> fulfils Inv (runHook which h) (fun _ => Inv).
Proof.
  intros Hs Hh. apply fulfils_preserved; [now apply stable_runHook|].
  intros w. destruct (runHook_ok which h w Hh) as (w' & E). eauto.
Qed.

Definition hooksFulfil (h : Hooks) : bool :=
  hookFulfils (before h) && hookFulfils (after h) && hookFulfils (beforeEach h)
  && hookFulfils (afterEach h) && hookFulfils (shutdown h).

(** ** A task that is run *)

Lemma locking_executeTask_runs km ver hooks skipped t L X b :
  hookFulfils (beforeEach hooks) = true -> hookFulfils (afterEach hooks) = true ->
  settles (execute t) = Resolves b ->
  recorded (task_name t) ver L = false ->
  fulfils (St L X) (Locking.executeTask km ver hooks skipped (Some t))
          (fun s w' => s = skipped
                       /\ St (L ++ [mkRow (task_name t) ver (configVersion km)])
                             (X ++ [(task_name t, ver)]) w').
Proof.
  intros Hb Ha Hs Hrec. unfold Locking.executeTask. apply fulfils_catch.
  apply fulfils_bind with (Q := fun _ => St L X).
  { intros w (Hm & Hl & Hx). exists tt, w. split; [|now splits].
    unfold beforeEachTask, bind, selectMigrations. rewrite Hm. now rewrite Hrec. }
  intros _. apply fulfils_bind with (Q := fun _ => St L X).
  { apply runHook_fulfils; [apply St_stable|assumption]. }
  intros _. apply fulfils_bind with (Q := fun _ => St L (X ++ [(task_name t, ver)])).
  { intros w (Hm & Hl & Hx).
    exists tt, (mkWorld (db w) (events w ++ [EvExecute (task_name t) ver])).
    split; [reflexivity|]. unfold St. cbn [db events]. splits; auto.
    rewrite executed_app, Hx. reflexivity. }
  intros _. apply fulfils_bind with (Q := fun _ => St L (X ++ [(task_name t, ver)])).
  { apply fulfils_preserved; [apply stable_runCode, St_stable|].
    intros w. destruct (runCode_ok (execute t) w Hs) as (w' & E). eauto. }
  intros _.
  apply fulfils_bind
    with (Q := fun _ => St (L ++ [mkRow (task_name t) ver (configVersion km)])
                           (X ++ [(task_name t, ver)])).
  { intros w (Hm & Hl & Hx). unfold Locking.afterEachTask, insertMigration, bind,
      selectMigrations, modifyDb. rewrite Hm. eexists. eexists. split; [reflexivity|].
    unfold St. cbn. rewrite view_write. cbn. unfold ledger. rewrite Hm. splits; auto. }
  intros _. apply fulfils_bind
    with (Q := fun _ => St (L ++ [mkRow (task_name t) ver (configVersion km)])
                           (X ++ [(task_name t, ver)])).
  { apply runHook_fulfils; [apply St_stable|assumption]. }
  intros _. apply fulfils_ret. auto.
Qed.

Lemma locking_migrateTo_only km V hooks n tasks t L X b :
  V <> INIT -> n <> 0 ->
  tasksAt (migrationPath km) (VersionFolder V) = Some tasks ->
  nth_error tasks (n - 1) = Some t ->
  hookFulfils (beforeEach hooks) = true -> hookFulfils (afterEach hooks) = true ->
  settles (execute t) = Resolves b ->
  recorded (task_name t) V L = false ->
  fulfils (St L X) (Locking.migrateTo km V hooks (Some n) None)
          (fun _ => St (L ++ [mkRow (task_name t) V (configVersion km)])
                       (X ++ [(task_name t, V)])).
Proof.
  intros HV Hn Htasks Hnth Hb Ha Hs Hrec. unfold Locking.migrateTo.
  apply String.eqb_neq in HV. rewrite HV. cbn [negb orb].
  apply fulfils_bind with (Q := fun ts w => ts = tasks /\ St L X w).
  { intros w Hw. exists tasks, w. unfold readTasks. rewrite Htasks. auto. }
  intros ts w [-> Hw]. revert w Hw.
  apply fulfils_bind
    with (Q := fun (_ : list string) => St (L ++ [mkRow (task_name t) V (configVersion km)])
                                           (X ++ [(task_name t, V)])).
  - unfold selectTasks. destruct n as [|n]; [contradiction|]. cbn [orNull].
    rewrite Hnth. cbn [Locking.executeTasks].
    eapply fulfils_bind; [now apply locking_executeTask_runs with (b := b)|].
    intros s. apply fulfils_ret. cbv beta. intros w [_ Hw]. exact Hw.
  - intros _. apply fulfils_ret. auto.
Qed.

Lemma unlock_fulfils now L X : fulfils (St L X) (Locking.unlock now) (fun _ => St L X).
Proof.
  intros w Hw.
  pose proof (stable_unlock (St_stable L X) now w Hw) as Hp.
  destruct Hw as (_ & Hl & _).
  unfold Locking.unlock, bind, emit, getDb in *. cbn [db events fst snd] in *.
  destruct (migrations_lock (view (db w))); [|contradiction].
  eexists. eexists. split; [reflexivity|exact Hp].
Qed.

Lemma warnMissingVersion_fulfils Inv v result :
  userStable Inv -> fulfils Inv (warnMissingVersion v result) (fun _ => Inv).
Proof.
  intros Hs. apply fulfils_preserved; [now apply stable_warnMissingVersion|].
  intros w. unfold warnMissingVersion.
  destruct v as [s|]; [|eexists; eexists; reflexivity].
  destruct (truthy s); [|eexists; eexists; reflexivity].
  destruct (jsGet s result); eexists; eexists; reflexivity.
Qed.

(** The world in which [migrate] runs the integrity check: the transaction
    has been opened and the lock taken. *)
Definition afterLock (w : World) : World := mkWorld (begin (db w)) (events w ++ [EvLock]).

Definition withoutOnly (o : MigrateOptions) : MigrateOptions :=
  mkMigrateOptions (opt_version o) (opt_force o) (opt_init o) None.

(* ===================================================================== *)
(** * The [only] option (C9) *)
(* ===================================================================== *)

(** C9, as the code has it.  When a version other than init is requested
    explicitly with [only = n], the integrity check finds that version and no
    other in need of work, its [n]-th task file exists and is not yet recorded,
    and the task and the hooks fulfil, then [migrate] fulfils, the one body it
    calls is that of the [n]-th task, and the ledger gains exactly the row of
    that task.  And [only] without a version changes nothing. *)
Theorem only_runs_the_selected_task km options now w :
  (forall V n tasks t b result wi L,
      opt_init options = false ->
      opt_version options = Some V -> truthy V = true -> V <> INIT ->
      opt_only options = Some n -> n <> 0 ->
      hooksFulfil (migrateHooks km) = true ->
      migrations (durable (db w)) = inr L ->
      migrations_lock (durable (db w)) <> None ->
      integrityCheck km (opt_force options) (afterLock w) = (Ok result, wi) ->
      versionsToMigrate result = [V] ->
      tasksAt (migrationPath km) (VersionFolder V) = Some tasks ->
      nth_error tasks (n - 1) = Some t ->
      recorded (task_name t) V L = false ->
      settles (execute t) = Resolves b ->
      exists w',
        Locking.migrate km options now w = (Ok tt, w')
        /\ executed (events w') = executed (events w) ++ [(task_name t, V)]
        /\ migrations (durable (db w'))
           = inr (L ++ [mkRow (task_name t) V (configVersion km)]))
  /\ (given (opt_version options) = false ->
      Locking.migrate km options now w = Locking.migrate km (withoutOnly options) now w).
Proof.
  split.
  - intros V n tasks t b result wi L Hinit Hver HtV HV Honly Hn Hhooks HL Hlock Hic Hvtm
           Htasks Hnth Hrec Hs.
    unfold hooksFulfil in Hhooks.
    repeat (apply andb_prop in Hhooks as [Hhooks ?]).
    set (L' := L ++ [mkRow (task_name t) V (configVersion km)]).
    set (X' := executed (events w) ++ [(task_name t, V)]).
    unfold Locking.migrate. rewrite Hinit. unfold Locking.migrateOnly. cbv zeta.
    rewrite Hver, Honly. cbn [given]. rewrite HtV. cbn [negb].
    assert (orNull (Some n) = Some n) as -> by (destruct n; [contradiction|reflexivity]).
    (* the chain inside the transaction *)
    assert (St L (executed (events w)) (afterLock w)) as Hst.
    { unfold St, afterLock. cbn. splits; auto. now rewrite executed_other. }
    assert (St L (executed (events w)) wi) as Hsti.
    { pose proof (stable_integrityCheck (St_stable L _) km (opt_force options) _ Hst) as Hp.
      now rewrite Hic in Hp. }
    match goal with
    | |- context [Locking.createTransaction (catch ?body _)] =>
        assert (exists w2, body (mkWorld (begin (db w)) (events w)) = (Ok tt, w2)
                           /\ St L' X' w2) as (w2 & Hbody & Hst2)
    end.
    { assert (Locking.lock (mkWorld (begin (db w)) (events w)) = (Ok tt, afterLock w)) as Hl.
      { unfold Locking.lock, bind, getDb, emit. cbn.
        destruct (migrations_lock (durable (db w))); [reflexivity|contradiction]. }
      rewrite (bind_ok _ Hl). rewrite (bind_ok _ Hic). rewrite Hvtm.
      cbn [length Nat.eqb].
      match goal with
      | |- exists w2, ?rest wi = _ /\ _ =>
          assert (fulfils (St L (executed (events w))) rest (fun _ => St L' X')) as Hf
      end.
      { apply fulfils_bind with (Q := fun _ => St L (executed (events w)));
          [apply warnMissingVersion_fulfils, St_stable|]. intros _.
        apply fulfils_bind with (Q := fun _ => St L (executed (events w)));
          [apply runHook_fulfils; [apply St_stable|assumption]|]. intros _.
        apply fulfils_bind with (Q := fun _ => St L' X').
        { cbn [each]. apply fulfils_bind with (Q := fun _ => St L' X');
            [now apply locking_migrateTo_only with (tasks := tasks) (b := b)|].
          intros _. apply fulfils_ret. auto. }
        intros _.
        apply fulfils_bind with (Q := fun _ => St L' X');
          [apply runHook_fulfils; [apply St_stable|assumption]|]. intros _.
        apply unlock_fulfils. }
      destruct (Hf wi Hsti) as ([] & w2 & E & Hw2). eauto. }
    (* commit, then the shutdown hook *)
    unfold finally, Locking.createTransaction, catch. rewrite Hbody.
    assert (St L' X' (mkWorld (commit (db w2)) (events w2))
            /\ noTxn (mkWorld (commit (db w2)) (events w2))) as Hc.
    { split; [exact Hst2|reflexivity]. }
    destruct (@runHook_fulfils _ "shutdown" (shutdown (migrateHooks km))
                (userStable_and (St_stable L' X') noTxn_stable) ltac:(assumption) _ Hc)
      as ([] & w4 & E4 & (Hm4 & _ & Hx4) & Hn4).
    rewrite E4. exists w4. splits; auto.
    unfold view in Hm4. unfold noTxn in Hn4. now rewrite Hn4 in Hm4.
  - intros Hg. unfold Locking.migrate, withoutOnly, Locking.migrateOnly. cbn.
    now rewrite Hg.
Qed.

(** A project at version 1.1 with three task files for 1.1, of which the
    second is already recorded. *)
Definition fsG : Fs :=
  mkFs (Some [plainTask "1-init"])
       (Some [("1.1", [plainTask "1-a"; plainTask "2-b"; plainTask "3-c"])]).

Definition kmG : KnexMigrator := mkKnexMigrator "1.1" fsG noHooks noHooks.
Definition wG : World := worldWith [mkRow "1-init" "init" "1.0"; mkRow "2-b" "1.1" "1.0"].

(** C9 fails as worded: version 1.1 is requested with [only = 2], it has
    three task files, and the run calls no task body and records no row,
    because the second task is already in the ledger. *)
Lemma only_skips_a_recorded_task :
  let run := Locking.migrate kmG (mkMigrateOptions (Some "1.1") false false (Some 2)) 0 wG in
  fst run = Ok tt
  /\ executed (events (snd run)) = []
  /\ ledger (durable (db (snd run))) = ledger (durable (db wG)).
Proof. vm_compute. repeat split. Qed.

(** With two versions in need of work, [only] is applied to each of them,
    the requested one or not: the loop that reads "Do not execute" returns
    from its callback without removing anything. *)
Example only_is_applied_to_every_version :
  let km := mkKnexMigrator "1.2"
              (mkFs (Some [plainTask "1-init"])
                    (Some [("1.1", [plainTask "1-x"; plainTask "2-y"]);
                           ("1.2", [plainTask "1-a"; plainTask "2-b"])]))
              noHooks noHooks in
  let run := Locking.migrate km (mkMigrateOptions (Some "1.2") false false (Some 2)) 0 wA in
  executed (events (snd run)) = [("2-y", "1.1"); ("2-b", "1.2")].
Proof. vm_compute. reflexivity. Qed.

(** With the [init] option, [init] runs first.  Here the init folder is
    empty and the ledger too: without the option the second task of 1.1 is
    run and recorded; with it the completion of [init] records both task files
    of 1.1, and [migrate] finds nothing left to do. *)
Example only_after_the_init_option :
  let km := mkKnexMigrator "1.1"
              (mkFs (Some []) (Some [("1.1", [plainTask "1-a"; plainTask "2-b"])]))
              noHooks noHooks in
  let w := worldWith [] in
  let plain := Locking.migrate km (mkMigrateOptions (Some "1.1") false false (Some 2)) 0 w in
  let withInit := Locking.migrate km (mkMigrateOptions (Some "1.1") false true (Some 2)) 0 w in
  executed (events (snd plain)) = [("2-b", "1.1")]
  /\ map name (ledger (durable (db (snd plain)))) = ["2-b"]
  /\ fst withInit = Ok tt
  /\ executed (events (snd withInit)) = []
  /\ map name (ledger (durable (db (snd withInit)))) = ["1-a"; "2-b"].
Proof. vm_compute. repeat split. Qed.

Lemma only_runs_the_selected_task_witness :
  let options := mkMigrateOptions (Some "1.1") false false (Some 2) in
  exists w',
    Locking.migrate kmA options 0 wA = (Ok tt, w')
    /\ executed (events w') = [("2-b", "1.1")]
    /\ migrations (durable (db w'))
       = inr [mkRow "1-init" "init" "1.0"; mkRow "2-b" "1.1" "1.1"].
Proof.
  intros options.
  apply (proj1 (only_runs_the_selected_task kmA options 0 wA)
           "1.1" 2 [plainTask "1-a"; plainTask "2-b"] (plainTask "2-b") false
           (valueOf [] (fst (integrityCheck kmA false (afterLock wA))))
           (snd (integrityCheck kmA false (afterLock wA)))
           [mkRow "1-init" "init" "1.0"]);
    try reflexivity; discriminate.
Defined.

(* ===================================================================== *)
(** * Which versions [migrate] drives *)
(* ===================================================================== *)

Lemma jsSet_NoDup V k (v : V) o : NoDup (map fst o) -> NoDup (map fst (jsSet k v o)).
Proof.
  induction o as [|[k0 v0] o IH]; cbn; intros H.
  - repeat constructor. intros [].
  - inversion H as [|? ? Hn Hd]; subst.
    destruct (String.eqb_spec k k0) as [->|Hne]; cbn; [now constructor|].
    constructor; [|auto]. rewrite jsSet_keys. intros [?|?]; congruence.
Qed.

Lemma NoDup_jsGet V k (v : V) o : NoDup (map fst o) -> In (k, v) o -> jsGet k o = Some v.
Proof.
  induction o as [|[k0 v0] o IH]; cbn; intros Hd Hin; [contradiction|].
  inversion Hd as [|? ? Hn Hd']; subst.
  destruct (String.eqb_spec k k0) as [->|Hne].
  - destruct Hin as [H|H]; [now inversion H|].
    exfalso. apply Hn. apply in_map_iff. now exists (k0, v).
  - destruct Hin as [H|H]; [inversion H; congruence|auto].
Qed.

Lemma countVersions_NoDup km entries :
  forall cv t0 w t w', NoDup (map fst t0) ->
    countVersions km entries cv t0 w = (Ok t, w') -> NoDup (map fst t).
Proof.
  induction entries as [|[ver value] es IH]; intros cv t0 w t w' Hd H.
  - now inversion H; subst.
  - apply countVersions_step in H as [(c & _ & H)|(_ & e & He)]; [|discriminate].
    eapply IH; [|exact H]. now apply jsSet_NoDup.
Qed.

Lemma integrityCounts_NoDup km force w fut t w' :
  integrityCounts km force w = (Ok (fut, t), w') -> NoDup (map fst t).
Proof.
  unfold integrityCounts. intros H.
  apply bind_inv in H as [(d & w1 & _ & H)|[(e & _ & ?)|(_ & ?)]]; try discriminate.
  apply bind_inv in H as [(folders & w2 & _ & H)|[(e & _ & ?)|(_ & ?)]]; try discriminate.
  apply bind_inv in H as [(scanned & w3 & _ & H)|[(e & _ & ?)|(_ & ?)]]; try discriminate.
  apply bind_inv in H as [(result & w4 & _ & H)|[(e & _ & ?)|(_ & ?)]]; try discriminate.
  apply bind_inv in H as [(toReturn & w5 & H5 & H)|[(e & _ & ?)|(_ & ?)]]; try discriminate.
  inversion H; subst. eapply countVersions_NoDup; [|exact H5]. constructor.
Qed.

Lemma gtComponents_zero b : gtComponents [0%N] b = false.
Proof. destruct b as [|y b]; cbn; [reflexivity|]. destruct y; reflexivity. Qed.

(** init is never greater than a version: it is never a future version. *)
Lemma init_not_greater s : isGreaterThanVersion s INIT = false.
Proof. unfold isGreaterThanVersion. cbn. apply gtComponents_zero. Qed.

Lemma init_not_future km force : futureVersion km force INIT = false.
Proof. unfold futureVersion. rewrite init_not_greater. apply andb_false_r. Qed.

Definition differ (c : Counts) : bool := negb (expected c =? actual c).

Lemma In_versionsToMigrate V result :
  In V (versionsToMigrate result) <-> exists c, In (V, c) result /\ differ c = true.
Proof.
  unfold versionsToMigrate, differ. rewrite in_map_iff. split.
  - intros ([k c] & <- & H). apply filter_In in H as [H1 H2].
    exists c. split; [now apply (proj1 (In_jsEntries _ _))|exact H2].
  - intros (c & H1 & H2). exists (V, c). split; [reflexivity|]. apply filter_In.
    split; [now apply (proj2 (In_jsEntries _ _))|exact H2].
Qed.

(** What [migrate] learns from a fulfilled integrity check: the versions it
    will drive are not future versions; the init folder exists, and init is
    driven exactly when the number of its task files differs from the number
    of init rows. *)
Lemma versionsToMigrate_facts km force w result w' :
  integrityCheck km force w = (Ok result, w') ->
  (forall V, In V (versionsToMigrate result) -> futureVersion km force V = false)
  /\ exists ts, initDir (migrationPath km) = Some ts
                /\ (In INIT (versionsToMigrate result)
                    <-> length ts <> length (rowsOf INIT (ledgerOf w))).
Proof.
  intros H. apply integrityCheck_inv in H as (fut & t & w1 & Hc & Hd).
  pose proof (integrityCounts_NoDup _ _ _ Hc) as Hnd.
  apply integrityCounts_inv in Hc as (_ & _ & Hcount & _ & Hfut & Hfut' & Hinit).
  apply dropFutureVersions_inv in Hd as (_ & _ & Hsub & Hkeep & Hdrop & _).
  split.
  - intros V HV. apply In_versionsToMigrate in HV as (c & Hin & Hdiff).
    destruct (futureVersion km force V) eqn:E; [|reflexivity]. exfalso.
    pose proof (Hsub V c Hin) as Hint.
    destruct (Hdrop V c (Hfut V c Hint E) (NoDup_jsGet _ _ _ Hnd Hint)) as [Hnone _].
    + unfold differ in Hdiff. apply negb_true_iff, Nat.eqb_neq in Hdiff. congruence.
    + destruct (In_jsGet _ _ _ Hin) as (c' & Hc'). congruence.
  - apply in_map_iff in Hinit as ([k ci] & Hk & Hini). cbn in Hk. subst k.
    destruct (Hcount INIT ci Hini) as (cv & Ha & Hi & _).
    destruct (Hi eq_refl) as (ts & Hts & He). exists ts. split; [assumption|].
    rewrite In_versionsToMigrate. split.
    + intros (c & Hin & Hdiff). apply Hsub in Hin.
      destruct (Hcount INIT c Hin) as (cv' & Ha' & Hi' & _).
      destruct (Hi' eq_refl) as (ts' & Hts' & He').
      unfold differ in Hdiff. apply negb_true_iff, Nat.eqb_neq in Hdiff. congruence.
    + intros Hne. exists ci. split.
      * apply Hkeep; [assumption|]. intros Hf. apply Hfut' in Hf.
        rewrite init_not_future in Hf. discriminate.
      * unfold differ. apply negb_true_iff, Nat.eqb_neq. congruence.
Qed.

(* ===================================================================== *)
(** * Properties of the ledger along a run *)
(* ===================================================================== *)

Lemma each_establishes A (f : A -> M unit) (Qx : A -> World -> Prop) l :
  (forall x y w r w', f y w = (r, w') -> Qx x w -> Qx x w') ->
  (forall x w w', f x w = (Ok tt, w') -> Qx x w') ->
  forall w w', each f l w = (Ok tt, w') -> forall x, In x l -> Qx x w'.
Proof.
  intros Hkeep Hest. induction l as [|y l IH]; intros w w' H x Hx; [contradiction|].
  cbn [each] in H.
  apply bind_inv in H as [([] & w1 & H1 & H)|[(e & _ & ?)|(_ & ?)]]; try discriminate.
  destruct Hx as [->|Hx].
  - eapply each_invariant with (I := Qx x); [|exact H|eapply Hest; exact H1].
    intros z w0 r0 w0' _. apply Hkeep.
  - eapply IH; eauto.
Qed.

Section OnLedger.

Variable km : KnexMigrator.
Variable P : list Row -> Prop.

(** The property [P] of the ledger, as an invariant of the world. *)
Definition onLedger (w : World) : Prop := P (ledgerOf w).

Lemma onLedger_stable : userStable onLedger.
Proof.
  unfold userStable, onLedger, ledgerOf. splits; cbn.
  - intros w f Hf H. rewrite view_write. now rewrite ledger_keep.
  - intros w f Hf H. rewrite view_ddl. now rewrite ledger_keep.
  - auto.
Qed.

Lemma onLedger_emit ev : preserves onLedger (emit ev).
Proof. intros w H. exact H. Qed.

Lemma onLedger_insert r :
  (forall L, P L -> P (L ++ [r])) -> preserves onLedger (insertMigration r).
Proof.
  intros Hc w H. unfold onLedger in *.
  destruct (insertMigration r w) as [res w'] eqn:E. cbn.
  apply insertMigration_inv in E as [(_ & -> & _)|(-> & _)]; auto.
Qed.

(** [P] survives the recording of any task of version [ver]. *)
Definition closedFor (ver : string) : Prop :=
  forall n L, P L -> P (L ++ [mkRow n ver (configVersion km)]).

Definition closedAll : Prop := forall r L, P L -> P (L ++ [r]).

Lemma onLedger_executeTask ver hooks skipped task :
  closedFor ver -> preserves onLedger (Locking.executeTask km ver hooks skipped task).
Proof.
  intros Hc. unfold Locking.executeTask. destruct task as [t|]; [|apply preserves_throw].
  apply preserves_catch.
  - apply preserves_bind.
    { unfold beforeEachTask. apply preserves_bind; [apply preserves_selectMigrations|].
      intros l. destruct (recorded _ ver l); [apply preserves_throw|apply preserves_ret]. }
    intros _. apply preserves_bind; [apply stable_runHook, onLedger_stable|]. intros _.
    apply preserves_bind; [apply onLedger_emit|]. intros _.
    apply preserves_bind; [apply stable_runCode, onLedger_stable|]. intros _.
    apply preserves_bind; [apply onLedger_insert, Hc|]. intros _.
    apply preserves_bind; [apply stable_runHook, onLedger_stable|]. intros _.
    apply preserves_ret.
  - intros e. destruct e; try apply preserves_ret; apply preserves_throw.
Qed.

Lemma onLedger_executeTasks ver hooks tasks :
  closedFor ver ->
  forall skipped, preserves onLedger (Locking.executeTasks km ver hooks tasks skipped).
Proof.
  intros Hc. induction tasks as [|t r IH]; intros skipped; cbn [Locking.executeTasks].
  - apply preserves_ret.
  - apply preserves_bind; [now apply onLedger_executeTask|]. intros s. apply IH.
Qed.

Lemma onLedger_completeVersion ver : closedAll -> preserves onLedger (completeVersion km ver).
Proof.
  intros Hc. unfold completeVersion.
  apply preserves_bind; [apply preserves_readTasks|]. intros ts.
  apply preserves_each. intros f _. unfold completeFile.
  apply preserves_bind; [apply preserves_selectMigrations|]. intros l.
  destruct (filter _ l); [apply onLedger_insert, Hc|apply preserves_ret].
Qed.

Lemma onLedger_complete : closedAll -> preserves onLedger (Locking.complete km).
Proof.
  intros Hc w H. unfold Locking.complete.
  destruct (readFolders km w) as [r w1] eqn:E. apply readFolders_inv in E as [-> E].
  destruct E as [(l & -> & _)|(-> & _)]; [|exact H].
  apply (preserves_each (Inv:=onLedger)); [|exact H].
  intros v _. now apply onLedger_completeVersion.
Qed.

Lemma onLedger_migrateTo ver hooks only skip :
  closedFor ver -> (ver = INIT -> closedAll) ->
  preserves onLedger (Locking.migrateTo km ver hooks only skip).
Proof.
  intros Hc Hi. unfold Locking.migrateTo. apply preserves_bind.
  - destruct (negb (String.eqb ver INIT)); [apply preserves_readTasks|].
    apply preserves_catch; [apply preserves_readTasks|].
    intros e. destruct (hasCode _ e); [apply preserves_ret|apply preserves_throw].
  - intros tasks. apply preserves_bind; [now apply onLedger_executeTasks|]. intros s.
    destruct (String.eqb_spec ver INIT) as [->|Hne]; cbn [negb orb].
    + destruct (negb _); [apply preserves_ret|]. now apply onLedger_complete, Hi.
    + apply preserves_ret.
Qed.

End OnLedger.

(** Every task file of every version folder has its name in the ledger:
    what a completed init completion leaves behind. *)
Definition allNamed (km : KnexMigrator) (L : list Row) : Prop :=
  forall v ts t, tasksAt (migrationPath km) (VersionFolder v) = Some ts ->
                 In t ts -> named (task_name t) L <> [].

Lemma named_grows n L r : named n L <> [] -> named n (L ++ [r]) <> [].
Proof.
  rewrite named_app. destruct (named n L); [congruence|]. discriminate.
Qed.

Lemma allNamed_closed km : closedAll (allNamed km).
Proof. intros r L H v ts t Hts Ht. apply named_grows. eauto. Qed.

Lemma completeFile_names km ver file w w' :
  completeFile km ver file w = (Ok tt, w') -> named (task_name file) (ledgerOf w') <> [].
Proof.
  intros H. apply completeFile_inv in H
    as [(Hn & _ & ->)|[(_ & _ & -> & _)|(_ & errno & ?)]]; [assumption| |discriminate].
  rewrite named_app. cbn. rewrite String.eqb_refl.
  destruct (named _ (ledgerOf w)); discriminate.
Qed.

Lemma completeFile_keeps_names km ver file n w r w' :
  completeFile km ver file w = (r, w') ->
  named n (ledgerOf w) <> [] -> named n (ledgerOf w') <> [].
Proof.
  intros H Hn. apply completeFile_inv in H
    as [(_ & _ & ->)|[(_ & _ & -> & _)|(-> & _)]]; auto. now apply named_grows.
Qed.

Lemma completeVersion_keeps_names km ver n w r w' :
  completeVersion km ver w = (r, w') ->
  named n (ledgerOf w) <> [] -> named n (ledgerOf w') <> [].
Proof.
  unfold completeVersion. intros H Hn.
  apply bind_inv in H as [(ts & w1 & H1 & H)|[(e & H1 & ->)|(H1 & ->)]];
    apply readTasks_inv in H1 as [Hw _]; subst; try assumption.
  eapply each_invariant with (I := fun w => named n (ledgerOf w) <> []); [|exact H|exact Hn].
  intros f w0 r0 w0' _. apply completeFile_keeps_names.
Qed.

(** A completion that fulfils leaves every task file named. *)
Lemma complete_names km w w' :
  Locking.complete km w = (Ok tt, w') -> allNamed km (ledgerOf w').
Proof.
  unfold Locking.complete. intros H v ts t Hts Ht.
  destruct (readFolders km w) as [r w1] eqn:E. apply readFolders_inv in E as [-> E].
  destruct E as [(l & -> & Hl)|(-> & Hl)].
  - assert (In v (map fst l)) as Hv.
    { cbn in Hts. rewrite Hl in Hts. clear - Hts.
      induction l as [|[f fs] l IH]; cbn in *; [discriminate|].
      destruct (String.eqb_spec v f); auto. }
    pose proof (each_establishes (completeVersion km)
                  (fun v w => forall ts t, tasksAt (migrationPath km) (VersionFolder v) = Some ts ->
                                           In t ts -> named (task_name t) (ledgerOf w) <> [])
                  (map fst l)) as Hall.
    eapply Hall; [| |exact H|exact Hv|exact Hts|exact Ht].
    + intros x y w0 r0 w0' Hy Hx ts0 t0 Hts0 Ht0.
      eapply completeVersion_keeps_names; eauto.
    + intros x w0 w0' Hx ts0 t0 Hts0 Ht0. unfold completeVersion in Hx.
      apply bind_inv in Hx as [(ts1 & w1 & H1 & Hx)|[(e & _ & ?)|(_ & ?)]]; try discriminate.
      apply readTasks_inv in H1 as [-> [(ts2 & Hr & Hfs)|[? _]]]; [|discriminate].
      inversion Hr; subst ts2. rewrite Hts0 in Hfs. inversion Hfs; subst ts1.
      pose proof (each_establishes (completeFile km x)
                    (fun f w => named (task_name f) (ledgerOf w) <> []) ts0) as Hfiles.
      eapply Hfiles; [| |exact Hx|exact Ht0].
      * intros f g w1 r1 w1'. apply completeFile_keeps_names.
      * intros f w1 w1'. apply completeFile_names.
  - cbn in Hts. rewrite Hl in Hts. discriminate.
Qed.

(* ===================================================================== *)
(** * A fulfilled [migrate] run, step by step *)
(* ===================================================================== *)

Lemma preserves_run (Inv : World -> Prop) A (m : M A) w r w' :
  preserves Inv m -> m w = (r, w') -> Inv w -> Inv w'.
Proof. intros Hp E H. specialize (Hp w H). now rewrite E in Hp. Qed.

Lemma finally_ok_inv A (m : M A) f w a w' :
  finally m f w = (Ok a, w') -> exists w1, m w = (Ok a, w1) /\ f w1 = (Ok tt, w').
Proof.
  unfold finally. destruct (m w) as [[a0|e|] w1]; [| |discriminate];
    destruct (f w1) as [[[]|e2|] w2] eqn:E; intros H; inversion H; subst; eauto.
Qed.

Lemma createTransaction_ok_inv A (m : M A) w a w' :
  Locking.createTransaction m w = (Ok a, w') ->
  exists w2, m (mkWorld (begin (db w)) (events w)) = (Ok a, w2)
             /\ w' = mkWorld (commit (db w2)) (events w2).
Proof.
  unfold Locking.createTransaction.
  destruct (m _) as [[a0|e|] w2]; intros H; inversion H; subst; eauto.
Qed.

Lemma releaseOnError_rejects A now e w (a : A) w' :
  Locking.releaseOnError now e w <> (Ok a, w').
Proof.
  unfold Locking.releaseOnError. intros H.
  assert (forall e0, (Locking.unlock now ;; @throw A e0) w <> (Ok a, w')) as Hu.
  { intros e0 Hu. apply bind_inv in Hu as [(x & w1 & _ & Hu)|[(e1 & _ & ?)|(_ & ?)]];
      discriminate. }
  destruct e; try discriminate; now apply Hu in H.
Qed.

Lemma guarded_ok_inv A (m : M A) now w a w' :
  catch m (Locking.releaseOnError now) w = (Ok a, w') -> m w = (Ok a, w').
Proof.
  intros H. apply catch_inv in H as [(e & w1 & _ & H)|[H _]]; [|assumption].
  now apply releaseOnError_rejects in H.
Qed.

Lemma lock_ok_inv w a w' :
  Locking.lock w = (Ok a, w') -> w' = mkWorld (db w) (events w ++ [EvLock]).
Proof.
  unfold Locking.lock, bind, getDb, emit, throw.
  destruct (migrations_lock (view (db w))); intros H; now inversion H.
Qed.

(** The steps of a fulfilled run: the integrity check in the world after
    the lock; the before hook and the versions driven; the after hook and the
    unlock; the commit and the shutdown hook. *)
Lemma migrateOnly_fulfilled km options now w0 w1 :
  Locking.migrateOnly km options now w0 = (Ok tt, w1) ->
  exists result wi wb we w2,
    integrityCheck km (opt_force options) (afterLock w0) = (Ok result, wi)
    /\ (warnMissingVersion (opt_version options) result ;;
        if length (versionsToMigrate result) =? 0 then ret tt
        else runHook "before" (before (migrateHooks km))) wi = (Ok tt, wb)
    /\ (if length (versionsToMigrate result) =? 0 then ret tt
        else each (fun v => Locking.migrateTo km v (migrateHooks km)
                              (if negb (given (opt_version options)) then None
                               else orNull (opt_only options)) None)
                  (versionsToMigrate result)) wb = (Ok tt, we)
    /\ ((if length (versionsToMigrate result) =? 0 then ret tt
         else runHook "after" (after (migrateHooks km))) ;;
        Locking.unlock now) we = (Ok tt, w2)
    /\ runHook "shutdown" (shutdown (migrateHooks km))
               (mkWorld (commit (db w2)) (events w2)) = (Ok tt, w1).
Proof.
  unfold Locking.migrateOnly. cbv zeta. intros H.
  apply finally_ok_inv in H as (w3 & H & Hs).
  apply createTransaction_ok_inv in H as (w2 & H & ->).
  apply guarded_ok_inv in H.
  apply bind_inv in H as [([] & wl & Hl & H)|[(e & _ & ?)|(_ & ?)]]; try discriminate.
  apply lock_ok_inv in Hl. cbn [db events] in Hl. fold (afterLock w0) in Hl. subst wl.
  apply bind_inv in H as [(result & wi & Hi & H)|[(e & _ & ?)|(_ & ?)]]; try discriminate.
  apply bind_inv in H as [([] & wa & Ha & H)|[(e & _ & ?)|(_ & ?)]]; try discriminate.
  apply bind_inv in H as [([] & wb & Hb & H)|[(e & _ & ?)|(_ & ?)]]; try discriminate.
  apply bind_inv in H as [([] & we & He & H)|[(e & _ & ?)|(_ & ?)]]; try discriminate.
  exists result, wi, wb, we, w2. splits; auto.
  now rewrite (bind_ok _ Ha).
Qed.

Definition noInitRows (L : list Row) : Prop := rowsOf INIT L = [].

Lemma noInitRows_closed km ver : ver <> INIT -> closedFor km noInitRows ver.
Proof.
  intros Hne n L H. unfold noInitRows, rowsOf in *. rewrite filter_app, H. cbn.
  apply String.eqb_neq in Hne. now rewrite Hne.
Qed.

Lemma onLedger_commit P w : onLedger P w -> onLedger P (mkWorld (commit (db w)) (events w)).
Proof. intros H. exact H. Qed.

(** The init folder is missing or holds no task. *)
Definition noInitTasks (km : KnexMigrator) : Prop :=
  forall ts, initDir (migrationPath km) = Some ts -> ts = [].

Lemma migrateTo_init_names km hooks only skip w w' :
  noInitTasks km ->
  Locking.migrateTo km INIT hooks only skip w = (Ok tt, w') ->
  allNamed km (ledgerOf w').
Proof.
  intros Hinit. unfold Locking.migrateTo. cbn [String.eqb INIT negb orb].
  change (String.eqb "init" "init") with true. cbn [negb orb].
  intros H.
  apply bind_inv in H as [(tasks & w1 & H1 & H)|[(e & _ & ?)|(_ & ?)]]; try discriminate.
  assert (tasks = [] /\ w1 = w) as [-> ->].
  { unfold catch, readTasks, noInitTasks in *. cbn [tasksAt] in H1.
    destruct (initDir (migrationPath km)) as [ts|]; cbn in H1.
    - rewrite (Hinit ts eq_refl) in H1. now inversion H1.
    - now inversion H1. }
  apply bind_inv in H as [(s & w2 & H2 & H)|[(e & _ & ?)|(_ & ?)]]; try discriminate.
  unfold selectTasks in H2. destruct (orNull only) as [n|].
  - exfalso. destruct (n - 1); cbn in H2; discriminate.
  - assert (s = [] /\ w2 = w) as [-> ->].
    { destruct (orNull skip) as [k|]; [destruct (k - 1)|]; cbn in H2; now inversion H2. }
    cbn in H. now apply complete_names in H.
Qed.

Section StableSegments.

Variable Inv : World -> Prop.
Hypothesis stable : userStable Inv.

Lemma stable_before v result (b : bool) h :
  preserves Inv (warnMissingVersion v result ;; if b then ret tt else runHook "before" h).
Proof.
  apply preserves_bind; [now apply stable_warnMissingVersion|]. intros _.
  destruct b; [apply preserves_ret|now apply stable_runHook].
Qed.

Lemma stable_after (b : bool) h now :
  preserves Inv ((if b then ret tt else runHook "after" h) ;; Locking.unlock now).
Proof.
  apply preserves_bind; [|intros _; now apply stable_unlock].
  destruct b; [apply preserves_ret|now apply stable_runHook].
Qed.

End StableSegments.

(** After a fulfilled [migrate], no transaction is open, and if the init
    folder is empty while the ledger holds init rows, the run has been through
    the init completion: every task file of every version folder has its name
    in the ledger. *)
Lemma first_run_completes km options now w0 w1 :
  Locking.migrateOnly km options now w0 = (Ok tt, w1) ->
  txn (db w1) = None
  /\ (initDir (migrationPath km) = Some [] -> rowsOf INIT (ledgerOf w1) <> [] ->
      allNamed km (ledgerOf w1)).
Proof.
  intros H. apply migrateOnly_fulfilled in H
    as (result & wi & wb & we & w2 & Hi & Hb & He & Ht & Hs).
  split.
  { eapply (preserves_run (Inv:=noTxn)); [apply stable_runHook, noTxn_stable|exact Hs|].
    reflexivity. }
  intros Hinit Hrows.
  destruct (versionsToMigrate_facts _ _ _ Hi) as (Hdue & ts & Hts & Hdrive).
  rewrite Hinit in Hts. inversion Hts; subst ts. clear Hts.
  (* what holds after the versions have been driven holds at the end *)
  assert (forall P, onLedger P we -> onLedger P w1) as Htail.
  { intros P Hwe.
    eapply preserves_run; [apply stable_runHook, onLedger_stable|exact Hs|].
    apply onLedger_commit.
    eapply preserves_run; [apply stable_after, onLedger_stable|exact Ht|exact Hwe]. }
  assert (forall P, onLedger P (afterLock w0) -> onLedger P wb) as Hhead.
  { intros P Hw0.
    eapply preserves_run; [apply stable_before, onLedger_stable|exact Hb|].
    eapply preserves_run; [apply stable_integrityCheck, onLedger_stable|exact Hi|exact Hw0]. }
  destruct (rowsOf INIT (ledgerOf (afterLock w0))) as [|r0 rs] eqn:Erows.
  - (* no init row at the start: none at the end *)
    exfalso. apply Hrows. apply (Htail noInitRows).
    assert (~ In INIT (versionsToMigrate result)) as Hni.
    { intros Hin. apply Hdrive in Hin. now apply Hin. }
    destruct (length (versionsToMigrate result) =? 0).
    + inversion He; subst. now apply (Hhead noInitRows).
    + eapply preserves_run; [|exact He|now apply (Hhead noInitRows)].
      apply preserves_each. intros V HV. apply onLedger_migrateTo.
      * apply noInitRows_closed. intros ->. contradiction.
      * intros ->. contradiction.
  - (* init rows and no init task: init was driven, through the completion *)
    assert (In INIT (versionsToMigrate result)) as Hin by (apply Hdrive; discriminate).
    apply (Htail (allNamed km)).
    destruct (versionsToMigrate result) as [|v0 vs] eqn:Ev; [contradiction|].
    cbn [length Nat.eqb] in He.
    pose proof (each_establishes
                  (fun v => Locking.migrateTo km v (migrateHooks km)
                              (if negb (given (opt_version options)) then None
                               else orNull (opt_only options)) None)
                  (fun V w => V = INIT -> allNamed km (ledgerOf w)) (v0 :: vs)) as Hall.
    eapply Hall; [| |exact He|exact Hin|reflexivity].
    + intros x y w r w' Hy Hx ->. specialize (Hx eq_refl).
      eapply (preserves_run (Inv:=onLedger (allNamed km))); [|exact Hy|exact Hx].
      apply onLedger_migrateTo.
      * intros n L HL. now apply allNamed_closed.
      * intros _. apply allNamed_closed.
    + intros x w w' Hx ->. eapply migrateTo_init_names; [|exact Hx].
      intros ts Hts. rewrite Hinit in Hts. now inversion Hts.
Qed.

(* ===================================================================== *)
(** * Running [migrate] again (C3) *)
(* ===================================================================== *)

(** The folder [migrateTo] reads for a version. *)
Definition pathOf (V : string) : Path :=
  if String.eqb V INIT then InitFolder else VersionFolder V.

(** Every task file of every due version (every version that is not a
    future version, or every version under [force]) has its row in the
    ledger. *)
Definition allDueRecorded (km : KnexMigrator) (force : bool) (L : list Row) : Prop :=
  forall V ts t,
    futureVersion km force V = false ->
    tasksAt (migrationPath km) (pathOf V) = Some ts ->
    In t ts ->
    recorded (task_name t) V L = true.

(** The ledger, seen and durable, is [L]; the bodies called so far are [X]. *)
Definition still (L : list Row) (X : list (string * string)) (w : World) : Prop :=
  ledgerOf w = L /\ ledger (durable (db w)) = L /\ executed (events w) = X.

Lemma still_stable L X : userStable (still L X).
Proof.
  unfold userStable, still, ledgerOf. splits; cbn.
  - intros w f Hf (Hv & Hd & Hx). rewrite view_write, ledger_keep by assumption.
    splits; auto. unfold write, view in *. destruct (txn (db w)); cbn; [assumption|].
    now rewrite ledger_keep.
  - intros w f Hf (Hv & Hd & Hx). rewrite view_ddl, ledger_keep by assumption.
    splits; auto. unfold ddl. destruct (ddlCommits (db w)); cbn.
    + now rewrite ledger_keep.
    + unfold write, view in *. destruct (txn (db w)); cbn; [assumption|].
      now rewrite ledger_keep.
  - intros w ev Hev (Hv & Hd & Hx). splits; auto. now rewrite executed_other.
Qed.

Lemma preserves_bind_val (Inv : World -> Prop) A B (R : A -> Prop) (m : M A) (k : A -> M B) :
  (forall w a w', Inv w -> m w = (Ok a, w') -> R a) ->
  preserves Inv m -> (forall a, R a -> preserves Inv (k a)) -> preserves Inv (bind m k).
Proof.
  intros HR Hm Hk w H. unfold bind. specialize (Hm w H). specialize (HR w).
  destruct (m w) as [[a|e|] w1]; cbn in *; auto. apply Hk; eauto.
Qed.

(** Tasks that are all recorded leave the world as it is; the names of those
    that are skipped are all there. *)
Lemma executeTasks_all_recorded km V hooks tasks :
  forall skipped w,
    (forall t, In (Some t) tasks -> recorded (task_name t) V (ledgerOf w) = true) ->
    exists r, Locking.executeTasks km V hooks tasks skipped w = (r, w)
              /\ forall s, r = Ok s -> length s = length skipped + length tasks.
Proof.
  induction tasks as [|task rest IH]; intros skipped w Hrec; cbn [Locking.executeTasks].
  - exists (Ok skipped). split; [reflexivity|]. intros s Hs. inversion Hs; subst. cbn. lia.
  - destruct task as [t|].
    + assert (Locking.executeTask km V hooks skipped (Some t) w
              = (Ok (skipped ++ [task_name t]), w)) as Hskip.
      { unfold Locking.executeTask, catch.
        now rewrite (bind_err _ (beforeEachTask_recorded _ _ _ (Hrec t (or_introl eq_refl)))). }
      rewrite (bind_ok _ Hskip).
      destruct (IH (skipped ++ [task_name t]) w) as (r & Hr & Hlen).
      { intros t' Ht'. apply Hrec. now right. }
      exists r. split; [assumption|]. intros s Hs. rewrite (Hlen s Hs), length_app. cbn. lia.
    + exists (Err TypeError). split; [reflexivity|discriminate].
Qed.

Lemma each_unchanged A (f : A -> M unit) l w :
  (forall x, In x l -> exists r, f x w = (r, w)) -> exists r, each f l w = (r, w).
Proof.
  induction l as [|x l IH]; intros Hf; [now exists (Ok tt)|].
  cbn [each]. destruct (Hf x (or_introl eq_refl)) as ([[]|e|] & Hx).
  - rewrite (bind_ok _ Hx). apply IH. intros y Hy. apply Hf. now right.
  - rewrite (bind_err _ Hx). eauto.
  - unfold bind. rewrite Hx. eauto.
Qed.

(** With every task file named in the ledger, the completion changes
    nothing. *)
Lemma complete_unchanged km w :
  allNamed km (ledgerOf w) -> exists r, Locking.complete km w = (r, w).
Proof.
  intros Hall. unfold Locking.complete, readFolders.
  destruct (versionsDir (migrationPath km)) as [l|]; cbn; [|eauto].
  apply each_unchanged. intros v _. unfold completeVersion, readTasks.
  destruct (tasksAt (migrationPath km) (VersionFolder v)) as [ts|] eqn:Ets;
    [|eexists; reflexivity].
  unfold bind at 1, ret. apply each_unchanged. intros f Hf.
  exists (Ok tt).
  destruct (completeFile km v f w) as [r w'] eqn:E.
  pose proof E as E'. apply completeFile_inv in E'
    as [(_ & -> & ->)|[(Hn & _)|(-> & errno & ->)]]; [reflexivity| |].
  - exfalso. now apply (Hall v ts f Ets Hf).
  - exfalso. unfold completeFile in E.
    apply bind_inv in E as [(a & w1 & H1 & H2)|[(e & H1 & He)|(H1 & He)]];
      apply selectMigrations_inv in H1 as [Hw [[Ha Hm]|(no & Hd & Hm)]];
      try discriminate.
    + subst w1. inversion Ha; subst a. fold (named (task_name f) (ledgerOf w)) in H2.
      specialize (Hall v ts f Ets Hf).
      destruct (named (task_name f) (ledgerOf w)); [congruence|discriminate].
    + apply (Hall v ts f Ets Hf). unfold ledgerOf, ledger. now rewrite Hm.
Qed.

Lemma selectTasks_In only ts t : In (Some t) (selectTasks only None ts) -> In t ts.
Proof.
  unfold selectTasks. destruct (orNull only) as [n|]; cbn [orNull].
  - intros [H|[]]. now apply nth_error_In in H.
  - rewrite in_map_iff. intros (x & Hx & Hin). now inversion Hx; subst.
Qed.

(** A version whose task files are all recorded: [migrateTo] leaves the
    world as it is. *)
Lemma migrateTo_unchanged km force V hooks only w :
  allDueRecorded km force (ledgerOf w) ->
  futureVersion km force V = false ->
  (V = INIT -> noInitTasks km -> allNamed km (ledgerOf w)) ->
  exists r, Locking.migrateTo km V hooks only None w = (r, w).
Proof.
  intros Hrec Hdue Hnamed. unfold Locking.migrateTo.
  assert ((exists ts,
             (if negb (String.eqb V INIT) then readTasks km (VersionFolder V)
              else catch (readTasks km InitFolder)
                         (fun err => if hasCode "MIGRATION_PATH" err then ret []
                                     else throw err)) w = (Ok ts, w)
             /\ (forall t, In t ts -> recorded (task_name t) V (ledgerOf w) = true)
             /\ (V = INIT -> ts = [] -> noInitTasks km))
           \/ exists e,
             (if negb (String.eqb V INIT) then readTasks km (VersionFolder V)
              else catch (readTasks km InitFolder)
                         (fun err => if hasCode "MIGRATION_PATH" err then ret []
                                     else throw err)) w = (Err e, w)) as Hread.
  { pose proof (Hrec V) as HV. unfold pathOf in HV.
    destruct (String.eqb_spec V INIT) as [->|Hne]; cbn [negb].
    - left. unfold catch, readTasks, noInitTasks. cbn [tasksAt] in *.
      destruct (initDir (migrationPath km)) as [ts|] eqn:Ei.
      + exists ts. splits; [reflexivity|now eauto|]. intros _ -> ts' Hts'. now inversion Hts'.
      + exists []. splits; [reflexivity|intros t []|]. intros _ _ ts' Hts'. discriminate.
    - unfold readTasks.
      destruct (tasksAt (migrationPath km) (VersionFolder V)) as [ts|];
        [left; exists ts; splits; [reflexivity|now eauto|contradiction]
        |right; eexists; reflexivity]. }
  destruct Hread as [(ts & Hread & Hts & Hnone)|(e & Hread)];
    [|rewrite (bind_err _ Hread); eauto].
  rewrite (bind_ok _ Hread).
  destruct (executeTasks_all_recorded km V hooks (selectTasks only None ts) [] w)
    as (r & Hr & Hlen).
  { intros t Ht. apply Hts. now apply selectTasks_In in Ht. }
  destruct r as [s|e|]; [|rewrite (bind_err _ Hr); eauto|unfold bind; rewrite Hr; eauto].
  rewrite (bind_ok _ Hr). specialize (Hlen s eq_refl). cbn in Hlen.
  destruct (String.eqb_spec V INIT) as [->|Hne]; cbn [negb orb]; [|eexists; reflexivity].
  destruct (length s =? 0) eqn:El; cbn [negb]; [|eexists; reflexivity].
  apply Nat.eqb_eq in El. apply complete_unchanged, Hnamed; [reflexivity|].
  apply Hnone; [reflexivity|].
  unfold selectTasks in Hlen. destruct (orNull only); cbn in Hlen; [lia|].
  rewrite length_map in Hlen. destruct ts; [reflexivity|cbn in Hlen; lia].
Qed.

Lemma still_createTransaction L X A (m : M A) :
  preserves (still L X) m -> preserves (still L X) (Locking.createTransaction m).
Proof.
  intros Hm w (Hv & Hd & Hx). unfold Locking.createTransaction.
  specialize (Hm (mkWorld (begin (db w)) (events w))).
  destruct (m _) as [[a|e|] w'']; cbn [snd] in *.
  - destruct Hm as (Hv' & Hd' & Hx'); [now splits|]. now splits.
  - destruct Hm as (Hv' & Hd' & Hx'); [now splits|]. now splits.
  - apply Hm. now splits.
Qed.

(** A run of [migrate] (without the init option) on a ledger that records
    every task file of every due version changes neither the ledger nor the
    list of executed task bodies. *)
Lemma migrateOnly_again km options now L X :
  allDueRecorded km (opt_force options) L ->
  (initDir (migrationPath km) = Some [] -> rowsOf INIT L <> [] -> allNamed km L) ->
  preserves (still L X) (Locking.migrateOnly km options now).
Proof.
  intros Hrec Hnamed. unfold Locking.migrateOnly. cbv zeta.
  pose proof (still_stable L X) as Hst.
  apply preserves_finally; [|now apply stable_runHook].
  apply still_createTransaction.
  apply preserves_catch; [|intros e; now apply stable_releaseOnError].
  apply preserves_bind; [now apply stable_lock|]. intros _.
  apply preserves_bind_val with
    (R := fun result =>
            (forall V, In V (versionsToMigrate result) ->
                       futureVersion km (opt_force options) V = false)
            /\ exists ts, initDir (migrationPath km) = Some ts
                          /\ (In INIT (versionsToMigrate result)
                              <-> length ts <> length (rowsOf INIT L))).
  - intros w result w' (Hv & _) H. rewrite <- Hv. eapply versionsToMigrate_facts; eauto.
  - now apply stable_integrityCheck.
  - intros result (Hdue & ts & Hts & Hdrive).
    apply preserves_bind; [now apply stable_warnMissingVersion|]. intros _.
    apply preserves_bind.
    { destruct (_ =? 0); [apply preserves_ret|now apply stable_runHook]. }
    intros _. apply preserves_bind; [|intros _; now apply stable_after].
    destruct (_ =? 0); [apply preserves_ret|].
    apply preserves_each. intros V HV w Hw.
    destruct (@migrateTo_unchanged km (opt_force options) V (migrateHooks km)
                (if negb (given (opt_version options)) then None
                 else orNull (opt_only options)) w) as (r & Hr).
    + now rewrite (proj1 Hw).
    + now apply Hdue.
    + intros -> Hnone. rewrite (proj1 Hw). specialize (Hnone ts Hts). subst ts.
      apply Hnamed; [assumption|]. apply Hdrive in HV. cbn in HV.
      destruct (rowsOf INIT L); [now elim HV|discriminate].
    + now rewrite Hr.
Qed.

(** ** The init step of a second run *)

Lemma still_write L X f w :
  (forall st, ledger (f st) = ledger st) ->
  still L X w -> still L X (mkWorld (write f (db w)) (events w)).
Proof.
  unfold still, ledgerOf. cbn. intros Hf (Hv & Hd & Hx). rewrite view_write, Hf.
  splits; auto. unfold write, view in *. destruct (txn (db w)); cbn; [assumption|].
  now rewrite Hf.
Qed.

Lemma still_ddl L X f w :
  (forall st, ledger (f st) = ledger st) ->
  still L X w -> still L X (mkWorld (ddl f (db w)) (events w)).
Proof.
  intros Hf Hw. unfold ddl. destruct (ddlCommits (db w)) eqn:E; [|now apply still_write].
  destruct Hw as (Hv & Hd & Hx). unfold still, ledgerOf in *. cbn.
  rewrite !Hf. now splits.
Qed.

(** Creating the migrations table turns a missing table, whose ledger is
    empty, into an empty one. *)
Lemma still_createMigrationsTable L X : preserves (still L X) createMigrationsTable.
Proof.
  intros w Hw. unfold createMigrationsTable, catch, bind.
  destruct (selectMigrations w) as [r w'] eqn:E.
  apply selectMigrations_inv in E as [-> [[-> Hm]|(errno & -> & Hm)]]; [exact Hw|].
  destruct ((errno =? 1) || (errno =? 1146)); [|exact Hw].
  unfold modifyDb. cbn [snd].
  assert (L = []) as ->.
  { destruct Hw as (Hv & _). unfold ledgerOf, ledger in Hv. now rewrite Hm in Hv. }
  destruct Hw as (Hv & Hd & Hx). unfold still, ledgerOf, ddl in *. cbn [db events].
  destruct (ddlCommits (db w)); [now splits|].
  rewrite view_write. splits; auto.
  unfold write. destruct (txn (db w)); cbn; auto.
Qed.

Lemma still_ensureLockTable L X : preserves (still L X) Locking.ensureLockTable.
Proof.
  intros w Hw. unfold Locking.ensureLockTable, catch, bind, getDb, modifyDb. cbn.
  destruct (migrations_lock (view (db w))); [exact Hw|].
  destruct (busy (db w)) as [errno|]; [cbn; destruct (errno =? 5); exact Hw|]. cbn.
  match goal with |- still _ _ {| db := write ?f (ddl ?g _); events := _ |} =>
    apply (@still_write L X f (mkWorld (ddl g (db w)) (events w))); [reflexivity|];
    now apply still_ddl
  end.
Qed.

(** [init] on a ledger that records every init task, and names every task
    file when there is no init task, changes neither the ledger nor the list
    of executed task bodies. *)
Lemma init_again km force now L X :
  allDueRecorded km force L ->
  (noInitTasks km -> allNamed km L) ->
  preserves (still L X) (Locking.init km defaultInit now).
Proof.
  intros Hrec Hnamed. unfold Locking.init. cbv zeta.
  cbn [defaultInit disableHooks noScripts init_only init_skip].
  pose proof (still_stable L X) as Hst.
  apply preserves_finally; [|now apply stable_runHook].
  apply preserves_bind; [apply still_createMigrationsTable|]. intros _.
  apply preserves_bind; [apply still_ensureLockTable|]. intros _.
  apply still_createTransaction.
  apply preserves_catch; [|intros e; now apply stable_releaseOnError].
  apply preserves_bind; [now apply stable_lock|]. intros _.
  apply preserves_bind; [now apply stable_runHook|]. intros _.
  apply preserves_bind; [|intros _; now apply stable_after with (b := false)].
  intros w Hw.
  destruct (@migrateTo_unchanged km force INIT noHooks None w) as (r & Hr).
  - now rewrite (proj1 Hw).
  - apply init_not_future.
  - intros _ Hnone. rewrite (proj1 Hw). now apply Hnamed.
  - now rewrite Hr.
Qed.

(** After a fulfilled [init], no transaction is open, and without init tasks
    the completion has run. *)
Lemma init_fulfilled km now w0 wa :
  Locking.init km defaultInit now w0 = (Ok tt, wa) ->
  txn (db wa) = None /\ (noInitTasks km -> allNamed km (ledgerOf wa)).
Proof.
  unfold Locking.init. cbv zeta.
  cbn [defaultInit disableHooks noScripts init_only init_skip]. intros H.
  apply finally_ok_inv in H as (w3 & H & Hs).
  apply bind_inv in H as [([] & wc & Hc & H)|[(e & _ & ?)|(_ & ?)]]; try discriminate.
  apply bind_inv in H as [([] & wl & Hl & H)|[(e & _ & ?)|(_ & ?)]]; try discriminate.
  apply createTransaction_ok_inv in H as (w2 & H & ->).
  apply guarded_ok_inv in H.
  apply bind_inv in H as [([] & wk & Hk & H)|[(e & _ & ?)|(_ & ?)]]; try discriminate.
  apply bind_inv in H as [([] & wh & Hh & H)|[(e & _ & ?)|(_ & ?)]]; try discriminate.
  apply bind_inv in H as [([] & wm & Hm & H)|[(e & _ & ?)|(_ & ?)]]; try discriminate.
  split.
  - eapply (preserves_run (Inv:=noTxn)); [apply stable_runHook, noTxn_stable|exact Hs|].
    reflexivity.
  - intros Hnone.
    eapply (preserves_run (Inv:=onLedger (allNamed km)));
      [apply stable_runHook, onLedger_stable|exact Hs|].
    apply onLedger_commit.
    eapply preserves_run;
      [apply stable_after with (b := false), onLedger_stable|exact H|].
    eapply migrateTo_init_names; eauto.
Qed.

(** A fulfilled [migrate] keeps the names that are in the ledger. *)
Lemma migrateOnly_keeps_names km options now wa w1 :
  Locking.migrateOnly km options now wa = (Ok tt, w1) ->
  txn (db wa) = None -> allNamed km (ledgerOf wa) -> allNamed km (ledgerOf w1).
Proof.
  intros H Htx Hall. apply migrateOnly_fulfilled in H
    as (result & wi & wb & we & w2 & Hi & Hb & He & Ht & Hs).
  assert (onLedger (allNamed km) (afterLock wa)) as H0.
  { unfold onLedger, ledgerOf, afterLock, view in *. cbn. now rewrite Htx in Hall. }
  eapply (preserves_run (Inv:=onLedger (allNamed km)));
    [apply stable_runHook, onLedger_stable|exact Hs|].
  apply onLedger_commit.
  eapply preserves_run; [apply stable_after, onLedger_stable|exact Ht|].
  assert (onLedger (allNamed km) wb) as H1.
  { eapply preserves_run; [apply stable_before, onLedger_stable|exact Hb|].
    eapply preserves_run; [apply stable_integrityCheck, onLedger_stable|exact Hi|exact H0]. }
  destruct (length (versionsToMigrate result) =? 0).
  - now inversion He; subst.
  - eapply preserves_run; [|exact He|exact H1].
    apply preserves_each. intros V HV. apply onLedger_migrateTo.
    + intros n L HL. now apply allNamed_closed.
    + intros _. apply allNamed_closed.
Qed.

(** ** The hypothesis, decided *)

Definition allDueRecordedb (km : KnexMigrator) (force : bool) (L : list Row) : bool :=
  forallb (fun V =>
             futureVersion km force V
             || match tasksAt (migrationPath km) (pathOf V) with
                | Some ts => forallb (fun t => recorded (task_name t) V L) ts
                | None => true
                end)
          (INIT :: match versionsDir (migrationPath km) with
                   | Some l => map fst l
                   | None => []
                   end).

Lemma lookupFolder_In v l ts : lookupFolder v l = Some ts -> In v (map fst l).
Proof.
  induction l as [|[f fs] l IH]; cbn; [discriminate|].
  destruct (String.eqb_spec v f); auto.
Qed.

Lemma allDueRecordedb_sound km force L :
  allDueRecordedb km force L = true -> allDueRecorded km force L.
Proof.
  unfold allDueRecordedb. rewrite forallb_forall. intros H V ts t Hf Hts Ht.
  assert (In V (INIT :: match versionsDir (migrationPath km) with
                        | Some l => map fst l
                        | None => []
                        end)) as HV.
  { unfold pathOf in Hts. destruct (String.eqb_spec V INIT) as [->|Hne]; [now left|right].
    cbn in Hts. destruct (versionsDir (migrationPath km)); [|discriminate].
    eapply lookupFolder_In; eauto. }
  specialize (H V HV). rewrite Hf, Hts in H. cbn in H.
  rewrite forallb_forall in H. now apply H.
Qed.

(** ** The claim *)

(** A project at version 1.1 whose init folder is empty, with a task file
    for 1.1 and one for the future version 1.2; the ledger records the task of
    1.1 and holds an init row of a script that is no longer on disk. *)
Definition fsH : Fs :=
  mkFs (Some []) (Some [("1.1", [plainTask "1-a"]); ("1.2", [plainTask "1-z"])]).
Definition kmH : KnexMigrator := mkKnexMigrator "1.1" fsH noHooks noHooks.
Definition wH : World := worldWith [mkRow "0-old" "init" "1.0"; mkRow "1-a" "1.1" "1.1"].

(** Outside the claim, which is about a second run: a state that no run of
    [migrate] under this configuration has left.  Every task of every due
    version (init, 1.1) is recorded; [migrate] finds one init row against no
    init task, drives init, selects no task, none is skipped, and the
    completion adds a row for the task of version 1.2: the test of
    [skippedTasks.length] does not tell an empty init folder from one whose
    tasks were all run.  A second run from the state this one leaves changes
    nothing. *)
Lemma recorded_state_is_backfilled :
  let options := mkMigrateOptions None false false None in
  let run := Locking.migrate kmH options 0 wH in
  let again := Locking.migrate kmH options 1 (snd run) in
  allDueRecorded kmH false (ledger (durable (db wH)))
  /\ fst run = Ok tt
  /\ executed (events (snd run)) = []
  /\ ledger (durable (db wH)) = [mkRow "0-old" "init" "1.0"; mkRow "1-a" "1.1" "1.1"]
  /\ ledger (durable (db (snd run)))
     = [mkRow "0-old" "init" "1.0"; mkRow "1-a" "1.1" "1.1"; mkRow "1-z" "1.2" "1.1"]
  /\ ledger (durable (db (snd again))) = ledger (durable (db (snd run)))
  /\ executed (events (snd again)) = [].
Proof.
  split; [apply allDueRecordedb_sound; vm_compute; reflexivity|].
  vm_compute. repeat split.
Qed.

(** C3: in a database state that a fulfilled run of [migrate] has left and
    in which every task file of every due version is recorded in the ledger,
    running [migrate] a second time with the same configuration and options
    is a no-op, whatever the outcome of the second run: the ledger holds the
    same rows, so the same number of rows, and no task body is called (the
    tasks that are recorded are skipped by the pre-check). *)
Theorem second_migrate_is_a_noop km options now now' w0 w1 r w2 :
  Locking.migrate km options now w0 = (Ok tt, w1) ->
  allDueRecorded km (opt_force options) (ledger (durable (db w1))) ->
  Locking.migrate km options now' w1 = (r, w2) ->
  ledger (durable (db w2)) = ledger (durable (db w1))
  /\ length (ledger (durable (db w2))) = length (ledger (durable (db w1)))
  /\ executed (events w2) = executed (events w1).
Proof.
  intros H1 Hrec H2.
  set (L := ledger (durable (db w1))) in *.
  enough (still L (executed (events w1)) w2) as (_ & Hd & Hx) by (rewrite Hd; now splits).
  unfold Locking.migrate in *. destruct (opt_init options).
  - apply bind_inv in H1 as [([] & wa & Ha & H1)|[(e & _ & ?)|(_ & ?)]]; try discriminate.
    apply init_fulfilled in Ha as (Htx & Hnames).
    pose proof (first_run_completes _ _ _ _ H1) as (Htx1 & _).
    assert (ledgerOf w1 = L) as HL.
    { unfold ledgerOf, view. now rewrite Htx1. }
    assert (noInitTasks km -> allNamed km L) as Hnamed.
    { intros Hnone. rewrite <- HL. eapply migrateOnly_keeps_names; eauto. }
    eapply preserves_run; [|exact H2|now splits].
    apply preserves_bind; [now apply init_again with (force := opt_force options)|].
    intros _. apply migrateOnly_again; [assumption|].
    intros Hinit _. apply Hnamed. intros ts Hts. rewrite Hinit in Hts. now inversion Hts.
  - pose proof (first_run_completes _ _ _ _ H1) as (Htx1 & Hnamed).
    assert (ledgerOf w1 = L) as HL.
    { unfold ledgerOf, view. now rewrite Htx1. }
    rewrite HL in Hnamed.
    eapply preserves_run; [|exact H2|now splits].
    now apply migrateOnly_again.
Qed.

Lemma second_migrate_is_a_noop_witness :
  let options := mkMigrateOptions None false false None in
  let w1 := snd (Locking.migrate kmA options 0 wA) in
  let run := Locking.migrate kmA options 1 w1 in
  Locking.migrate kmA options 0 wA = (Ok tt, w1)
  /\ executed (events w1) = [("1-a", "1.1"); ("2-b", "1.1")]
  /\ allDueRecorded kmA false (ledger (durable (db w1)))
  /\ ledger (durable (db (snd run))) = ledger (durable (db w1))
  /\ length (ledger (durable (db (snd run)))) = length (ledger (durable (db w1)))
  /\ executed (events (snd run)) = executed (events w1).
Proof.
  intros options w1 run.
  assert (Locking.migrate kmA options 0 wA = (Ok tt, w1)) as H1
    by (vm_compute; reflexivity).
  assert (allDueRecorded kmA false (ledger (durable (db w1)))) as H2
    by (apply allDueRecordedb_sound; vm_compute; reflexivity).
  split; [exact H1|]. split; [vm_compute; reflexivity|]. split; [exact H2|].
  apply (@second_migrate_is_a_noop kmA options 0 1 wA w1 (fst run) (snd run));
    [exact H1|exact H2|vm_compute; reflexivity].
Defined.

(* ===================================================================== *)
(** * The task loop of [migrateTo] *)
(* ===================================================================== *)

(** The visible ledger is [L] and the bodies called so far are [X]. *)
Definition sofar (L : list Row) (X : list (string * string)) (w : World) : Prop :=
  ledgerOf w = L /\ executed (events w) = X.

Lemma sofar_stable L X : userStable (sofar L X).
Proof.
  unfold userStable, sofar, ledgerOf. splits; cbn.
  - intros w f Hf [Hv Hx]. now rewrite view_write, ledger_keep.
  - intros w f Hf [Hv Hx]. now rewrite view_ddl, ledger_keep.
  - intros w ev Hev [Hv Hx]. now rewrite executed_other.
Qed.

(** User code changes neither the ledger nor the list of executed bodies; it
    settles, and does not reject with [MigrationExistsError]. *)
Lemma runHook_outcome which h w r w' :
  runHook which h w = (r, w') ->
  sofar (ledgerOf w) (executed (events w)) w'
  /\ r <> Pending /\ forall e, r = Err e -> foreign e.
Proof.
  intros H. split.
  - eapply preserves_run; [apply stable_runHook, sofar_stable|exact H|]. now split.
  - destruct (runHook_quiet which h w) as [_ Hr]. rewrite H in Hr. cbn in Hr.
    split; [now intros ->|]. now intros e ->.
Qed.

Lemma runCode_outcome c w r w' :
  runCode c w = (r, w') ->
  sofar (ledgerOf w) (executed (events w)) w'
  /\ r <> Pending /\ forall e, r = Err e -> foreign e.
Proof.
  intros H. split.
  - eapply preserves_run; [apply stable_runCode, sofar_stable|exact H|]. now split.
  - destruct (runCode_quiet c w) as [_ Hr]. rewrite H in Hr. cbn in Hr.
    split; [now intros ->|]. now intros e ->.
Qed.

(** What [executeTask] can do with a task: skip it, run and record it, or
    reject with the script error of the failure. *)
Inductive TaskOutcome (km : KnexMigrator) (ver : string) (skipped : list string) (t : Task)
  (w : World) : Res (list string) -> World -> Prop :=
| TaskSkipped :
    recorded (task_name t) ver (ledgerOf w) = true ->
    TaskOutcome km ver skipped t w (Ok (skipped ++ [task_name t])) w
| TaskRun w' :
    recorded (task_name t) ver (ledgerOf w) = false ->
    sofar (ledgerOf w ++ [mkRow (task_name t) ver (configVersion km)])
          (executed (events w) ++ [(task_name t, ver)]) w' ->
    TaskOutcome km ver skipped t w (Ok skipped) w'
| TaskFailed e w' :
    foreign e ->
    (ledgerOf w' = ledgerOf w
     \/ ledgerOf w' = ledgerOf w ++ [mkRow (task_name t) ver (configVersion km)]) ->
    (executed (events w') = executed (events w)
     \/ executed (events w') = executed (events w) ++ [(task_name t, ver)]) ->
    TaskOutcome km ver skipped t w (Err (scriptError e (task_name t))) w'.

Lemma handler_foreign skipped t e (w : World) :
  foreign e ->
  (match e with
   | MigrationExistsError _ => ret (skipped ++ [task_name t])
   | _ => throw (scriptError e (task_name t))
   end) w = (Err (scriptError e (task_name t)), w).
Proof. destruct e; cbn; intros H; try contradiction; reflexivity. Qed.

Lemma executeTask_outcome km ver hooks skipped t w r w' :
  Locking.executeTask km ver hooks skipped (Some t) w = (r, w') ->
  TaskOutcome km ver skipped t w r w'.
Proof.
  unfold Locking.executeTask. intros H.
  set (row := mkRow (task_name t) ver (configVersion km)).
  assert (forall e w1, foreign e ->
            (ledgerOf w1 = ledgerOf w \/ ledgerOf w1 = ledgerOf w ++ [row]) ->
            (executed (events w1) = executed (events w)
             \/ executed (events w1) = executed (events w) ++ [(task_name t, ver)]) ->
            (match e with
             | MigrationExistsError _ => ret (skipped ++ [task_name t])
             | _ => throw (scriptError e (task_name t))
             end) w1 = (r, w') ->
            TaskOutcome km ver skipped t w r w') as Hfail.
  { intros e w1 He HL HX Hh. rewrite handler_foreign in Hh by assumption.
    inversion Hh; subst. now apply TaskFailed. }
  apply catch_inv in H as [(e & w1 & Hc & Hh)|[Hc Hne]].
  - (* the chain rejects *)
    apply bind_inv in Hc as [([] & wb & Hb & Hc)|[(e' & Hb & He)|(_ & ?)]]; try discriminate.
    2:{ inversion He; subst e'. clear He.
        pose proof Hb as Hb'. apply beforeEachTask_inv in Hb' as [-> _].
        unfold beforeEachTask in Hb.
        apply bind_inv in Hb as [(l & ws & Hs & Hb)|[(e' & Hs & He)|(_ & ?)]]; try discriminate.
        - apply selectMigrations_inv in Hs as [-> [[Hl _]|(errno & ? & _)]]; [|discriminate].
          inversion Hl; subst l.
          destruct (recorded (task_name t) ver (ledgerOf w)) eqn:Erec; [|discriminate].
          inversion Hb; subst e. cbn in Hh. inversion Hh; subst. now apply TaskSkipped.
        - apply selectMigrations_inv in Hs as [_ [[? _]|(errno & Hr & _)]]; [discriminate|].
          inversion He; subst e. inversion Hr; subst e'.
          apply (Hfail (DbError errno) w); [exact I|now left|now left|assumption]. }
    apply beforeEachTask_inv in Hb as [-> Hrec]. specialize (Hrec eq_refl).
    apply bind_inv in Hc as [([] & w2 & H2 & Hc)|[(e' & H2 & He)|(_ & ?)]]; try discriminate.
    2:{ inversion He; subst e'. apply runHook_outcome in H2 as ([HL HX] & _ & Ho).
        apply (Hfail e w1); auto. }
    apply runHook_outcome in H2 as ([HL2 HX2] & _ & _).
    apply bind_inv in Hc as [([] & w3 & H3 & Hc)|[(e' & H3 & He)|(_ & ?)]]; try discriminate.
    apply emit_inv in H3 as (_ & Hd3 & He3).
    assert (ledgerOf w3 = ledgerOf w) as HL3 by (unfold ledgerOf in *; now rewrite Hd3).
    assert (executed (events w3) = executed (events w) ++ [(task_name t, ver)]) as HX3
      by (now rewrite He3, executed_app, HX2).
    apply bind_inv in Hc as [(b & w4 & H4 & Hc)|[(e' & H4 & He)|(_ & ?)]]; try discriminate.
    2:{ inversion He; subst e'. apply runCode_outcome in H4 as ([HL HX] & _ & Ho).
        apply (Hfail e w1); auto.
        - left. congruence.
        - right. congruence. }
    apply runCode_outcome in H4 as ([HL4 HX4] & _ & _).
    apply bind_inv in Hc as [([] & w5 & H5 & Hc)|[(e' & H5 & He)|(_ & ?)]]; try discriminate.
    2:{ inversion He; subst e'. unfold Locking.afterEachTask in H5.
        apply insertMigration_inv in H5 as [(? & _)|(-> & errno & Hr)]; [discriminate|].
        inversion Hr; subst e. apply (Hfail (DbError errno) w4); auto.
        - exact I.
        - left. congruence.
        - right. congruence. }
    unfold Locking.afterEachTask in H5.
    apply insertMigration_inv in H5 as [(_ & HL5 & He5 & _)|(_ & errno & ?)]; [|discriminate].
    apply bind_inv in Hc as [([] & w6 & H6 & Hc)|[(e' & H6 & He)|(_ & ?)]]; try discriminate.
    inversion He; subst e'. apply runHook_outcome in H6 as ([HL HX] & _ & Ho).
    apply (Hfail e w1); auto.
    + right. fold row in HL5. congruence.
    + right. rewrite HX, He5. congruence.
  - (* the chain does not reject *)
    apply bind_inv in Hc as [([] & wb & Hb & Hc)|[(e' & _ & He)|(Hb & ->)]];
      [|now elim (Hne e')|].
    2:{ destruct (beforeEachTask_quiet (task_name t) ver w) as [_ Hp].
        rewrite Hb in Hp. contradiction. }
    apply beforeEachTask_inv in Hb as [-> Hrec]. specialize (Hrec eq_refl).
    apply bind_inv in Hc as [([] & w2 & H2 & Hc)|[(e' & _ & He)|(H2 & ->)]];
      [|now elim (Hne e')|].
    2:{ apply runHook_outcome in H2 as (_ & Hp & _). now elim Hp. }
    apply runHook_outcome in H2 as ([HL2 HX2] & _ & _).
    apply bind_inv in Hc as [([] & w3 & H3 & Hc)|[(e' & _ & He)|(H3 & ->)]];
      [|now elim (Hne e')|now apply emit_inv in H3 as (? & _)].
    apply emit_inv in H3 as (_ & Hd3 & He3).
    assert (ledgerOf w3 = ledgerOf w) as HL3 by (unfold ledgerOf in *; now rewrite Hd3).
    assert (executed (events w3) = executed (events w) ++ [(task_name t, ver)]) as HX3
      by (now rewrite He3, executed_app, HX2).
    apply bind_inv in Hc as [(b & w4 & H4 & Hc)|[(e' & _ & He)|(H4 & ->)]];
      [|now elim (Hne e')|].
    2:{ apply runCode_outcome in H4 as (_ & Hp & _). now elim Hp. }
    apply runCode_outcome in H4 as ([HL4 HX4] & _ & _).
    apply bind_inv in Hc as [([] & w5 & H5 & Hc)|[(e' & _ & He)|(H5 & ->)]];
      [|now elim (Hne e')|].
    2:{ unfold Locking.afterEachTask in H5.
        apply insertMigration_inv in H5 as [(? & _)|(_ & errno & ?)]; discriminate. }
    unfold Locking.afterEachTask in H5.
    apply insertMigration_inv in H5 as [(_ & HL5 & He5 & _)|(_ & errno & ?)]; [|discriminate].
    apply bind_inv in Hc as [([] & w6 & H6 & Hc)|[(e' & _ & He)|(H6 & ->)]];
      [|now elim (Hne e')|].
    2:{ apply runHook_outcome in H6 as (_ & Hp & _). now elim Hp. }
    apply runHook_outcome in H6 as ([HL HX] & _ & _).
    inversion Hc; subst. apply TaskRun; [assumption|]. split.
    + subst row. congruence.
    + rewrite HX, He5. congruence.
Qed.

(** ** The task loop *)

Lemma recorded_app task ver l1 l2 :
  recorded task ver (l1 ++ l2) = recorded task ver l1 || recorded task ver l2.
Proof. apply existsb_app. Qed.

Lemma recorded_other task ver n cv l :
  task <> n -> recorded task ver (l ++ [mkRow n ver cv]) = recorded task ver l.
Proof.
  intros Hne. rewrite recorded_app. cbn. unfold sameTask. cbn.
  apply String.eqb_neq in Hne. rewrite String.eqb_sym, Hne. cbn.
  now rewrite orb_false_r.
Qed.

(** Every body the loop calls belongs to a task of its list, and is called
    under the version of the loop. *)
Lemma executeTasks_selected km ver hooks tasks :
  forall skipped w r w',
    Locking.executeTasks km ver hooks tasks skipped w = (r, w') ->
    exists delta, executed (events w') = executed (events w) ++ delta
                  /\ forall p, In p delta ->
                       exists t, In (Some t) tasks /\ p = (task_name t, ver).
Proof.
  induction tasks as [|task rest IH]; intros skipped w r w' H; cbn [Locking.executeTasks] in H.
  - inversion H; subst. exists []. split; [now rewrite app_nil_r|intros p []].
  - assert (forall r1 w1, Locking.executeTask km ver hooks skipped task w = (r1, w1) ->
              exists d1, executed (events w1) = executed (events w) ++ d1
                         /\ forall p, In p d1 ->
                              exists t, In (Some t) (task :: rest) /\ p = (task_name t, ver))
      as Hone.
    { intros r1 w1 H1. destruct task as [t|].
      - apply executeTask_outcome in H1. destruct H1 as [Hrec|w1 Hrec [_ HX]|e w1 _ _ [HX|HX]].
        + exists []. split; [now rewrite app_nil_r|intros p []].
        + exists [(task_name t, ver)]. split; [assumption|].
          intros p [<-|[]]. exists t. split; [now left|reflexivity].
        + exists []. split; [now rewrite app_nil_r|intros p []].
        + exists [(task_name t, ver)]. split; [assumption|].
          intros p [<-|[]]. exists t. split; [now left|reflexivity].
      - inversion H1; subst. exists []. split; [now rewrite app_nil_r|intros p []]. }
    apply bind_inv in H as [(s1 & w1 & H1 & H)|[(e & H1 & ->)|(H1 & ->)]];
      [|exact (Hone _ _ H1)|exact (Hone _ _ H1)].
    destruct (Hone _ _ H1) as (d1 & Hd1 & Hin1).
    destruct (IH _ _ _ _ H) as (d2 & Hd2 & Hin2).
    exists (d1 ++ d2). split; [now rewrite Hd2, Hd1, app_assoc|].
    intros p Hp. apply in_app_or in Hp as [Hp|Hp]; [now apply Hin1|].
    destruct (Hin2 p Hp) as (t & Ht & ->). exists t. split; [now right|reflexivity].
Qed.

(** The names of the tasks of [ts] that the ledger [L] does not record under
    [ver], and of those it does. *)
Definition unrecorded (ver : string) (L : list Row) (ts : list Task) : list string :=
  map task_name (filter (fun t => negb (recorded (task_name t) ver L)) ts).

Definition alreadyRecorded (ver : string) (L : list Row) (ts : list Task) : list string :=
  map task_name (filter (fun t => recorded (task_name t) ver L) ts).

Lemma filter_recorded_other ver n cv L ts (f : bool -> bool) :
  ~ In n (map task_name ts) ->
  filter (fun t => f (recorded (task_name t) ver (L ++ [mkRow n ver cv]))) ts
  = filter (fun t => f (recorded (task_name t) ver L)) ts.
Proof.
  intros Hn. apply filter_ext_in. intros t Ht. rewrite recorded_other; [reflexivity|].
  intros E. apply Hn. rewrite <- E. now apply in_map.
Qed.

Lemma executeTasks_fulfilled km ver hooks ts :
  NoDup (map task_name ts) ->
  forall skipped w s w',
    Locking.executeTasks km ver hooks (map Some ts) skipped w = (Ok s, w') ->
    ledgerOf w' = ledgerOf w
                  ++ map (fun n => mkRow n ver (configVersion km)) (unrecorded ver (ledgerOf w) ts)
    /\ executed (events w')
       = executed (events w) ++ map (fun n => (n, ver)) (unrecorded ver (ledgerOf w) ts)
    /\ s = skipped ++ alreadyRecorded ver (ledgerOf w) ts.
Proof.
  unfold unrecorded, alreadyRecorded.
  induction ts as [|t ts IH]; intros Hnd skipped w s w' H; cbn [map Locking.executeTasks] in H.
  - inversion H; subst. cbn. now rewrite !app_nil_r.
  - inversion Hnd as [|n l Hn Hnd']; subst.
    apply bind_inv in H as [(s1 & w1 & H1 & H)|[(e & _ & ?)|(_ & ?)]]; try discriminate.
    apply executeTask_outcome in H1. apply (IH Hnd') in H. clear IH.
    destruct H as (HL & HX & Hs).
    inversion H1 as [Hrec Hr Hw|w1' Hrec [HL1 HX1] Hr Hw|]; clear H1; subst s1 w1.
    + cbn [filter]. rewrite Hrec. cbn [negb map]. splits; auto.
      now rewrite Hs, <- app_assoc.
    + cbn [filter]. rewrite Hrec. cbn [negb map].
      rewrite HL1 in HL, HX, Hs.
      rewrite (@filter_recorded_other ver (task_name t) (configVersion km) (ledgerOf w) ts
                 negb Hn) in HL, HX.
      rewrite (@filter_recorded_other ver (task_name t) (configVersion km) (ledgerOf w) ts
                 (fun b => b) Hn) in Hs.
      rewrite HL, HX, HX1, Hs.
      rewrite <- !app_assoc. now splits.
Qed.

Lemma executeTasks_rejected km ver hooks ts :
  forall skipped w e w',
    Locking.executeTasks km ver hooks (map Some ts) skipped w = (Err e, w') ->
    exists pre t post s1 w1,
      ts = pre ++ t :: post
      /\ Locking.executeTasks km ver hooks (map Some pre) skipped w = (Ok s1, w1)
      /\ Locking.executeTask km ver hooks s1 (Some t) w1 = (Err e, w').
Proof.
  induction ts as [|t ts IH]; intros skipped w e w' H; cbn [map Locking.executeTasks] in H.
  - discriminate.
  - apply bind_inv in H as [(s1 & w1 & H1 & H)|[(e' & H1 & He)|(_ & ?)]]; try discriminate.
    + apply IH in H as (pre & t' & post & s2 & w2 & -> & Hpre & Ht).
      exists (t :: pre), t', post, s2, w2. splits; auto.
      cbn [map Locking.executeTasks]. now rewrite (bind_ok _ H1).
    + inversion He; subst e'. exists [], t, ts, skipped, w. now splits.
Qed.

(** The init completion calls no task body. *)
Lemma complete_executed km w r w' :
  Locking.complete km w = (r, w') -> events w' = events w.
Proof.
  unfold Locking.complete. destruct (readFolders km w) as [rf wf] eqn:Ef.
  apply readFolders_inv in Ef as [-> _].
  destruct rf as [vs|e|]; [|destruct (hasCode _ e); intros H; now inversion H
                          |intros H; now inversion H].
  intros H. eapply each_invariant with (I := fun x => events x = events w); [|exact H|reflexivity].
  intros v w0 r0 w0' _ Hv Hw0. unfold completeVersion in Hv.
  apply bind_inv in Hv as [(fs & w1 & H1 & Hv)|[(e & H1 & _)|(H1 & _)]];
    try (apply readTasks_inv in H1 as [-> _]; assumption).
  apply readTasks_inv in H1 as [-> _].
  eapply each_invariant with (I := fun x => events x = events w); [|exact Hv|assumption].
  intros f w2 r2 w2' _ Hf Hw2. apply completeFile_inv in Hf as [(_ & _ & ->)|[(_ & _ & _ & He)|(-> & _)]];
    congruence.
Qed.

(** The tasks [migrateTo] reads for a version. *)
Lemma migrateTo_reads km ver ts (w : World) :
  tasksAt (migrationPath km) (pathOf ver) = Some ts ->
  (if negb (String.eqb ver INIT) then readTasks km (VersionFolder ver)
   else catch (readTasks km InitFolder)
              (fun err => if hasCode "MIGRATION_PATH" err then ret [] else throw err)) w
  = (Ok ts, w).
Proof.
  unfold pathOf, readTasks, catch. destruct (String.eqb ver INIT); cbn [negb]; now intros ->.
Qed.

Lemma splice1_names (ts : list Task) :
  NoDup (map task_name ts) ->
  forall i t, nth_error ts i = Some t ->
    forall t', In t' (splice1 i ts) -> task_name t' <> task_name t.
Proof.
  induction ts as [|x ts IH]; intros Hnd i t Hi t' Ht'; [destruct i; discriminate|].
  inversion Hnd as [|n l Hn Hnd']; subst.
  destruct i as [|i]; cbn in Hi, Ht'.
  - inversion Hi; subst x. intros E. apply Hn. rewrite <- E. now apply in_map.
  - destruct Ht' as [<-|Ht'].
    + intros E. apply Hn. rewrite E. apply in_map. eapply nth_error_In; eauto.
    + now apply (IH Hnd' i t).
Qed.

Lemma NoDup_app_disjoint A (l1 l2 : list A) a :
  NoDup (l1 ++ l2) -> In a l1 -> In a l2 -> False.
Proof.
  induction l1 as [|x l1 IH]; intros Hnd H1 H2; [contradiction|].
  cbn in Hnd. inversion Hnd as [|n l Hn Hnd']; subst.
  destruct H1 as [->|H1]; [|now apply IH].
  apply Hn. apply in_or_app. now right.
Qed.

Lemma recorded_grows task ver L r :
  recorded task ver L = true -> recorded task ver (L ++ [r]) = true.
Proof. intros H. now rewrite recorded_app, H. Qed.

Lemma recorded_after ver cv L ts t :
  In t ts ->
  recorded (task_name t) ver
    (L ++ map (fun n => mkRow n ver cv) (unrecorded ver L ts)) = true.
Proof.
  intros Ht. rewrite recorded_app.
  destruct (recorded (task_name t) ver L) eqn:E; [reflexivity|]. cbn.
  unfold recorded. apply existsb_exists. exists (mkRow (task_name t) ver cv). split.
  - apply in_map_iff. exists (task_name t). split; [reflexivity|].
    unfold unrecorded. apply in_map. apply filter_In. split; [assumption|].
    now rewrite E.
  - unfold sameTask. cbn. now rewrite !String.eqb_refl.
Qed.

(** After a fulfilled [migrateTo] every task of the version is recorded. *)
Lemma migrateTo_records_all km ver hooks only skip ts w w' :
  tasksAt (migrationPath km) (pathOf ver) = Some ts ->
  NoDup (map task_name ts) ->
  orNull only = None -> orNull skip = None ->
  Locking.migrateTo km ver hooks only skip w = (Ok tt, w') ->
  forall t, In t ts -> recorded (task_name t) ver (ledgerOf w') = true.
Proof.
  intros Hts Hnd Ho Hk H t Ht. unfold Locking.migrateTo in H.
  rewrite (bind_ok _ (@migrateTo_reads km ver ts w Hts)) in H.
  apply bind_inv in H as [(s & w1 & H1 & H)|[(e & _ & ?)|(_ & ?)]]; try discriminate.
  unfold selectTasks in H1. rewrite Ho, Hk in H1.
  apply (@executeTasks_fulfilled km ver hooks ts Hnd) in H1 as (HL & _ & _).
  assert (recorded (task_name t) ver (ledgerOf w1) = true) as Hrec
    by (rewrite HL; now apply recorded_after).
  destruct (negb (String.eqb ver INIT) || negb (length s =? 0)).
  - now inversion H; subst w1.
  - apply (@preserves_run (onLedger (fun L => recorded (task_name t) ver L = true))
             _ _ _ _ _
             (@onLedger_complete km _ (fun r L => @recorded_grows _ _ L r)) H).
    exact Hrec.
Qed.

(** X1: a fulfilled [migrateTo] without [only] and [skip], over task files
    with distinct names, calls the bodies of exactly the tasks the ledger did
    not record under the version, in file order; for a version other than
    init the ledger grows by one row per body called, in the same order, with
    the configured version as [currentVersion]; and afterwards every task of
    the version is recorded. *)
Theorem migrateTo_runs_the_unrecorded km ver hooks only skip ts w w' :
  tasksAt (migrationPath km) (pathOf ver) = Some ts ->
  NoDup (map task_name ts) ->
  orNull only = None -> orNull skip = None ->
  Locking.migrateTo km ver hooks only skip w = (Ok tt, w') ->
  executed (events w')
  = executed (events w) ++ map (fun n => (n, ver)) (unrecorded ver (ledgerOf w) ts)
  /\ (ver <> INIT ->
      ledgerOf w'
      = ledgerOf w ++ map (fun n => mkRow n ver (configVersion km))
                          (unrecorded ver (ledgerOf w) ts))
  /\ (forall t, In t ts -> recorded (task_name t) ver (ledgerOf w') = true).
Proof.
  intros Hts Hnd Ho Hk H.
  pose proof (@migrateTo_records_all km ver hooks only skip ts w w' Hts Hnd Ho Hk H) as Hrec.
  unfold Locking.migrateTo in H.
  rewrite (bind_ok _ (@migrateTo_reads km ver ts w Hts)) in H.
  apply bind_inv in H as [(s & w1 & H1 & H)|[(e & _ & ?)|(_ & ?)]]; try discriminate.
  unfold selectTasks in H1. rewrite Ho, Hk in H1.
  apply (@executeTasks_fulfilled km ver hooks ts Hnd) in H1 as (HL & HX & _).
  destruct (negb (String.eqb ver INIT) || negb (length s =? 0)) eqn:E.
  - inversion H; subst w1. splits; auto.
  - rewrite (complete_executed _ _ H). splits; auto.
    intros Hne. apply String.eqb_neq in Hne. rewrite Hne in E. discriminate.
Qed.

Lemma scriptError_cases e0 task :
  scriptError e0 task
  = MigrationScript ("Error occurred while executing the following migration: " ++ task)
  \/ (hasCode "ER_TOO_LONG_KEY" e0 = true
      /\ (scriptError e0 task = TypeError /\ quotedWords e0 = []
          \/ scriptError e0 task
             = MigrationScript
                 ("Read more here: https://github.com/TryGhost/knex-migrator/issues/51"
                  ++ newline)
             /\ quotedWords e0 <> [])).
Proof.
  unfold scriptError. destruct (hasCode "ER_TOO_LONG_KEY" e0); [right|now left].
  split; [reflexivity|]. destruct (quotedWords e0); [now left|right].
  split; [reflexivity|discriminate].
Qed.

(** X2: when [migrateTo] rejects for a version other than init whose folder
    is there (the names of its task files pairwise different, no [only] and no
    [skip]), the error is the one the handler of the task loop builds for one
    task [t] of the version, from an error [e0] that is not a
    [MigrationExistsError]: the [MigrationScript] error that names [t]; or,
    when [e0] has the code [ER_TOO_LONG_KEY], the [MigrationScript] error of
    the long key, or the [TypeError] that [match[0]] throws when the message of
    [e0] quotes no word.  No task after [t] in file order has had its body
    called by the run. *)
Theorem migrateTo_stops_at_the_failure km ver hooks ts w e w' :
  ver <> INIT ->
  tasksAt (migrationPath km) (VersionFolder ver) = Some ts ->
  NoDup (map task_name ts) ->
  Locking.migrateTo km ver hooks None None w = (Err e, w') ->
  exists pre t post e0 delta,
    ts = pre ++ t :: post
    /\ foreign e0
    /\ (e = MigrationScript ("Error occurred while executing the following migration: "
                             ++ task_name t)
        \/ (hasCode "ER_TOO_LONG_KEY" e0 = true
            /\ (e = TypeError /\ quotedWords e0 = []
                \/ e = MigrationScript
                         ("Read more here: https://github.com/TryGhost/knex-migrator/issues/51"
                          ++ newline)
                   /\ quotedWords e0 <> [])))
    /\ executed (events w') = executed (events w) ++ delta
    /\ forall t', In t' post -> ~ In (task_name t', ver) delta.
Proof.
  intros Hne Hts Hnd H. unfold Locking.migrateTo in H.
  assert (tasksAt (migrationPath km) (pathOf ver) = Some ts) as Hts'.
  { unfold pathOf. apply String.eqb_neq in Hne. now rewrite Hne. }
  rewrite (bind_ok _ (@migrateTo_reads km ver ts w Hts')) in H.
  apply bind_inv in H as [(s & w1 & H1 & H)|[(e' & H1 & He)|(_ & ?)]]; try discriminate.
  { apply String.eqb_neq in Hne. rewrite Hne in H. discriminate. }
  inversion He; subst e'. clear He.
  unfold selectTasks in H1. cbn [orNull] in H1.
  apply executeTasks_rejected in H1 as (pre & t & post & s1 & w1 & -> & Hpre & Ht).
  apply executeTasks_selected in Hpre as (d1 & Hd1 & Hin1).
  apply executeTask_outcome in Ht.
  inversion Ht as [| |e0 w1' He0 _ HX Hr Hw]; subst.
  assert (exists d2, executed (events w') = executed (events w1) ++ d2
                     /\ forall p, In p d2 -> p = (task_name t, ver)) as (d2 & Hd2 & Hin2).
  { destruct HX as [HX|HX]; [exists []|exists [(task_name t, ver)]].
    - split; [now rewrite app_nil_r|intros p []].
    - split; [assumption|]. now intros p [<-|[]]. }
  exists pre, t, post, e0, (d1 ++ d2). splits; auto.
  { apply scriptError_cases. }
  { now rewrite Hd2, Hd1, app_assoc. }
  intros t' Ht' Hin.
  rewrite map_app in Hnd. cbn [map] in Hnd.
  assert (In (task_name t') (map task_name post)) as Hpost by now apply in_map.
  apply in_app_or in Hin as [Hin|Hin].
  - destruct (Hin1 _ Hin) as (t0 & Ht0 & E). inversion E as [En].
    apply in_map_iff in Ht0 as (t1 & E1 & Ht1). inversion E1; subst t1.
    apply (@NoDup_app_disjoint _ (map task_name pre) (task_name t :: map task_name post)
             (task_name t') Hnd).
    + rewrite En. now apply in_map.
    + now right.
  - apply Hin2 in Hin. inversion Hin as [En].
    apply NoDup_remove_2 in Hnd. apply Hnd. apply in_or_app. right. now rewrite <- En.
Qed.

(** X3: with [skip = k] (and no [only]) the body of the k-th task file is
    not called by [migrateTo], whatever the outcome. *)
Theorem skipped_task_is_not_executed km ver hooks only skip k ts t w r w' delta :
  tasksAt (migrationPath km) (pathOf ver) = Some ts ->
  NoDup (map task_name ts) ->
  orNull only = None -> orNull skip = Some k -> nth_error ts (k - 1) = Some t ->
  Locking.migrateTo km ver hooks only skip w = (r, w') ->
  executed (events w') = executed (events w) ++ delta ->
  ~ In (task_name t, ver) delta.
Proof.
  intros Hts Hnd Ho Hs Hk H Hdelta. unfold Locking.migrateTo in H.
  rewrite (bind_ok _ (@migrateTo_reads km ver ts w Hts)) in H.
  unfold selectTasks in H. rewrite Ho, Hs in H.
  assert (exists w1 r1, Locking.executeTasks km ver hooks (map Some (splice1 (k - 1) ts)) [] w
                        = (r1, w1) /\ events w' = events w1) as (w1 & r1 & H1 & Hev).
  { apply bind_inv in H as [(s & w1 & H1 & H)|[(e & H1 & _)|(H1 & _)]]; eauto.
    exists w1, (Ok s). split; [assumption|].
    destruct (_ || _); [now inversion H|now apply complete_executed in H]. }
  apply executeTasks_selected in H1 as (d & Hd & Hin).
  rewrite Hev, Hd in Hdelta. apply app_inv_head in Hdelta. subst d.
  intros Hbad. destruct (Hin _ Hbad) as (t' & Ht' & E). inversion E as [En].
  apply in_map_iff in Ht' as (t1 & E1 & Ht1). inversion E1; subst t1.
  now apply (@splice1_names ts Hnd (k - 1) t Hk t' Ht1).
Qed.

(** X4: an [only] beyond the last task file selects [undefined]:
    [migrateTo] rejects with a [TypeError] and leaves the database and the log
    as they were. *)
Theorem only_beyond_the_end km ver hooks only skip n ts w :
  tasksAt (migrationPath km) (pathOf ver) = Some ts ->
  orNull only = Some n -> length ts < n ->
  Locking.migrateTo km ver hooks only skip w = (Err TypeError, w).
Proof.
  intros Hts Ho Hn. unfold Locking.migrateTo.
  rewrite (bind_ok _ (@migrateTo_reads km ver ts w Hts)).
  unfold selectTasks. rewrite Ho.
  assert (nth_error ts (n - 1) = None) as -> by (apply nth_error_None; lia).
  reflexivity.
Qed.

Lemma migrateTo_runs_the_unrecorded_witness :
  let w' := snd (Locking.migrateTo kmA "1.1" noHooks None None wA) in
  executed (events w') = [("1-a", "1.1"); ("2-b", "1.1")]
  /\ ("1.1" <> INIT ->
      ledgerOf w' = [mkRow "1-init" "init" "1.0"; mkRow "1-a" "1.1" "1.1"; mkRow "2-b" "1.1" "1.1"])
  /\ (forall t, In t [plainTask "1-a"; plainTask "2-b"] ->
        recorded (task_name t) "1.1" (ledgerOf w') = true).
Proof.
  apply (@migrateTo_runs_the_unrecorded kmA "1.1" noHooks None None
           [plainTask "1-a"; plainTask "2-b"] wA).
  - reflexivity.
  - cbn. repeat constructor; cbn; intuition discriminate.
  - reflexivity.
  - reflexivity.
  - vm_compute. reflexivity.
Defined.

Lemma only_beyond_the_end_witness :
  Locking.migrateTo kmA "1.1" noHooks (Some 3) None wA = (Err TypeError, wA).
Proof.
  apply (@only_beyond_the_end kmA "1.1" noHooks (Some 3) None 3
           [plainTask "1-a"; plainTask "2-b"] wA); [reflexivity|reflexivity|cbn; lia].
Defined.

Lemma skipped_task_is_not_executed_witness :
  let run := Locking.migrateTo kmA "1.1" noHooks None (Some 1) wA in
  executed (events (snd run)) = executed (events wA) ++ [("2-b", "1.1")]
  /\ ~ In ("1-a", "1.1") [("2-b", "1.1")].
Proof.
  intros run. split; [vm_compute; reflexivity|].
  apply (@skipped_task_is_not_executed kmA "1.1" noHooks None (Some 1) 1
           [plainTask "1-a"; plainTask "2-b"] (plainTask "1-a") wA (fst run) (snd run)).
  - reflexivity.
  - cbn. repeat constructor; cbn; intuition discriminate.
  - reflexivity.
  - reflexivity.
  - reflexivity.
  - vm_compute. reflexivity.
  - vm_compute. reflexivity.
Defined.

(** A version whose second task fails on a key that is too long, with a
    message that quotes no word. *)
Definition kmK : KnexMigrator :=
  mkKnexMigrator "1.1"
    (mkFs (Some [plainTask "1-init"])
          (Some [("1.1", [ plainTask "1-a";
                           mkTask "2-k" (mkCode [] (Rejects "ER_TOO_LONG_KEY" []));
                           plainTask "3-c" ])]))
    noHooks noHooks.

Lemma migrateTo_stops_at_the_failure_witness :
  let long := ("Read more here: https://github.com/TryGhost/knex-migrator/issues/51"
               ++ newline)%string in
  (exists pre t post e0 delta,
      [ plainTask "1-a"; mkTask "2-k" (mkCode [] (Rejects "ER_TOO_LONG_KEY" []));
        plainTask "3-c" ] = pre ++ t :: post
      /\ foreign e0
      /\ (TypeError
          = MigrationScript ("Error occurred while executing the following migration: "
                             ++ task_name t)
          \/ (hasCode "ER_TOO_LONG_KEY" e0 = true
              /\ (TypeError = TypeError /\ quotedWords e0 = []
                  \/ TypeError = MigrationScript long /\ quotedWords e0 <> [])))
      /\ executed (events (snd (Locking.migrateTo kmK "1.1" noHooks None None wA)))
         = executed (events wA) ++ delta
      /\ forall t', In t' post -> ~ In (task_name t', "1.1") delta)
  /\ fst (Locking.migrateTo kmK "1.1" noHooks None None wA) = Err TypeError
  /\ executed (events (snd (Locking.migrateTo kmK "1.1" noHooks None None wA)))
     = [("1-a", "1.1"); ("2-k", "1.1")].
Proof.
  intros long. split; [|split; vm_compute; reflexivity].
  eapply (@migrateTo_stops_at_the_failure kmK "1.1" noHooks _ wA).
  - discriminate.
  - reflexivity.
  - cbn. repeat constructor; cbn; intuition discriminate.
  - vm_compute. reflexivity.
Defined.

(* ===================================================================== *)
(** * The health check *)
(* ===================================================================== *)

Definition isWarning (ev : Event) : Prop :=
  match ev with
  | EvWarn _ => True
  | _ => False
  end.

(** [readOnly m]: [m] leaves the database as it is and logs warnings only. *)
Definition readOnly {A} (m : M A) : Prop :=
  forall w, db (snd (m w)) = db w
            /\ exists tr, events (snd (m w)) = events w ++ tr /\ Forall isWarning tr.

Lemma readOnly_ret A (a : A) : readOnly (ret a).
Proof. intros w. split; [reflexivity|]. exists []. now rewrite app_nil_r. Qed.

Lemma readOnly_throw A e : readOnly (@throw A e).
Proof. intros w. split; [reflexivity|]. exists []. now rewrite app_nil_r. Qed.

Lemma readOnly_warn s : readOnly (emit (EvWarn s)).
Proof. intros w. split; [reflexivity|]. exists [EvWarn s]. split; [reflexivity|]. now constructor. Qed.

Lemma readOnly_step A B (m : M A) (k : A -> M B) w :
  readOnly m -> (forall a, readOnly (k a)) ->
  forall r w1, m w = (r, w1) ->
    forall r2 w2, (match r with Ok a => k a w1 | Err e => (Err e, w1) | Pending => (Pending, w1) end)
                  = (r2, w2) ->
    db w2 = db w /\ exists tr, events w2 = events w ++ tr /\ Forall isWarning tr.
Proof.
  intros Hm Hk r w1 E r2 w2 E2. destruct (Hm w) as (Hd & tr & Htr & Hall).
  rewrite E in Hd, Htr. cbn in Hd, Htr.
  destruct r as [a|e|]; try (inversion E2; subst; eauto).
  destruct (Hk a w1) as (Hd2 & tr2 & Htr2 & Hall2). rewrite E2 in Hd2, Htr2. cbn in *.
  split; [congruence|]. exists (tr ++ tr2). split; [now rewrite Htr2, Htr, app_assoc|].
  now apply Forall_app.
Qed.

Lemma readOnly_bind A B (m : M A) (k : A -> M B) :
  readOnly m -> (forall a, readOnly (k a)) -> readOnly (bind m k).
Proof.
  intros Hm Hk w. unfold bind. destruct (m w) as [r w1] eqn:E.
  destruct (match r with Ok a => k a w1 | Err e => (Err e, w1) | Pending => (Pending, w1) end)
    as [r2 w2] eqn:E2.
  replace (match r with Ok a => k a w1 | Err e => (Err e, w1) | Pending => (Pending, w1) end)
    with (r2, w2).
  cbn. eapply readOnly_step; eauto.
Qed.

Lemma readOnly_catch A (m : M A) (h : Error -> M A) :
  readOnly m -> (forall e, readOnly (h e)) -> readOnly (catch m h).
Proof.
  intros Hm Hh w. unfold catch. destruct (Hm w) as (Hd & tr & Htr & Hall).
  destruct (m w) as [[a|e|] w1]; cbn in *; eauto.
  destruct (Hh e w1) as (Hd2 & tr2 & Htr2 & Hall2).
  split; [congruence|]. exists (tr ++ tr2). split; [now rewrite Htr2, Htr, app_assoc|].
  now apply Forall_app.
Qed.

Lemma readOnly_each A (f : A -> M unit) l :
  (forall x, readOnly (f x)) -> readOnly (each f l).
Proof.
  intros Hf. induction l as [|x l IH]; cbn [each]; [apply readOnly_ret|].
  apply readOnly_bind; auto.
Qed.

Lemma readOnly_getDb : readOnly getDb.
Proof. intros w. split; [reflexivity|]. exists []. now rewrite app_nil_r. Qed.

Lemma readOnly_selectMigrations : readOnly selectMigrations.
Proof.
  intros w. unfold selectMigrations. destruct (migrations _); (split; [reflexivity|]);
    exists []; now rewrite app_nil_r.
Qed.

Lemma readOnly_readTasks km p : readOnly (readTasks km p).
Proof. unfold readTasks. destruct (tasksAt _ p); [apply readOnly_ret|apply readOnly_throw]. Qed.

Lemma readOnly_readFolders km : readOnly (readFolders km).
Proof. unfold readFolders. destruct (versionsDir _); [apply readOnly_ret|apply readOnly_throw]. Qed.

Lemma readOnly_scanFolders km force st folders :
  forall fut ops, readOnly (scanFolders km force st folders fut ops).
Proof.
  induction folders as [|f r IH]; intros fut ops; cbn [scanFolders]; [apply readOnly_ret|].
  destruct (if String.eqb f INIT then Some f else matchVersion f); [apply IH|].
  apply readOnly_bind; [apply readOnly_warn|]. intros _.
  apply readOnly_bind; [apply readOnly_warn|]. intros _. apply IH.
Qed.

Lemma readOnly_props entries : readOnly (props entries).
Proof.
  induction entries as [|[k [e|v]] r IH]; cbn [props];
    [apply readOnly_ret|apply readOnly_throw|].
  apply readOnly_bind; [assumption|]. intros rest. apply readOnly_ret.
Qed.

Lemma readOnly_countVersions km entries :
  forall cv t, readOnly (countVersions km entries cv t).
Proof.
  induction entries as [|[ver value] r IH]; intros cv t; cbn [countVersions];
    [apply readOnly_ret|].
  apply readOnly_bind; [|intros n; apply IH].
  destruct (negb _); [destruct (isGreaterThanVersion _ _)|].
  - apply readOnly_bind; [apply readOnly_readTasks|]. intros ts. apply readOnly_ret.
  - apply readOnly_ret.
  - apply readOnly_bind; [apply readOnly_readTasks|]. intros ts. apply readOnly_ret.
Qed.

Lemma readOnly_dropFutureVersions fut : forall t, readOnly (dropFutureVersions fut t).
Proof.
  induction fut as [|f r IH]; intros t; cbn [dropFutureVersions]; [apply readOnly_ret|].
  destruct (jsGet f t) as [c|]; [|apply readOnly_throw].
  destruct (_ =? _); [apply IH|].
  apply readOnly_bind; [|intros _; apply IH].
  unfold skipWarnings. cbn [each].
  repeat (apply readOnly_bind; [apply readOnly_warn|intros _]). apply readOnly_ret.
Qed.

Lemma readOnly_integrityCheck km force : readOnly (integrityCheck km force).
Proof.
  unfold integrityCheck, integrityCounts.
  apply readOnly_bind; [|intros c; apply readOnly_dropFutureVersions].
  apply readOnly_bind; [apply readOnly_getDb|]. intros d.
  apply readOnly_bind.
  { apply readOnly_catch; [|intros _; apply readOnly_ret].
    apply readOnly_bind; [apply readOnly_readFolders|]. intros fs. apply readOnly_ret. }
  intros folders. apply readOnly_bind; [apply readOnly_scanFolders|]. intros scanned.
  apply readOnly_bind; [apply readOnly_props|]. intros result.
  apply readOnly_bind; [apply readOnly_countVersions|]. intros t. apply readOnly_ret.
Qed.

Lemma readOnly_checkResult result : readOnly (checkResult result).
Proof.
  unfold checkResult. apply readOnly_bind.
  - destruct (jsGet INIT result) as [c|]; [|apply readOnly_ret].
    destruct (_ <? _); [apply readOnly_throw|apply readOnly_ret].
  - intros _. apply readOnly_each. intros e. unfold checkVersion.
    destruct (_ <? _); [apply readOnly_throw|].
    destruct (_ <? _); [apply readOnly_throw|apply readOnly_ret].
Qed.

(** X5: [integrityCheck] and [isDatabaseOK] never write: whatever the
    outcome, the database is as before and everything logged is a warning. *)
Theorem health_check_is_read_only km w :
  (forall force,
      db (snd (integrityCheck km force w)) = db w
      /\ exists tr, events (snd (integrityCheck km force w)) = events w ++ tr
                    /\ Forall isWarning tr)
  /\ db (snd (isDatabaseOK km w)) = db w
  /\ exists tr, events (snd (isDatabaseOK km w)) = events w ++ tr /\ Forall isWarning tr.
Proof.
  split; [intros force; apply readOnly_integrityCheck|].
  assert (readOnly (isDatabaseOK km)) as H; [|exact (H w)].
  unfold isDatabaseOK. apply readOnly_bind; [apply readOnly_integrityCheck|].
  intros result. apply readOnly_checkResult.
Qed.

Lemma checkVersions_ok l (w : World) :
  each (fun e : string * Counts => checkVersion (snd e)) l w = (Ok tt, w)
  <-> forall e, In e l -> expected (snd e) = actual (snd e).
Proof.
  induction l as [|x l IH]; cbn [each]; [split; [intros _ e []|reflexivity]|].
  unfold bind, checkVersion at 1.
  destruct (actual (snd x) <? expected (snd x)) eqn:E1.
  { apply Nat.ltb_lt in E1. split; [discriminate|]. intros H.
    specialize (H x (or_introl eq_refl)). lia. }
  destruct (expected (snd x) <? actual (snd x)) eqn:E2.
  { apply Nat.ltb_lt in E2. split; [discriminate|]. intros H.
    specialize (H x (or_introl eq_refl)). lia. }
  apply Nat.ltb_ge in E1, E2. cbn. rewrite IH. split.
  - intros H e [<-|He]; [lia|auto].
  - intros H e He. apply H. now right.
Qed.

(** X6: given the counts of the integrity check, [isDatabaseOK] fulfils
    exactly when init (if it is among the versions) has at least as many rows
    as task files and every other version has as many rows as expected; and
    when init is behind the answer is [DB_NOT_INITIALISED], whatever the other
    versions say. *)
Theorem isDatabaseOK_verdict km w result w1 :
  integrityCheck km false w = (Ok result, w1) ->
  (isDatabaseOK km w = (Ok tt, w1)
   <-> (forall c, jsGet INIT result = Some c -> expected c <= actual c)
       /\ (forall V c, In (V, c) result -> V <> INIT -> expected c = actual c))
  /\ (forall c, jsGet INIT result = Some c -> actual c < expected c ->
        isDatabaseOK km w = (Err (DatabaseIsNotOkError "DB_NOT_INITIALISED"), w1)).
Proof.
  intros H. unfold isDatabaseOK. rewrite (bind_ok _ H). unfold checkResult.
  assert (forall V c, In (V, c) (jsEntries (jsDelete INIT result))
                      <-> In (V, c) result /\ V <> INIT) as Hin.
  { intros V c. rewrite (In_jsEntries (V, c) (jsDelete INIT result)). apply In_jsDelete. }
  destruct (jsGet INIT result) as [c0|] eqn:Ei.
  - destruct (actual c0 <? expected c0) eqn:El.
    + apply Nat.ltb_lt in El. split.
      * split; [discriminate|]. intros [Hi _]. specialize (Hi c0 eq_refl). lia.
      * intros c Hc _. reflexivity.
    + apply Nat.ltb_ge in El. split.
      * unfold bind at 1. cbn. rewrite checkVersions_ok. split.
        -- intros Hall. split; [intros c Hc; now inversion Hc; subst|].
           intros V c HV Hne. apply (Hall (V, c)). now apply Hin.
        -- intros [_ Hall] [V c] He. apply Hin in He as [He Hne]. now apply (Hall V c).
      * intros c Hc Hlt. inversion Hc; subst. lia.
  - split; [|discriminate]. unfold bind at 1. cbn. rewrite checkVersions_ok. split.
    + intros Hall. split; [discriminate|].
      intros V c HV Hne. apply (Hall (V, c)). now apply Hin.
    + intros [_ Hall] [V c] He. apply Hin in He as [He Hne]. now apply (Hall V c).
Qed.

Lemma isDatabaseOK_verdict_witness :
  isDatabaseOK kmB wA = (Ok tt, snd (integrityCheck kmB false wA))
  /\ isDatabaseOK kmA wA
     <> (Ok tt, snd (integrityCheck kmA false wA)).
Proof.
  split.
  - apply (proj1 (@isDatabaseOK_verdict kmB wA
                    (valueOf [] (fst (integrityCheck kmB false wA)))
                    (snd (integrityCheck kmB false wA)) eq_refl)).
    split.
    + intros c Hc. vm_compute in Hc. inversion Hc; subst c. cbn. lia.
    + intros V c HV Hne. vm_compute in HV. destruct HV as [HV|[]].
      inversion HV; subst V c. now elim Hne.
  - intros H.
    apply (proj1 (@isDatabaseOK_verdict kmA wA
                    (valueOf [] (fst (integrityCheck kmA false wA)))
                    (snd (integrityCheck kmA false wA)) eq_refl)) in H.
    destruct H as [_ H]. specialize (H "1.1" (mkCounts 2 0)).
    vm_compute in H. assert (2 = 0) as E; [|discriminate E].
    apply H; [right; left; reflexivity|discriminate].
Defined.

Lemma props_rejects errno entries (w : World) :
  entries <> [] ->
  (forall k v, In (k, v) entries -> v = inl errno) ->
  props entries w = (Err (onMigrationsLookupError errno), w).
Proof.
  destruct entries as [|[k v] r]; [congruence|]. intros _ H.
  rewrite (H k v (or_introl eq_refl)). reflexivity.
Qed.

Lemma integrityCheck_unreadable km force w errno :
  migrations (view (db w)) = inl errno ->
  exists w', integrityCheck km force w = (Err (onMigrationsLookupError errno), w')
             /\ db w' = db w.
Proof.
  intros Hm. unfold integrityCheck, integrityCounts.
  destruct (folders_inv km w) as (fs & Hfs).
  destruct (scanFolders km force (view (db w)) (INIT :: fs) [] [] w) as [rs ws] eqn:Es.
  pose proof Es as Hscan. cbn [scanFolders] in Hscan.
  change (String.eqb INIT INIT) with true in Hscan. cbv iota in Hscan.
  apply scanFolders_inv in Hscan as (_ & _ & fut1 & ops1 & Hr1 & _ & _ & _ & _ & Hhead).
  pose proof Es as Es'.
  apply scanFolders_inv in Es' as (Hdb & _ & fut' & ops' & Hr & Hval & _).
  subst rs. inversion Hr; subst fut1 ops1. clear Hr.
  destruct (Hhead (whereVersion INIT (view (db w))) [] eq_refl (fun x => x))
    as (v0 & rest & Hops & _).
  exists ws. split; [|assumption].
  assert (props (jsEntries ops') ws = (Err (onMigrationsLookupError errno), ws)) as Hp.
  { apply props_rejects.
    - intros Hnil. assert (In (INIT, v0) (jsEntries ops')) as Hin.
      { apply (proj2 (In_jsEntries _ _)). rewrite Hops. now left. }
      now rewrite Hnil in Hin.
    - intros k v Hin. apply (proj1 (In_jsEntries _ _)) in Hin.
      destruct (Hval k v Hin) as [[]| ->]. unfold whereVersion. now rewrite Hm. }
  apply bind_err.
  rewrite (bind_ok _ (eq_refl : getDb w = (Ok (db w), w))).
  rewrite (bind_ok _ Hfs). rewrite (bind_ok _ Es). cbn [snd].
  now rewrite (bind_err _ Hp).
Qed.

(** X7: when every query of the migrations table fails with [errno],
    [integrityCheck] and [isDatabaseOK] reject with the translation of that
    errno by [onMigrationsLookupError] ([MIGRATION_TABLE_IS_MISSING] for 1 and
    1146, [DB_NOT_INITIALISED] for 1046 and 1049, the error itself otherwise),
    and the database is untouched. *)
Theorem unreadable_ledger_is_reported km force w errno :
  migrations (view (db w)) = inl errno ->
  (exists w', integrityCheck km force w = (Err (onMigrationsLookupError errno), w')
              /\ db w' = db w)
  /\ (exists w', isDatabaseOK km w = (Err (onMigrationsLookupError errno), w')
                 /\ db w' = db w).
Proof.
  intros Hm. split; [now apply integrityCheck_unreadable|].
  destruct (@integrityCheck_unreadable km false w errno Hm) as (w' & H & Hd).
  exists w'. split; [|assumption]. unfold isDatabaseOK. now apply bind_err.
Qed.

Lemma unreadable_ledger_is_reported_witness :
  let w := mkWorld (mkDb true (mkStore (inl 1146) None [] []) None) [] in
  fst (isDatabaseOK kmA w) = Err (DatabaseIsNotOkError "MIGRATION_TABLE_IS_MISSING").
Proof.
  intros w.
  destruct (@unreadable_ledger_is_reported kmA false w 1146 eq_refl) as [_ (w' & -> & _)].
  reflexivity.
Defined.

(* ===================================================================== *)
(** * Transactions and the lock table *)
(* ===================================================================== *)

(** ** Invariants of the task loop

    An invariant of the run that user code leaves alone, and that survives the
    call of a task body and the recording of a task, holds throughout
    [migrateTo] and the transaction callbacks of [init] and [migrate]. *)

Section Recording.

Variable Inv : World -> Prop.
Hypothesis stable : userStable Inv.
Hypothesis executes : forall t v, preserves Inv (emit (EvExecute t v)).
Hypothesis inserts : forall r, preserves Inv (insertMigration r).

Lemma run_beforeEachTask task ver : preserves Inv (beforeEachTask task ver).
Proof.
  unfold beforeEachTask. apply preserves_bind; [apply preserves_selectMigrations|].
  intros l. destruct (recorded _ _ l); [apply preserves_throw|apply preserves_ret].
Qed.

Lemma run_executeTask km ver hooks skipped task :
  preserves Inv (Locking.executeTask km ver hooks skipped task).
Proof.
  unfold Locking.executeTask. destruct task as [t|]; [|apply preserves_throw].
  apply preserves_catch.
  - apply preserves_bind; [apply run_beforeEachTask|]. intros _.
    apply preserves_bind; [now apply stable_runHook|]. intros _.
    apply preserves_bind; [apply executes|]. intros _.
    apply preserves_bind; [now apply stable_runCode|]. intros _.
    apply preserves_bind; [apply inserts|]. intros _.
    apply preserves_bind; [now apply stable_runHook|]. intros _. apply preserves_ret.
  - intros e. destruct e; try apply preserves_throw. apply preserves_ret.
Qed.

Lemma run_executeTasks km ver hooks tasks :
  forall skipped, preserves Inv (Locking.executeTasks km ver hooks tasks skipped).
Proof.
  induction tasks as [|t r IH]; intros skipped; cbn [Locking.executeTasks];
    [apply preserves_ret|].
  apply preserves_bind; [apply run_executeTask|]. intros s. apply IH.
Qed.

Lemma run_completeVersion km ver : preserves Inv (completeVersion km ver).
Proof.
  unfold completeVersion. apply preserves_bind; [apply preserves_readTasks|]. intros fs.
  apply preserves_each. intros f _. unfold completeFile.
  apply preserves_bind; [apply preserves_selectMigrations|]. intros l.
  destruct (filter _ l); [apply inserts|apply preserves_ret].
Qed.

Lemma run_complete km : preserves Inv (Locking.complete km).
Proof.
  intros w H. unfold Locking.complete. destruct (readFolders km w) as [r w1] eqn:E.
  apply readFolders_inv in E as [-> _].
  destruct r as [vs|e|]; [|destruct (hasCode _ e); exact H|exact H].
  apply preserves_each; [|exact H]. intros v _. apply run_completeVersion.
Qed.

Lemma run_migrateTo km ver hooks only skip :
  preserves Inv (Locking.migrateTo km ver hooks only skip).
Proof.
  unfold Locking.migrateTo. apply preserves_bind.
  - destruct (negb _); [apply preserves_readTasks|].
    apply preserves_catch; [apply preserves_readTasks|].
    intros e. destruct (hasCode _ e); [apply preserves_ret|apply preserves_throw].
  - intros tasks. apply preserves_bind; [apply run_executeTasks|]. intros s.
    destruct (_ || _); [apply preserves_ret|apply run_complete].
Qed.

(** The callback of the transaction of [migrate]. *)
Lemma run_migrate_body km (options : MigrateOptions) now :
  preserves Inv
    (catch (Locking.lock ;;
            result <- integrityCheck km (opt_force options) ;;
            warnMissingVersion (opt_version options) result ;;
            (if length (versionsToMigrate result) =? 0 then ret tt
             else runHook "before" (before (migrateHooks km))) ;;
            (if length (versionsToMigrate result) =? 0 then ret tt
             else each (fun versionToMigrate =>
                          Locking.migrateTo km versionToMigrate (migrateHooks km)
                            (if negb (given (opt_version options)) then None
                             else orNull (opt_only options)) None)
                       (versionsToMigrate result)) ;;
            (if length (versionsToMigrate result) =? 0 then ret tt
             else runHook "after" (after (migrateHooks km))) ;;
            Locking.unlock now)
           (Locking.releaseOnError now)).
Proof.
  apply preserves_catch; [|intros e; now apply stable_releaseOnError].
  apply preserves_bind; [now apply stable_lock|]. intros _.
  apply preserves_bind; [now apply stable_integrityCheck|]. intros result.
  apply preserves_bind; [now apply stable_warnMissingVersion|]. intros _.
  apply preserves_bind.
  { destruct (_ =? 0); [apply preserves_ret|now apply stable_runHook]. }
  intros _. apply preserves_bind.
  { destruct (_ =? 0); [apply preserves_ret|].
    apply preserves_each. intros v _. apply run_migrateTo. }
  intros _. apply preserves_bind; [|intros _; now apply stable_unlock].
  destruct (_ =? 0); [apply preserves_ret|now apply stable_runHook].
Qed.

(** The callback of the transaction of [init]. *)
Lemma run_init_body km hooks only skip now :
  preserves Inv
    (catch (Locking.lock ;;
            runHook "before" (before hooks) ;;
            Locking.migrateTo km INIT noHooks only skip ;;
            runHook "after" (after hooks) ;;
            Locking.unlock now)
           (Locking.releaseOnError now)).
Proof.
  apply preserves_catch; [|intros e; now apply stable_releaseOnError].
  apply preserves_bind; [now apply stable_lock|]. intros _.
  apply preserves_bind; [now apply stable_runHook|]. intros _.
  apply preserves_bind; [apply run_migrateTo|]. intros _.
  apply preserves_bind; [now apply stable_runHook|]. intros _. now apply stable_unlock.
Qed.

End Recording.

(** An invariant that no statement and no event disturbs: it speaks of the
    engine, not of the contents of the tables. *)
Definition engineStable (Inv : World -> Prop) : Prop :=
  (forall w f, Inv w -> Inv (mkWorld (write f (db w)) (events w)))
  /\ (forall w f, Inv w -> Inv (mkWorld (ddl f (db w)) (events w)))
  /\ (forall w ev, Inv w -> Inv (mkWorld (db w) (events w ++ [ev]))).

Section EngineStable.

Variable Inv : World -> Prop.
Hypothesis stable : engineStable Inv.

Lemma engineStable_userStable : userStable Inv.
Proof. destruct stable as (Hw & Hd & He). unfold userStable. splits; auto. Qed.

Lemma engine_emit ev : preserves Inv (emit ev).
Proof. intros w H. destruct stable as (_ & _ & He). now apply He. Qed.

Lemma engine_write f : preserves Inv (modifyDb (write f)).
Proof. intros w H. destruct stable as (Hw & _ & _). now apply Hw. Qed.

Lemma engine_ddl f : preserves Inv (modifyDb (ddl f)).
Proof. intros w H. destruct stable as (_ & Hd & _). now apply Hd. Qed.

Lemma engine_insertMigration r : preserves Inv (insertMigration r).
Proof.
  unfold insertMigration. apply preserves_bind; [apply preserves_selectMigrations|].
  intros _. apply engine_write.
Qed.

Lemma engine_createMigrationsTable : preserves Inv createMigrationsTable.
Proof.
  unfold createMigrationsTable. apply preserves_catch.
  - apply preserves_bind; [apply preserves_selectMigrations|]. intros _. apply preserves_ret.
  - intros e. destruct e; try apply preserves_throw.
    destruct (_ || _); [apply engine_ddl|apply preserves_throw].
Qed.

Lemma engine_ensureLockTable : preserves Inv Locking.ensureLockTable.
Proof.
  unfold Locking.ensureLockTable. apply preserves_bind; [apply preserves_getDb|]. intros d.
  destruct (migrations_lock (view d)); [apply preserves_ret|].
  apply preserves_catch.
  - destruct (busy d); [apply preserves_throw|].
    apply preserves_bind; [apply engine_ddl|]. intros _. apply engine_write.
  - intros e. destruct e; try apply preserves_throw.
    destruct (_ =? 5); apply preserves_throw.
Qed.

Lemma engine_migrate_body km (options : MigrateOptions) now :
  preserves Inv
    (catch (Locking.lock ;;
            result <- integrityCheck km (opt_force options) ;;
            warnMissingVersion (opt_version options) result ;;
            (if length (versionsToMigrate result) =? 0 then ret tt
             else runHook "before" (before (migrateHooks km))) ;;
            (if length (versionsToMigrate result) =? 0 then ret tt
             else each (fun versionToMigrate =>
                          Locking.migrateTo km versionToMigrate (migrateHooks km)
                            (if negb (given (opt_version options)) then None
                             else orNull (opt_only options)) None)
                       (versionsToMigrate result)) ;;
            (if length (versionsToMigrate result) =? 0 then ret tt
             else runHook "after" (after (migrateHooks km))) ;;
            Locking.unlock now)
           (Locking.releaseOnError now)).
Proof.
  apply run_migrate_body;
    [apply engineStable_userStable|intros t v; apply engine_emit|apply engine_insertMigration].
Qed.

End EngineStable.

Lemma noTxn_engineStable : engineStable noTxn.
Proof.
  unfold engineStable, noTxn. splits; cbn; auto.
  - intros w f H. unfold write. now rewrite H.
  - intros w f H. unfold ddl, write. destruct (ddlCommits (db w)); [reflexivity|now rewrite H].
Qed.

Lemma finally_settled A (m : M A) f w :
  fst (finally m f w) <> Pending -> fst (m w) <> Pending.
Proof. unfold finally. destruct (m w) as [[a|e|] w1]; cbn; congruence. Qed.

Lemma bind_settled A B (m : M A) (k : A -> M B) w a w1 :
  m w = (Ok a, w1) -> fst (bind m k w) <> Pending -> fst (k a w1) <> Pending.
Proof. intros E. now rewrite (bind_ok _ E). Qed.

Lemma createTransaction_closes A (m : M A) w :
  fst (Locking.createTransaction m w) <> Pending ->
  txn (db (snd (Locking.createTransaction m w))) = None.
Proof.
  unfold Locking.createTransaction. destruct (m _) as [[a|e|] w1]; cbn; congruence.
Qed.

Lemma init_closes km options now w :
  noTxn w -> noTxn (snd (Locking.init km options now w)).
Proof.
  intros H0.
  pose proof (locking_init_settles km options now w) as Hs.
  unfold Locking.init in *. cbv zeta in *. apply finally_settled in Hs.
  unfold finally.
  match goal with |- noTxn (snd (match ?m w with _ => _ end)) =>
    assert (noTxn (snd (m w))) as Hm; [|destruct (m w) as [[a|e|] w1] eqn:Em] end.
  2,3: cbn [snd] in Hm;
       pose proof (@stable_runHook noTxn noTxn_stable "shutdown"
                     (shutdown (if disableHooks options then noHooks else initHooks km))
                     w1 Hm) as Hh;
       destruct (runHook _ _ w1) as [[[]|e2|] w2]; exact Hh.
  2: exact Hm.
  destruct (noScripts options); [exact H0|].
  destruct (createMigrationsTable w) as [[[]|e|] w1] eqn:E1.
  2,3: unfold bind; rewrite E1;
       exact (@preserves_run _ _ _ _ _ _ (engine_createMigrationsTable noTxn_engineStable) E1 H0).
  pose proof (@preserves_run _ _ _ _ _ _ (engine_createMigrationsTable noTxn_engineStable) E1 H0)
    as H1.
  rewrite (bind_ok _ E1) in Hs |- *.
  destruct (Locking.ensureLockTable w1) as [[[]|e|] w2] eqn:E2.
  2,3: unfold bind; rewrite E2;
       exact (@preserves_run _ _ _ _ _ _ (engine_ensureLockTable noTxn_engineStable) E2 H1).
  rewrite (bind_ok _ E2) in Hs |- *.
  now apply createTransaction_closes.
Qed.

Lemma migrateOnly_closes km options now w :
  noTxn (snd (Locking.migrateOnly km options now w)).
Proof.
  pose proof (locking_migrateOnly_settles km options now w) as Hs.
  unfold Locking.migrateOnly in *. cbv zeta in *. apply finally_settled in Hs.
  apply createTransaction_closes in Hs. unfold finally.
  match goal with |- noTxn (snd (match ?m w with _ => _ end)) =>
    destruct (m w) as [[a|e|] w1] eqn:Em end; cbn [snd] in Hs; [| |exact Hs].
  all: pose proof (@stable_runHook noTxn noTxn_stable "shutdown"
                     (shutdown (migrateHooks km)) w1 Hs) as Hh;
       destruct (runHook _ _ w1) as [[[]|e2|] w2]; exact Hh.
Qed.

(** X9: called with no transaction open, [migrate] and [init] of the
    locking revision leave none open, whatever the options and the outcome. *)
Theorem no_transaction_is_left_open km now w :
  txn (db w) = None ->
  (forall options, txn (db (snd (Locking.migrate km options now w))) = None)
  /\ (forall options, txn (db (snd (Locking.init km options now w))) = None).
Proof.
  intros Hw. split; [|intros options; now apply init_closes].
  intros options. unfold Locking.migrate.
  destruct (opt_init options); [|apply migrateOnly_closes].
  unfold bind. pose proof (@init_closes km defaultInit now w Hw) as Hinit.
  destruct (Locking.init km defaultInit now w) as [[[]|e|] w1] eqn:E.
  - apply migrateOnly_closes.
  - exact Hinit.
  - exact Hinit.
Qed.

Lemma no_transaction_is_left_open_witness :
  txn (db (snd (Locking.migrate kmA (mkMigrateOptions None false true None) 0 wA))) = None
  /\ txn (db (snd (Locking.init kmA defaultInit 0 wA))) = None.
Proof.
  destruct (@no_transaction_is_left_open kmA 0 wA eq_refl) as [H1 H2].
  split; [apply H1|apply H2].
Defined.

(** On an engine without implicit commits: the durable store is [D] and a
    transaction is open. *)
Definition sealed (D : Store) (w : World) : Prop :=
  ddlCommits (db w) = false /\ durable (db w) = D /\ txn (db w) <> None.

Lemma sealed_engineStable D : engineStable (sealed D).
Proof.
  assert (forall w f, sealed D w -> sealed D (mkWorld (write f (db w)) (events w))) as Hw.
  { unfold sealed, write. cbn. intros w f (Hc & Hd & Ht).
    destruct (txn (db w)); cbn; [|congruence]. splits; auto. discriminate. }
  unfold engineStable. splits; auto.
  intros w f H. unfold ddl. rewrite (proj1 H). now apply Hw.
Qed.

(** X10: on an engine whose DDL statements do not commit, a [migrate]
    (without the init option, without a shutdown hook) that rejects leaves the
    durable database exactly as it was: tasks, ledger rows and the lock
    stamp are rolled back together. *)
Theorem rejected_migrate_rolls_back km options now w e w' :
  ddlCommits (db w) = false ->
  opt_init options = false ->
  shutdown (migrateHooks km) = None ->
  Locking.migrate km options now w = (Err e, w') ->
  durable (db w') = durable (db w) /\ txn (db w') = None.
Proof.
  intros Hc Hi Hs H. unfold Locking.migrate in H. rewrite Hi in H.
  unfold Locking.migrateOnly in H. cbv zeta in H. rewrite Hs in H.
  unfold finally, runHook, ret in H.
  match type of H with (match ?ct w with _ => _ end) = _ =>
    destruct (ct w) as [r w1] eqn:E end.
  assert (r = Err e /\ w1 = w') as [-> ->] by (destruct r; now inversion H). clear H.
  unfold Locking.createTransaction in E.
  match type of E with (match ?body ?w0 with _ => _ end) = _ =>
    destruct (body w0) as [[a|e0|] w2] eqn:Eb end; try discriminate.
  inversion E; subst e0 w'. cbn.
  assert (sealed (durable (db w)) w2) as (_ & Hd & _); [|now split].
  eapply (@preserves_run (sealed (durable (db w))) _ _ _ _ _
            (@engine_migrate_body (sealed (durable (db w))) (sealed_engineStable _)
               km options now)).
  - exact Eb.
  - unfold sealed. cbn. splits; auto. discriminate.
Qed.

Lemma rejected_migrate_rolls_back_witness :
  let w := mkWorld (mkDb false (storeWith [mkRow "1-init" "init" "1.0"]) None) [] in
  let run := Locking.migrate kmF (mkMigrateOptions None true false None) 0 w in
  fst run = Err (MigrationScript "Error occurred while executing the following migration: 4-d")
  /\ executed (events (snd run)) = [("1-a", "1.1"); ("2-b", "1.1"); ("3-c", "1.1"); ("4-d", "1.1")]
  /\ durable (db (snd run)) = durable (db w) /\ txn (db (snd run)) = None.
Proof.
  intros w run. split; [vm_compute; reflexivity|]. split; [vm_compute; reflexivity|].
  apply (@rejected_migrate_rolls_back kmF (mkMigrateOptions None true false None) 0 w
           (MigrationScript "Error occurred while executing the following migration: 4-d")
           (snd run)); reflexivity.
Defined.

(** ** The lock table *)

(** X11: [migrate] (without the init option, without a shutdown hook) on
    a database that has no [migrations_lock] table rejects with the engine's
    error for a table that is not there.  The lock query rejects with it, the
    error handler calls [unlock] once, whose update rejects in the same way,
    and it is this rejection that reaches the caller.  The integrity check is
    not reached and the transaction is rolled back. *)
Theorem migrate_needs_the_lock_table km options now w :
  opt_init options = false ->
  migrations_lock (durable (db w)) = None ->
  shutdown (migrateHooks km) = None ->
  let inside := mkWorld (begin (db w)) (events w) in
  Locking.lock inside = (Err (DbError (noSuchTable (db w))), inside)
  /\ Locking.unlock now inside
     = (Err (DbError (noSuchTable (db w))),
        mkWorld (begin (db w)) (events w ++ [EvUnlock]))
  /\ Locking.migrate km options now w
     = (Err (DbError (noSuchTable (db w))),
        mkWorld (rollback (db w)) (events w ++ [EvUnlock])).
Proof.
  intros Hi Hl Hs inside.
  assert (Locking.lock inside = (Err (DbError (noSuchTable (db w))), inside)) as Hlock.
  { unfold Locking.lock, bind, getDb, inside. cbn. now rewrite Hl. }
  assert (Locking.unlock now inside
          = (Err (DbError (noSuchTable (db w))),
             mkWorld (begin (db w)) (events w ++ [EvUnlock]))) as Hunlock.
  { unfold Locking.unlock, bind, emit, getDb, inside. cbn. now rewrite Hl. }
  splits; [assumption|assumption|].
  unfold Locking.migrate. rewrite Hi.
  unfold Locking.migrateOnly. cbv zeta. rewrite Hs.
  unfold finally, Locking.createTransaction, catch. fold inside.
  rewrite (bind_err _ Hlock). unfold Locking.releaseOnError.
  rewrite (bind_err _ Hunlock). reflexivity.
Qed.

Lemma migrate_needs_the_lock_table_witness :
  let w := mkWorld (mkDb false (mkStore (inr []) None [] []) None) [] in
  let inside := mkWorld (begin (db w)) (events w) in
  Locking.lock inside = (Err (DbError 1), inside)
  /\ Locking.unlock 0 inside = (Err (DbError 1), mkWorld (begin (db w)) [EvUnlock])
  /\ Locking.migrate kmA (mkMigrateOptions None false false None) 0 w
     = (Err (DbError 1), mkWorld (mkDb false (mkStore (inr []) None [] []) None) [EvUnlock]).
Proof.
  intros w.
  apply (@migrate_needs_the_lock_table kmA (mkMigrateOptions None false false None) 0 w);
    reflexivity.
Defined.

(** The lock rows as the connection sees them. *)
Definition lockRows (w : World) : option (list LockRow) := migrations_lock (view (db w)).

Lemma runHook_lockRows which h w r w' :
  runHook which h w = (r, w') -> lockRows w' = lockRows w.
Proof.
  intros H.
  assert (preserves (fun x => lockRows x = lockRows w) (runHook which h)) as Hp.
  { unfold runHook. destruct h as [c|]; [|apply preserves_ret].
    apply preserves_bind; [intros x Hx; exact Hx|]. intros _.
    apply preserves_bind; [|intros _; apply preserves_ret].
    unfold runCode. apply preserves_bind.
    - apply preserves_each. intros s _ x Hx. unfold lockRows in *.
      destruct s; cbn; [rewrite view_write|rewrite view_ddl]; exact Hx.
    - intros _. destruct (settles c); [apply preserves_ret|apply preserves_throw..]. }
  exact (@preserves_run _ _ _ _ _ _ Hp H eq_refl).
Qed.

(** X12: after a fulfilled [migrate] no transaction is open and every row
    of [migrations_lock] carries the [released_at] stamp of the run. *)
Theorem fulfilled_migrate_releases_the_lock km options now w w' :
  Locking.migrate km options now w = (Ok tt, w') ->
  txn (db w') = None
  /\ exists l, migrations_lock (durable (db w')) = Some l
               /\ Forall (fun r => released_at r = Some now) l.
Proof.
  intros H.
  assert (exists w0, Locking.migrateOnly km options now w0 = (Ok tt, w')) as (w0 & H0).
  { unfold Locking.migrate in H. destruct (opt_init options); [|eauto].
    apply bind_inv in H as [([] & w1 & _ & H)|[(e & _ & ?)|(_ & ?)]]; try discriminate. eauto. }
  clear H. pose proof (first_run_completes _ _ _ _ H0) as (Htx & _).
  split; [assumption|].
  apply migrateOnly_fulfilled in H0 as (result & wi & wb & we & w2 & _ & _ & _ & Hu & Hs).
  apply runHook_lockRows in Hs. unfold lockRows, view in Hs. rewrite Htx in Hs. cbn in Hs.
  rewrite Hs. fold (view (db w2)).
  apply bind_inv in Hu as [([] & wh & _ & Hu)|[(e & _ & ?)|(_ & ?)]]; try discriminate.
  unfold Locking.unlock, bind, emit, getDb, modifyDb in Hu. cbn in Hu.
  destruct (migrations_lock (view (db wh))) as [l|] eqn:El; [|discriminate].
  inversion Hu; subst w2. cbn. rewrite view_write. cbn. rewrite El. cbn.
  eexists. split; [reflexivity|]. apply Forall_forall. intros r Hr.
  apply in_map_iff in Hr as (r0 & <- & _). reflexivity.
Qed.

Lemma fulfilled_migrate_releases_the_lock_witness :
  let w' := snd (Locking.migrate kmA (mkMigrateOptions None false false None) 7 wA) in
  txn (db w') = None
  /\ exists l, migrations_lock (durable (db w')) = Some l
               /\ Forall (fun r => released_at r = Some 7) l.
Proof.
  intros w'.
  apply (@fulfilled_migrate_releases_the_lock kmA (mkMigrateOptions None false false None) 7 wA).
  vm_compute. reflexivity.
Defined.

(* ===================================================================== *)
(** * Rejections of the health check, and [init] *)
(* ===================================================================== *)

(** ** What the integrity check rejects with *)

Lemma countVersions_rejects km entries :
  forall cv t w e w', countVersions km entries cv t w = (Err e, w') ->
                      e = KnexMigrateError "MIGRATION_PATH".
Proof.
  induction entries as [|[ver value] r IH]; intros cv t w e w' H; cbn [countVersions] in H;
    [discriminate|].
  apply bind_inv in H as [(n & w1 & _ & H)|[(e' & H1 & He)|(_ & ?)]]; try discriminate.
  - now apply IH in H.
  - inversion He; subst e'. clear He.
    destruct (negb _); [destruct (isGreaterThanVersion _ _)|]; try discriminate;
      (apply bind_inv in H1 as [(ts & w1 & _ & H1)|[(e' & H1 & He)|(_ & ?)]];
       try discriminate; inversion He; subst e';
       apply readTasks_inv in H1 as [_ [(ts & ? & _)|[Hr _]]]; [discriminate|now inversion Hr]).
Qed.

Lemma dropFutureVersions_rejects fut :
  forall t w e w', dropFutureVersions fut t w = (Err e, w') -> e = TypeError.
Proof.
  induction fut as [|f r IH]; intros t w e w' H; cbn [dropFutureVersions] in H; [discriminate|].
  destruct (jsGet f t) as [c|]; [|now inversion H].
  destruct (_ =? _); [now apply IH in H|].
  apply bind_inv in H as [([] & w1 & _ & H)|[(e' & H1 & _)|(_ & ?)]]; try discriminate.
  now apply IH in H.
Qed.

Lemma props_err entries :
  forall (w : World) e w', props entries w = (Err e, w') ->
    exists k errno, In (k, inl errno) entries /\ e = onMigrationsLookupError errno.
Proof.
  induction entries as [|[k [errno|v]] r IH]; intros w e w' H; cbn [props] in H.
  - discriminate.
  - inversion H; subst. exists k, errno. split; [now left|reflexivity].
  - apply bind_inv in H as [(rest & w1 & _ & H)|[(e' & H1 & He)|(_ & ?)]]; try discriminate.
    inversion He; subst e'. apply IH in H1 as (k' & errno & Hin & ->).
    exists k', errno. split; [now right|reflexivity].
Qed.

Lemma integrityCheck_err km force w e w' :
  integrityCheck km force w = (Err e, w') ->
  (exists errno, migrations (view (db w)) = inl errno /\ e = onMigrationsLookupError errno)
  \/ e = KnexMigrateError "MIGRATION_PATH"
  \/ e = TypeError.
Proof.
  unfold integrityCheck. intros H.
  apply bind_inv in H as [(c & w1 & _ & H)|[(e' & H & He)|(_ & ?)]]; try discriminate.
  { right. right. now apply dropFutureVersions_rejects in H. }
  inversion He; subst e'. clear He. unfold integrityCounts in H.
  apply bind_inv in H as [(d & w1 & H1 & H)|[(e' & H1 & ?)|(_ & ?)]]; try discriminate.
  inversion H1; subst d w1. clear H1.
  destruct (folders_inv km w) as (fs & Hfs). rewrite (bind_ok _ Hfs) in H.
  apply bind_inv in H as [([fut ops] & w1 & H1 & H)|[(e' & H1 & He)|(_ & ?)]]; try discriminate.
  2:{ apply scanFolders_inv in H1 as (_ & _ & ? & ? & ? & _). discriminate. }
  apply scanFolders_inv in H1 as (_ & _ & fut' & ops' & Hr & Hval & _).
  inversion Hr; subst fut' ops'. clear Hr.
  apply bind_inv in H as [(result & w2 & _ & H)|[(e' & H2 & He)|(_ & ?)]]; try discriminate.
  - apply bind_inv in H as [(t & w3 & _ & H)|[(e' & H3 & He)|(_ & ?)]]; try discriminate.
    inversion He; subst e'. right. left. now apply countVersions_rejects in H3.
  - inversion He; subst e'. left. apply props_err in H2 as (k & errno & Hin & ->).
    exists errno. split; [|reflexivity].
    apply (proj1 (In_jsEntries _ _)) in Hin. cbn [snd] in Hin.
    destruct (Hval _ _ Hin) as [[]|Hw]. unfold whereVersion in Hw.
    destruct (migrations (view (db w))); now inversion Hw.
Qed.

(** ** After [init] *)

(** The migrations table can be read. *)
Definition readable (w : World) : Prop := exists L, migrations (view (db w)) = inr L.

Lemma readable_stable : userStable readable.
Proof.
  unfold userStable, readable. splits; cbn; auto.
  - intros w f Hf [L H]. exists L. rewrite view_write. now rewrite (proj1 (Hf _)).
  - intros w f Hf [L H]. exists L. rewrite view_ddl. now rewrite (proj1 (Hf _)).
Qed.

Lemma readable_insert r : preserves readable (insertMigration r).
Proof.
  intros w [L H]. unfold insertMigration, bind, selectMigrations. rewrite H.
  unfold modifyDb, readable. cbn [snd db]. eexists. rewrite view_write. reflexivity.
Qed.

Lemma createMigrationsTable_readable w w' :
  createMigrationsTable w = (Ok tt, w') -> readable w'.
Proof.
  unfold createMigrationsTable, catch, bind, selectMigrations.
  destruct (migrations (view (db w))) as [errno|L] eqn:E; cbn.
  - destruct (_ || _); [|discriminate]. unfold modifyDb. intros H. inversion H; subst.
    exists []. cbn. now rewrite view_ddl.
  - intros H. inversion H; subst. now exists L.
Qed.

Lemma ensureLockTable_readable : preserves readable Locking.ensureLockTable.
Proof.
  unfold Locking.ensureLockTable. apply preserves_bind; [apply preserves_getDb|]. intros d.
  destruct (migrations_lock (view d)); [apply preserves_ret|].
  apply preserves_catch.
  - destruct (busy d); [apply preserves_throw|].
    apply preserves_bind; [|intros _]; intros w [L H]; exists L; unfold modifyDb;
      cbn [snd db]; [rewrite view_ddl|rewrite view_write]; exact H.
  - intros e. destruct e; try apply preserves_throw.
    destruct (_ =? 5); apply preserves_throw.
Qed.

(** The steps of a fulfilled [init] that runs the scripts. *)
Lemma init_steps km options now w w1 :
  noScripts options = false ->
  Locking.init km options now w = (Ok tt, w1) ->
  let hooks := if disableHooks options then noHooks else initHooks km in
  exists wc wl wh wm w2,
    createMigrationsTable w = (Ok tt, wc)
    /\ Locking.ensureLockTable wc = (Ok tt, wl)
    /\ runHook "before" (before hooks) (afterLock wl) = (Ok tt, wh)
    /\ Locking.migrateTo km INIT noHooks (init_only options) (init_skip options) wh = (Ok tt, wm)
    /\ (runHook "after" (after hooks) ;; Locking.unlock now) wm = (Ok tt, w2)
    /\ runHook "shutdown" (shutdown hooks) (mkWorld (commit (db w2)) (events w2)) = (Ok tt, w1).
Proof.
  intros Hn H. unfold Locking.init in H. cbv zeta in *. rewrite Hn in H.
  apply finally_ok_inv in H as (w3 & H & Hs).
  apply bind_inv in H as [([] & wc & Hc & H)|[(e & _ & ?)|(_ & ?)]]; try discriminate.
  apply bind_inv in H as [([] & wl & Hl & H)|[(e & _ & ?)|(_ & ?)]]; try discriminate.
  apply createTransaction_ok_inv in H as (w2 & H & ->).
  apply guarded_ok_inv in H.
  apply bind_inv in H as [([] & wk & Hk & H)|[(e & _ & ?)|(_ & ?)]]; try discriminate.
  apply lock_ok_inv in Hk. cbn [db events] in Hk. fold (afterLock wl) in Hk. subst wk.
  apply bind_inv in H as [([] & wh & Hh & H)|[(e & _ & ?)|(_ & ?)]]; try discriminate.
  apply bind_inv in H as [([] & wm & Hm & H)|[(e & _ & ?)|(_ & ?)]]; try discriminate.
  exists wc, wl, wh, wm, w2. splits; auto.
Qed.

Lemma recorded_rows ver L ts :
  NoDup (map task_name ts) ->
  (forall t, In t ts -> recorded (task_name t) ver L = true) ->
  length ts <= length (rowsOf ver L).
Proof.
  intros Hnd Hrec. rewrite <- (length_map task_name ts), <- (length_map name (rowsOf ver L)).
  apply NoDup_incl_length; [assumption|].
  intros n Hn. apply in_map_iff in Hn as (t & <- & Ht).
  specialize (Hrec t Ht). unfold recorded in Hrec. apply existsb_exists in Hrec as (r & Hr & Hs).
  unfold sameTask in Hs. apply andb_prop in Hs as [Hs1 Hs2].
  apply String.eqb_eq in Hs1. apply in_map_iff. exists r. split; [assumption|].
  unfold rowsOf. apply filter_In. now split.
Qed.

(** After a fulfilled [init]: the transaction is closed, both tables are
    there, and every init task is recorded. *)
Lemma init_fulfilled_facts km options now w w1 ts :
  txn (db w) = None ->
  noScripts options = false ->
  orNull (init_only options) = None -> orNull (init_skip options) = None ->
  initDir (migrationPath km) = Some ts ->
  NoDup (map task_name ts) ->
  Locking.init km options now w = (Ok tt, w1) ->
  txn (db w1) = None
  /\ migrations (view (db w1)) = inr (ledgerOf w1)
  /\ (forall t, In t ts -> recorded (task_name t) INIT (ledgerOf w1) = true)
  /\ migrations_lock (view (db w1)) <> None.
Proof.
  intros Htx Hn Ho Hk Hts Hnd H.
  assert (noTxn w1) as Htx1.
  { pose proof (@init_closes km options now w Htx) as Hx. now rewrite H in Hx. }
  apply (@init_steps km options now w w1 Hn) in H. cbv zeta in H.
  destruct H as (wc & wl & wh & wm & w2 & Hc & Hl & Hh & Hm & Ha & Hs).
  set (hooks := if disableHooks options then noHooks else initHooks km) in *.
  (* the tables exist when the transaction starts *)
  assert (noTxn wl) as Htl.
  { eapply preserves_run; [apply (engine_ensureLockTable noTxn_engineStable)|exact Hl|].
    eapply preserves_run; [apply (engine_createMigrationsTable noTxn_engineStable)|exact Hc|].
    exact Htx. }
  assert (readable (afterLock wl)) as Hr0.
  { assert (readable wl) as [L HL].
    { eapply preserves_run; [apply ensureLockTable_readable|exact Hl|].
      eapply createMigrationsTable_readable; eauto. }
    exists L. unfold afterLock, view in *. cbn. now rewrite Htl in HL. }
  assert (forall Inv : World -> Prop, userStable Inv ->
            (forall x, Inv x -> Inv (mkWorld (commit (db x)) (events x))) ->
            Inv wm -> Inv w1) as Htail.
  { intros Inv Hst Hcommit Hwm.
    eapply preserves_run; [apply (stable_runHook Hst)|exact Hs|]. apply Hcommit.
    eapply preserves_run; [apply (stable_after Hst) with (b := false)|exact Ha|exact Hwm]. }
  assert (readable w1) as [L HL].
  { apply Htail; [apply readable_stable|auto|].
    eapply preserves_run;
      [apply (@run_migrateTo _ readable_stable (fun t v x Hx => Hx) readable_insert)
      |exact Hm|].
    eapply preserves_run; [apply (stable_runHook readable_stable)|exact Hh|exact Hr0]. }
  assert (ledgerOf w1 = L) as HL1 by (unfold ledgerOf, ledger; now rewrite HL).
  split; [exact Htx1|]. split; [now rewrite HL1|]. split.
  - intros t Ht.
    apply (Htail (onLedger (fun L => recorded (task_name t) INIT L = true)));
      [apply onLedger_stable|auto|].
    assert (tasksAt (migrationPath km) (pathOf INIT) = Some ts) as Hts' by exact Hts.
    now apply (@migrateTo_records_all km INIT noHooks _ _ ts wh wm Hts' Hnd Ho Hk Hm).
  - assert (userStable (fun x => migrations_lock (view (db x)) <> None)) as Hst.
    { unfold userStable. splits; cbn; auto.
      - intros x f Hf Hx. rewrite view_write. now rewrite (proj2 (Hf _)).
      - intros x f Hf Hx. rewrite view_ddl. now rewrite (proj2 (Hf _)). }
    eapply (@preserves_run _ _ _ _ _ _ (stable_runHook Hst "shutdown" (shutdown hooks)) Hs).
    cbn [db]. rewrite view_commit.
    apply bind_inv in Ha as [([] & wa & _ & Hu)|[(e & _ & ?)|(_ & ?)]]; try discriminate.
    unfold Locking.unlock, bind, emit, getDb, modifyDb in Hu. cbn in Hu.
    destruct (migrations_lock (view (db wa))) as [l|] eqn:El; [|discriminate].
    inversion Hu; subst w2. cbn [db]. rewrite view_write. cbn. now rewrite El.
Qed.

(** X13: after a fulfilled [init] that runs the scripts without [only] and
    [skip], over init task files with distinct names: no transaction is open,
    the migrations table exists and records every init task under version
    init, so that it holds at least as many init rows as there are init task
    files, and the lock table exists. *)
Theorem init_leaves_every_init_task_recorded km options now w w1 ts :
  txn (db w) = None ->
  noScripts options = false ->
  orNull (init_only options) = None -> orNull (init_skip options) = None ->
  initDir (migrationPath km) = Some ts ->
  NoDup (map task_name ts) ->
  Locking.init km options now w = (Ok tt, w1) ->
  txn (db w1) = None
  /\ (exists L, migrations (durable (db w1)) = inr L
                /\ (forall t, In t ts -> recorded (task_name t) INIT L = true)
                /\ length ts <= length (rowsOf INIT L))
  /\ migrations_lock (durable (db w1)) <> None.
Proof.
  intros Htx Hn Ho Hk Hts Hnd H.
  destruct (@init_fulfilled_facts km options now w w1 ts Htx Hn Ho Hk Hts Hnd H)
    as (Htx1 & Hm & Hrec & Hlock).
  assert (view (db w1) = durable (db w1)) as Hview by (unfold view; now rewrite Htx1).
  rewrite Hview in Hm, Hlock. splits; auto.
  exists (ledgerOf w1). splits; auto. now apply recorded_rows.
Qed.

Lemma init_leaves_every_init_task_recorded_witness :
  let w := mkWorld (mkDb true (mkStore (inl 1146) None [] []) None) [] in
  let w1 := snd (Locking.init kmA defaultInit 0 w) in
  txn (db w1) = None
  /\ (exists L, migrations (durable (db w1)) = inr L
                /\ (forall t, In t [plainTask "1-init"] -> recorded (task_name t) INIT L = true)
                /\ length [plainTask "1-init"] <= length (rowsOf INIT L))
  /\ migrations_lock (durable (db w1)) <> None.
Proof.
  intros w w1.
  apply (@init_leaves_every_init_task_recorded kmA defaultInit 0 w w1 [plainTask "1-init"]);
    try reflexivity.
  repeat constructor. intros [].
Defined.

(** X14: after such an [init], [isDatabaseOK] answers neither
    [DB_NOT_INITIALISED] nor [MIGRATION_TABLE_IS_MISSING]. *)
Theorem init_then_health_check km options now w w1 ts r w2 :
  txn (db w) = None ->
  noScripts options = false ->
  orNull (init_only options) = None -> orNull (init_skip options) = None ->
  initDir (migrationPath km) = Some ts ->
  NoDup (map task_name ts) ->
  Locking.init km options now w = (Ok tt, w1) ->
  isDatabaseOK km w1 = (r, w2) ->
  r <> Err (DatabaseIsNotOkError "DB_NOT_INITIALISED")
  /\ r <> Err (DatabaseIsNotOkError "MIGRATION_TABLE_IS_MISSING").
Proof.
  intros Htx Hn Ho Hk Hts Hnd Hinit H.
  destruct (@init_fulfilled_facts km options now w w1 ts Htx Hn Ho Hk Hts Hnd Hinit)
    as (_ & Hv & Hrec & _).
  pose proof (@recorded_rows INIT (ledgerOf w1) ts Hnd Hrec) as Hlen.
  unfold isDatabaseOK in H.
  apply bind_inv in H as [(result & wi & Hi & H)|[(e & Hi & ->)|(_ & ->)]].
  - (* the counts are there *)
    assert (forall c, jsGet INIT result = Some c -> (actual c <? expected c) = false) as Hc.
    { intros c Hc. apply Nat.ltb_ge.
      apply integrityCheck_inv in Hi as (fut & t & wx & Hcounts & Hdrop).
      apply integrityCounts_inv in Hcounts as (_ & _ & Hcount & _).
      apply dropFutureVersions_inv in Hdrop as (_ & _ & Hsub & _).
      apply jsGet_In in Hc. destruct (Hcount _ _ (Hsub _ _ Hc)) as (cv & Ha & Hinit' & _).
      destruct (Hinit' eq_refl) as (ts' & Hts' & He). rewrite Hts in Hts'.
      inversion Hts'; subst ts'. rewrite He, Ha. exact Hlen. }
    unfold checkResult in H.
    apply bind_inv in H as [([] & wj & H1 & H)|[(e & H1 & ->)|(H1 & ->)]].
    + apply checkVersions_inv in H as [_ [[-> _]|[[-> _]| ->]]]; split; discriminate.
    + exfalso. destruct (jsGet INIT result) as [c|]; [|discriminate].
      rewrite (Hc c eq_refl) in H1. discriminate.
    + split; discriminate.
  - apply integrityCheck_err in Hi as [(errno & Hm & _)|[->| ->]];
      [congruence| |]; split; discriminate.
  - split; discriminate.
Qed.

Lemma init_then_health_check_witness :
  let w := mkWorld (mkDb true (mkStore (inl 1146) None [] []) None) [] in
  let w1 := snd (Locking.init kmA defaultInit 0 w) in
  fst (isDatabaseOK kmA w1) <> Err (DatabaseIsNotOkError "DB_NOT_INITIALISED")
  /\ fst (isDatabaseOK kmA w1) <> Err (DatabaseIsNotOkError "MIGRATION_TABLE_IS_MISSING").
Proof.
  intros w w1.
  apply (@init_then_health_check kmA defaultInit 0 w w1 [plainTask "1-init"]
           (fst (isDatabaseOK kmA w1)) (snd (isDatabaseOK kmA w1))); try reflexivity.
  repeat constructor. intros [].
Defined.

(** ** The init completion *)

(** X15: a fulfilled init completion calls no task body and logs
    nothing; afterwards every task file of every version folder has its name in
    the ledger; the ledger has only grown, by rows that carry the configured
    version, the folder as version, and the name of a task file of that folder
    that was in the ledger under no version before. *)
Theorem completion_postcondition km w w' :
  Locking.complete km w = (Ok tt, w') ->
  allNamed km (ledgerOf w')
  /\ events w' = events w
  /\ exists added,
       ledgerOf w' = ledgerOf w ++ added
       /\ forall r, In r added ->
            currentVersion r = configVersion km
            /\ named (name r) (ledgerOf w) = []
            /\ exists ts, tasksAt (migrationPath km) (VersionFolder (version r)) = Some ts
                          /\ In (name r) (map task_name ts).
Proof.
  intros H. split; [now apply complete_names in H|].
  split; [now apply complete_executed in H|].
  unfold Locking.complete in H. destruct (readFolders km w) as [rf wf] eqn:Ef.
  apply readFolders_inv in Ef as [-> _].
  destruct rf as [vs|e|]; [|exists []; destruct (hasCode _ e); inversion H; subst;
                            split; [now rewrite app_nil_r|intros r []]
                          |discriminate].
  set (good := fun r => currentVersion r = configVersion km
                        /\ named (name r) (ledgerOf w) = []
                        /\ exists ts, tasksAt (migrationPath km) (VersionFolder (version r))
                                      = Some ts
                                      /\ In (name r) (map task_name ts)).
  set (I := fun x => exists added, ledgerOf x = ledgerOf w ++ added
                                   /\ forall r, In r added -> good r).
  assert (I w') as HI; [|exact HI].
  eapply each_invariant with (I := I); [|exact H|exists []; split;
                                                  [now rewrite app_nil_r|intros r []]].
  intros v w0 r0 w0' _ Hv Hw0. unfold completeVersion in Hv.
  apply bind_inv in Hv as [(fs & w1 & H1 & Hv)|[(e & H1 & _)|(H1 & _)]];
    try (apply readTasks_inv in H1 as [-> _]; assumption).
  apply readTasks_inv in H1 as [-> [(fs' & Hfs' & Hts)|[? _]]]; [|discriminate].
  inversion Hfs'; subst fs'. clear Hfs'.
  eapply each_invariant with (I := I); [|exact Hv|assumption].
  intros f w2 r2 w2' Hf Hcf (added & Hadd & Hgood).
  apply completeFile_inv in Hcf as [(_ & _ & ->)|[(Hnone & _ & HL & _)|(-> & _)]];
    [now exists added|
     |now exists added].
  exists (added ++ [mkRow (task_name f) v (configVersion km)]). split.
  - now rewrite HL, Hadd, app_assoc.
  - intros r Hr. apply in_app_or in Hr as [Hr|[<-|[]]]; [now apply Hgood|].
    unfold good. cbn. splits; auto.
    + rewrite Hadd, named_app in Hnone. now apply app_eq_nil in Hnone.
    + exists fs. split; [assumption|now apply in_map].
Qed.

(** X8: [isDatabaseOK] settles; it fulfils or rejects with one of: the
    translated lookup error (only when the migrations table cannot be read),
    [MIGRATION_PATH] from reading a task folder, a [TypeError], or a
    [DatabaseIsNotOkError] with one of the three codes of the verdict. *)
Theorem isDatabaseOK_rejections km w r w' :
  isDatabaseOK km w = (r, w') ->
  r = Ok tt
  \/ exists e, r = Err e
       /\ ((exists errno, migrations (view (db w)) = inl errno
                         /\ e = onMigrationsLookupError errno)
           \/ e = KnexMigrateError "MIGRATION_PATH"
           \/ e = TypeError
           \/ e = DatabaseIsNotOkError "DB_NOT_INITIALISED"
           \/ e = DatabaseIsNotOkError "DB_NEEDS_MIGRATION"
           \/ e = DatabaseIsNotOkError "MIGRATION_STATE_ERROR").
Proof.
  unfold isDatabaseOK. intros H.
  apply bind_inv in H as [(result & wi & Hi & H)|[(e & Hi & ->)|(Hi & _)]].
  - unfold checkResult in H.
    apply bind_inv in H as [([] & wj & H1 & H)|[(e & H1 & ->)|(H1 & _)]].
    + apply checkVersions_inv in H as [_ [[-> _]|[[-> _]| ->]]]; [now left| |];
        right; eexists; (split; [reflexivity|]); tauto.
    + right. exists e. split; [reflexivity|].
      destruct (jsGet INIT result) as [c|]; [|discriminate].
      destruct (_ <? _); inversion H1. tauto.
    + destruct (jsGet INIT result) as [c|]; [destruct (_ <? _)|]; discriminate.
  - right. exists e. split; [reflexivity|].
    apply integrityCheck_err in Hi as [Hu|[->| ->]]; tauto.
  - exfalso. destruct (integrityCheck_quiet km false w) as [_ Hp]. now rewrite Hi in Hp.
Qed.

Lemma isDatabaseOK_rejections_witness :
  let km := mkKnexMigrator "1.0" (mkFs None (Some [])) noHooks noHooks in
  fst (isDatabaseOK km wA) = Err (KnexMigrateError "MIGRATION_PATH")
  /\ (fst (isDatabaseOK km wA) = Ok tt
      \/ exists e, fst (isDatabaseOK km wA) = Err e
           /\ ((exists errno, migrations (view (db wA)) = inl errno
                              /\ e = onMigrationsLookupError errno)
               \/ e = KnexMigrateError "MIGRATION_PATH"
               \/ e = TypeError
               \/ e = DatabaseIsNotOkError "DB_NOT_INITIALISED"
               \/ e = DatabaseIsNotOkError "DB_NEEDS_MIGRATION"
               \/ e = DatabaseIsNotOkError "MIGRATION_STATE_ERROR")).
Proof.
  intros km. split; [reflexivity|].
  apply (@isDatabaseOK_rejections km wA (fst (isDatabaseOK km wA)) (snd (isDatabaseOK km wA))).
  reflexivity.
Defined.

Lemma completion_postcondition_witness :
  let w' := snd (Locking.complete kmA wA) in
  allNamed kmA (ledgerOf w')
  /\ events w' = events wA
  /\ exists added,
       ledgerOf w' = ledgerOf wA ++ added
       /\ forall r, In r added ->
            currentVersion r = configVersion kmA
            /\ named (name r) (ledgerOf wA) = []
            /\ exists ts, tasksAt (migrationPath kmA) (VersionFolder (version r)) = Some ts
                          /\ In (name r) (map task_name ts).
Proof.
  apply (@completion_postcondition kmA wA). reflexivity.
Defined.

(* ===================================================================== *)
(** * Table creation, the constructor, and the renewing revision *)
(* ===================================================================== *)

(** ** Creating the tables *)

(** X16: [createMigrationsTable] never changes the rows of the ledger nor
    the log.  It fulfils when the table is there or is missing (errno 1 or
    1146), and then the table is there and a second call changes nothing; any
    other errno is rethrown with the database untouched. *)
Theorem createMigrationsTable_keeps_the_ledger w r w' :
  createMigrationsTable w = (r, w') ->
  ledgerOf w' = ledgerOf w /\ events w' = events w
  /\ ((r = Ok tt /\ migrations (view (db w')) = inr (ledgerOf w)
       /\ createMigrationsTable w' = (Ok tt, w'))
      \/ (exists errno, r = Err (DbError errno) /\ migrations (view (db w)) = inl errno
                        /\ errno <> 1 /\ errno <> 1146 /\ w' = w)).
Proof.
  intros H. unfold createMigrationsTable, catch, bind, selectMigrations in H.
  assert (ledgerOf w = match migrations (view (db w)) with inr l => l | inl _ => [] end)
    as HL by reflexivity.
  destruct (migrations (view (db w))) as [errno|L] eqn:E; cbn in H.
  - destruct ((errno =? 1) || (errno =? 1146)) eqn:Ee; inversion H; subst; clear H.
    + assert (migrations (view (db (snd (modifyDb
                (ddl (fun st => mkStore (inr []) (migrations_lock st) (tables st) (rows st)))
                w)))) = inr []) as Hm.
      { unfold modifyDb. cbn [snd db]. now rewrite view_ddl. }
      cbn [snd] in Hm. unfold modifyDb in *. cbn [fst snd] in *.
      splits.
      * unfold ledgerOf at 1, ledger. now rewrite Hm, HL.
      * reflexivity.
      * left. splits; [reflexivity|now rewrite HL|].
        unfold createMigrationsTable, catch, bind, selectMigrations. now rewrite Hm.
    + splits; auto. right. exists errno.
      apply orb_false_iff in Ee as [E1 E2]. apply Nat.eqb_neq in E1, E2. now splits.
  - inversion H; subst; clear H. splits; auto. left. splits; [reflexivity|assumption|].
    unfold createMigrationsTable, catch, bind, selectMigrations. now rewrite E.
Qed.

Lemma createMigrationsTable_keeps_the_ledger_witness :
  let w := mkWorld (mkDb true (mkStore (inl 1146) None [] [("users", "a")]) None) [] in
  let w' := snd (createMigrationsTable w) in
  migrations (view (db w')) = inr [] /\ rows (view (db w')) = [("users", "a")]
  /\ ledgerOf w' = ledgerOf w /\ events w' = events w.
Proof.
  intros w w'. split; [reflexivity|]. split; [reflexivity|].
  destruct (@createMigrationsTable_keeps_the_ledger w (fst (createMigrationsTable w)) w' eq_refl)
    as (H1 & H2 & _).
  now split.
Defined.

(** X17: [ensureLockTable] leaves a lock table that is there as it is.  A
    missing one is created with the one sentinel row [km01] without stamps,
    the migrations table is not touched, nothing is logged, and a second call
    finds the table and changes nothing.  When the engine rejects the creation,
    nothing is changed and the call rejects: with [MigrationsAreLocked] for
    errno 5, with the engine's error otherwise. *)
Theorem ensureLockTable_creates_the_sentinel_once w :
  match migrations_lock (view (db w)), busy (db w) with
  | Some _, _ => Locking.ensureLockTable w = (Ok tt, w)
  | None, Some errno =>
      Locking.ensureLockTable w
      = (Err (if errno =? 5 then MigrationsAreLocked else DbError errno), w)
  | None, None =>
      exists w',
        Locking.ensureLockTable w = (Ok tt, w')
        /\ migrations_lock (view (db w')) = Some [mkLockRow "km01" None None]
        /\ migrations (view (db w')) = migrations (view (db w))
        /\ events w' = events w
        /\ Locking.ensureLockTable w' = (Ok tt, w')
  end.
Proof.
  unfold Locking.ensureLockTable, catch, bind, getDb, modifyDb. cbn.
  destruct (migrations_lock (view (db w))) as [l|] eqn:E; [reflexivity|].
  destruct (busy (db w)) as [errno|]; [cbn; now destruct (errno =? 5)|].
  eexists. split; [reflexivity|]. cbn [db events]. rewrite !view_write. cbn.
  rewrite !view_ddl. cbn. now splits.
Qed.

Lemma ensureLockTable_creates_the_sentinel_once_witness :
  let st := mkStore (inr []) None [] [("users", "a")] in
  let free := mkWorld (mkDb false st None) [] in
  let locked := mkWorld (engine false st None (Some 5)) [] in
  let failing := mkWorld (engine false st None (Some 14)) [] in
  (exists w',
      Locking.ensureLockTable free = (Ok tt, w')
      /\ migrations_lock (view (db w')) = Some [mkLockRow "km01" None None]
      /\ migrations (view (db w')) = inr []
      /\ events w' = []
      /\ Locking.ensureLockTable w' = (Ok tt, w'))
  /\ Locking.ensureLockTable locked = (Err MigrationsAreLocked, locked)
  /\ Locking.ensureLockTable failing = (Err (DbError 14), failing).
Proof.
  intros st free locked failing. splits.
  - exact (ensureLockTable_creates_the_sentinel_once free).
  - exact (ensureLockTable_creates_the_sentinel_once locked).
  - exact (ensureLockTable_creates_the_sentinel_once failing).
Defined.

(** ** The constructor *)

(** What [require('<knexMigratorFilePath>/MigratorConfig.js')] gives. *)
Inductive Required (C : Type) :=
| Loaded (config : C)
| ModuleNotFound                 (* [err.code === 'MODULE_NOT_FOUND'] *)
| RequireFailed.                 (* any other error *)
Arguments Loaded {C} config.
Arguments ModuleNotFound {C}.
Arguments RequireFailed {C}.

(** The exports of [MigratorConfig.js] the constructor reads; [None] is a
    property that is not there. *)
Record MigratorConfig := mkConfig {
  database : option string;
  config_migrationPath : option string;
  config_currentVersion : option string;
  subfolder : option string
}.

Inductive ConstructorError :=
| KnexMigrateErrorWith (message : string)   (* [new errors.KnexMigrateError({message, help})] *)
| KnexMigrateErrorOf                        (* [new errors.KnexMigrateError({err: err})] *)
| PlainError (message : string).            (* [new Error(message)] *)

(** The fields the constructor sets on [this]. *)
Record Instance := mkInstance {
  this_currentVersion : string;
  this_migrationPath : string;
  this_subfolder : string;
  this_dbConfig : string
}.

Definition orElse (v : option string) (default : string) : string :=
  match v with
  | Some s => if truthy s then s else default
  | None => default
  end.

Definition newKnexMigrator (required : Required MigratorConfig) : ConstructorError + Instance :=
  match required with
  | ModuleNotFound =>
      inl (KnexMigrateErrorWith "Please provide a file named MigratorConfig.js in your project root.")
  | RequireFailed => inl KnexMigrateErrorOf
  | Loaded config =>
      if negb (given (database config))
      then inl (PlainError "MigratorConfig.js needs to export a database config.")
      else if negb (given (config_migrationPath config))
      then inl (PlainError "MigratorConfig.js needs to export the location of your migration files.")
      else if negb (given (config_currentVersion config))
      then inl (PlainError "MigratorConfig.js needs to export the a current version.")
      else inr (mkInstance (orElse (config_currentVersion config) "")
                           (orElse (config_migrationPath config) "")
                           (orElse (subfolder config) "versions")
                           (orElse (database config) ""))
  end.

Lemma given_orElse v d : given v = true -> Some (orElse v d) = v /\ truthy (orElse v d) = true.
Proof.
  unfold given, orElse. destruct v as [s|]; [|discriminate]. intros H. now rewrite H.
Qed.

(** X18: the constructor returns an object exactly when the configuration
    file loads and exports a truthy [database], [migrationPath] and
    [currentVersion], which the object then carries; [subfolder] is the one of
    the configuration when truthy and ["versions"] otherwise.  A loaded
    configuration is rejected for the first of the three that is missing, in
    that order. *)
Theorem constructor_validates_the_config required :
  match newKnexMigrator required with
  | inr this =>
      exists config,
        required = Loaded config
        /\ database config = Some (this_dbConfig this)
        /\ config_migrationPath config = Some (this_migrationPath this)
        /\ config_currentVersion config = Some (this_currentVersion this)
        /\ truthy (this_dbConfig this) = true
        /\ truthy (this_migrationPath this) = true
        /\ truthy (this_currentVersion this) = true
        /\ truthy (this_subfolder this) = true
        /\ (given (subfolder config) = true -> subfolder config = Some (this_subfolder this))
        /\ (given (subfolder config) = false -> this_subfolder this = "versions")
  | inl e =>
      forall config, required = Loaded config ->
        (given (database config) = false
         /\ e = PlainError "MigratorConfig.js needs to export a database config.")
        \/ (given (database config) = true /\ given (config_migrationPath config) = false
            /\ e = PlainError "MigratorConfig.js needs to export the location of your migration files.")
        \/ (given (database config) = true /\ given (config_migrationPath config) = true
            /\ given (config_currentVersion config) = false
            /\ e = PlainError "MigratorConfig.js needs to export the a current version.")
  end.
Proof.
  destruct required as [config| |]; cbn; try discriminate.
  destruct (given (database config)) eqn:E1; cbn.
  2:{ intros c Hc. inversion Hc; subst c. left. now split. }
  destruct (given (config_migrationPath config)) eqn:E2; cbn.
  2:{ intros c Hc. inversion Hc; subst c. right. left. now splits. }
  destruct (given (config_currentVersion config)) eqn:E3; cbn.
  2:{ intros c Hc. inversion Hc; subst c. right. right. now splits. }
  exists config. cbn.
  destruct (given_orElse (database config) "" E1) as [H1 H1'].
  destruct (given_orElse (config_migrationPath config) "" E2) as [H2 H2'].
  destruct (given_orElse (config_currentVersion config) "" E3) as [H3 H3'].
  splits; auto.
  - unfold orElse. destruct (subfolder config) as [s|]; [|reflexivity].
    destruct (truthy s) eqn:E; [assumption|reflexivity].
  - intros H. symmetry. now apply given_orElse.
  - unfold given, orElse. destruct (subfolder config) as [s|]; [|reflexivity].
    now intros ->.
Qed.

(** ** The renewing revision *)

(** X19: whenever [transactional] settles, fulfilled or rejected, no
    transaction is open. *)
Theorem transactional_closes_its_transaction km ops isInit skipCompletion w :
  fst (Renewing.transactional km ops isInit skipCompletion w) <> Pending ->
  txn (db (snd (Renewing.transactional km ops isInit skipCompletion w))) = None.
Proof.
  unfold Renewing.transactional, bind, modifyDb. cbn.
  generalize (mkWorld (begin (db w)) (events w)). generalize (@nil string).
  induction ops as [|op rest IH]; intros skipped w0; cbn [Renewing.runOps].
  - destruct (negb isInit || negb (length skipped =? 0) || skipCompletion); [reflexivity|].
    unfold Renewing.complete. destruct (readFolders km w0) as [[vs|e|] w1]; cbn.
    + destruct (each (completeVersion km) vs w1) as [[[]|e|] w2]; cbn; congruence.
    + destruct (hasCode "READ_FOLDERS" e); cbn; congruence.
    + congruence.
  - destruct (op w0) as [[[|]|e|] w1]; try apply IH.
    + destruct rest; [reflexivity|apply IH].
    + destruct e as [|[task|]| | | | | |]; try apply IH; try reflexivity;
        (destruct (hasCode "renew" _); cbn; congruence).
    + cbn. congruence.
Qed.

Lemma transactional_closes_its_transaction_witness :
  let ops := map (Renewing.runTask kmF "1.1" noHooks)
                 [Some (mkTask "3-c" (mkCode [Insert "users" "c"] (Resolves false)));
                  Some (mkTask "4-d" (mkCode [Insert "users" "d"] (Rejects "E" [])))] in
  let run := Renewing.transactional kmF ops false false wF in
  fst run = Err (MigrationScript "Error occurred while executing the following migration: 4-d")
  /\ txn (db (snd run)) = None.
Proof.
  intros ops run. split; [vm_compute; reflexivity|].
  apply transactional_closes_its_transaction. vm_compute. discriminate.
Defined.

Lemma warnMissingVersion_readOnly v result : readOnly (warnMissingVersion v result).
Proof.
  unfold warnMissingVersion. destruct v as [s|]; [|apply readOnly_ret].
  destruct (truthy s); [|apply readOnly_ret].
  destruct (jsGet s result); [apply readOnly_ret|apply readOnly_warn].
Qed.

Lemma warnMissingVersion_ok v result w :
  exists w', warnMissingVersion v result w = (Ok tt, w').
Proof.
  unfold warnMissingVersion. destruct v as [s|]; [|eexists; reflexivity].
  destruct (truthy s); [|eexists; reflexivity].
  destruct (jsGet s result); eexists; reflexivity.
Qed.

(** X20: in the renewing revision, when the integrity check finds no
    version whose counts differ, [migrate] (without the init option, without a
    shutdown hook) fulfils without opening a transaction: the database is
    untouched and only warnings are logged. *)
Theorem renewing_migrate_leaves_an_up_to_date_database_alone km options w result wi :
  opt_init options = false ->
  shutdown (migrateHooks km) = None ->
  integrityCheck km (opt_force options) w = (Ok result, wi) ->
  versionsToMigrate result = [] ->
  exists w' tr,
    Renewing.migrate km options w = (Ok tt, w')
    /\ db w' = db w
    /\ events w' = events w ++ tr /\ Forall isWarning tr.
Proof.
  intros Hi Hs Hc Hv. unfold Renewing.migrate. rewrite Hi.
  unfold Renewing.migrateOnly. cbv zeta. rewrite Hs.
  destruct (warnMissingVersion_ok (opt_version options) result wi) as (ww & Hw).
  exists ww.
  destruct (readOnly_integrityCheck km (opt_force options) w) as (Hd1 & tr1 & Ht1 & Ha1).
  destruct (warnMissingVersion_readOnly (opt_version options) result wi)
    as (Hd2 & tr2 & Ht2 & Ha2).
  rewrite Hc in Hd1, Ht1. rewrite Hw in Hd2, Ht2. cbn [snd] in *.
  exists (tr1 ++ tr2). splits.
  - unfold finally. rewrite (bind_ok _ Hc), (bind_ok _ Hw), Hv. reflexivity.
  - congruence.
  - now rewrite Ht2, Ht1, app_assoc.
  - now apply Forall_app.
Qed.

Lemma renewing_migrate_leaves_an_up_to_date_database_alone_witness :
  let w := worldWith [mkRow "1-init" "init" "1.0"; mkRow "1-a" "1.1" "1.1";
                      mkRow "2-b" "1.1" "1.1"] in
  exists w' tr,
    Renewing.migrate kmA (mkMigrateOptions None false false None) w = (Ok tt, w')
    /\ db w' = db w
    /\ events w' = events w ++ tr /\ Forall isWarning tr.
Proof.
  intros w.
  apply (@renewing_migrate_leaves_an_up_to_date_database_alone
           kmA (mkMigrateOptions None false false None) w
           [(INIT, mkCounts 1 1); ("1.1", mkCounts 2 2)] w); reflexivity.
Defined.

(* ===================================================================== *)
(** * A database in step with the migration directory *)
(* ===================================================================== *)

(** ** The ledger after [init] on a fresh database *)

(** The rows the completion writes for the task files of a folder, and for
    all folders. *)
Definition rowsFor (km : KnexMigrator) (v : string) (fs : list Task) : list Row :=
  map (fun f => mkRow (task_name f) v (configVersion km)) fs.

Definition completionRows (km : KnexMigrator) (vs : list (string * list Task)) : list Row :=
  flat_map (fun p => rowsFor km (fst p) (snd p)) vs.

(** The names of all task files of the version folders. *)
Definition versionNames (vs : list (string * list Task)) : list string :=
  flat_map (fun p => map task_name (snd p)) vs.

Lemma named_fresh n L r : named n L = [] -> name r <> n -> named n (L ++ [r]) = [].
Proof.
  intros H Hne. rewrite named_app, H. cbn. apply String.eqb_neq in Hne. now rewrite Hne.
Qed.

Lemma completeFiles_inv km v fs :
  forall w w',
    each (completeFile km v) fs w = (Ok tt, w') ->
    NoDup (map task_name fs) ->
    (forall f, In f fs -> named (task_name f) (ledgerOf w) = []) ->
    ledgerOf w' = ledgerOf w ++ rowsFor km v fs.
Proof.
  induction fs as [|f fs IH]; intros w w' H Hnd Hfresh; cbn [each] in H.
  - inversion H; subst. cbn. now rewrite app_nil_r.
  - inversion Hnd as [|n l Hn Hnd']; subst.
    apply bind_inv in H as [([] & w1 & H1 & H)|[(e & _ & ?)|(_ & ?)]]; try discriminate.
    apply completeFile_inv in H1 as [(Hne & _)|[(_ & _ & HL & _)|(_ & errno & ?)]];
      [| |discriminate].
    { exfalso. apply Hne. apply Hfresh. now left. }
    apply IH in H; [|assumption|].
    + rewrite H, HL. cbn. now rewrite <- app_assoc.
    + intros f' Hf'. rewrite HL. apply named_fresh; [apply Hfresh; now right|]. cbn.
      intros E. apply Hn. rewrite E. now apply in_map.
Qed.

Lemma lookupFolder_NoDup v fs vs :
  NoDup (map fst vs) -> In (v, fs) vs -> lookupFolder v vs = Some fs.
Proof.
  induction vs as [|[v' fs'] vs IH]; intros Hnd Hin; [contradiction|].
  cbn in *. inversion Hnd as [|n l Hn Hnd']; subst.
  destruct Hin as [E|Hin].
  - inversion E; subst. now rewrite String.eqb_refl.
  - destruct (String.eqb_spec v v') as [->|Hne]; [|now apply IH].
    exfalso. apply Hn. apply in_map_iff. now exists (v', fs).
Qed.

Lemma named_rowsFor km n v fs :
  ~ In n (map task_name fs) -> named n (rowsFor km v fs) = [].
Proof.
  induction fs as [|f fs IH]; intros Hn; [reflexivity|]. cbn.
  destruct (String.eqb_spec (task_name f) n) as [E|_].
  - exfalso. apply Hn. now left.
  - apply IH. intros H. apply Hn. now right.
Qed.

Lemma completeVersions_inv km vs l :
  versionsDir (migrationPath km) = Some vs ->
  NoDup (map fst vs) ->
  forall w w',
    incl l vs ->
    each (completeVersion km) (map fst l) w = (Ok tt, w') ->
    NoDup (versionNames l) ->
    (forall n, In n (versionNames l) -> named n (ledgerOf w) = []) ->
    ledgerOf w' = ledgerOf w ++ completionRows km l.
Proof.
  intros Hvs Hnd. induction l as [|[v fs] l IH]; intros w w' Hincl H Hnames Hfresh;
    cbn [map each] in H.
  - inversion H; subst. cbn. now rewrite app_nil_r.
  - apply bind_inv in H as [([] & w1 & H1 & H)|[(e & _ & ?)|(_ & ?)]]; try discriminate.
    unfold completeVersion in H1. cbn [fst] in H1.
    assert (readTasks km (VersionFolder v) w = (Ok fs, w)) as Hr.
    { unfold readTasks. cbn [tasksAt]. rewrite Hvs.
      rewrite (@lookupFolder_NoDup v fs vs Hnd (Hincl _ (or_introl eq_refl))). reflexivity. }
    rewrite (bind_ok _ Hr) in H1.
    unfold versionNames in Hnames, Hfresh. cbn [flat_map snd] in Hnames, Hfresh.
    apply completeFiles_inv in H1.
    + apply IH in H.
      * rewrite H, H1. cbn. now rewrite <- app_assoc.
      * intros p Hp. apply Hincl. now right.
      * now apply NoDup_app_remove_l in Hnames.
      * intros n Hn. rewrite H1, named_app.
        rewrite (Hfresh n (in_or_app _ _ _ (or_intror Hn))). cbn.
        apply named_rowsFor. intros Hbad.
        eapply NoDup_app_disjoint; eauto.
    + now apply NoDup_app_remove_r in Hnames.
    + intros f Hf. apply Hfresh. apply in_or_app. left. now apply in_map.
Qed.

Lemma unrecorded_nil ver ts : unrecorded ver [] ts = map task_name ts.
Proof.
  unfold unrecorded. f_equal. induction ts as [|t ts IH]; cbn; [reflexivity|now f_equal].
Qed.

Lemma alreadyRecorded_nil ver ts : alreadyRecorded ver [] ts = [].
Proof.
  unfold alreadyRecorded. induction ts as [|t ts IH]; cbn; [reflexivity|exact IH].
Qed.

(** The ledger a fulfilled [init] leaves on a database without ledger rows:
    the init tasks, then the completion of every version folder. *)
Lemma fresh_init_ledger km options now w w1 its vs :
  txn (db w) = None ->
  ledgerOf w = [] ->
  noScripts options = false ->
  orNull (init_only options) = None -> orNull (init_skip options) = None ->
  initDir (migrationPath km) = Some its ->
  versionsDir (migrationPath km) = Some vs ->
  NoDup (map task_name its ++ versionNames vs) ->
  NoDup (map fst vs) ->
  Locking.init km options now w = (Ok tt, w1) ->
  ledgerOf w1 = rowsFor km INIT its ++ completionRows km vs.
Proof.
  intros Htx HL0 Hn Ho Hk Hits Hvs Hnames Hfolders H.
  apply (@init_steps km options now w w1 Hn) in H. cbv zeta in H.
  destruct H as (wc & wl & wh & wm & w2 & Hc & Hl & Hh & Hm & Ha & Hs).
  set (hooks := if disableHooks options then noHooks else initHooks km) in *.
  (* no row when the transaction starts *)
  assert (still [] (executed (events w)) wl) as (_ & Hd & _).
  { eapply preserves_run; [apply still_ensureLockTable|exact Hl|].
    eapply preserves_run; [apply still_createMigrationsTable|exact Hc|].
    unfold still. splits; auto. unfold ledgerOf, view in HL0. now rewrite Htx in HL0. }
  apply runHook_ledger in Hh. change (ledgerOf (afterLock wl)) with (ledger (durable (db wl))) in Hh.
  rewrite Hd in Hh.
  (* the init tasks, then the completion *)
  assert (ledgerOf wm = rowsFor km INIT its ++ completionRows km vs) as Hwm.
  { unfold Locking.migrateTo in Hm.
    assert (tasksAt (migrationPath km) (pathOf INIT) = Some its) as Hits' by exact Hits.
    rewrite (bind_ok _ (@migrateTo_reads km INIT its wh Hits')) in Hm.
    apply bind_inv in Hm as [(s & wt & H1 & Hm)|[(e & _ & ?)|(_ & ?)]]; try discriminate.
    unfold selectTasks in H1. rewrite Ho, Hk in H1.
    apply executeTasks_fulfilled in H1 as (HL & _ & Hsk);
      [|now apply NoDup_app_remove_r in Hnames].
    rewrite Hh, unrecorded_nil, map_map in HL. cbn [app] in HL, Hsk.
    rewrite Hh, alreadyRecorded_nil in Hsk. subst s.
    change (String.eqb INIT INIT) with true in Hm. cbn in Hm.
    unfold Locking.complete, readFolders in Hm. rewrite Hvs in Hm. cbn in Hm.
    apply (@completeVersions_inv km vs vs Hvs Hfolders) in Hm.
    - rewrite Hm, HL. reflexivity.
    - apply incl_refl.
    - now apply NoDup_app_remove_l in Hnames.
    - intros n Hn'. rewrite HL. apply (@named_rowsFor km n INIT its). intros Hbad.
      eapply NoDup_app_disjoint; eauto. }
  rewrite <- Hwm.
  eapply (@preserves_run (onLedger (fun L => L = ledgerOf wm)));
    [apply stable_runHook, onLedger_stable|exact Hs|].
  apply onLedger_commit.
  eapply preserves_run;
    [apply stable_after with (b := false), onLedger_stable|exact Ha|reflexivity].
Qed.

(** ** Counting the rows of a version *)

Lemma rowsOf_app V l1 l2 : rowsOf V (l1 ++ l2) = rowsOf V l1 ++ rowsOf V l2.
Proof. apply filter_app. Qed.

Lemma rowsOf_rowsFor km V v fs :
  rowsOf V (rowsFor km v fs) = if String.eqb v V then rowsFor km v fs else [].
Proof.
  unfold rowsOf, rowsFor. induction fs as [|f fs IH]; cbn; [now destruct (String.eqb v V)|].
  rewrite IH. now destruct (String.eqb v V).
Qed.

Lemma rowsOf_completionRows km V vs :
  NoDup (map fst vs) ->
  rowsOf V (completionRows km vs)
  = match lookupFolder V vs with
    | Some ts => rowsFor km V ts
    | None => []
    end.
Proof.
  induction vs as [|[v fs] vs IH]; intros Hnd; [reflexivity|].
  inversion Hnd as [|n l Hn Hnd']; subst. cbn [completionRows flat_map fst snd lookupFolder].
  fold (completionRows km vs). rewrite rowsOf_app, rowsOf_rowsFor, (IH Hnd').
  rewrite (String.eqb_sym v V).
  destruct (String.eqb_spec V v) as [->|Hne]; [|reflexivity].
  assert (lookupFolder v vs = None) as ->; [|now rewrite app_nil_r].
  destruct (lookupFolder v vs) as [ts|] eqn:E; [|reflexivity].
  exfalso. apply Hn. eapply lookupFolder_In; eauto.
Qed.

(** ** The integrity check, forwards *)

(** Where the keys and the future versions of the scan come from. *)
Lemma scanFolders_from km force st folders :
  forall fut ops w fut' ops' w',
    scanFolders km force st folders fut ops w = (Ok (fut', ops'), w') ->
    (forall k, In k (map fst ops') ->
               In k (map fst ops)
               \/ exists folder, In folder folders
                    /\ (if String.eqb folder INIT then Some folder else matchVersion folder)
                       = Some k)
    /\ (forall k, In k fut' -> In k fut \/ In k (map fst ops'))
    /\ (forall k, In k (map fst ops) -> In k (map fst ops')).
Proof.
  induction folders as [|folder r IH]; intros fut ops w fut' ops' w' H; cbn [scanFolders] in H.
  - inversion H; subst. splits; auto.
  - destruct (if String.eqb folder INIT then Some folder else matchVersion folder)
      as [key|] eqn:Ekey.
    + apply IH in H as (Hk & Hf & Hkeep). splits.
      * intros k Hin. destruct (Hk k Hin) as [Hs|(f & Hf' & Hm)].
        -- apply jsSet_keys in Hs as [->|Hs]; [|now left].
           right. exists folder. split; [now left|assumption].
        -- right. exists f. split; [now right|assumption].
      * intros k Hin. destruct (Hf k Hin) as [Hs|?]; [|now right].
        destruct (_ && _); [|now left].
        apply in_app_or in Hs as [?|[<-|[]]]; [now left|].
        right. apply Hkeep. apply jsSet_keys. now left.
      * intros k Hin. apply Hkeep. apply jsSet_keys. now right.
    + apply bind_inv in H as [([] & w1 & _ & H)|[(e & _ & ?)|(_ & ?)]]; try discriminate.
      apply bind_inv in H as [([] & w2 & _ & H)|[(e & _ & ?)|(_ & ?)]]; try discriminate.
      apply IH in H as (Hk & Hf & Hkeep). splits; auto.
      intros k Hin. destruct (Hk k Hin) as [?|(f & Hf' & Hm)]; [now left|].
      right. exists f. split; [now right|assumption].
Qed.

Lemma props_ok entries (w : World) :
  (forall k v, In (k, v) entries -> exists value, v = inr value) ->
  exists res, props entries w = (Ok res, w) /\ entries = map settled res.
Proof.
  induction entries as [|[k v] r IH]; intros H; [now exists []|].
  destruct (H k v (or_introl eq_refl)) as (value & ->).
  destruct IH as (res & Hres & Hmap); [intros k' v' Hin; apply (H k' v'); now right|].
  exists ((k, value) :: res). cbn [props]. rewrite (bind_ok _ Hres). split; [reflexivity|].
  cbn. unfold settled at 1. cbn. now rewrite Hmap.
Qed.

Lemma countVersions_ok km entries :
  forall cv t (w : World),
    (forall ver, In ver (map fst entries) ->
                 tasksAt (migrationPath km) (pathOf ver) <> None) ->
    exists t', countVersions km entries cv t w = (Ok t', w).
Proof.
  induction entries as [|[ver value] r IH]; intros cv t w H; cbn [countVersions];
    [now exists t|].
  pose proof (H ver (or_introl eq_refl)) as Hver. unfold pathOf in Hver.
  assert (forall cv' n, exists t', countVersions km r cv' (jsSet ver (mkCounts n (length value)) t) w
                                   = (Ok t', w)) as Hrest.
  { intros cv' n. apply IH. intros v Hv. apply H. now right. }
  destruct (String.eqb ver INIT); cbn [negb].
  - unfold readTasks. destruct (tasksAt (migrationPath km) InitFolder) as [ts|]; [|congruence].
    cbn. apply Hrest.
  - destruct (isGreaterThanVersion _ ver); [|cbn; apply Hrest].
    unfold readTasks. destruct (tasksAt (migrationPath km) (VersionFolder ver)) as [ts|];
      [|congruence].
    cbn. apply Hrest.
Qed.

Lemma dropFutureVersions_same fut :
  forall t (w : World),
    (forall fv, In fv fut -> exists c, jsGet fv t = Some c /\ actual c = expected c) ->
    dropFutureVersions fut t w = (Ok t, w).
Proof.
  induction fut as [|fv r IH]; intros t w H; cbn [dropFutureVersions]; [reflexivity|].
  destruct (H fv (or_introl eq_refl)) as (c & -> & E). rewrite E, Nat.eqb_refl.
  apply IH. intros f Hf. apply H. now right.
Qed.

Lemma lookupFolder_Some v vs : In v (map fst vs) -> lookupFolder v vs <> None.
Proof.
  induction vs as [|[v' fs] vs IH]; cbn; [contradiction|].
  destruct (String.eqb_spec v v'); [discriminate|]. intros [?|H]; [congruence|now apply IH].
Qed.

Lemma folders_listed km (w : World) :
  exists fs, catch (fs <- readFolders km ;; ret (INIT :: fs)) (fun _ => ret [INIT]) w
             = (Ok (INIT :: fs), w)
             /\ forall f, In f fs -> tasksAt (migrationPath km) (VersionFolder f) <> None.
Proof.
  unfold catch, bind, readFolders, ret, throw, tasksAt.
  destruct (versionsDir (migrationPath km)) as [l|].
  - exists (map fst l). split; [reflexivity|]. intros f. apply lookupFolder_Some.
  - exists []. split; [reflexivity|]. intros f [].
Qed.

Lemma settled_keys res : map fst (map settled res) = map fst res.
Proof. rewrite map_map. reflexivity. Qed.

(** The state in which every folder has as many rows as task files. *)
Definition inStep (km : KnexMigrator) (L : list Row) : Prop :=
  (exists its, tasksAt (migrationPath km) InitFolder = Some its
               /\ length (rowsOf INIT L) = length its)
  /\ forall v ts, tasksAt (migrationPath km) (VersionFolder v) = Some ts ->
       v <> INIT /\ matchVersion v = Some v /\ length (rowsOf v L) = length ts.

Lemma integrityCheck_inStep km force w L :
  migrations (view (db w)) = inr L ->
  inStep km L ->
  exists t w', integrityCheck km force w = (Ok t, w')
               /\ db w' = db w
               /\ (forall V c, In (V, c) t -> expected c = actual c).
Proof.
  intros Hmig [(its & Hits & Hinit) Hvs].
  assert (ledgerOf w = L) as HL by (unfold ledgerOf, ledger; now rewrite Hmig).
  destruct (folders_listed km w) as (fs & Hfs & Hlisted).
  destruct (scanFolders km force (view (db w)) (INIT :: fs) [] [] w) as [r ws] eqn:Hscan.
  pose proof Hscan as Hscan'.
  apply scanFolders_inv in Hscan' as (Hdb & _ & fut & ops & -> & Hval & _).
  pose proof (scanFolders_from _ _ _ _ _ _ _ Hscan) as (Hfrom & Hfut & _).
  (* every key is init or the name of a version folder *)
  assert (forall k, In k (map fst ops) ->
            k = INIT \/ (k <> INIT
                         /\ exists ts, tasksAt (migrationPath km) (VersionFolder k) = Some ts))
    as Hkeys.
  { intros k Hk. destruct (Hfrom k Hk) as [[]|(folder & [<-|Hf] & Hm)].
    - change (String.eqb INIT INIT) with true in Hm. left. congruence.
    - pose proof (Hlisted folder Hf) as Hsome.
      destruct (tasksAt (migrationPath km) (VersionFolder folder)) as [ts|] eqn:Hts;
        [|congruence].
      destruct (Hvs folder ts Hts) as (Hne & Hmatch & _).
      apply String.eqb_neq in Hne as Hneb. rewrite Hneb, Hmatch in Hm.
      inversion Hm; subst k. right. split; [assumption|]. now exists ts. }
  destruct (@props_ok (jsEntries ops) ws) as (res & Hprops & Hres).
  { intros k v Hin. apply (proj1 (In_jsEntries _ _)) in Hin. destruct (Hval k v Hin) as [[]| ->].
    unfold whereVersion. rewrite Hmig. eauto. }
  assert (forall k, In k (map fst res) <-> In k (map fst ops)) as Hreskeys.
  { intros k. rewrite <- settled_keys, <- Hres. split; intros Hin.
    - apply in_map_iff in Hin as (e & <- & Hin). apply (proj1 (In_jsEntries _ _)) in Hin.
      now apply in_map.
    - apply in_map_iff in Hin as (e & <- & Hin). apply in_map.
      now apply (proj2 (In_jsEntries _ _)). }
  destruct (@countVersions_ok km res None [] ws) as (t & Hcount).
  { intros ver Hver. apply Hreskeys in Hver. unfold pathOf.
    destruct (Hkeys ver Hver) as [->|(Hne & ts & Hts)].
    - change (String.eqb INIT INIT) with true. cbv iota. congruence.
    - apply String.eqb_neq in Hne. rewrite Hne. congruence. }
  assert (integrityCounts km force w = (Ok (fut, t), ws)) as Hcounts.
  { unfold integrityCounts, getDb. unfold bind at 1. unfold bind at 1. rewrite Hfs.
    unfold bind at 1. rewrite Hscan. unfold bind at 1. cbn [snd]. rewrite Hprops.
    unfold bind at 1. rewrite Hcount. reflexivity. }
  pose proof Hcounts as Hinv.
  apply integrityCounts_inv in Hinv as (_ & _ & Hcounted & _).
  rewrite HL in Hcounted.
  pose proof Hcount as Hcinv. apply countVersions_inv in Hcinv as [_ Hcinv].
  destruct (Hcinv t eq_refl) as [Hin Hkeep].
  assert (forall V c, In (V, c) t -> expected c = actual c) as Hstep.
  { intros V c HV. destruct (Hcounted V c HV) as (cv & Ha & Hi & Hn).
    assert (In V (map fst ops)) as HVk.
    { apply Hreskeys. destruct (Hin V c HV) as [[]|(value & _ & Hv & _)].
      apply in_map_iff. now exists (V, value). }
    destruct (Hkeys V HVk) as [->|(Hne & ts & Hts)].
    - destruct (Hi eq_refl) as (ts & Hts & He). cbn [tasksAt] in Hits.
      rewrite Hits in Hts. inversion Hts; subst ts. congruence.
    - destruct (Hvs V ts Hts) as (_ & _ & Hlen). specialize (Hn Hne).
      destruct (isGreaterThanVersion cv V); [|assumption].
      destruct Hn as (ts' & Hts' & He). rewrite Hts in Hts'. inversion Hts'; subst ts'.
      congruence. }
  exists t, ws. split; [|split; assumption].
  unfold integrityCheck. unfold bind at 1. rewrite Hcounts. cbn [fst snd].
  apply dropFutureVersions_same. intros fv Hfv.
  destruct (Hfut fv Hfv) as [[]|Hk]. apply Hreskeys in Hk.
  assert (In fv (map fst t)) as Ht by (apply Hkeep; now right).
  apply in_map_iff in Ht as ([k c] & <- & Ht). cbn [fst].
  destruct (In_jsGet _ _ _ Ht) as (c' & Hget). exists c'. split; [assumption|].
  symmetry. apply (Hstep k). now apply jsGet_In.
Qed.

Lemma checkResult_inStep t (w : World) :
  (forall V c, In (V, c) t -> expected c = actual c) -> checkResult t w = (Ok tt, w).
Proof.
  intros H. unfold checkResult. unfold bind at 1.
  assert ((match jsGet INIT t with
           | Some c => if actual c <? expected c
                       then throw (DatabaseIsNotOkError "DB_NOT_INITIALISED") else ret tt
           | None => ret tt
           end) w = (Ok tt, w)) as ->.
  { destruct (jsGet INIT t) as [c|] eqn:G; [|reflexivity].
    apply jsGet_In in G. apply H in G. rewrite G, Nat.ltb_irrefl. reflexivity. }
  apply checkVersions_ok. intros [V c] Hin. cbn [snd].
  apply (proj1 (In_jsEntries _ _)) in Hin.
  apply (proj1 (In_jsDelete _ _ _ _)) in Hin as [Hin _]. now apply (H V).
Qed.

Lemma lookupFolder_entry v l ts : lookupFolder v l = Some ts -> In (v, ts) l.
Proof.
  induction l as [|[f fs] l IH]; cbn; [discriminate|].
  destruct (String.eqb_spec v f) as [->|_]; [|auto].
  intros H. inversion H; subst. now left.
Qed.

(** X21: when the ledger can be read, the init folder has as many rows of
    version init as task files, and every version folder is named by a
    version (not init) and has as many rows of its version as task files, the
    integrity check fulfils, with or without [force], with equal counts for
    every version, and [isDatabaseOK] fulfils and leaves the database as it
    was. *)
Theorem ledger_in_step_is_healthy km w L its :
  migrations (view (db w)) = inr L ->
  initDir (migrationPath km) = Some its ->
  length (rowsOf INIT L) = length its ->
  (forall vs, versionsDir (migrationPath km) = Some vs ->
     Forall (fun p => fst p <> INIT /\ matchVersion (fst p) = Some (fst p)
                      /\ length (rowsOf (fst p) L) = length (snd p)) vs) ->
  (forall force, exists t w', integrityCheck km force w = (Ok t, w')
                              /\ forall V c, In (V, c) t -> expected c = actual c)
  /\ exists w', isDatabaseOK km w = (Ok tt, w') /\ db w' = db w.
Proof.
  intros Hmig Hits Hlen Hvs.
  assert (inStep km L) as Hstep.
  { split; [now exists its|]. intros v ts Hts. cbn [tasksAt] in Hts.
    destruct (versionsDir (migrationPath km)) as [vs|] eqn:E; [|discriminate].
    apply lookupFolder_entry in Hts.
    exact (proj1 (Forall_forall _ _) (Hvs vs eq_refl) (v, ts) Hts). }
  split.
  - intros force.
    destruct (@integrityCheck_inStep km force w L Hmig Hstep) as (t & w' & Hc & _ & Hb).
    now exists t, w'.
  - destruct (@integrityCheck_inStep km false w L Hmig Hstep) as (t & w' & Hc & Hdb & Hb).
    exists w'. split; [|assumption].
    unfold isDatabaseOK. rewrite (bind_ok _ Hc). now apply checkResult_inStep.
Qed.

Lemma ledger_in_step_is_healthy_witness :
  let w := worldWith [mkRow "1-init" "init" "1.0"; mkRow "1-a" "1.1" "1.1";
                      mkRow "2-b" "1.1" "1.1"] in
  (forall force, exists t w', integrityCheck kmA force w = (Ok t, w')
                              /\ forall V c, In (V, c) t -> expected c = actual c)
  /\ exists w', isDatabaseOK kmA w = (Ok tt, w') /\ db w' = db w.
Proof.
  intros w.
  apply (@ledger_in_step_is_healthy kmA w
           [mkRow "1-init" "init" "1.0"; mkRow "1-a" "1.1" "1.1"; mkRow "2-b" "1.1" "1.1"]
           [plainTask "1-init"]); try reflexivity.
  intros vs E. inversion E. repeat constructor. discriminate.
Defined.

(** X22: [init] with its scripts and without [only] and [skip], fulfilling
    on a database without ledger rows and with no transaction open, where the
    task files have pairwise different names and the version folders
    pairwise different names that are versions (not init), leaves exactly
    these rows, in this order: one per init task, then one per task file of
    every version folder, each with the configured version.  [isDatabaseOK]
    fulfils afterwards. *)
Theorem fresh_init_is_healthy km options now w w1 its vs :
  txn (db w) = None -> ledgerOf w = [] ->
  noScripts options = false ->
  orNull (init_only options) = None -> orNull (init_skip options) = None ->
  initDir (migrationPath km) = Some its ->
  versionsDir (migrationPath km) = Some vs ->
  NoDup (map task_name its ++ versionNames vs) ->
  NoDup (map fst vs) ->
  (forall v, In v (map fst vs) -> v <> INIT /\ matchVersion v = Some v) ->
  Locking.init km options now w = (Ok tt, w1) ->
  ledgerOf w1 = rowsFor km INIT its ++ completionRows km vs
  /\ exists w2, isDatabaseOK km w1 = (Ok tt, w2).
Proof.
  intros Htx Hempty Hn Ho Hk Hits Hvs Hnd Hndv Hnames Hinit.
  pose proof (@fresh_init_ledger km options now w w1 its vs
                Htx Hempty Hn Ho Hk Hits Hvs Hnd Hndv Hinit) as HL.
  split; [assumption|].
  destruct (@init_fulfilled_facts km options now w w1 its Htx Hn Ho Hk Hits
              (NoDup_app_remove_r _ _ Hnd) Hinit) as (_ & Hmig & _).
  assert (inStep km (ledgerOf w1)) as Hstep.
  { rewrite HL. split.
    - exists its. split; [assumption|].
      rewrite rowsOf_app, rowsOf_rowsFor, String.eqb_refl, (@rowsOf_completionRows km INIT vs Hndv).
      destruct (lookupFolder INIT vs) as [ts|] eqn:E.
      + apply lookupFolder_In in E. now destruct (Hnames INIT E).
      + rewrite app_nil_r. unfold rowsFor. now rewrite length_map.
    - intros v ts Hts. cbn [tasksAt] in Hts. rewrite Hvs in Hts.
      destruct (Hnames v (lookupFolder_In _ _ Hts)) as [Hne Hm].
      split; [assumption|]. split; [assumption|].
      rewrite rowsOf_app, rowsOf_rowsFor, (@rowsOf_completionRows km v vs Hndv), Hts.
      assert (String.eqb INIT v = false) as -> by (apply String.eqb_neq; congruence).
      cbn [app]. unfold rowsFor. now rewrite length_map. }
  destruct (@integrityCheck_inStep km false w1 (ledgerOf w1) Hmig Hstep)
    as (t & w2 & Hc & _ & Hb).
  exists w2. unfold isDatabaseOK. rewrite (bind_ok _ Hc). now apply checkResult_inStep.
Qed.

Lemma fresh_init_is_healthy_witness :
  let w := mkWorld (mkDb true (mkStore (inl 1146) None [] []) None) [] in
  let w1 := snd (Locking.init kmA defaultInit 0 w) in
  ledgerOf w1 = rowsFor kmA INIT [plainTask "1-init"]
                ++ completionRows kmA [("1.1", [plainTask "1-a"; plainTask "2-b"])]
  /\ exists w2, isDatabaseOK kmA w1 = (Ok tt, w2).
Proof.
  intros w w1.
  apply (@fresh_init_is_healthy kmA defaultInit 0 w w1); try reflexivity.
  - repeat constructor; cbn; intuition discriminate.
  - repeat constructor. intros [].
  - intros v [<-|[]]. split; [discriminate|reflexivity].
Defined.

(* ===================================================================== *)
(** * The [version] option of [migrate] *)
(* ===================================================================== *)

(** ** Runs that differ in what they log *)

Create HintDb uniform.

Section Alike.

(** The events that are compared. *)
Variable keep : Event -> bool.

Definition alike (w0 w1 : World) : Prop :=
  db w1 = db w0 /\ filter keep (events w1) = filter keep (events w0).

(** [m1] does what [m0] does: from worlds that are alike, the same outcome,
    and worlds that are alike. *)
Definition sim {A} (m0 m1 : M A) : Prop :=
  forall w0 w1, alike w0 w1 ->
    fst (m1 w1) = fst (m0 w0) /\ alike (snd (m0 w0)) (snd (m1 w1)).

Definition uniform {A} (m : M A) : Prop := sim m m.

Lemma alike_refl w : alike w w.
Proof. now split. Qed.

Lemma alike_db f w0 w1 :
  alike w0 w1 -> alike (mkWorld (f (db w0)) (events w0)) (mkWorld (f (db w1)) (events w1)).
Proof. intros [Hd He]. split; cbn; [now rewrite Hd|assumption]. Qed.

Lemma alike_emit e w0 w1 :
  alike w0 w1 ->
  alike (mkWorld (db w0) (events w0 ++ [e])) (mkWorld (db w1) (events w1 ++ [e])).
Proof. intros [Hd He]. split; cbn; [assumption|]. now rewrite !filter_app, He. Qed.

Lemma uniform_ret A (a : A) : uniform (ret a).
Proof. intros w0 w1 H. now split. Qed.

Lemma uniform_throw A e : uniform (@throw A e).
Proof. intros w0 w1 H. now split. Qed.

Lemma uniform_getDb : uniform getDb.
Proof. intros w0 w1 H. split; [|assumption]. cbn. now destruct H as [-> _]. Qed.

Lemma uniform_modifyDb f : uniform (modifyDb f).
Proof. intros w0 w1 H. split; [reflexivity|]. now apply alike_db. Qed.

Lemma uniform_emit e : uniform (emit e).
Proof. intros w0 w1 H. split; [reflexivity|]. now apply alike_emit. Qed.

Lemma sim_bind A B (m0 m1 : M A) (k0 k1 : A -> M B) :
  sim m0 m1 -> (forall a, sim (k0 a) (k1 a)) -> sim (bind m0 k0) (bind m1 k1).
Proof.
  intros Hm Hk w0 w1 H. unfold bind. specialize (Hm w0 w1 H).
  destruct (m0 w0) as [r0 w0'], (m1 w1) as [r1 w1']. cbn [fst snd] in Hm.
  destruct Hm as [-> H']. destruct r0; [now apply Hk|now split..].
Qed.

Lemma sim_catch A (m0 m1 : M A) (h0 h1 : Error -> M A) :
  sim m0 m1 -> (forall e, sim (h0 e) (h1 e)) -> sim (catch m0 h0) (catch m1 h1).
Proof.
  intros Hm Hh w0 w1 H. unfold catch. specialize (Hm w0 w1 H).
  destruct (m0 w0) as [r0 w0'], (m1 w1) as [r1 w1']. cbn [fst snd] in Hm.
  destruct Hm as [-> H']. destruct r0; [now split|now apply Hh|now split].
Qed.

Lemma sim_finally A (m0 m1 : M A) (f0 f1 : M unit) :
  sim m0 m1 -> sim f0 f1 -> sim (finally m0 f0) (finally m1 f1).
Proof.
  intros Hm Hf w0 w1 H. unfold finally. specialize (Hm w0 w1 H).
  destruct (m0 w0) as [r0 w0'], (m1 w1) as [r1 w1']. cbn [fst snd] in Hm.
  destruct Hm as [-> H']. specialize (Hf w0' w1' H').
  destruct (f0 w0') as [s0 w0''], (f1 w1') as [s1 w1'']. cbn [fst snd] in Hf.
  destruct Hf as [-> H''].
  destruct r0; [destruct s0; now split..|now split].
Qed.

Lemma uniform_each A (f : A -> M unit) l : (forall x, uniform (f x)) -> uniform (each f l).
Proof.
  intros Hf. induction l as [|x l IH]; cbn [each]; [apply uniform_ret|].
  apply sim_bind; [apply Hf|intros _; exact IH].
Qed.

Lemma sim_createTransaction A (c0 c1 : M A) :
  sim c0 c1 -> sim (Locking.createTransaction c0) (Locking.createTransaction c1).
Proof.
  intros Hc w0 w1 H. unfold Locking.createTransaction.
  specialize (Hc _ _ (alike_db begin H)).
  destruct (c0 _) as [r0 w0'], (c1 _) as [r1 w1']. cbn [fst snd] in Hc.
  destruct Hc as [-> H']. destruct r0; (split; [reflexivity|]); cbn [snd];
    [now apply alike_db..|assumption].
Qed.

Lemma uniform_selectMigrations : uniform selectMigrations.
Proof.
  intros w0 w1 H. unfold selectMigrations. destruct H as [Hd He]. rewrite Hd.
  destruct (migrations (view (db w0))); now split.
Qed.

#[local] Hint Resolve uniform_ret uniform_throw uniform_getDb uniform_modifyDb uniform_emit
  uniform_selectMigrations : uniform.

Ltac close :=
  match goal with
  | |- sim ?m ?m => change (uniform m); solve [auto with uniform]
  | |- uniform _ => solve [auto with uniform]
  end.

(** One step through a computation built from the combinators. *)
Ltac uni :=
  repeat first
    [ close
    | apply sim_bind; [|intros ?]
    | apply sim_catch; [|intros ?]
    | apply sim_finally
    | apply sim_createTransaction
    | apply uniform_each; intros ?
    | match goal with
      | |- sim (match ?x with _ => _ end) (match ?x with _ => _ end) => destruct x
      | |- uniform (match ?x with _ => _ end) => destruct x
      | |- sim (if ?x then _ else _) (if ?x then _ else _) => destruct x
      | |- uniform (if ?x then _ else _) => destruct x
      end ].

Lemma uniform_runStmt s : uniform (runStmt s).
Proof. destruct s; cbn; auto with uniform. Qed.
#[local] Hint Resolve uniform_runStmt : uniform.

Lemma uniform_runCode c : uniform (runCode c).
Proof.
  unfold runCode, uniform. uni.
Qed.
#[local] Hint Resolve uniform_runCode : uniform.

Lemma uniform_runHook which h : uniform (runHook which h).
Proof. unfold runHook, uniform. uni. Qed.
#[local] Hint Resolve uniform_runHook : uniform.

Lemma uniform_insertMigration r : uniform (insertMigration r).
Proof. unfold insertMigration, uniform. uni. Qed.
#[local] Hint Resolve uniform_insertMigration : uniform.

Lemma uniform_beforeEachTask task ver : uniform (beforeEachTask task ver).
Proof. unfold beforeEachTask, uniform. uni. Qed.
#[local] Hint Resolve uniform_beforeEachTask : uniform.

Lemma uniform_readTasks km p : uniform (readTasks km p).
Proof. unfold readTasks, uniform. uni. Qed.
#[local] Hint Resolve uniform_readTasks : uniform.

Lemma uniform_readFolders km : uniform (readFolders km).
Proof. unfold readFolders, uniform. uni. Qed.
#[local] Hint Resolve uniform_readFolders : uniform.

Lemma uniform_completeFile km v f : uniform (completeFile km v f).
Proof. unfold completeFile, uniform. uni. Qed.
#[local] Hint Resolve uniform_completeFile : uniform.

Lemma uniform_completeVersion km v : uniform (completeVersion km v).
Proof. unfold completeVersion, uniform. uni. Qed.
#[local] Hint Resolve uniform_completeVersion : uniform.

Lemma uniform_complete km : uniform (Locking.complete km).
Proof.
  intros w0 w1 H. unfold Locking.complete, readFolders.
  destruct (versionsDir (migrationPath km)) as [l|]; cbn; [|now split].
  apply uniform_each; [|assumption]. intros v. apply uniform_completeVersion.
Qed.
#[local] Hint Resolve uniform_complete : uniform.

Lemma uniform_executeTask km ver hooks skipped task :
  uniform (Locking.executeTask km ver hooks skipped task).
Proof.
  unfold Locking.executeTask, Locking.afterEachTask, uniform. uni.
Qed.
#[local] Hint Resolve uniform_executeTask : uniform.

Lemma uniform_executeTasks km ver hooks tasks :
  forall skipped, uniform (Locking.executeTasks km ver hooks tasks skipped).
Proof.
  induction tasks as [|t r IH]; intros skipped; cbn [Locking.executeTasks];
    [apply uniform_ret|].
  apply sim_bind; [apply uniform_executeTask|exact IH].
Qed.
#[local] Hint Resolve uniform_executeTasks : uniform.

Lemma uniform_migrateTo km ver hooks only skip :
  uniform (Locking.migrateTo km ver hooks only skip).
Proof.
  unfold Locking.migrateTo, uniform. uni.
Qed.
#[local] Hint Resolve uniform_migrateTo : uniform.

Lemma uniform_lock : uniform Locking.lock.
Proof. unfold Locking.lock, uniform. uni. Qed.
#[local] Hint Resolve uniform_lock : uniform.

Lemma uniform_unlock now : uniform (Locking.unlock now).
Proof. unfold Locking.unlock, uniform. uni. Qed.
#[local] Hint Resolve uniform_unlock : uniform.

Lemma uniform_releaseOnError A now err : uniform (@Locking.releaseOnError A now err).
Proof.
  unfold Locking.releaseOnError, uniform. destruct err; uni.
Qed.
#[local] Hint Resolve uniform_releaseOnError : uniform.

Lemma uniform_ensureLockTable : uniform Locking.ensureLockTable.
Proof. unfold Locking.ensureLockTable, uniform. uni. Qed.
#[local] Hint Resolve uniform_ensureLockTable : uniform.

Lemma uniform_createMigrationsTable : uniform createMigrationsTable.
Proof. unfold createMigrationsTable, uniform. uni. Qed.
#[local] Hint Resolve uniform_createMigrationsTable : uniform.

Lemma uniform_init km options now : uniform (Locking.init km options now).
Proof. unfold Locking.init, uniform. cbv zeta. uni. Qed.
#[local] Hint Resolve uniform_init : uniform.

Lemma uniform_scanFolders km force st folders :
  forall fut ops, uniform (scanFolders km force st folders fut ops).
Proof.
  induction folders as [|f r IH]; intros fut ops; cbn [scanFolders]; [apply uniform_ret|].
  destruct (if String.eqb f INIT then Some f else matchVersion f); [apply IH|].
  unfold uniform. uni.
Qed.
#[local] Hint Resolve uniform_scanFolders : uniform.

Lemma uniform_props entries : uniform (props entries).
Proof.
  induction entries as [|[k [e|value]] r IH]; cbn [props]; auto with uniform.
  unfold uniform. uni.
Qed.
#[local] Hint Resolve uniform_props : uniform.

Lemma uniform_countVersions km entries :
  forall cv t, uniform (countVersions km entries cv t).
Proof.
  induction entries as [|[ver value] r IH]; intros cv t; cbn [countVersions];
    [apply uniform_ret|].
  apply sim_bind; [|intros ?; apply IH]. unfold uniform. uni.
Qed.
#[local] Hint Resolve uniform_countVersions : uniform.

Lemma uniform_dropFutureVersions fut : forall t, uniform (dropFutureVersions fut t).
Proof.
  induction fut as [|fv r IH]; intros t; cbn [dropFutureVersions]; [apply uniform_ret|].
  destruct (jsGet fv t) as [c|]; [|apply uniform_throw].
  destruct (actual c =? expected c); [apply IH|].
  apply sim_bind; [|intros ?; apply IH]. apply uniform_each. intros e. apply uniform_emit.
Qed.
#[local] Hint Resolve uniform_dropFutureVersions : uniform.

Lemma uniform_integrityCheck km force : uniform (integrityCheck km force).
Proof.
  unfold integrityCheck, integrityCounts, uniform.
  apply sim_bind; [|intros ?; apply uniform_dropFutureVersions].
  apply sim_bind; [apply uniform_getDb|intros d].
  apply sim_bind; [uni|intros folders].
  apply sim_bind; [apply uniform_scanFolders|intros scanned].
  apply sim_bind; [apply uniform_props|intros result].
  apply sim_bind; [apply uniform_countVersions|intros t]. apply uniform_ret.
Qed.
#[local] Hint Resolve uniform_integrityCheck : uniform.

#[local] Hint Resolve uniform_integrityCheck : uniform.

(** *** The version option *)

Variable v : string.
Hypothesis keep_drops : keep (EvWarn ("Cannot find requested version: " ++ v)) = false.

Lemma sim_warnMissingVersion result :
  sim (warnMissingVersion None result) (warnMissingVersion (Some v) result).
Proof.
  unfold warnMissingVersion. destruct (truthy v); [|apply uniform_ret].
  destruct (jsGet v result); [apply uniform_ret|].
  intros w0 w1 [Hd He]. split; [reflexivity|]. unfold emit. cbn [snd].
  split; cbn [db events]; [assumption|].
  rewrite filter_app, He. cbn [filter]. rewrite keep_drops. apply app_nil_r.
Qed.

Lemma sim_migrateOnly km force withInit only now :
  orNull only = None ->
  sim (Locking.migrateOnly km (mkMigrateOptions None force withInit only) now)
      (Locking.migrateOnly km (mkMigrateOptions (Some v) force withInit only) now).
Proof.
  intros Honly. unfold Locking.migrateOnly. cbv zeta.
  cbn [opt_version opt_only opt_force]. rewrite Honly.
  replace (if negb (given (Some v)) then None else None) with (@None nat)
    by now destruct (negb (given (Some v))).
  cbn [given negb].
  apply sim_finally; [|apply uniform_runHook].
  apply sim_createTransaction.
  apply sim_catch; [|intros e; apply uniform_releaseOnError].
  apply sim_bind; [apply uniform_lock|intros _].
  apply sim_bind; [apply uniform_integrityCheck|intros result].
  apply sim_bind; [apply sim_warnMissingVersion|intros _].
  uni.
Qed.

Lemma sim_migrate km force withInit only now :
  orNull only = None ->
  sim (Locking.migrate km (mkMigrateOptions None force withInit only) now)
      (Locking.migrate km (mkMigrateOptions (Some v) force withInit only) now).
Proof.
  intros Honly. unfold Locking.migrate. cbn [opt_init].
  destruct withInit; [|now apply sim_migrateOnly].
  apply sim_bind; [apply uniform_init|intros _]. now apply sim_migrateOnly.
Qed.

(** *** The renewing revision *)

Lemma sim_bind_post A B (P : A -> Prop) (m0 m1 : M A) (k0 k1 : A -> M B) :
  sim m0 m1 ->
  (forall w a w', m0 w = (Ok a, w') -> P a) ->
  (forall a, P a -> sim (k0 a) (k1 a)) ->
  sim (bind m0 k0) (bind m1 k1).
Proof.
  intros Hm HP Hk w0 w1 H. unfold bind. specialize (Hm w0 w1 H).
  destruct (m0 w0) as [r0 w0'] eqn:E, (m1 w1) as [r1 w1']. cbn [fst snd] in Hm.
  destruct Hm as [-> H']. destruct r0; [|now split..].
  apply Hk; [|assumption]. eapply HP; eauto.
Qed.

Lemma alike_setDb f w0 w1 : alike w0 w1 -> alike (Renewing.setDb f w0) (Renewing.setDb f w1).
Proof. apply alike_db. Qed.

Lemma uniform_afterEachTask km task ver : uniform (Renewing.afterEachTask km task ver).
Proof. unfold Renewing.afterEachTask, uniform. uni. Qed.
#[local] Hint Resolve uniform_afterEachTask : uniform.

Lemma uniform_errorHandling A err t : uniform (@Renewing.errorHandling A err t).
Proof. unfold Renewing.errorHandling. destruct err; apply uniform_throw. Qed.
#[local] Hint Resolve uniform_errorHandling : uniform.

Lemma uniform_runTask km ver hooks task : uniform (Renewing.runTask km ver hooks task).
Proof. unfold Renewing.runTask, uniform. uni. Qed.

Lemma uniform_hookOp which h : Forall uniform (Renewing.hookOp which h).
Proof.
  destruct h as [c|]; cbn; constructor; [|constructor]. unfold uniform. uni.
Qed.

Lemma uniform_renewing_complete km : uniform (Renewing.complete km).
Proof.
  intros w0 w1 H. unfold Renewing.complete, readFolders.
  destruct (versionsDir (migrationPath km)) as [l|]; cbn; [|now split].
  pose proof (@uniform_each _ (completeVersion km) (map fst l)
                (uniform_completeVersion km) w0 w1 H) as Heach.
  destruct (each _ _ w0) as [r0 w0'], (each _ _ w1) as [r1 w1']. cbn [fst snd] in Heach.
  destruct Heach as [-> H']. destruct r0; (split; [reflexivity|]); cbn [snd];
    [now apply alike_setDb..|assumption].
Qed.

Lemma uniform_runOps km isInit skipCompletion ops :
  Forall uniform ops ->
  forall skipped, uniform (Renewing.runOps km isInit skipCompletion ops skipped).
Proof.
  induction 1 as [|op rest Hop Hrest IH]; intros skipped; cbn [Renewing.runOps].
  - destruct (_ || _); [apply uniform_modifyDb|apply uniform_renewing_complete].
  - intros w0 w1 H. specialize (Hop w0 w1 H).
    destruct (op w0) as [r0 w0'], (op w1) as [r1 w1']. cbn [fst snd] in Hop.
    destruct Hop as [-> H']. destruct r0 as [response|e|].
    + destruct response; [|now apply IH].
      destruct rest; [split; [reflexivity|now apply alike_setDb]|].
      apply IH. now apply alike_setDb, alike_setDb.
    + destruct e as [|[task|]| | | | | |]; try destruct (hasCode "renew" _);
        first [now apply IH | split; [reflexivity|now apply alike_setDb]].
    + now split.
Qed.

Lemma uniform_transactional km ops isInit skipCompletion :
  Forall uniform ops -> uniform (Renewing.transactional km ops isInit skipCompletion).
Proof.
  intros Hops. unfold Renewing.transactional.
  apply sim_bind; [apply uniform_modifyDb|intros _]. now apply uniform_runOps.
Qed.

Lemma renewing_migrateTo_ops km ver hooks only skip w ops w' :
  Renewing.migrateTo km ver hooks only skip w = (Ok ops, w') -> Forall uniform ops.
Proof.
  unfold Renewing.migrateTo. intros H.
  apply bind_inv in H as [(tasks & w1 & _ & H)|[(e & _ & ?)|(_ & ?)]]; try discriminate.
  inversion H; subst. apply Forall_forall. intros op Hin.
  apply in_map_iff in Hin as (t & <- & _). apply uniform_runTask.
Qed.

Lemma uniform_renewing_migrateTo km ver hooks only skip :
  uniform (Renewing.migrateTo km ver hooks only skip).
Proof. unfold Renewing.migrateTo, uniform. uni. Qed.

Lemma collectOps_ops km hooks only versions :
  forall w ops w', Renewing.collectOps km hooks only versions w = (Ok ops, w') ->
                   Forall uniform ops.
Proof.
  induction versions as [|ver r IH]; intros w ops w' H; cbn [Renewing.collectOps] in H.
  - inversion H; subst. constructor.
  - apply bind_inv in H as [(o & w1 & Ho & H)|[(e & _ & ?)|(_ & ?)]]; try discriminate.
    apply bind_inv in H as [(os & w2 & Hos & H)|[(e & _ & ?)|(_ & ?)]]; try discriminate.
    inversion H; subst. apply Forall_app. split.
    + eapply renewing_migrateTo_ops; eauto.
    + eapply IH; eauto.
Qed.

Lemma uniform_collectOps km hooks only versions :
  uniform (Renewing.collectOps km hooks only versions).
Proof.
  induction versions as [|ver r IH]; cbn [Renewing.collectOps]; [apply uniform_ret|].
  apply sim_bind; [apply uniform_renewing_migrateTo|intros o].
  apply sim_bind; [exact IH|intros os]. apply uniform_ret.
Qed.

Lemma uniform_renewing_init km options : uniform (Renewing.init km options).
Proof.
  unfold Renewing.init. cbv zeta.
  apply sim_finally; [|apply uniform_runHook].
  destruct (noScripts options); [apply uniform_ret|].
  eapply sim_bind_post;
    [apply uniform_renewing_migrateTo|intros w ops w'; apply renewing_migrateTo_ops|].
  intros taskOps Hops. apply uniform_transactional.
  repeat (apply Forall_app; split); try apply uniform_hookOp; [|assumption].
  constructor; [|constructor]. unfold uniform. uni.
Qed.

Lemma sim_renewing_migrateOnly km force withInit only :
  orNull only = None ->
  sim (Renewing.migrateOnly km (mkMigrateOptions None force withInit only))
      (Renewing.migrateOnly km (mkMigrateOptions (Some v) force withInit only)).
Proof.
  intros Honly. unfold Renewing.migrateOnly. cbv zeta.
  cbn [opt_version opt_only opt_force]. rewrite Honly.
  replace (if negb (given (Some v)) then None else None) with (@None nat)
    by now destruct (negb (given (Some v))).
  cbn [given negb].
  apply sim_finally; [|apply uniform_runHook].
  apply sim_bind; [apply uniform_integrityCheck|intros result].
  apply sim_bind; [apply sim_warnMissingVersion|intros _].
  destruct (_ =? 0); [apply uniform_ret|].
  eapply sim_bind_post; [apply uniform_collectOps|intros w ops w'; apply collectOps_ops|].
  intros taskOps Hops. apply uniform_transactional.
  repeat (apply Forall_app; split); try apply uniform_hookOp. assumption.
Qed.

Lemma sim_renewing_migrate km force withInit only :
  orNull only = None ->
  sim (Renewing.migrate km (mkMigrateOptions None force withInit only))
      (Renewing.migrate km (mkMigrateOptions (Some v) force withInit only)).
Proof.
  intros Honly. unfold Renewing.migrate. cbn [opt_init].
  destruct withInit; [|now apply sim_renewing_migrateOnly].
  apply sim_bind; [apply uniform_renewing_init|intros _]. now apply sim_renewing_migrateOnly.
Qed.

End Alike.

(** The warning about a version that is not in the result of the check. *)
Definition isMissingVersionWarning (v : string) (e : Event) : bool :=
  match e with
  | EvWarn message => String.eqb message ("Cannot find requested version: " ++ v)
  | _ => false
  end.

Definition otherEvents (v : string) (l : list Event) : list Event :=
  filter (fun e => negb (isMissingVersionWarning v e)) l.

(** X23: the [version] option selects nothing.  Without a task number in
    [only], [migrate] asked for a version settles as [migrate] asked for none,
    in the same database, with the same events but for the warning that the
    version cannot be found. *)
Theorem version_option_selects_nothing km v force withInit only now w :
  orNull only = None ->
  let plain := Locking.migrate km (mkMigrateOptions None force withInit only) now w in
  let versioned := Locking.migrate km (mkMigrateOptions (Some v) force withInit only) now w in
  fst versioned = fst plain
  /\ db (snd versioned) = db (snd plain)
  /\ otherEvents v (events (snd versioned)) = otherEvents v (events (snd plain)).
Proof.
  intros Honly plain versioned.
  assert (negb (isMissingVersionWarning v (EvWarn ("Cannot find requested version: " ++ v)))
          = false) as Hdrop by (cbn; now rewrite String.eqb_refl).
  destruct (@sim_migrate (fun e => negb (isMissingVersionWarning v e)) v Hdrop
              km force withInit only now Honly w w (alike_refl _ w)) as (Hr & Hd & He).
  splits; assumption.
Qed.

Lemma version_option_selects_nothing_witness :
  let plain := Locking.migrate kmA (mkMigrateOptions None false false None) 0 wA in
  let versioned := Locking.migrate kmA (mkMigrateOptions (Some "9.9") false false None) 0 wA in
  fst versioned = fst plain
  /\ db (snd versioned) = db (snd plain)
  /\ otherEvents "9.9" (events (snd versioned)) = otherEvents "9.9" (events (snd plain)).
Proof.
  apply (@version_option_selects_nothing kmA "9.9" false false None 0 wA). reflexivity.
Defined.

(** X24: the same in the renewing revision: without a task number in
    [only], the [version] option changes nothing of a run of [migrate] but the
    warning that the version cannot be found. *)
Theorem renewing_version_option_selects_nothing km v force withInit only w :
  orNull only = None ->
  let plain := Renewing.migrate km (mkMigrateOptions None force withInit only) w in
  let versioned := Renewing.migrate km (mkMigrateOptions (Some v) force withInit only) w in
  fst versioned = fst plain
  /\ db (snd versioned) = db (snd plain)
  /\ otherEvents v (events (snd versioned)) = otherEvents v (events (snd plain)).
Proof.
  intros Honly plain versioned.
  assert (negb (isMissingVersionWarning v (EvWarn ("Cannot find requested version: " ++ v)))
          = false) as Hdrop by (cbn; now rewrite String.eqb_refl).
  destruct (@sim_renewing_migrate (fun e => negb (isMissingVersionWarning v e)) v Hdrop
              km force withInit only Honly w w (alike_refl _ w)) as (Hr & Hd & He).
  splits; assumption.
Qed.

Lemma renewing_version_option_selects_nothing_witness :
  let plain := Renewing.migrate kmA (mkMigrateOptions None false false None) wA in
  let versioned := Renewing.migrate kmA (mkMigrateOptions (Some "9.9") false false None) wA in
  fst versioned = fst plain
  /\ db (snd versioned) = db (snd plain)
  /\ otherEvents "9.9" (events (snd versioned)) = otherEvents "9.9" (events (snd plain)).
Proof.
  apply (@renewing_version_option_selects_nothing kmA "9.9" false false None wA). reflexivity.
Defined.

(* ===================================================================== *)
(** * The lock is released on the exit paths (C5) *)
(* ===================================================================== *)

(** Every row of the lock table carries the stamp [now]. *)
Definition stamped (now : nat) (st : Store) : Prop :=
  exists l, migrations_lock st = Some l /\ Forall (fun r => released_at r = Some now) l.

Lemma unlock_stamps now w w' :
  Locking.unlock now w = (Ok tt, w') -> stamped now (view (db w')).
Proof.
  unfold Locking.unlock, bind, emit, getDb, modifyDb. cbn. intros H.
  destruct (migrations_lock (view (db w))) as [l|] eqn:El; [|discriminate].
  inversion H; subst w'. cbn. rewrite view_write. cbn. rewrite El. cbn.
  eexists. split; [reflexivity|]. apply Forall_forall. intros r Hr.
  apply in_map_iff in Hr as (r0 & <- & _). reflexivity.
Qed.

(** The stamp of an [unlock] that closes the chain inside the transaction is
    durable after the commit and the shutdown hook. *)
Lemma committed_stamp now (m : M unit) h wm w2 w1 :
  (m ;; Locking.unlock now) wm = (Ok tt, w2) ->
  runHook "shutdown" h (mkWorld (commit (db w2)) (events w2)) = (Ok tt, w1) ->
  stamped now (durable (db w1)).
Proof.
  intros Hu Hs.
  apply bind_inv in Hu as [([] & wh & _ & Hu)|[(e & _ & ?)|(_ & ?)]]; try discriminate.
  apply unlock_stamps in Hu.
  assert (noTxn w1) as Htx.
  { eapply (preserves_run (Inv := noTxn)); [apply stable_runHook, noTxn_stable|exact Hs|].
    reflexivity. }
  apply runHook_lockRows in Hs. unfold lockRows, view in Hs. unfold noTxn in Htx.
  rewrite Htx in Hs. cbn in Hs. unfold stamped. rewrite Hs. exact Hu.
Qed.

Lemma migrateOnly_stamps km options now w0 w1 :
  Locking.migrateOnly km options now w0 = (Ok tt, w1) -> stamped now (durable (db w1)).
Proof.
  intros H.
  apply migrateOnly_fulfilled in H as (result & wi & wb & we & w2 & _ & _ & _ & Hu & Hs).
  eapply committed_stamp; eauto.
Qed.

Lemma init_stamps km options now w w1 :
  noScripts options = false ->
  Locking.init km options now w = (Ok tt, w1) -> stamped now (durable (db w1)).
Proof.
  intros Hn H. apply (@init_steps km options now w w1 Hn) in H. cbv zeta in H.
  destruct H as (wc & wl & wh & wm & w2 & _ & _ & _ & _ & Hu & Hs).
  eapply committed_stamp; eauto.
Qed.

(** A run of [init] that does not run the scripts takes no lock. *)
Lemma init_without_scripts km options now w tr :
  noScripts options = true ->
  events (snd (Locking.init km options now w)) = events w ++ tr -> ~ In EvLock tr.
Proof.
  intros Hn Htr Hin. unfold Locking.init in Htr. cbv zeta in Htr. rewrite Hn in Htr.
  unfold finally, ret in Htr.
  destruct (runHook_quiet "shutdown"
              (shutdown (if disableHooks options then noHooks else initHooks km)) w)
    as [(tr' & Htr' & Hq) _].
  destruct (runHook _ _ w) as [[[]|e|] w1]; cbn [snd] in *;
    rewrite Htr' in Htr; apply app_inv_head in Htr; subst tr';
    rewrite Forall_forall in Hq; exact (Hq _ Hin).
Qed.

(** A before hook that rejects with an instance of [MigrationsAreLocked]. *)
Definition kmL : KnexMigrator :=
  mkKnexMigrator "1.1" fsA noHooks
    (mkHooks (Some (mkCode [] RejectsLocked)) None None None None).

(** C5 fails as worded: the lock is taken, the before hook rejects with an
    instance of [MigrationsAreLocked], the handler rethrows it, and the run
    ends without a call of [unlock]. *)
Lemma locked_rejection_skips_unlock :
  let run := Locking.migrate kmL (mkMigrateOptions None false false None) 0 wA in
  fst run = Err MigrationsAreLocked
  /\ events (snd run) = [EvLock; EvHook "before"]
  /\ ~ In EvUnlock (events (snd run)).
Proof.
  vm_compute. repeat split. intros [H|[H|[]]]; discriminate.
Qed.

(** C5, as the code has it.  In a [migrate] or [init] run of the locking
    revision whose before and after hooks do not reject with an instance of
    [MigrationsAreLocked], the run settles and every [EvLock] of its trace (the
    lock was taken: [lock] fulfilled) is followed by an [EvUnlock] ([unlock]
    was called), whatever the outcome: fulfilled, rejected with one of the
    migrator's errors, rejected with the error of a task or of a hook.  When
    the run fulfils after taking the lock, every row of the lock table carries
    the [released_at] stamp of the run, durably. *)
Theorem unlock_on_every_exit_path km now w :
  (forall options tr,
      locksAside (migrateHooks km) ->
      (opt_init options = true -> locksAside (initHooks km)) ->
      events (snd (Locking.migrate km options now w)) = events w ++ tr ->
      fst (Locking.migrate km options now w) <> Pending
      /\ (forall pre post, tr = pre ++ EvLock :: post -> In EvUnlock post)
      /\ (fst (Locking.migrate km options now w) = Ok tt ->
          In EvLock tr
          /\ stamped now (durable (db (snd (Locking.migrate km options now w))))))
  /\ (forall options tr,
      (disableHooks options = false -> locksAside (initHooks km)) ->
      events (snd (Locking.init km options now w)) = events w ++ tr ->
      fst (Locking.init km options now w) <> Pending
      /\ (forall pre post, tr = pre ++ EvLock :: post -> In EvUnlock post)
      /\ (fst (Locking.init km options now w) = Ok tt -> In EvLock tr ->
          stamped now (durable (db (snd (Locking.init km options now w)))))).
Proof.
  split; intros options tr.
  - intros Hm Hi Htr.
    destruct (@balanced_run _ _ w tr (@locking_migrate_balanced km options now Hm Hi) Htr)
      as [Hs Hb].
    splits; [assumption|assumption|]. intros Hok.
    destruct (Locking.migrate km options now w) as [r w'] eqn:E. cbn [fst snd] in *.
    subst r. unfold Locking.migrate in E.
    assert (exists w0, Locking.migrateOnly km options now w0 = (Ok tt, w')
                       /\ exists tr0, events w0 = events w ++ tr0) as (w0 & H0 & tr0 & Htr0).
    { destruct (opt_init options); [|exists w; split; [assumption|exists []; now rewrite app_nil_r]].
      apply bind_inv in E as [([] & w1 & H1 & E)|[(e & _ & ?)|(_ & ?)]]; try discriminate.
      exists w1. split; [assumption|].
      destruct (locking_init_footprint km defaultInit now w) as [(t1 & Ht1 & _) _].
      rewrite H1 in Ht1. eauto. }
    split; [|eapply migrateOnly_stamps; eauto].
    pose proof H0 as Hf. apply migrateOnly_fulfilled in Hf
      as (result & wi & wb & we & w2 & Hic & Hb1 & He & Hu & Hsd).
    (* the lock event of the run *)
    assert (exists t2, events w' = events (afterLock w0) ++ t2) as (t2 & Ht2).
    { destruct (integrityCheck_quiet km (opt_force options) (afterLock w0))
        as [(ta & Hta & _) _]. rewrite Hic in Hta. cbn [snd] in Hta.
      assert (exists tb, events wb = events wi ++ tb) as (tb & Htb).
      { match type of Hb1 with ?m wi = _ =>
          assert (confined quiet foreign m) as Hc end.
        { apply confined_bind; [unfold warnMissingVersion; confine|]. intros _.
          destruct (_ =? 0); [apply confined_ret|apply runHook_quiet]. }
        destruct (Hc wi) as [(t & Ht & _) _]. rewrite Hb1 in Ht. eauto. }
      assert (exists tc, events we = events wb ++ tc) as (tc & Htc).
      { match type of He with ?m wb = _ =>
          assert (confined quiet ordinary m) as Hc end.
        { destruct (_ =? 0); [apply confined_ret|].
          apply confined_each. intros v. apply locking_migrateTo_quiet. }
        destruct (Hc wb) as [(t & Ht & _) _]. rewrite He in Ht. eauto. }
      assert (exists td, events w2 = events we ++ td) as (td & Htd).
      { match type of Hu with ?m we = _ =>
          assert (confined anyEvent foreign m) as Hc end.
        { apply confined_bind; [|intros _; apply unlock_footprint].
          apply loosen_foreign. destruct (_ =? 0); [apply confined_ret|apply runHook_quiet]. }
        destruct (Hc we) as [(t & Ht & _) _]. rewrite Hu in Ht. eauto. }
      destruct (runHook_quiet "shutdown" (shutdown (migrateHooks km))
                  (mkWorld (commit (db w2)) (events w2))) as [(te & Hte & _) _].
      rewrite Hsd in Hte. cbn [snd events] in Hte.
      exists (ta ++ tb ++ tc ++ td ++ te).
      rewrite Hte, Htd, Htc, Htb, Hta, <- !app_assoc. reflexivity. }
    unfold afterLock in Ht2. cbn [events] in Ht2.
    rewrite Ht2, Htr0, <- !app_assoc in Htr. apply app_inv_head in Htr. subst tr.
    apply in_or_app. right. apply in_or_app. left. now left.
  - intros Hh Htr.
    destruct (@balanced_run _ _ w tr (@locking_init_balanced km options now Hh) Htr)
      as [Hs Hb].
    splits; [assumption|assumption|]. intros Hok Hin.
    destruct (noScripts options) eqn:Hn.
    + exfalso. exact (@init_without_scripts km options now w tr Hn Htr Hin).
    + destruct (Locking.init km options now w) as [r w'] eqn:E. cbn [fst snd] in *.
      subst r. eapply init_stamps; eauto.
Qed.

Lemma unlock_on_every_exit_path_witness :
  let fulfilled := Locking.migrate kmA (mkMigrateOptions None false false None) 7 wA in
  let rejected := Locking.migrate kmF (mkMigrateOptions None true false None) 7 wF in
  (fst fulfilled = Ok tt
   /\ In EvLock (events (snd fulfilled))
   /\ (forall pre post, events (snd fulfilled) = pre ++ EvLock :: post -> In EvUnlock post)
   /\ stamped 7 (durable (db (snd fulfilled))))
  /\ (fst rejected
      = Err (MigrationScript "Error occurred while executing the following migration: 4-d")
      /\ In EvLock (events (snd rejected))
      /\ (forall pre post, events (snd rejected) = pre ++ EvLock :: post -> In EvUnlock post)).
Proof.
  intros fulfilled rejected. split.
  - destruct (unlock_on_every_exit_path kmA 7 wA) as [H _].
    destruct (H (mkMigrateOptions None false false None) (events (snd fulfilled))
                locksAside_noHooks ltac:(discriminate) eq_refl) as (_ & Hb & Hs).
    destruct (Hs eq_refl) as [Hl Hst]. splits; [reflexivity|assumption|assumption|assumption].
  - destruct (unlock_on_every_exit_path kmF 7 wF) as [H _].
    destruct (H (mkMigrateOptions None true false None) (events (snd rejected))
                locksAside_noHooks ltac:(discriminate) eq_refl) as (_ & Hb & _).
    splits; [reflexivity|vm_compute; auto|assumption].
Defined.

(* ===================================================================== *)
(** * A recorded task is skipped and the loop goes on (C8) *)
(* ===================================================================== *)

(** A computation that only appends to the trace. *)
Definition growing {A} (m : M A) : Prop :=
  forall w, exists tr, events (snd (m w)) = events w ++ tr.

Lemma growing_confined Q E A (m : M A) : confined Q E m -> growing m.
Proof. intros H w. destruct (H w) as [(tr & Htr & _) _]. eauto. Qed.

Lemma growing_renewing_complete km : growing (Renewing.complete km).
Proof.
  intros w. unfold Renewing.complete, readFolders.
  destruct (versionsDir (migrationPath km)) as [l|]; cbn; [|exists []; now rewrite app_nil_r].
  destruct (growing_confined (confined_each (Q := quiet) (E := ordinary)
                                (completeVersion km) (map fst l)
                                (fun v => completeVersion_quiet km v)) w) as (tr & Htr).
  destruct (each (completeVersion km) (map fst l) w) as [[[]|e|] w1]; cbn in *; eauto.
Qed.

Lemma growing_runOps km isInit skipC ops :
  Forall growing ops ->
  forall skipped, growing (Renewing.runOps km isInit skipC ops skipped).
Proof.
  induction 1 as [|op rest Hop _ IH]; intros skipped w; cbn [Renewing.runOps].
  - destruct (_ || _); [exists []; cbn; now rewrite app_nil_r|apply growing_renewing_complete].
  - destruct (Hop w) as (tr & Htr).
    destruct (op w) as [[response|e|] w1]; cbn [fst snd] in *.
    + destruct response.
      * destruct rest as [|op' rest'].
        -- exists tr. exact Htr.
        -- destruct (IH [] (Renewing.setDb begin (Renewing.setDb commit w1))) as (t2 & Ht2).
           exists (tr ++ t2). rewrite Ht2. cbn. now rewrite Htr, app_assoc.
      * destruct (IH skipped w1) as (t2 & Ht2). exists (tr ++ t2).
        now rewrite Ht2, Htr, app_assoc.
    + destruct e as [|[task|]| | | | | |code q];
        try (destruct (IH (skipped ++ [task]) w1) as (t2 & Ht2); exists (tr ++ t2);
             now rewrite Ht2, Htr, app_assoc);
        try (match goal with |- context [hasCode ?c ?x] => destruct (hasCode c x) end);
        exists tr; exact Htr.
    + exists tr. exact Htr.
Qed.

Lemma runOps_head km isInit skipC op rest skipped w r w1 :
  op w = (r, w1) ->
  Forall growing rest ->
  exists tr, events (snd (Renewing.runOps km isInit skipC (op :: rest) skipped w))
             = events w1 ++ tr.
Proof.
  intros Hop Hrest. cbn [Renewing.runOps]. rewrite Hop.
  assert (forall s x, exists tr, events (snd (Renewing.runOps km isInit skipC rest s x))
                                 = events x ++ tr) as Hgo.
  { intros s x. now apply growing_runOps. }
  assert (exists tr, events w1 = events w1 ++ tr) as Hstop by (exists []; now rewrite app_nil_r).
  destruct r as [response|e|]; [| |exact Hstop].
  - destruct response; [|apply Hgo]. destruct rest; [exact Hstop|].
    destruct (Hgo [] (Renewing.setDb begin (Renewing.setDb commit w1))) as (tr & Htr).
    exists tr. exact Htr.
  - destruct e as [|[task|]| | | | | |code q]; try apply Hgo;
      try (match goal with |- context [hasCode ?c ?x] => destruct (hasCode c x) end);
      exact Hstop.
Qed.

Lemma growing_ret A (a : A) : growing (ret a).
Proof. intros w. exists []. cbn. now rewrite app_nil_r. Qed.

Lemma growing_throw A e : growing (@throw A e).
Proof. intros w. exists []. cbn. now rewrite app_nil_r. Qed.

Lemma growing_bind A B (m : M A) (k : A -> M B) :
  growing m -> (forall a, growing (k a)) -> growing (bind m k).
Proof.
  intros Hm Hk w. unfold bind. destruct (Hm w) as (tr & Htr).
  destruct (m w) as [[a|e|] w1]; cbn [snd] in *; [|eauto..].
  destruct (Hk a w1) as (t2 & Ht2). exists (tr ++ t2). now rewrite Ht2, Htr, app_assoc.
Qed.

Lemma growing_catch A (m : M A) (h : Error -> M A) :
  growing m -> (forall e, growing (h e)) -> growing (catch m h).
Proof.
  intros Hm Hh w. unfold catch. destruct (Hm w) as (tr & Htr).
  destruct (m w) as [[a|e|] w1]; cbn [snd] in *; [eauto| |eauto].
  destruct (Hh e w1) as (t2 & Ht2). exists (tr ++ t2). now rewrite Ht2, Htr, app_assoc.
Qed.

Lemma growing_runHook which h : growing (runHook which h).
Proof. exact (growing_confined (runHook_quiet which h)). Qed.

Lemma growing_runCode c : growing (runCode c).
Proof. exact (growing_confined (runCode_quiet c)). Qed.

Lemma growing_errorHandling A err t : growing (@Renewing.errorHandling A err t).
Proof. unfold Renewing.errorHandling. destruct err; apply growing_throw. Qed.

Lemma growing_runTask km ver hooks task : growing (Renewing.runTask km ver hooks task).
Proof.
  unfold Renewing.runTask. destruct task as [t|]; [|apply growing_throw].
  apply growing_catch; [|intros; apply growing_errorHandling].
  apply growing_bind; [exact (growing_confined (beforeEachTask_quiet _ _))|]. intros _.
  apply growing_bind; [apply growing_runHook|]. intros _.
  apply growing_bind; [intros w; eexists; reflexivity|]. intros _.
  apply growing_bind.
  { apply growing_catch; [apply growing_runCode|intros; apply growing_errorHandling]. }
  intros resp. apply growing_bind.
  { apply growing_catch; [|intros; apply growing_errorHandling].
    unfold Renewing.afterEachTask.
    apply growing_bind.
    - intros w. exists []. unfold selectMigrations.
      destruct (migrations (view (db w))); cbn; now rewrite app_nil_r.
    - intros l. destruct (recorded _ ver l); [apply growing_throw|].
      exact (growing_confined (insertMigration_quiet _)). }
  intros _. apply growing_bind; [apply growing_runHook|]. intros _. apply growing_ret.
Qed.

(** The first steps of the round of a task that is not recorded, when the
    ledger can be read and the beforeEach hook fulfils: the body is called,
    and no other body before it. *)
Lemma round_reaches_the_body which_ver task h w (A : Type) (k : M A) :
  recorded task which_ver (ledgerOf w) = false ->
  migrations (view (db w)) = inr (ledgerOf w) ->
  hookFulfils h = true ->
  exists pre w2,
    (beforeEachTask task which_ver ;; runHook "beforeEach" h ;;
     emit (EvExecute task which_ver) ;; k) w = k w2
    /\ events w2 = events w ++ pre ++ [EvExecute task which_ver]
    /\ executed pre = [].
Proof.
  intros Hrec Hm Hh.
  assert (beforeEachTask task which_ver w = (Ok tt, w)) as Hb.
  { unfold beforeEachTask, bind, selectMigrations. rewrite Hm, Hrec. reflexivity. }
  destruct (runHook_ok "beforeEach" h w Hh) as (w1 & E1).
  destruct (runHook_quiet "beforeEach" h w) as [(pre & Hpre & _) _].
  rewrite E1 in Hpre. cbn [snd] in Hpre.
  pose proof (runHook_outcome _ _ _ E1) as ([_ HX] & _).
  exists pre, (mkWorld (db w1) (events w1 ++ [EvExecute task which_ver])).
  splits.
  - rewrite (bind_ok _ Hb), (bind_ok _ E1). reflexivity.
  - cbn. now rewrite Hpre, app_assoc.
  - rewrite Hpre, executed_app in HX.
    rewrite <- (app_nil_r (executed (events w))) in HX at 2.
    now apply app_inv_head in HX.
Qed.

Lemma recorded_readable task ver w :
  recorded task ver (ledgerOf w) = true -> migrations (view (db w)) = inr (ledgerOf w).
Proof.
  unfold ledgerOf, ledger. destruct (migrations (view (db w))); [discriminate|reflexivity].
Qed.

(** C8: a task whose pre-check finds a ledger row for its name and version
    is skipped in both revisions.  Its round leaves the world as it is (no
    statement, no event, the body is not called): in the locking revision it
    fulfils with the name added to [skippedTasks], in the renewing revision
    the operation rejects with [MigrationExistsError], which the queue absorbs.
    Alone in the loop, the task makes the loop fulfil.  Followed by a task
    that is not recorded (the beforeEach hook fulfilling), the loop goes on:
    the body of that task is called, and no other body before it.  And no
    [migrate] or [init] run of either revision rejects with
    [MigrationExistsError]. *)
Theorem already_recorded_is_absorbed km ver hooks t w :
  recorded (task_name t) ver (ledgerOf w) = true ->
  (* the round of the task *)
  (forall skipped,
      Locking.executeTask km ver hooks skipped (Some t) w
      = (Ok (skipped ++ [task_name t]), w))
  /\ Renewing.runTask km ver hooks (Some t) w
     = (Err (MigrationExistsError (Some (task_name t))), w)
  (* alone in the loop *)
  /\ (forall skipped,
      Locking.executeTasks km ver hooks [Some t] skipped w
      = (Ok (skipped ++ [task_name t]), w))
  /\ (forall isInit skipC skipped,
      Renewing.runOps km isInit skipC [Renewing.runTask km ver hooks (Some t)] skipped w
      = (Ok tt, Renewing.setDb commit w))
  (* followed by a task that is due *)
  /\ (forall u rest skipped,
      recorded (task_name u) ver (ledgerOf w) = false ->
      hookFulfils (beforeEach hooks) = true ->
      exists pre post,
        events (snd (Locking.executeTasks km ver hooks (Some t :: Some u :: rest) skipped w))
        = events w ++ pre ++ EvExecute (task_name u) ver :: post
        /\ executed pre = [])
  /\ (forall isInit skipC u rest skipped,
      recorded (task_name u) ver (ledgerOf w) = false ->
      hookFulfils (beforeEach hooks) = true ->
      exists pre post,
        events (snd (Renewing.runOps km isInit skipC
                       (map (Renewing.runTask km ver hooks) (Some t :: Some u :: rest))
                       skipped w))
        = events w ++ pre ++ EvExecute (task_name u) ver :: post
        /\ executed pre = [])
  (* the callers *)
  /\ (forall km' now w' task,
      (forall options, fst (Locking.migrate km' options now w') <> Err (MigrationExistsError task))
      /\ (forall options, fst (Locking.init km' options now w') <> Err (MigrationExistsError task))
      /\ (forall options, fst (Renewing.migrate km' options w') <> Err (MigrationExistsError task))
      /\ (forall options, fst (Renewing.init km' options w') <> Err (MigrationExistsError task))).
Proof.
  intros Hrec. pose proof (beforeEachTask_recorded _ _ _ Hrec) as Hpre.
  pose proof (recorded_readable _ _ _ Hrec) as Hread.
  assert (forall skipped, Locking.executeTask km ver hooks skipped (Some t) w
                          = (Ok (skipped ++ [task_name t]), w)) as Hskip.
  { intros skipped. unfold Locking.executeTask, catch. now rewrite (bind_err _ Hpre). }
  assert (Renewing.runTask km ver hooks (Some t) w
          = (Err (MigrationExistsError (Some (task_name t))), w)) as Hop.
  { unfold Renewing.runTask, catch. now rewrite (bind_err _ Hpre). }
  splits.
  - exact Hskip.
  - exact Hop.
  - intros skipped. cbn [Locking.executeTasks]. now rewrite (bind_ok _ (Hskip skipped)).
  - intros isInit skipC skipped. cbn [Renewing.runOps]. rewrite Hop.
    rewrite length_app. cbn [length]. rewrite Nat.add_1_r. cbn [Nat.eqb negb].
    rewrite orb_true_r. reflexivity.
  - intros u rest skipped Hu Hh. cbn [Locking.executeTasks].
    rewrite (bind_ok _ (Hskip skipped)).
    unfold Locking.executeTask at 1.
    match goal with
    | |- context [catch (beforeEachTask _ _ ;; runHook _ _ ;; emit _ ;; ?k) ?h] =>
        destruct (@round_reaches_the_body ver (task_name u) (beforeEach hooks) w _ k
                    Hu Hread Hh) as (pre & w2 & Hk & Hev & Hx);
        assert (growing k) as Hgk;
        [|destruct (Hgk w2) as (t3 & Ht3); set (body := k) in *;
          set (handler := h) in *]
    end.
    { apply growing_bind; [apply growing_runCode|]. intros _.
      apply growing_bind; [exact (growing_confined (insertMigration_quiet _))|]. intros _.
      apply growing_bind; [apply growing_runHook|]. intros _. apply growing_ret. }
    assert (exists r w3, catch (beforeEachTask (task_name u) ver ;;
                                runHook "beforeEach" (beforeEach hooks) ;;
                                emit (EvExecute (task_name u) ver) ;; body) handler w
                         = (r, w3) /\ events w3 = events w2 ++ t3) as (r & w3 & Hc & Hw3).
    { unfold catch. rewrite Hk. destruct (body w2) as [[a|e|] w3]; cbn [snd] in Ht3.
      - eauto.
      - subst handler. cbv beta. destruct e; unfold ret, throw; eauto.
      - eauto. }
    unfold bind at 1. rewrite Hc.
    assert (exists t4, events (snd (match r with
                                     | Ok a => Locking.executeTasks km ver hooks rest a w3
                                     | Err e => (Err e, w3)
                                     | Pending => (Pending, w3)
                                     end)) = events w3 ++ t4) as (t4 & Ht4).
    { destruct r as [s|e|]; [|exists []; cbn; now rewrite app_nil_r..].
      exact (growing_confined (locking_executeTasks_quiet km ver hooks rest s) w3). }
    exists pre, (t3 ++ t4). split; [|assumption].
    rewrite Ht4, Hw3, Hev, <- !app_assoc. reflexivity.
  - intros isInit skipC u rest skipped Hu Hh. cbn [map].
    set (tailOps := Renewing.runTask km ver hooks (Some u)
                    :: map (Renewing.runTask km ver hooks) rest).
    cbn [Renewing.runOps]. rewrite Hop. cbv beta iota. subst tailOps.
    assert (exists pre post r w3,
              Renewing.runTask km ver hooks (Some u) w = (r, w3)
              /\ events w3 = events w ++ pre ++ EvExecute (task_name u) ver :: post
              /\ executed pre = []) as (pre & post & r & w3 & Hu' & Hev & Hx).
    { unfold Renewing.runTask.
      match goal with
      | |- context [catch (beforeEachTask _ _ ;; runHook _ _ ;; emit _ ;; ?k) ?h] =>
          destruct (@round_reaches_the_body ver (task_name u) (beforeEach hooks) w _ k
                      Hu Hread Hh) as (pre & w2 & Hk & Hev & Hx);
          assert (growing k) as Hgk;
          [|destruct (Hgk w2) as (t3 & Ht3); set (body := k) in *]
      end.
      { apply growing_bind.
        { apply growing_catch; [apply growing_runCode|intros; apply growing_errorHandling]. }
        intros resp. apply growing_bind.
        { apply growing_catch; [|intros; apply growing_errorHandling].
          unfold Renewing.afterEachTask. apply growing_bind.
          - intros x. exists []. unfold selectMigrations.
            destruct (migrations (view (db x))); cbn; now rewrite app_nil_r.
          - intros l. destruct (recorded _ ver l); [apply growing_throw|].
            exact (growing_confined (insertMigration_quiet _)). }
        intros _. apply growing_bind; [apply growing_runHook|]. intros _. apply growing_ret. }
      exists pre, t3. unfold catch. rewrite Hk.
      assert (events (snd (body w2)) = events w ++ pre ++ EvExecute (task_name u) ver :: t3)
        as Hall by (rewrite Ht3, Hev, <- !app_assoc; reflexivity).
      destruct (body w2) as [[a|e|] w3]; cbn [snd] in Hall; [eauto 6| |eauto 6].
      unfold Renewing.errorHandling. destruct e; unfold throw; eauto 6. }
    destruct (@runOps_head km isInit skipC _ (map (Renewing.runTask km ver hooks) rest)
                (skipped ++ [task_name t]) w r w3 Hu') as (t4 & Ht4).
    { apply Forall_forall. intros op Hin. apply in_map_iff in Hin as (x & <- & _).
      apply growing_runTask. }
    exists pre, (post ++ t4). split; [|assumption].
    rewrite Hev, <- !app_assoc in Ht4. exact Ht4.
  - intros km' now w' task. splits; intros options H.
    + destruct (locking_migrate_footprint km' options now w') as [_ Hr].
      rewrite H in Hr. exact Hr.
    + destruct (locking_init_footprint km' options now w') as [_ Hr].
      rewrite H in Hr. exact Hr.
    + exact (@renewing_migrate_rejects km' options w' _ H task eq_refl).
    + exact (@renewing_init_rejects km' options w' _ H task eq_refl).
Qed.

Lemma already_recorded_is_absorbed_witness :
  let first := plainTask "1-a" in
  let second := plainTask "2-b" in
  Locking.executeTask kmA "1.0" noHooks [] (Some first) wE = (Ok ["1-a"], wE)
  /\ Renewing.runTask kmA "1.0" noHooks (Some first) wE
     = (Err (MigrationExistsError (Some "1-a")), wE)
  /\ (exists pre post,
        events (snd (Locking.executeTasks kmA "1.0" noHooks [Some first; Some second] [] wE))
        = events wE ++ pre ++ EvExecute "2-b" "1.0" :: post
        /\ executed pre = [])
  /\ (exists pre post,
        events (snd (Renewing.runOps kmA false false
                       (map (Renewing.runTask kmA "1.0" noHooks) [Some first; Some second])
                       [] wE))
        = events wE ++ pre ++ EvExecute "2-b" "1.0" :: post
        /\ executed pre = [])
  /\ executed (events (snd (Locking.executeTasks kmA "1.0" noHooks
                              [Some first; Some second] [] wE)))
     = [("2-b", "1.0")].
Proof.
  intros first second.
  destruct (@already_recorded_is_absorbed kmA "1.0" noHooks first wE eq_refl)
    as (H1 & H2 & _ & _ & H5 & H6 & _).
  splits.
  - exact (H1 []).
  - exact H2.
  - exact (H5 second [] [] eq_refl eq_refl).
  - exact (H6 false false second [] [] eq_refl eq_refl).
  - vm_compute. reflexivity.
Defined.

(* ===================================================================== *)
(** * What a rollback reaches after an implicit commit (C1) *)
(* ===================================================================== *)

(** The bodies a round of [task] may call: its own. *)
Definition ownBody (task ver : string) (ev : Event) : Prop :=
  match ev with
  | EvExecute n v => n = task /\ v = ver
  | _ => True
  end.

Lemma runCode_footprint Q c : confined Q foreign (runCode c).
Proof.
  unfold runCode. apply confined_bind.
  - apply confined_each. intros []; cbn; apply confined_modifyDb.
  - intros _. destruct (settles c); [apply confined_ret | now apply confined_throw..].
Qed.

Lemma runHook_footprint (Q : Event -> Prop) which h :
  Q (EvHook which) -> confined Q foreign (runHook which h).
Proof.
  intros HQ. unfold runHook. destruct h as [c|]; [|apply confined_ret].
  apply confined_bind; [now apply confined_emit|]. intros _.
  apply confined_bind; [apply runCode_footprint|]. intros _. apply confined_ret.
Qed.

Lemma errorHandling_footprint Q A err t :
  confined Q anyError (@Renewing.errorHandling A err t).
Proof. unfold Renewing.errorHandling. destruct err; now apply confined_throw. Qed.

Lemma runTask_footprint km ver hooks t :
  confined (ownBody (task_name t) ver) anyError (Renewing.runTask km ver hooks (Some t)).
Proof.
  unfold Renewing.runTask.
  apply confined_catch with (E1 := anyError); [|intros; apply errorHandling_footprint].
  apply confined_bind.
  { unfold beforeEachTask. confine; now apply confined_throw. }
  intros _.
  apply confined_bind; [apply any_error with (E := foreign), runHook_footprint; exact I|].
  intros _.
  apply confined_bind; [apply confined_emit; now split|]. intros _.
  apply confined_bind.
  { apply confined_catch with (E1 := foreign);
      [apply runCode_footprint|intros; apply errorHandling_footprint]. }
  intros resp. apply confined_bind.
  { apply confined_catch with (E1 := anyError); [|intros; apply errorHandling_footprint].
    unfold Renewing.afterEachTask, insertMigration. confine; now apply confined_throw. }
  intros _.
  apply confined_bind; [apply any_error with (E := foreign), runHook_footprint; exact I|].
  intros _. apply confined_ret.
Qed.

(** What [runTask_footprint] says of the bodies called. *)
Lemma runTask_bodies km ver hooks t w r w1 :
  Renewing.runTask km ver hooks (Some t) w = (r, w1) ->
  exists tr, events w1 = events w ++ tr
             /\ forall n v, In (n, v) (executed tr) -> n = task_name t /\ v = ver.
Proof.
  intros H. destruct (runTask_footprint km ver hooks t w) as [(tr & Htr & Hall) _].
  rewrite H in Htr. cbn [snd] in Htr. exists tr. split; [assumption|].
  clear Htr. induction Hall as [|ev tr Hev _ IH]; [intros n v []|].
  intros n v Hin. destruct ev; cbn in Hin; auto.
  destruct Hin as [E|Hin]; [inversion E; subst; exact Hev|auto].
Qed.

Lemma runTask_rejection km ver hooks t w e w1 :
  Renewing.runTask km ver hooks (Some t) w = (Err e, w1) ->
  e <> MigrationExistsError None.
Proof.
  unfold Renewing.runTask. intros H.
  apply catch_inv in H as [(e0 & w0 & _ & H)|[H Hne]]; [|now elim (Hne e)].
  unfold Renewing.errorHandling in H. destruct e0; inversion H; subst; try discriminate;
    unfold scriptError; repeat match goal with |- context [if ?b then _ else _] => destruct b
                                          | |- context [match ?l with [] => _ | _ :: _ => _ end] =>
                                              destruct l end; discriminate.
Qed.

Lemma completeVersion_mute Q km ver : confined Q ordinary (completeVersion km ver).
Proof.
  unfold completeVersion. apply confined_bind; [confine|]. intros ts.
  apply confined_each. intros f. unfold completeFile.
  apply confined_bind; [confine|]. intros l.
  destruct (filter _ l); [|apply confined_ret]. unfold insertMigration. confine.
Qed.

(** The init completion logs nothing. *)
Lemma renewing_complete_mute km w : events (snd (Renewing.complete km w)) = events w.
Proof.
  unfold Renewing.complete, readFolders.
  destruct (versionsDir (migrationPath km)) as [l|]; cbn; [|reflexivity].
  destruct (confined_each (Q := fun _ => False) (E := ordinary) (completeVersion km)
              (map fst l) (fun v => completeVersion_mute _ km v) w) as [(tr & Htr & Hall) _].
  assert (tr = []) as -> by (destruct Hall as [|ev tr []]; reflexivity).
  rewrite app_nil_r in Htr.
  destruct (each (completeVersion km) (map fst l) w) as [[[]|e|] w1]; exact Htr.
Qed.

(** The ops of the task files [ts] of version [ver]. *)
Definition taskOps (km : KnexMigrator) (ver : string) (hooks : Hooks) (ts : list Task)
  : list Renewing.Op :=
  map (fun t => Renewing.runTask km ver hooks (Some t)) ts.

(** Where a rejected run over task files that never answer with
    [implicitCommits] has stopped: at the round of one of them, the tasks
    behind it untouched, or, for init, in the completion that follows the last
    task. *)
Lemma runOps_stops km ver hooks isInit skipC ts :
  (forall t, In t ts -> settles (execute t) <> Resolves true) ->
  forall skipped w e w',
    Renewing.runOps km isInit skipC (taskOps km ver hooks ts) skipped w = (Err e, w') ->
    exists tr,
      events w' = events w ++ tr
      /\ ((exists done failing rest w0 w1,
             ts = done ++ failing :: rest
             /\ Renewing.runTask km ver hooks (Some failing) w0 = (Err e, w1)
             /\ forall n v, In (n, v) (executed tr) ->
                            v = ver /\ In n (map task_name (done ++ [failing])))
          \/ (isInit = true /\ skipC = false
              /\ (exists w0, fst (Renewing.complete km w0) = Err e)
              /\ forall n v, In (n, v) (executed tr) ->
                             v = ver /\ In n (map task_name ts))).
Proof.
  induction ts as [|t ts IH]; intros Hplain skipped w e w' H; cbn [taskOps map Renewing.runOps] in H.
  - destruct (negb isInit || negb (length skipped =? 0) || skipC) eqn:Ec; [discriminate|].
    apply orb_false_elim in Ec as [Ec Hs]. apply orb_false_elim in Ec as [Hi _].
    apply negb_false_iff in Hi.
    pose proof (renewing_complete_mute km w) as Hev. rewrite H in Hev. cbn [snd] in Hev.
    exists []. split; [now rewrite app_nil_r|]. right. splits; auto.
    + exists w. now rewrite H.
    + intros n v [].
  - fold (taskOps km ver hooks ts) in H.
    destruct (Renewing.runTask km ver hooks (Some t) w) as [r w1] eqn:Et.
    destruct (runTask_bodies _ _ _ _ _ Et) as (trt & Htrt & Hown).
    assert (forall skipped',
              Renewing.runOps km isInit skipC (taskOps km ver hooks ts) skipped' w1
              = (Err e, w') ->
              exists tr,
                events w' = events w ++ tr
                /\ ((exists done failing rest w0 w2,
                       t :: ts = done ++ failing :: rest
                       /\ Renewing.runTask km ver hooks (Some failing) w0 = (Err e, w2)
                       /\ forall n v, In (n, v) (executed tr) ->
                                      v = ver /\ In n (map task_name (done ++ [failing])))
                    \/ (isInit = true /\ skipC = false
                        /\ (exists w0, fst (Renewing.complete km w0) = Err e)
                        /\ forall n v, In (n, v) (executed tr) ->
                                       v = ver /\ In n (map task_name (t :: ts))))) as Hgo.
    { intros skipped' H'.
      destruct (IH (fun x Hx => Hplain x (or_intror Hx)) skipped' w1 e w' H')
        as (tr & Htr & Hcase).
      exists (trt ++ tr). split; [now rewrite Htr, Htrt, app_assoc|].
      assert (forall (names : list string) n v,
                (forall n v, In (n, v) (executed tr) -> v = ver /\ In n names) ->
                In (n, v) (executed (trt ++ tr)) ->
                v = ver /\ (n = task_name t \/ In n names)) as Hboth.
      { intros names n v Hn Hin. rewrite executed_app in Hin.
        apply in_app_or in Hin as [Hin|Hin].
        - destruct (Hown n v Hin) as [-> ->]. auto.
        - destruct (Hn n v Hin). auto. }
      destruct Hcase as [(done & failing & rest & w0 & w2 & -> & Hf & Hin)|(Hi & Hs & Hc & Hin)].
      - left. exists (t :: done), failing, rest, w0, w2. splits; auto.
        intros n v Hnv. destruct (Hboth _ n v Hin Hnv) as [Hv [Hn|Hn]];
          (split; [assumption|]); cbn; auto.
      - right. splits; auto.
        intros n v Hnv. destruct (Hboth _ n v Hin Hnv) as [Hv [Hn|Hn]];
          (split; [assumption|]); cbn; auto. }
    destruct r as [response|e1|]; [| |discriminate].
    + destruct response; [|exact (Hgo _ H)].
      apply runTask_fulfilled in Et as [_ Hs]. now elim (Hplain t (or_introl eq_refl)).
    + assert (e1 <> MigrationExistsError None) as Hnone
        by (eapply runTask_rejection; eauto).
      assert (hasCode "renew" e1 = false ->
              (@Err unit e1, Renewing.setDb rollback w1) = (Err e, w') ->
              exists tr,
                events w' = events w ++ tr
                /\ ((exists done failing rest w0 w2,
                       t :: ts = done ++ failing :: rest
                       /\ Renewing.runTask km ver hooks (Some failing) w0 = (Err e, w2)
                       /\ forall n v, In (n, v) (executed tr) ->
                                      v = ver /\ In n (map task_name (done ++ [failing])))
                    \/ (isInit = true /\ skipC = false
                        /\ (exists w0, fst (Renewing.complete km w0) = Err e)
                        /\ forall n v, In (n, v) (executed tr) ->
                                       v = ver /\ In n (map task_name (t :: ts))))) as Hstop.
      { intros _ E. inversion E; subst e w'. exists trt. split; [exact Htrt|].
        left. exists [], t, ts, w, w1. splits; auto.
        intros n v Hnv. destruct (Hown n v Hnv) as [-> ->]. split; [reflexivity|now left]. }
      destruct e1 as [|[task|]| | | | | |code q]; try (exact (Hgo _ H)); try (now elim Hnone);
        match type of H with
        | context [hasCode ?c ?x] => destruct (hasCode c x) eqn:Ec
        end; try discriminate; now apply Hstop.
Qed.

(** C1, as the code has it.  When a task fulfils with [implicitCommits],
    [transactional] commits and reopens the transaction.  If the run over the
    task files of the version then rejects, where neither the later tasks nor
    the beforeEach and afterEach hooks issue DDL and no later task answers
    with [implicitCommits], the rollback leaves as durable exactly the
    database as the implicit-commit task left it: every ledger row that was
    visible before that task, those of the earlier tasks of the run included,
    the task's own row, and nothing of the later tasks.  The run has stopped
    at the round of one later task, and no body of a task behind that one has
    been called; or, for init, all later tasks have been gone through and the
    completion that follows them has rejected. *)
Theorem implicit_commit_bounds_rollback
  km ver hooks isInit skipC ic tail skipped w w_ic e w' :
  Renewing.runTask km ver hooks (Some ic) w = (Ok true, w_ic) ->
  forallb transactionalTask tail = true ->
  hookFree (beforeEach hooks) = true ->
  hookFree (afterEach hooks) = true ->
  Renewing.runOps km isInit skipC (taskOps km ver hooks (ic :: tail)) skipped w
  = (Err e, w') ->
  durable (db w') = view (db w_ic)
  /\ txn (db w') = None
  /\ ledger (durable (db w'))
     = ledgerOf w ++ [mkRow (task_name ic) ver (configVersion km)]
  /\ exists tr,
       events w' = events w_ic ++ tr
       /\ ((exists done failing rest w0 w1,
              tail = done ++ failing :: rest
              /\ Renewing.runTask km ver hooks (Some failing) w0 = (Err e, w1)
              /\ forall n v, In (n, v) (executed tr) ->
                             v = ver /\ In n (map task_name (done ++ [failing])))
           \/ (isInit = true /\ skipC = false
               /\ (exists w0, fst (Renewing.complete km w0) = Err e)
               /\ forall n v, In (n, v) (executed tr) ->
                              v = ver /\ In n (map task_name tail))).
Proof.
  intros Hic Hplain Hb Ha H.
  cbn [taskOps map Renewing.runOps] in H. rewrite Hic in H.
  fold (taskOps km ver hooks tail) in H.
  destruct tail as [|t0 tail]; [discriminate|].
  set (later := t0 :: tail) in *.
  assert (forall t, In t later -> transactionalTask t = true) as Hlater
    by (now apply forallb_forall).
  assert (forall t, In t later -> settles (execute t) <> Resolves true) as Hresp.
  { intros t Ht Hs. specialize (Hlater t Ht). unfold transactionalTask in Hlater.
    rewrite Hs in Hlater. now rewrite andb_false_r in Hlater. }
  assert (durable (db w') = view (db w_ic) /\ txn (db w') = None) as [Hd Ht].
  { eapply runOps_rolled_back with (D := view (db w_ic)); [| |exact H].
    - apply Forall_forall. intros op Hop. apply in_map_iff in Hop as (t & <- & Hin).
      specialize (Hlater t Hin). unfold transactionalTask in Hlater.
      apply andb_prop in Hlater as [Hfree _].
      split; [now apply inTxn_runTask|].
      intros w0 Hw0.
      destruct (Renewing.runTask km ver hooks (Some t) w0) as [r0 w0'] eqn:E. cbn in Hw0.
      subst r0. apply runTask_fulfilled in E as [_ Hs]. now elim (Hresp t Hin).
    - split; [reflexivity|discriminate]. }
  splits; auto.
  - rewrite Hd. apply runTask_fulfilled in Hic as [Hl _]. exact Hl.
  - exact (@runOps_stops km ver hooks isInit skipC later Hresp [] _ e w' H).
Qed.

(** C1 fails as worded: task 1-a ran strictly before the implicit-commit
    task 2-b, the run rejects at 4-d, and the row and the data of 1-a are
    durable afterwards, as are those of 2-b; 3-c and 4-d leave nothing, and
    5-e is not run. *)
Lemma earlier_tasks_are_not_rolled_back :
  let run := Renewing.migrate kmF (mkMigrateOptions None true false None) wF in
  fst run = Err (MigrationScript "Error occurred while executing the following migration: 4-d")
  /\ map name (ledger (durable (db (snd run)))) = ["1-init"; "1-a"; "2-b"]
  /\ rows (durable (db (snd run))) = [("users", "b")]
  /\ tables (durable (db (snd run))) = ["agents"]
  /\ executed (events (snd run))
     = [("1-a", "1.1"); ("2-b", "1.1"); ("3-c", "1.1"); ("4-d", "1.1")].
Proof. vm_compute. repeat split. Qed.

Lemma implicit_commit_bounds_rollback_witness :
  let ic := mkTask "2-b" (mkCode [CreateTable "agents"] (Resolves true)) in
  let third := mkTask "3-c" (mkCode [Insert "users" "c"] (Resolves false)) in
  let fourth := mkTask "4-d" (mkCode [Insert "users" "d"] (Rejects "E" [])) in
  let tail := [third; fourth; plainTask "5-e"] in
  let w := mkWorld (begin (db wF)) [] in
  let w_ic := snd (Renewing.runTask kmF "1.1" noHooks (Some ic) w) in
  let w' := snd (Renewing.runOps kmF false false (taskOps kmF "1.1" noHooks (ic :: tail)) [] w) in
  durable (db w') = view (db w_ic)
  /\ txn (db w') = None
  /\ ledger (durable (db w')) = [mkRow "1-init" "init" "1.0"; mkRow "2-b" "1.1" "1.0"]
  /\ tables (durable (db w')) = ["agents"]
  /\ rows (durable (db w')) = []
  /\ executed (events w') = [("2-b", "1.1"); ("3-c", "1.1"); ("4-d", "1.1")]
  /\ exists tr,
       events w' = events w_ic ++ tr
       /\ ((exists done failing rest w0 w1,
              tail = done ++ failing :: rest
              /\ Renewing.runTask kmF "1.1" noHooks (Some failing) w0
                 = (Err (MigrationScript
                           "Error occurred while executing the following migration: 4-d"), w1)
              /\ forall n v, In (n, v) (executed tr) ->
                             v = "1.1" /\ In n (map task_name (done ++ [failing])))
           \/ (false = true /\ false = false
               /\ (exists w0, fst (Renewing.complete kmF w0)
                              = Err (MigrationScript
                                       "Error occurred while executing the following migration: 4-d"))
               /\ forall n v, In (n, v) (executed tr) ->
                              v = "1.1" /\ In n (map task_name tail))).
Proof.
  intros ic third fourth tail w w_ic w'.
  destruct (@implicit_commit_bounds_rollback kmF "1.1" noHooks false false ic tail [] w w_ic
              (MigrationScript "Error occurred while executing the following migration: 4-d")
              w' eq_refl eq_refl eq_refl eq_refl eq_refl)
    as (Hd & Ht & Hl & Hev).
  splits; [exact Hd|exact Ht|exact Hl|vm_compute; reflexivity..|exact Hev].
Defined.
